(** * A shallow embedding of the expression compiler

    The four stages of the C sources are embedded in the order of the
    pipeline: [common] (errors), [lexer] (tokens and the tokenizer),
    [parser] (the precedence-climbing parser and the AST), [semantic]
    (symbol tables, scopes and type inference) and [codegen] (the stack
    machine code generator).

    Conventions of the embedding.
    - A C string is a [string]; the byte read at index [i] is [char_at s i],
      which is the terminating NUL at [i = length s].  One path of
      [read_string] and one of [read_char] step over the terminator (a
      backslash as the last character of the source) and read behind the
      block of the source, which C leaves undefined; [char_at] reads NUL
      there.  What is stated of the token of a string literal is stated for
      the bodies on which the lexer stays inside the text
      ([body_in_bounds]).
    - The [int] members that a caller or a text can drive to any value are
      32-bit numbers with their wrap-around written out ([int_wrap]): the
      value of an integer literal and the stack offset of the generator.
      Signed overflow is undefined in C; the wrap-around is what the
      compiled program does.  The counters that count characters, lines,
      scopes and symbols (position, line, column, scope level, capacities)
      are unbounded numbers: they overflow only on inputs of 2^30 items or
      more.
    - A pointer that may be NULL is an [option]; [malloc] does not fail.
    - [while] loops take a fuel argument and return [None] when it runs out;
      the callers pass a fuel that is shown to suffice. *)

From Stdlib Require Import ZArith Lia Ascii DecimalString.
From Stdlib Require String.
From stdpp Require Import base option list strings gmap.

Local Open Scope Z_scope.

(* ================================================================== *)
(** * common/common.h, common/common.c *)
(* ================================================================== *)

Inductive ErrorCode :=
| ERROR_NONE | ERROR_LEXICAL | ERROR_SYNTAX | ERROR_SEMANTIC
| ERROR_CODE_GENERATION | ERROR_MEMORY | ERROR_IO.

Record Error := mkError {
  error_code : ErrorCode;
  error_message : string;
  error_line : nat;
  error_column : nat;
  error_file : option string
}.

(** [error_create]: the message is duplicated, the other fields are stored. *)
Definition error_create (code : ErrorCode) (message : string)
    (line column : nat) (file : option string) : Error :=
  mkError code message line column file.

(** The names [error_print] shows for the codes. *)
Definition error_name (code : ErrorCode) : string :=
  match code with
  | ERROR_NONE => "None"
  | ERROR_LEXICAL => "Lexical"
  | ERROR_SYNTAX => "Syntax"
  | ERROR_SEMANTIC => "Semantic"
  | ERROR_CODE_GENERATION => "Code Generation"
  | ERROR_MEMORY => "Memory"
  | ERROR_IO => "IO"
  end.

(* ------------------------------------------------------------------ *)
(** ** Machine integers *)

(** The range of [int] (32 bits) and of [long] (64 bits). *)
Definition INT_MIN : Z := -2147483648.
Definition INT_MAX : Z := 2147483647.
Definition LONG_MIN : Z := -9223372036854775808.
Definition LONG_MAX : Z := 9223372036854775807.

(** The [int] that holds a number: the number itself when it fits, and the
    number that differs from it by a multiple of [2^32] otherwise. *)
Definition int_wrap (z : Z) : Z := (z - INT_MIN) mod 4294967296 + INT_MIN.

(** A number that fits an [int]. *)
Definition in_int (z : Z) : Prop := INT_MIN <= z <= INT_MAX.

(* ------------------------------------------------------------------ *)
(** ** Characters *)

Definition NUL : ascii := "000"%char.
Definition LF : ascii := "010"%char.
Definition TAB : ascii := "009"%char.
Definition CR : ascii := "013"%char.
Definition DQUOTE : ascii := "034"%char.
Definition SQUOTE : ascii := "039"%char.
Definition BACKSLASH : ascii := "092"%char.

Definition char_at (s : string) (i : nat) : ascii :=
  match String.get i s with
  | Some c => c
  | None => NUL
  end.

Definition char_code (c : ascii) : nat := Ascii.nat_of_ascii c.

(** [isdigit], [isalpha], [isalnum] of the C locale. *)
Definition isdigit (c : ascii) : bool :=
  (48 <=? char_code c)%nat && (char_code c <=? 57)%nat.

Definition isalpha (c : ascii) : bool :=
  ((65 <=? char_code c)%nat && (char_code c <=? 90)%nat)
  || ((97 <=? char_code c)%nat && (char_code c <=? 122)%nat).

Definition isalnum (c : ascii) : bool := isalpha c || isdigit c.

(** [string_buffer_append_char]: the buffer grows as needed, so appending
    is appending. *)
Definition string_buffer_append_char (buffer : string) (c : ascii) : string :=
  buffer +:+ String c EmptyString.

(* ------------------------------------------------------------------ *)
(** ** The string buffer in memory *)

(** [StringBuffer] with its block of memory: [buffer_data] holds the
    [buffer_capacity] bytes of the block.  A store outside the block has no
    result.  The bytes a new or a grown block holds are not known: byte [i]
    of it reads [fresh i]. *)
Module InMemory.

Record StringBuffer := mkStringBuffer {
  buffer_data : list ascii;
  buffer_length : nat;
  buffer_capacity : nat
}.

(** [block[i] = c]. *)
Definition store (block : list ascii) (i : nat) (c : ascii)
    : option (list ascii) :=
  if (i <? length block)%nat then Some (<[i := c]> block) else None.

Definition malloc (fresh : nat → ascii) (size : nat) : list ascii :=
  fresh <$> seq 0 size.

(** [realloc]: the bytes up to the smaller of the two sizes are kept. *)
Definition realloc (fresh : nat → ascii) (block : list ascii) (size : nat)
    : list ascii :=
  take size block ++ (fresh <$> seq (length block) (size - length block)).

(** [strcpy(block + offset, str)]: the characters of [str] and the
    terminator. *)
Fixpoint strcpy (block : list ascii) (offset : nat) (str : string)
    : option (list ascii) :=
  match str with
  | EmptyString => store block offset NUL
  | String c rest =>
      block ← store block offset c;
      strcpy block (S offset) rest
  end.

(** The string a [char*] points to: the bytes before the first NUL. *)
Fixpoint c_string (block : list ascii) : string :=
  match block with
  | [] => EmptyString
  | c :: rest => if Ascii.eqb c NUL then EmptyString else String c (c_string rest)
  end.

Definition string_buffer_create (fresh : nat → ascii) (initial_capacity : nat)
    : option StringBuffer :=
  data ← store (malloc fresh initial_capacity) 0 NUL;
  Some (mkStringBuffer data 0 initial_capacity).

Definition string_buffer_append (fresh : nat → ascii) (buffer : StringBuffer)
    (str : option string) : option StringBuffer :=
  match str with
  | None => Some buffer
  | Some str =>
      let str_len := String.length str in
      let new_length := (buffer_length buffer + str_len)%nat in
      let buffer :=
        if (buffer_capacity buffer <? new_length + 1)%nat then
          let new_capacity := (buffer_capacity buffer * 2)%nat in
          let new_capacity :=
            if (new_capacity <? new_length + 1)%nat
            then (new_length + 1)%nat else new_capacity in
          mkStringBuffer (realloc fresh (buffer_data buffer) new_capacity)
            (buffer_length buffer) new_capacity
        else buffer in
      data ← strcpy (buffer_data buffer) (buffer_length buffer) str;
      Some (mkStringBuffer data new_length (buffer_capacity buffer))
  end.

Definition string_buffer_append_char (fresh : nat → ascii)
    (buffer : StringBuffer) (c : ascii) : option StringBuffer :=
  let buffer :=
    if (buffer_capacity buffer <=? buffer_length buffer + 1)%nat then
      let new_capacity := (buffer_capacity buffer * 2)%nat in
      let new_capacity :=
        if (new_capacity =? 0)%nat then 16%nat else new_capacity in
      mkStringBuffer (realloc fresh (buffer_data buffer) new_capacity)
        (buffer_length buffer) new_capacity
    else buffer in
  data ← store (buffer_data buffer) (buffer_length buffer) c;
  data ← store data (buffer_length buffer + 1) NUL;
  Some (mkStringBuffer data (buffer_length buffer + 1) (buffer_capacity buffer)).

End InMemory.

(* ================================================================== *)
(** * lexer/token.h, lexer/token.c *)
(* ================================================================== *)

Inductive TokenType :=
| TOKEN_EOF
| TOKEN_INT | TOKEN_FLOAT | TOKEN_CHAR | TOKEN_BOOL | TOKEN_VOID
| TOKEN_IF | TOKEN_ELSE | TOKEN_WHILE | TOKEN_FOR | TOKEN_RETURN
| TOKEN_BREAK | TOKEN_CONTINUE | TOKEN_TRUE | TOKEN_FALSE | TOKEN_NULL
| TOKEN_IDENTIFIER | TOKEN_INTEGER_LITERAL | TOKEN_FLOAT_LITERAL
| TOKEN_STRING_LITERAL | TOKEN_CHAR_LITERAL
| TOKEN_ASSIGN | TOKEN_PLUS | TOKEN_MINUS | TOKEN_MULTIPLY | TOKEN_DIVIDE
| TOKEN_MODULO | TOKEN_INCREMENT | TOKEN_DECREMENT
| TOKEN_EQUAL | TOKEN_NOT_EQUAL | TOKEN_LESS | TOKEN_GREATER
| TOKEN_LESS_EQUAL | TOKEN_GREATER_EQUAL
| TOKEN_LOGICAL_AND | TOKEN_LOGICAL_OR | TOKEN_LOGICAL_NOT
| TOKEN_BITWISE_AND | TOKEN_BITWISE_OR | TOKEN_BITWISE_XOR
| TOKEN_BITWISE_NOT | TOKEN_LEFT_SHIFT | TOKEN_RIGHT_SHIFT
| TOKEN_LEFT_PAREN | TOKEN_RIGHT_PAREN | TOKEN_LEFT_BRACE | TOKEN_RIGHT_BRACE
| TOKEN_LEFT_BRACKET | TOKEN_RIGHT_BRACKET | TOKEN_SEMICOLON | TOKEN_COMMA
| TOKEN_DOT | TOKEN_COLON | TOKEN_QUESTION
| TOKEN_UNKNOWN | TOKEN_NEWLINE.

Global Instance TokenType_eq_dec : EqDecision TokenType.
Proof. solve_decision. Defined.

(** The [literal] union of a token.  [LitZero] is the union after
    [memset 0]; a float keeps the text that [atof] is applied to. *)
Inductive Literal :=
| LitZero
| LitInt (int_value : Z)
| LitFloat (float_text : string)
| LitString (string_value : string)
| LitChar (char_value : ascii).

Record Token := mkToken {
  token_type : TokenType;
  token_lexeme : string;
  token_line : nat;
  token_column : nat;
  token_literal : Literal
}.

(** Reading [literal.int_value]: zero after [memset]; the other members
    share the storage and their reinterpretation is not modelled. *)
Definition literal_int_value (lit : Literal) : Z :=
  match lit with
  | LitInt v => v
  | _ => 0
  end.

(** Reading [literal.string_value]: NULL after [memset]. *)
Definition literal_string_value (lit : Literal) : option string :=
  match lit with
  | LitString s => Some s
  | _ => None
  end.

Definition keywords : list (string * TokenType) :=
  [ ("int", TOKEN_INT); ("float", TOKEN_FLOAT); ("char", TOKEN_CHAR);
    ("bool", TOKEN_BOOL); ("void", TOKEN_VOID); ("if", TOKEN_IF);
    ("else", TOKEN_ELSE); ("while", TOKEN_WHILE); ("for", TOKEN_FOR);
    ("return", TOKEN_RETURN); ("break", TOKEN_BREAK);
    ("continue", TOKEN_CONTINUE); ("true", TOKEN_TRUE);
    ("false", TOKEN_FALSE); ("null", TOKEN_NULL) ].

Definition token_create (type : TokenType) (lexeme : string)
    (line column : nat) : Token :=
  mkToken type lexeme line column LitZero.

(** [isspace] of the C locale: space, and the controls from tab to
    carriage return. *)
Definition isspace (c : ascii) : bool :=
  Ascii.eqb c " " || ((9 <=? char_code c)%nat && (char_code c <=? 13)%nat).

(** The number that the leading decimal digits of a text write, behind the
    number [acc] of the digits before them. *)
Fixpoint decimal_digits (acc : Z) (s : string) : Z :=
  match s with
  | String c rest =>
      if isdigit c
      then decimal_digits (10 * acc + Z.of_nat (char_code c - 48)) rest
      else acc
  | EmptyString => acc
  end.

(** The blanks [strtol] skips in front of the number. *)
Fixpoint skip_spaces (s : string) : string :=
  match s with
  | String c rest => if isspace c then skip_spaces rest else s
  | EmptyString => EmptyString
  end.

(** [strtol(s, NULL, 10)]: blanks, an optional sign and decimal digits; a
    number outside the range of [long] is replaced by the nearer end of
    the range. *)
Definition strtol (s : string) : Z :=
  let number :=
    match skip_spaces s with
    | String c digits =>
        if Ascii.eqb c "-" then - decimal_digits 0 digits
        else if Ascii.eqb c "+" then decimal_digits 0 digits
        else decimal_digits 0 (String c digits)
    | EmptyString => 0
    end in
  Z.max LONG_MIN (Z.min LONG_MAX number).

(** [atoi(s)] is [(int) strtol(s, NULL, 10)]: the result is kept in an
    [int], so a number above [INT_MAX] wraps around. *)
Definition atoi (s : string) : Z := int_wrap (strtol s).

Definition token_create_with_literal (type : TokenType) (lexeme : string)
    (line column : nat) : Token :=
  let token := token_create type lexeme line column in
  let set lit := mkToken type lexeme line column lit in
  match type with
  | TOKEN_INTEGER_LITERAL => set (LitInt (atoi lexeme))
  | TOKEN_FLOAT_LITERAL => set (LitFloat lexeme)
  | TOKEN_STRING_LITERAL =>
      if (2 <=? String.length lexeme)%nat
      then set (LitString (String.substring 1 (String.length lexeme - 2) lexeme))
      else token
  | TOKEN_CHAR_LITERAL =>
      if (3 <=? String.length lexeme)%nat
      then set (LitChar (char_at lexeme 1))
      else token
  | _ => token
  end.

(** [token_is_keyword]: the first entry of the table with this text; the
    result is the new value of [*type], if any. *)
Fixpoint keyword_lookup (table : list (string * TokenType)) (lexeme : string)
    : option TokenType :=
  match table with
  | (keyword, type) :: rest =>
      if String.eqb lexeme keyword then Some type else keyword_lookup rest lexeme
  | [] => None
  end.

Definition token_is_keyword (lexeme : string) : option TokenType :=
  keyword_lookup keywords lexeme.

(* ================================================================== *)
(** * lexer/lexer.h, lexer/lexer.c *)
(* ================================================================== *)

Record Lexer := mkLexer {
  lexer_source : string;
  lexer_position : nat;
  lexer_line : nat;
  lexer_column : nat;
  lexer_current_char : ascii;
  lexer_had_error : bool;
  lexer_last_error : option Error
}.

Definition lexer_create (source : string) : Lexer :=
  mkLexer source 0 1 1 (char_at source 0) false None.

(** [lexer_get_last_error] is the field [lexer_last_error] and
    [lexer_had_error] the field of that name. *)
Definition lexer_get_last_error (lexer : Lexer) : option Error :=
  lexer_last_error lexer.

Definition lexer_clear_error (lexer : Lexer) : Lexer :=
  mkLexer (lexer_source lexer) (lexer_position lexer) (lexer_line lexer)
    (lexer_column lexer) (lexer_current_char lexer) false None.

Definition advance (lexer : Lexer) : Lexer :=
  let '(line, column) :=
    if Ascii.eqb (lexer_current_char lexer) LF
    then (S (lexer_line lexer), 1%nat)
    else (lexer_line lexer, S (lexer_column lexer)) in
  mkLexer (lexer_source lexer) (S (lexer_position lexer)) line column
    (char_at (lexer_source lexer) (S (lexer_position lexer)))
    (lexer_had_error lexer) (lexer_last_error lexer).

Definition peek (lexer : Lexer) : ascii :=
  char_at (lexer_source lexer) (lexer_position lexer + 1).

(** The assignments of the error branches: [had_error = true] and a new
    [last_error]. *)
Definition lexer_set_error (lexer : Lexer) (e : Error) : Lexer :=
  mkLexer (lexer_source lexer) (lexer_position lexer) (lexer_line lexer)
    (lexer_column lexer) (lexer_current_char lexer) true (Some e).

(** Every loop of the tokenizer stops at the terminator and advances
    otherwise, so the characters left bound its iterations. *)
Definition lexer_fuel (lexer : Lexer) : nat :=
  S (String.length (lexer_source lexer) - lexer_position lexer).

Fixpoint skip_whitespace_loop (fuel : nat) (lexer : Lexer) : option Lexer :=
  match fuel with
  | O => None
  | S fuel' =>
      let c := lexer_current_char lexer in
      if negb (Ascii.eqb c NUL) then
        if Ascii.eqb c " " || Ascii.eqb c TAB || Ascii.eqb c CR
        then skip_whitespace_loop fuel' (advance lexer)
        else Some lexer
      else Some lexer
  end.

Definition skip_whitespace (lexer : Lexer) : option Lexer :=
  skip_whitespace_loop (lexer_fuel lexer) lexer.

Fixpoint read_identifier_loop (fuel : nat) (lexer : Lexer) (buffer : string)
    : option (Lexer * string) :=
  match fuel with
  | O => None
  | S fuel' =>
      let c := lexer_current_char lexer in
      if negb (Ascii.eqb c NUL) && (isalnum c || Ascii.eqb c "_")
      then read_identifier_loop fuel' (advance lexer)
             (string_buffer_append_char buffer c)
      else Some (lexer, buffer)
  end.

Definition read_identifier (lexer : Lexer) : option (Token * Lexer) :=
  let start_line := lexer_line lexer in
  let start_column := lexer_column lexer in
  '(lexer', lexeme) ← read_identifier_loop (lexer_fuel lexer) lexer EmptyString;
  let type := default TOKEN_IDENTIFIER (token_is_keyword lexeme) in
  Some (token_create type lexeme start_line start_column, lexer').

Fixpoint read_number_loop (fuel : nat) (lexer : Lexer) (buffer : string)
    (has_decimal : bool) : option (Lexer * string * bool) :=
  match fuel with
  | O => None
  | S fuel' =>
      let c := lexer_current_char lexer in
      if negb (Ascii.eqb c NUL) then
        if isdigit c then
          read_number_loop fuel' (advance lexer)
            (string_buffer_append_char buffer c) has_decimal
        else if Ascii.eqb c "." && negb has_decimal then
          read_number_loop fuel' (advance lexer)
            (string_buffer_append_char buffer c) true
        else Some (lexer, buffer, has_decimal)
      else Some (lexer, buffer, has_decimal)
  end.

Definition read_number (lexer : Lexer) : option (Token * Lexer) :=
  let start_line := lexer_line lexer in
  let start_column := lexer_column lexer in
  '(lexer', lexeme, has_decimal) ←
    read_number_loop (lexer_fuel lexer) lexer EmptyString false;
  let type := if (has_decimal : bool) then TOKEN_FLOAT_LITERAL else TOKEN_INTEGER_LITERAL in
  Some (token_create_with_literal type lexeme start_line start_column, lexer').

(** The [switch] of [read_string] on the character after a backslash. *)
Definition string_escape (c : ascii) : ascii :=
  if Ascii.eqb c "n" then LF
  else if Ascii.eqb c "t" then TAB
  else if Ascii.eqb c "r" then CR
  else if Ascii.eqb c BACKSLASH then BACKSLASH
  else if Ascii.eqb c DQUOTE then DQUOTE
  else c.

Fixpoint read_string_loop (fuel : nat) (lexer : Lexer) (buffer : string)
    : option (Lexer * string) :=
  match fuel with
  | O => None
  | S fuel' =>
      let c := lexer_current_char lexer in
      if negb (Ascii.eqb c NUL) && negb (Ascii.eqb c DQUOTE) then
        let '(lexer1, buffer1) :=
          if Ascii.eqb c BACKSLASH then
            let lexer1 := advance lexer in
            let c1 := lexer_current_char lexer1 in
            if negb (Ascii.eqb c1 NUL)
            then (lexer1, string_buffer_append_char buffer (string_escape c1))
            else (lexer1, buffer)
          else (lexer, string_buffer_append_char buffer c) in
        read_string_loop fuel' (advance lexer1) buffer1
      else Some (lexer, buffer)
  end.

Definition read_string (lexer : Lexer) : option (Token * Lexer) :=
  let start_line := lexer_line lexer in
  let start_column := lexer_column lexer in
  let lexer0 := advance lexer in
  '(lexer1, content) ← read_string_loop (lexer_fuel lexer0) lexer0 EmptyString;
  let lexer2 :=
    if Ascii.eqb (lexer_current_char lexer1) DQUOTE
    then advance lexer1
    else lexer_set_error lexer1
           (error_create ERROR_LEXICAL "Unterminated string literal"
              start_line start_column None) in
  let lexeme := String DQUOTE content +:+ String DQUOTE EmptyString in
  let token :=
    token_create_with_literal TOKEN_STRING_LITERAL lexeme start_line start_column in
  (* token->literal.string_value = content *)
  let token := mkToken (token_type token) (token_lexeme token)
                 (token_line token) (token_column token) (LitString content) in
  Some (token, lexer2).

(** The [switch] of [read_char] on the character after a backslash. *)
Definition char_escape (c : ascii) : ascii :=
  if Ascii.eqb c "n" then LF
  else if Ascii.eqb c "t" then TAB
  else if Ascii.eqb c "r" then CR
  else if Ascii.eqb c BACKSLASH then BACKSLASH
  else if Ascii.eqb c SQUOTE then SQUOTE
  else if Ascii.eqb c DQUOTE then DQUOTE
  else c.

Definition read_char (lexer : Lexer) : Token * Lexer :=
  let start_line := lexer_line lexer in
  let start_column := lexer_column lexer in
  let unterminated (l : Lexer) :=
    (token_create TOKEN_UNKNOWN "'" start_line start_column,
     lexer_set_error l
       (error_create ERROR_LEXICAL "Unterminated character literal"
          start_line start_column None)) in
  let lexer0 := advance lexer in
  if Ascii.eqb (lexer_current_char lexer0) NUL then unterminated lexer0
  else
    let '(lexer1, content) :=
      if Ascii.eqb (lexer_current_char lexer0) BACKSLASH then
        let lexer1 := advance lexer0 in
        if negb (Ascii.eqb (lexer_current_char lexer1) NUL)
        then (lexer1, char_escape (lexer_current_char lexer1))
        else (lexer1, NUL)
      else (lexer0, lexer_current_char lexer0) in
    let lexer2 := advance lexer1 in
    if Ascii.eqb (lexer_current_char lexer2) SQUOTE then
      let lexer3 := advance lexer2 in
      let lexeme := String SQUOTE (String content (String SQUOTE EmptyString)) in
      let token :=
        token_create_with_literal TOKEN_CHAR_LITERAL lexeme start_line start_column in
      (mkToken (token_type token) (token_lexeme token) (token_line token)
         (token_column token) (LitChar content), lexer3)
    else unterminated lexer2.

Definition read_operator (lexer : Lexer) : Token * Lexer :=
  let start_line := lexer_line lexer in
  let start_column := lexer_column lexer in
  let current := lexer_current_char lexer in
  let next := peek lexer in
  let one (type : TokenType) (lexeme : string) :=
    (token_create type lexeme start_line start_column, advance lexer) in
  let two (type : TokenType) (lexeme : string) :=
    (token_create type lexeme start_line start_column, advance (advance lexer)) in
  if Ascii.eqb current "=" then
    if Ascii.eqb next "=" then two TOKEN_EQUAL "==" else one TOKEN_ASSIGN "="
  else if Ascii.eqb current "!" then
    if Ascii.eqb next "=" then two TOKEN_NOT_EQUAL "!=" else one TOKEN_LOGICAL_NOT "!"
  else if Ascii.eqb current "&" then
    if Ascii.eqb next "&" then two TOKEN_LOGICAL_AND "&&" else one TOKEN_BITWISE_AND "&"
  else if Ascii.eqb current "|" then
    if Ascii.eqb next "|" then two TOKEN_LOGICAL_OR "||" else one TOKEN_BITWISE_OR "|"
  else if Ascii.eqb current "^" then one TOKEN_BITWISE_XOR "^"
  else if Ascii.eqb current "~" then one TOKEN_BITWISE_NOT "~"
  else if Ascii.eqb current "+" then
    if Ascii.eqb next "+" then two TOKEN_INCREMENT "++" else one TOKEN_PLUS "+"
  else if Ascii.eqb current "-" then
    if Ascii.eqb next "-" then two TOKEN_DECREMENT "--" else one TOKEN_MINUS "-"
  else if Ascii.eqb current "<" then
    if Ascii.eqb next "=" then two TOKEN_LESS_EQUAL "<="
    else if Ascii.eqb next "<" then two TOKEN_LEFT_SHIFT "<<"
    else one TOKEN_LESS "<"
  else if Ascii.eqb current ">" then
    if Ascii.eqb next "=" then two TOKEN_GREATER_EQUAL ">="
    else if Ascii.eqb next ">" then two TOKEN_RIGHT_SHIFT ">>"
    else one TOKEN_GREATER ">"
  else
    let type :=
      if Ascii.eqb current "*" then TOKEN_MULTIPLY
      else if Ascii.eqb current "/" then TOKEN_DIVIDE
      else if Ascii.eqb current "%" then TOKEN_MODULO
      else if Ascii.eqb current "(" then TOKEN_LEFT_PAREN
      else if Ascii.eqb current ")" then TOKEN_RIGHT_PAREN
      else if Ascii.eqb current "{" then TOKEN_LEFT_BRACE
      else if Ascii.eqb current "}" then TOKEN_RIGHT_BRACE
      else if Ascii.eqb current "[" then TOKEN_LEFT_BRACKET
      else if Ascii.eqb current "]" then TOKEN_RIGHT_BRACKET
      else if Ascii.eqb current ";" then TOKEN_SEMICOLON
      else if Ascii.eqb current "," then TOKEN_COMMA
      else if Ascii.eqb current "." then TOKEN_DOT
      else if Ascii.eqb current ":" then TOKEN_COLON
      else if Ascii.eqb current "?" then TOKEN_QUESTION
      else if Ascii.eqb current LF then TOKEN_NEWLINE
      else TOKEN_UNKNOWN in
    one type (String current EmptyString).

(** [lexer_next_token] returns the token and the lexer it leaves; [None]
    only when a loop ran out of fuel. *)
Definition lexer_next_token (lexer : Lexer) : option (Token * Lexer) :=
  if Ascii.eqb (lexer_current_char lexer) NUL then
    Some (token_create TOKEN_EOF "" (lexer_line lexer) (lexer_column lexer), lexer)
  else
    lexer ← skip_whitespace lexer;
    let c := lexer_current_char lexer in
    if Ascii.eqb c LF then
      Some (token_create TOKEN_NEWLINE (String LF EmptyString)
              (lexer_line lexer) (lexer_column lexer), advance lexer)
    else if Ascii.eqb c NUL then
      Some (token_create TOKEN_EOF "" (lexer_line lexer) (lexer_column lexer), lexer)
    else if isalpha c || Ascii.eqb c "_" then read_identifier lexer
    else if isdigit c then read_number lexer
    else if Ascii.eqb c DQUOTE then read_string lexer
    else if Ascii.eqb c SQUOTE then Some (read_char lexer)
    else Some (read_operator lexer).

(** [lexer_peek_token] saves position, line, column and current character,
    takes the next token and restores the four fields; the error fields
    are those [lexer_next_token] left. *)
Definition lexer_peek_token (lexer : Lexer) : option (Token * Lexer) :=
  let saved_position := lexer_position lexer in
  let saved_line := lexer_line lexer in
  let saved_column := lexer_column lexer in
  let saved_char := lexer_current_char lexer in
  '(token, lexer') ← lexer_next_token lexer;
  Some (token,
        mkLexer (lexer_source lexer') saved_position saved_line saved_column
          saved_char (lexer_had_error lexer') (lexer_last_error lexer')).

(* ================================================================== *)
(** * parser/parser.h, parser/parser.c *)
(* ================================================================== *)

Inductive NodeType :=
| NODE_PROGRAM | NODE_FUNCTION_DECLARATION | NODE_VARIABLE_DECLARATION
| NODE_PARAMETER_LIST | NODE_BLOCK_STATEMENT | NODE_EXPRESSION_STATEMENT
| NODE_RETURN_STATEMENT | NODE_IF_STATEMENT | NODE_WHILE_STATEMENT
| NODE_ASSIGNMENT_EXPRESSION | NODE_BINARY_EXPRESSION | NODE_UNARY_EXPRESSION
| NODE_CALL_EXPRESSION | NODE_IDENTIFIER | NODE_LITERAL | NODE_ERROR.

Global Instance NodeType_eq_dec : EqDecision NodeType.
Proof. solve_decision. Defined.

(** An AST node owns its subtrees.  [children] is the list threaded through
    [first_child] and [next_sibling]; the [data] union carries the member
    the constructors of the source write ([DataZero] after [memset 0]). *)
Local Unset Elimination Schemes.
Inductive ASTNode :=
| mkNode (type : NodeType) (token : option Token) (children : list ASTNode)
    (data : NodeData) (line column : nat)
with NodeData :=
| DataZero
| DataBinary (left right : option ASTNode) (operator : option string)
| DataUnary (operand : option ASTNode) (operator : option string)
| DataDeclaration (name : option string) (initializer : option ASTNode)
    (type_name : option string) (is_mutable : bool)
| DataLiteralInt (int_value : Z)
| DataLiteralFloat (float_text : string)
| DataLiteralString (string_value : option string)
| DataIdentifier (identifier_name : option string).
Local Set Elimination Schemes.

Definition node_type (n : ASTNode) : NodeType :=
  match n with mkNode type _ _ _ _ _ => type end.
Definition node_token (n : ASTNode) : option Token :=
  match n with mkNode _ token _ _ _ _ => token end.
Definition node_children (n : ASTNode) : list ASTNode :=
  match n with mkNode _ _ children _ _ _ => children end.
Definition node_data (n : ASTNode) : NodeData :=
  match n with mkNode _ _ _ data _ _ => data end.
Definition node_line (n : ASTNode) : nat :=
  match n with mkNode _ _ _ _ line _ => line end.
Definition node_column (n : ASTNode) : nat :=
  match n with mkNode _ _ _ _ _ column => column end.

(** Reading the members of the union.  A member that was not written reads
    as after [memset 0]. *)
Definition binary_left (d : NodeData) : option ASTNode :=
  match d with DataBinary l _ _ => l | _ => None end.
Definition binary_right (d : NodeData) : option ASTNode :=
  match d with DataBinary _ r _ => r | _ => None end.
Definition binary_operator (d : NodeData) : option string :=
  match d with DataBinary _ _ op => op | _ => None end.
Definition literal_data_int_value (d : NodeData) : Z :=
  match d with DataLiteralInt v => v | _ => 0 end.
Definition data_identifier_name (d : NodeData) : option string :=
  match d with DataIdentifier name => name | _ => None end.
Definition declaration_initializer (d : NodeData) : option ASTNode :=
  match d with DataDeclaration _ init _ _ => init | _ => None end.

Definition with_data (n : ASTNode) (data : NodeData) : ASTNode :=
  mkNode (node_type n) (node_token n) (node_children n) data
    (node_line n) (node_column n).

Definition ast_node_create (type : NodeType) (token : option Token) : ASTNode :=
  mkNode type token [] DataZero
    (from_option token_line 0%nat token) (from_option token_column 0%nat token).

Definition ast_node_create_binary (token : option Token)
    (left right : option ASTNode) (operator : option string) : ASTNode :=
  with_data (ast_node_create NODE_BINARY_EXPRESSION token)
    (DataBinary left right operator).

Definition ast_node_create_unary (token : option Token)
    (operand : option ASTNode) (operator : option string) : ASTNode :=
  with_data (ast_node_create NODE_UNARY_EXPRESSION token)
    (DataUnary operand operator).

Definition ast_node_create_literal_int (token : option Token) (value : Z) : ASTNode :=
  with_data (ast_node_create NODE_LITERAL token) (DataLiteralInt value).

Definition ast_node_create_literal_float (token : option Token) (value : string)
    : ASTNode :=
  with_data (ast_node_create NODE_LITERAL token) (DataLiteralFloat value).

Definition ast_node_create_literal_string (token : option Token)
    (value : option string) : ASTNode :=
  with_data (ast_node_create NODE_LITERAL token) (DataLiteralString value).

Definition ast_node_create_identifier (token : option Token)
    (name : option string) : ASTNode :=
  with_data (ast_node_create NODE_IDENTIFIER token) (DataIdentifier name).

Definition ast_node_create_variable_declaration (token : option Token)
    (type_name var_name : option string) (initializer : option ASTNode) : ASTNode :=
  with_data (ast_node_create NODE_VARIABLE_DECLARATION token)
    (DataDeclaration var_name initializer type_name true).

Definition ast_node_create_program : ASTNode :=
  ast_node_create NODE_PROGRAM None.

(** [ast_node_add_child] appends to the child list of the parent. *)
Definition ast_node_add_child (parent child : ASTNode) : ASTNode :=
  mkNode (node_type parent) (node_token parent) (node_children parent ++ [child])
    (node_data parent) (node_line parent) (node_column parent).

(** The parser holds the lexer it was created with; the lexer state is
    threaded through the parser state. *)
Record Parser := mkParser {
  parser_lexer : Lexer;
  parser_current_token : option Token;
  parser_peek_token : option Token;
  parser_had_error : bool;
  parser_last_error : option Error
}.

Definition parser_create (lexer : Lexer) : Parser :=
  mkParser lexer None None false None.

Definition parser_get_last_error (parser : Parser) : option Error :=
  parser_last_error parser.

Definition parser_clear_error (parser : Parser) : Parser :=
  mkParser (parser_lexer parser) (parser_current_token parser)
    (parser_peek_token parser) false None.

(** [parser->current_token = lexer_next_token(parser->lexer)]. *)
Definition parser_advance (parser : Parser) : option Parser :=
  '(token, lexer) ← lexer_next_token (parser_lexer parser);
  Some (mkParser lexer (Some token) (parser_peek_token parser)
          (parser_had_error parser) (parser_last_error parser)).

(** [parser->had_error = true; parser->last_error = error]. *)
Definition parser_set_error (parser : Parser) (e : Error) : Parser :=
  mkParser (parser_lexer parser) (parser_current_token parser)
    (parser_peek_token parser) true (Some e).

Definition parser_is_binary_operator (type : TokenType) : bool :=
  match type with
  | TOKEN_PLUS | TOKEN_MINUS | TOKEN_MULTIPLY | TOKEN_DIVIDE | TOKEN_MODULO
  | TOKEN_EQUAL | TOKEN_NOT_EQUAL | TOKEN_LESS | TOKEN_LESS_EQUAL
  | TOKEN_GREATER | TOKEN_GREATER_EQUAL | TOKEN_LOGICAL_AND | TOKEN_LOGICAL_OR
  | TOKEN_BITWISE_AND | TOKEN_BITWISE_OR | TOKEN_BITWISE_XOR
  | TOKEN_LEFT_SHIFT | TOKEN_RIGHT_SHIFT => true
  | _ => false
  end.

Definition parser_get_precedence (type : TokenType) : Z :=
  match type with
  | TOKEN_ASSIGN => 1
  | TOKEN_LOGICAL_OR => 2
  | TOKEN_LOGICAL_AND => 3
  | TOKEN_EQUAL | TOKEN_NOT_EQUAL => 4
  | TOKEN_LESS | TOKEN_LESS_EQUAL | TOKEN_GREATER | TOKEN_GREATER_EQUAL => 5
  | TOKEN_PLUS | TOKEN_MINUS => 6
  | TOKEN_MULTIPLY | TOKEN_DIVIDE | TOKEN_MODULO => 7
  | TOKEN_LEFT_SHIFT | TOKEN_RIGHT_SHIFT => 8
  | TOKEN_BITWISE_AND => 9
  | TOKEN_BITWISE_XOR => 10
  | TOKEN_BITWISE_OR => 11
  | _ => 0
  end.

Definition is_error_node (n : ASTNode) : bool :=
  bool_decide (node_type n = NODE_ERROR).

(** The [switch] of [parser_parse_primary] on a token that opens no
    parenthesis: the node of a literal, identifier, [true] or [false];
    [None] in the [default] case. *)
Definition primary_node (token : Token) : option ASTNode :=
  match token_type token with
  | TOKEN_INTEGER_LITERAL =>
      Some (ast_node_create_literal_int (Some token)
              (literal_int_value (token_literal token)))
  | TOKEN_FLOAT_LITERAL =>
      Some (ast_node_create_literal_float (Some token)
              (match token_literal token with
               | LitFloat text => text
               | _ => EmptyString
               end))
  | TOKEN_STRING_LITERAL =>
      Some (ast_node_create_literal_string (Some token)
              (literal_string_value (token_literal token)))
  | TOKEN_IDENTIFIER =>
      Some (ast_node_create_identifier (Some token) (Some (token_lexeme token)))
  | TOKEN_TRUE => Some (ast_node_create_literal_int (Some token) 1)
  | TOKEN_FALSE => Some (ast_node_create_literal_int (Some token) 0)
  | _ => None
  end.

(** The four mutually recursive functions of the expression parser; the
    [while (true)] loop of [parser_parse_expression_precedence] is
    [parser_binary_loop].  Each call and each iteration takes one unit of
    fuel. *)
Fixpoint parser_parse_expression (fuel : nat) (parser : Parser)
    {struct fuel} : option (ASTNode * Parser) :=
  match fuel with
  | O => None
  | S fuel' =>
      match parser_current_token parser with
      | None => Some (ast_node_create NODE_ERROR None, parser)
      | Some _ => parser_parse_expression_precedence fuel' parser 1
      end
  end

with parser_parse_expression_precedence (fuel : nat) (parser : Parser)
    (precedence : Z) {struct fuel} : option (ASTNode * Parser) :=
  match fuel with
  | O => None
  | S fuel' =>
      match parser_current_token parser with
      | None => Some (ast_node_create NODE_ERROR None, parser)
      | Some _ =>
          '(left_, parser) ← parser_parse_primary fuel' parser;
          if is_error_node left_ then Some (left_, parser)
          else parser_binary_loop fuel' parser left_ precedence
      end
  end

with parser_binary_loop (fuel : nat) (parser : Parser) (left : ASTNode)
    (precedence : Z) {struct fuel} : option (ASTNode * Parser) :=
  match fuel with
  | O => None
  | S fuel' =>
      match parser_current_token parser with
      | None => Some (left, parser)
      | Some token =>
          if negb (parser_is_binary_operator (token_type token))
          then Some (left, parser)
          else
            let token_precedence := parser_get_precedence (token_type token) in
            if token_precedence <? precedence then Some (left, parser)
            else
              let op_token := token in
              let operator := token_lexeme op_token in
              parser ← parser_advance parser;
              '(right_, parser) ←
                parser_parse_expression_precedence fuel' parser (token_precedence + 1);
              if is_error_node right_ then Some (right_, parser)
              else
                let binary :=
                  ast_node_create_binary (Some op_token) (Some left) (Some right_)
                    (Some operator) in
                parser_binary_loop fuel' parser binary precedence
      end
  end

with parser_parse_primary (fuel : nat) (parser : Parser)
    {struct fuel} : option (ASTNode * Parser) :=
  match fuel with
  | O => None
  | S fuel' =>
      match parser_current_token parser with
      | None => Some (ast_node_create NODE_ERROR None, parser)
      | Some token =>
          if decide (token_type token = TOKEN_LEFT_PAREN) then
            parser ← parser_advance parser;
            '(expr, parser) ← parser_parse_expression fuel' parser;
            if is_error_node expr then Some (expr, parser)
            else
              let closing_paren := parser_current_token parser in
              if bool_decide (token_type <$> closing_paren = Some TOKEN_RIGHT_PAREN)
              then
                parser ← parser_advance parser;
                Some (expr, parser)
              else
                Some (ast_node_create NODE_ERROR closing_paren,
                      parser_set_error parser
                        (error_create ERROR_SYNTAX "Expected closing parenthesis"
                           (from_option token_line 0%nat closing_paren)
                           (from_option token_column 0%nat closing_paren)
                           (token_lexeme <$> closing_paren)))
          else
            match primary_node token with
            | Some node =>
                parser ← parser_advance parser;
                Some (node, parser)
            | None =>
                Some (ast_node_create NODE_ERROR (Some token),
                      parser_set_error parser
                        (error_create ERROR_SYNTAX "Unexpected token in expression"
                           (token_line token) (token_column token)
                           (Some (token_lexeme token))))
            end
      end
  end.

(** Fuel for one call of [parser_parse]: three units for each character
    the lexer has not consumed, and six more. *)
Definition parser_fuel (parser : Parser) : nat :=
  6 + 3 * (String.length (lexer_source (parser_lexer parser))
           - lexer_position (parser_lexer parser)).

Definition parser_parse (parser : Parser) : option (ASTNode * Parser) :=
  let fuel := parser_fuel parser in
  parser ←
    match parser_current_token parser with
    | None => parser_advance parser
    | Some _ => Some parser
    end;
  match parser_current_token parser with
  | None => Some (ast_node_create NODE_ERROR None, parser)
  | Some token =>
      if decide (token_type token = TOKEN_EOF)
      then Some (ast_node_create NODE_ERROR None, parser)
      else parser_parse_expression fuel parser
  end.

Definition parser_parse_program (parser : Parser) : ASTNode :=
  ast_node_create NODE_PROGRAM None.

(** Parsing a source text from scratch. *)
Definition parse_source (source : string) : option (ASTNode * Parser) :=
  parser_parse (parser_create (lexer_create source)).

(* ================================================================== *)
(** * semantic/semantic.h, semantic/semantic.c *)
(* ================================================================== *)

Inductive SymbolType :=
| SYMBOL_VARIABLE | SYMBOL_FUNCTION | SYMBOL_PARAMETER | SYMBOL_TYPE.

(** The [data] union of a symbol together with its tag: the three
    constructors of the source set both at once. *)
Inductive SymbolData :=
| VariableData (type_name : string) (is_mutable : bool)
| FunctionData (return_type : string)
| ParameterData (type_name : string) (position : Z).

Record Symbol := mkSymbol {
  symbol_name : string;
  symbol_data : SymbolData;
  symbol_scope_level : Z;
  symbol_line : Z;
  symbol_column : Z
}.

Definition symbol_type (s : Symbol) : SymbolType :=
  match symbol_data s with
  | VariableData _ _ => SYMBOL_VARIABLE
  | FunctionData _ => SYMBOL_FUNCTION
  | ParameterData _ _ => SYMBOL_PARAMETER
  end.

Definition symbol_create_variable (name type_name : string) (is_mutable : bool)
    (line column : Z) : Symbol :=
  mkSymbol name (VariableData type_name is_mutable) 0 line column.

Definition symbol_create_function (name return_type : string)
    (line column : Z) : Symbol :=
  mkSymbol name (FunctionData return_type) 0 line column.

Definition symbol_create_parameter (name type_name : string) (position : Z)
    (line column : Z) : Symbol :=
  mkSymbol name (ParameterData type_name position) 0 line column.

(** A symbol table.  [table_symbols] is the array [symbols] up to
    [symbol_count]; [table_parent] is the address of the parent table. *)
Record SymbolTable := mkSymbolTable {
  table_symbols : list Symbol;
  table_capacity : nat;
  table_parent : option nat;
  table_scope_level : Z
}.

Definition symbol_count (t : SymbolTable) : nat := length (table_symbols t).

Definition symbol_table_create (scope_level : Z) : SymbolTable :=
  mkSymbolTable [] 16 None scope_level.

Record SemanticAnalyzer := mkSemanticAnalyzer {
  current_scope : nat;
  analyzer_had_error : bool;
  analyzer_last_error : option Error;
  scope_stack : list nat;
  scope_stack_capacity : nat
}.

Definition scope_stack_size (a : SemanticAnalyzer) : nat := length (scope_stack a).

(** The analyzer and the symbol tables it points to.  [tables] maps the
    address of every live table to its content; [symbol_table_free]
    removes the address.  A function returns [None] when it dereferences
    an address that is not live. *)
Record Semantic := mkSemantic {
  tables : gmap nat SymbolTable;
  analyzer : SemanticAnalyzer
}.

(** [symbol_table_add] on the table at [table]: the array doubles when it
    is full and the symbol is stored behind the last one. *)
Definition symbol_table_add (tbls : gmap nat SymbolTable) (table : nat)
    (symbol : Symbol) : option (gmap nat SymbolTable) :=
  t ← tbls !! table;
  let capacity :=
    if (table_capacity t <=? symbol_count t)%nat
    then (table_capacity t * 2)%nat else table_capacity t in
  Some (<[table := mkSymbolTable (table_symbols t ++ [symbol]) capacity
                     (table_parent t) (table_scope_level t)]> tbls).

(** The [for] loop of [symbol_table_lookup_local]. *)
Fixpoint lookup_symbols (symbols : list Symbol) (name : string) : option Symbol :=
  match symbols with
  | s :: rest =>
      if String.eqb (symbol_name s) name then Some s
      else lookup_symbols rest name
  | [] => None
  end.

Definition symbol_table_lookup_local (t : SymbolTable) (name : string)
    : option Symbol :=
  lookup_symbols (table_symbols t) name.

(** [symbol_table_lookup] with [symbol_table_lookup_global] inlined: the
    recursion follows the parent addresses.  The result is [Some None] for
    the NULL result and [None] when the fuel runs out or an address is not
    live. *)
Fixpoint symbol_table_lookup_fuel (fuel : nat) (tbls : gmap nat SymbolTable)
    (table : option nat) (name : string) : option (option Symbol) :=
  match fuel with
  | O => None
  | S fuel' =>
      match table with
      | None => Some None
      | Some a =>
          t ← tbls !! a;
          match symbol_table_lookup_local t name with
          | Some found => Some (Some found)
          | None =>
              match table_parent t with
              | None => Some None
              | Some p => symbol_table_lookup_fuel fuel' tbls (Some p) name
              end
          end
      end
  end.

(** A chain of parents without a cycle visits each live table at most
    once. *)
Definition symbol_table_lookup (tbls : gmap nat SymbolTable)
    (table : option nat) (name : string) : option (option Symbol) :=
  symbol_table_lookup_fuel (S (size tbls)) tbls table name.

(** [semantic_analyzer_create]; [global] is the address of the table that
    [symbol_table_create(0)] allocates. *)
Definition semantic_analyzer_create (global : nat) : Semantic :=
  mkSemantic {[ global := symbol_table_create 0 ]}
    (mkSemanticAnalyzer global false None [global] 16).

(** [semantic_analyzer_enter_scope]; [new_scope] is the address of the
    table that [symbol_table_create] allocates. *)
Definition semantic_analyzer_enter_scope (new_scope : nat) (st : Semantic)
    : option Semantic :=
  let a := analyzer st in
  current ← tables st !! current_scope a;
  let table :=
    mkSymbolTable [] 16 (Some (current_scope a)) (table_scope_level current + 1) in
  let capacity :=
    if (scope_stack_capacity a <=? scope_stack_size a)%nat
    then (scope_stack_capacity a * 2)%nat else scope_stack_capacity a in
  Some (mkSemantic (<[new_scope := table]> (tables st))
          (mkSemanticAnalyzer new_scope (analyzer_had_error a)
             (analyzer_last_error a) (scope_stack a ++ [new_scope]) capacity)).

(** [semantic_analyzer_exit_scope]: nothing happens with one table on the
    stack; otherwise the stack shrinks by one, the current table is freed
    and the table on top of the stack becomes current. *)
Definition semantic_analyzer_exit_scope (st : Semantic) : option Semantic :=
  let a := analyzer st in
  if (scope_stack_size a <=? 1)%nat then Some st
  else
    let stack := take (scope_stack_size a - 1) (scope_stack a) in
    _ ← tables st !! current_scope a;
    current ← stack !! (length stack - 1)%nat;
    Some (mkSemantic (delete (current_scope a) (tables st))
            (mkSemanticAnalyzer current (analyzer_had_error a)
               (analyzer_last_error a) stack (scope_stack_capacity a))).

Definition semantic_analyzer_current_scope (st : Semantic) : nat :=
  current_scope (analyzer st).

Inductive DataType :=
| TYPE_INT | TYPE_FLOAT | TYPE_STRING | TYPE_CHAR | TYPE_BOOL | TYPE_VOID
| TYPE_UNKNOWN | TYPE_ERROR.

Global Instance DataType_eq_dec : EqDecision DataType.
Proof. solve_decision. Defined.

(** The [NODE_LITERAL] case of [ast_node_get_type]. *)
Definition literal_type (token : option Token) : DataType :=
  match token_type <$> token with
  | Some TOKEN_INTEGER_LITERAL => TYPE_INT
  | Some TOKEN_FLOAT_LITERAL => TYPE_FLOAT
  | Some TOKEN_STRING_LITERAL => TYPE_STRING
  | Some TOKEN_TRUE | Some TOKEN_FALSE => TYPE_BOOL
  | _ => TYPE_UNKNOWN
  end.

(** The chain of [strcmp] on the declared type name of a variable. *)
Definition type_of_name (type_name : string) : DataType :=
  if String.eqb type_name "int" then TYPE_INT
  else if String.eqb type_name "float" then TYPE_FLOAT
  else if String.eqb type_name "string" then TYPE_STRING
  else if String.eqb type_name "bool" then TYPE_BOOL
  else if String.eqb type_name "void" then TYPE_VOID
  else TYPE_UNKNOWN.

Definition is_comparison_operator (op : string) : bool :=
  String.eqb op "==" || String.eqb op "!=" || String.eqb op "<"
  || String.eqb op "<=" || String.eqb op ">" || String.eqb op ">=".

Definition is_logical_operator (op : string) : bool :=
  String.eqb op "&&" || String.eqb op "||".

(** The [NODE_BINARY_EXPRESSION] case of [ast_node_get_type], after the
    types of the two operands are known. *)
Definition binary_type (left_type right_type : DataType)
    (operator : option string) : DataType :=
  if bool_decide (left_type = right_type)
     && (bool_decide (left_type = TYPE_INT) || bool_decide (left_type = TYPE_FLOAT))
  then left_type
  else if from_option is_comparison_operator false operator then TYPE_BOOL
  else if from_option is_logical_operator false operator then TYPE_BOOL
  else TYPE_ERROR.

(** The [NODE_IDENTIFIER] case of [ast_node_get_type]. *)
Definition identifier_type (st : option Semantic) (name : option string)
    : option DataType :=
  match st, name with
  | Some st, Some name =>
      symbol ← symbol_table_lookup (tables st)
                 (Some (current_scope (analyzer st))) name;
      match symbol_data <$> symbol with
      | Some (VariableData type_name _) => Some (type_of_name type_name)
      | _ => Some TYPE_UNKNOWN
      end
  | _, _ => Some TYPE_UNKNOWN
  end.

(** [ast_node_get_type] on a node that is not NULL.  The result is [None]
    only when a symbol lookup has no result. *)
Fixpoint node_get_type (st : option Semantic) (node : ASTNode)
    : option DataType :=
  match node with
  | mkNode NODE_LITERAL token _ _ _ _ => Some (literal_type token)
  | mkNode NODE_IDENTIFIER _ _ data _ _ =>
      identifier_type st (data_identifier_name data)
  | mkNode NODE_BINARY_EXPRESSION _ _ data _ _ =>
      left_type ←
        match data with
        | DataBinary (Some l) _ _ => node_get_type st l
        | _ => Some TYPE_ERROR
        end;
      right_type ←
        match data with
        | DataBinary _ (Some r) _ => node_get_type st r
        | _ => Some TYPE_ERROR
        end;
      Some (binary_type left_type right_type (binary_operator data))
  | _ => Some TYPE_UNKNOWN
  end.

Definition ast_node_get_type (node : option ASTNode) (st : option Semantic)
    : option DataType :=
  match node with
  | None => Some TYPE_ERROR
  | Some node => node_get_type st node
  end.

(** [semantic_analyze]: the type of the root is not the error type. *)
Definition semantic_analyze (node : option ASTNode) (st : option Semantic)
    : option bool :=
  match node, st with
  | Some _, Some _ =>
      type ← ast_node_get_type node st;
      Some (negb (bool_decide (type = TYPE_ERROR)))
  | _, _ => Some false
  end.

Definition semantic_check_binary_operation (left right : option ASTNode)
    (op : option string) (st : option Semantic) : option bool :=
  match left, right, op, st with
  | Some _, Some _, Some op, Some _ =>
      left_type ← ast_node_get_type left st;
      right_type ← ast_node_get_type right st;
      Some
        ((bool_decide (left_type = TYPE_INT) || bool_decide (left_type = TYPE_FLOAT))
           && bool_decide (left_type = right_type)
         || is_comparison_operator op
         || is_logical_operator op
            && bool_decide (left_type = TYPE_BOOL)
            && bool_decide (right_type = TYPE_BOOL))
  | _, _, _, _ => Some false
  end.

(* ------------------------------------------------------------------ *)
(** ** Freeing the tables, and the names of the types *)

(** [symbol_table_free]: the table at [table] is freed; freeing a table
    that is not live has no result. *)
Definition symbol_table_free (tbls : gmap nat SymbolTable) (table : nat)
    : option (gmap nat SymbolTable) :=
  _ ← tbls !! table;
  Some (delete table tbls).

(** The [for] loop of [semantic_analyzer_free] over the scope stack. *)
Fixpoint free_scopes (tbls : gmap nat SymbolTable) (stack : list nat)
    : option (gmap nat SymbolTable) :=
  match stack with
  | [] => Some tbls
  | table :: rest =>
      tbls ← symbol_table_free tbls table;
      free_scopes tbls rest
  end.

(** [semantic_analyzer_free]: the tables that are live afterwards. *)
Definition semantic_analyzer_free (st : Semantic) : option (gmap nat SymbolTable) :=
  free_scopes (tables st) (scope_stack (analyzer st)).

(** [data_type_to_string]. *)
Definition data_type_to_string (type : DataType) : string :=
  match type with
  | TYPE_INT => "int"
  | TYPE_FLOAT => "float"
  | TYPE_STRING => "string"
  | TYPE_CHAR => "char"
  | TYPE_BOOL => "bool"
  | TYPE_VOID => "void"
  | TYPE_UNKNOWN => "unknown"
  | TYPE_ERROR => "error"
  end.

(* ================================================================== *)
(** * codegen/codegen.h, codegen/codegen.c *)
(* ================================================================== *)

Inductive CodeGenResult :=
| CODEGEN_SUCCESS | CODEGEN_ERROR_NULL_ANALYZER | CODEGEN_ERROR_NULL_AST
| CODEGEN_ERROR_UNSUPPORTED_NODE | CODEGEN_ERROR_SYMBOL_NOT_FOUND
| CODEGEN_ERROR_TYPE_MISMATCH | CODEGEN_ERROR_INVALID_EXPRESSION.

Global Instance CodeGenResult_eq_dec : EqDecision CodeGenResult.
Proof. solve_decision. Defined.

(** [Register] as its index: [REGISTER_RAX = 0], ..., [REGISTER_RBP = 14],
    [REGISTER_RSP = 15], [REGISTER_COUNT = 16]. *)
Definition REGISTER_RAX : nat := 0.
Definition REGISTER_RBP : nat := 14.
Definition REGISTER_COUNT : nat := 16.

(** The generator.  [output_file] is the text written to the open file so
    far, [None] when no file is open. *)
Record CodeGenerator := mkCodeGenerator {
  generator_symbol_table : nat;
  output_file : option string;
  generator_had_error : bool;
  generator_last_error : string;
  label_counter : Z;
  stack_offset : Z;
  used_registers : list bool;
  temp_var_counter : Z
}.

Definition code_generator_create (symbol_table : nat) : CodeGenerator :=
  mkCodeGenerator symbol_table None false EmptyString 0 0
    (replicate REGISTER_COUNT false) 0.

Definition with_output (g : CodeGenerator) (out : option string) : CodeGenerator :=
  mkCodeGenerator (generator_symbol_table g) out (generator_had_error g)
    (generator_last_error g) (label_counter g) (stack_offset g)
    (used_registers g) (temp_var_counter g).

Definition with_stack_offset (g : CodeGenerator) (offset : Z) : CodeGenerator :=
  mkCodeGenerator (generator_symbol_table g) (output_file g)
    (generator_had_error g) (generator_last_error g) (label_counter g) offset
    (used_registers g) (temp_var_counter g).

Definition with_used_registers (g : CodeGenerator) (regs : list bool)
    : CodeGenerator :=
  mkCodeGenerator (generator_symbol_table g) (output_file g)
    (generator_had_error g) (generator_last_error g) (label_counter g)
    (stack_offset g) regs (temp_var_counter g).

(** [fprintf(generator->output_file, ...)] with the text it formats. *)
Definition fprintf (g : CodeGenerator) (text : string) : CodeGenerator :=
  with_output g ((fun written => written +:+ text) <$> output_file g).

(** A line of text and its newline. *)
Definition ln (text : string) : string := text +:+ String LF EmptyString.

(** [%d] of a number. *)
Definition string_of_Z (z : Z) : string := NilZero.string_of_int (Z.to_int z).

(** [code_generator_error]: [vsnprintf] keeps at most 255 characters of the
    formatted message. *)
Definition code_generator_error (g : CodeGenerator) (message : string)
    : CodeGenerator :=
  mkCodeGenerator (generator_symbol_table g) (output_file g) true
    (String.substring 0 255 message) (label_counter g) (stack_offset g)
    (used_registers g) (temp_var_counter g).

(** [code_generator_set_output]; [opened] tells whether [fopen] succeeds.
    An open file is closed first and the new file starts empty. *)
Definition code_generator_set_output (g : CodeGenerator)
    (output_filename : option string) (opened : bool)
    : CodeGenResult * CodeGenerator :=
  match output_filename with
  | None => (CODEGEN_ERROR_NULL_ANALYZER, g)
  | Some filename =>
      if opened then (CODEGEN_SUCCESS, with_output g (Some EmptyString))
      else (CODEGEN_ERROR_INVALID_EXPRESSION,
            code_generator_error (with_output g None)
              ("Failed to open output file: " +:+ filename))
  end.

Definition prologue_text : string :=
  ln "    .section .data" +:+ ln "    .section .text"
  +:+ ln "    .global _main" +:+ ln "_main:"
  +:+ ln "    push    rbp" +:+ ln "    mov     rbp, rsp".

Definition epilogue_text : string :=
  ln "    mov     rsp, rbp" +:+ ln "    pop     rbp" +:+ ln "    ret".

Definition code_generator_emit_prologue (g : CodeGenerator)
    : CodeGenResult * CodeGenerator :=
  match output_file g with
  | None => (CODEGEN_ERROR_NULL_ANALYZER, g)
  | Some _ =>
      let g := fprintf g (ln "    .section .data") in
      let g := fprintf g (ln "    .section .text") in
      let g := fprintf g (ln "    .global _main") in
      let g := fprintf g (ln "_main:") in
      let g := fprintf g (ln "    push    rbp") in
      let g := fprintf g (ln "    mov     rbp, rsp") in
      (CODEGEN_SUCCESS, g)
  end.

Definition code_generator_emit_epilogue (g : CodeGenerator)
    : CodeGenResult * CodeGenerator :=
  match output_file g with
  | None => (CODEGEN_ERROR_NULL_ANALYZER, g)
  | Some _ =>
      let g := fprintf g (ln "    mov     rsp, rbp") in
      let g := fprintf g (ln "    pop     rbp") in
      let g := fprintf g (ln "    ret") in
      (CODEGEN_SUCCESS, g)
  end.

Definition code_generator_emit_comment (g : CodeGenerator)
    (comment : option string) : CodeGenResult * CodeGenerator :=
  match output_file g, comment with
  | Some _, Some comment => (CODEGEN_SUCCESS, fprintf g (ln ("    # " +:+ comment)))
  | _, _ => (CODEGEN_ERROR_NULL_ANALYZER, g)
  end.

Definition code_generator_emit_label (g : CodeGenerator)
    (label : option string) : CodeGenResult * CodeGenerator :=
  match output_file g, label with
  | Some _, Some label => (CODEGEN_SUCCESS, fprintf g (ln (label +:+ ":")))
  | _, _ => (CODEGEN_ERROR_NULL_ANALYZER, g)
  end.

(** [%-7s]: the text, padded with blanks on the right to seven characters. *)
Definition pad7 (s : string) : string :=
  s +:+ String.string_of_list_ascii (replicate (7 - String.length s) " "%char).

Definition code_generator_emit_instruction (g : CodeGenerator)
    (instruction operands : option string) : CodeGenResult * CodeGenerator :=
  match output_file g, instruction with
  | Some _, Some instruction =>
      match operands with
      | Some operands =>
          (CODEGEN_SUCCESS,
           fprintf g (ln ("    " +:+ pad7 instruction +:+ " " +:+ operands)))
      | None => (CODEGEN_SUCCESS, fprintf g (ln ("    " +:+ instruction)))
      end
  | _, _ => (CODEGEN_ERROR_NULL_ANALYZER, g)
  end.

(** The [for] loop of [code_generator_allocate_register] from register [i]
    over the flags [regs] that are left to visit. *)
Fixpoint first_free_register (i : nat) (regs : list bool) : option nat :=
  match regs with
  | used :: rest => if used then first_free_register (S i) rest else Some i
  | [] => None
  end.

Definition code_generator_allocate_register (g : CodeGenerator)
    : nat * CodeGenerator :=
  match first_free_register REGISTER_RAX (take REGISTER_RBP (used_registers g)) with
  | Some i => (i, with_used_registers g (<[i := true]> (used_registers g)))
  | None => (REGISTER_COUNT, g)
  end.

Definition code_generator_free_register (g : CodeGenerator) (reg : nat)
    : CodeGenerator :=
  if (reg <? REGISTER_COUNT)%nat
  then with_used_registers g (<[reg := false]> (used_registers g))
  else g.

Definition code_generator_generate_literal (g : CodeGenerator) (node : ASTNode)
    : CodeGenResult * CodeGenerator :=
  match output_file g with
  | None => (CODEGEN_ERROR_NULL_ANALYZER, g)
  | Some _ =>
      if negb (bool_decide (node_type node = NODE_LITERAL))
      then (CODEGEN_ERROR_UNSUPPORTED_NODE, g)
      else if bool_decide (token_type <$> node_token node = Some TOKEN_INTEGER_LITERAL)
      then (CODEGEN_SUCCESS,
            fprintf g (ln ("    mov     rax, "
                           +:+ string_of_Z (literal_data_int_value (node_data node)))))
      else (CODEGEN_ERROR_UNSUPPORTED_NODE, g)
  end.

(** The body of [code_generator_generate_binary]; [generate_expression] is
    the function it calls on an operand that is not NULL (on NULL,
    [code_generator_generate_expression] answers
    [CODEGEN_ERROR_NULL_ANALYZER]).  The result is [None] when [strcmp] is
    applied to a NULL operator. *)
Definition generate_binary_with
    (generate_expression :
       CodeGenerator → ASTNode → option (CodeGenResult * CodeGenerator))
    (g : CodeGenerator) (node : ASTNode) : option (CodeGenResult * CodeGenerator) :=
  match output_file g with
  | None => Some (CODEGEN_ERROR_NULL_ANALYZER, g)
  | Some _ =>
      match node with
      | mkNode NODE_BINARY_EXPRESSION _ _ data _ _ =>
          '(result, g) ←
            match data with
            | DataBinary (Some l) _ _ => generate_expression g l
            | _ => Some (CODEGEN_ERROR_NULL_ANALYZER, g)
            end;
          if negb (bool_decide (result = CODEGEN_SUCCESS)) then Some (result, g)
          else
            let g := fprintf g (ln "    push    rax") in
            '(result, g) ←
              match data with
              | DataBinary _ (Some r) _ => generate_expression g r
              | _ => Some (CODEGEN_ERROR_NULL_ANALYZER, g)
              end;
            if negb (bool_decide (result = CODEGEN_SUCCESS)) then Some (result, g)
            else
              let g := fprintf g (ln "    pop     rbx") in
              op ← binary_operator data;
              if String.eqb op "+" then
                Some (CODEGEN_SUCCESS, fprintf g (ln "    add     rax, rbx"))
              else if String.eqb op "-" then
                let g := fprintf g (ln "    sub     rbx, rax") in
                Some (CODEGEN_SUCCESS, fprintf g (ln "    mov     rax, rbx"))
              else if String.eqb op "*" then
                Some (CODEGEN_SUCCESS, fprintf g (ln "    imul    rax, rbx"))
              else Some (CODEGEN_ERROR_UNSUPPORTED_NODE, g)
      | _ => Some (CODEGEN_ERROR_UNSUPPORTED_NODE, g)
      end
  end.

(** [code_generator_generate_expression] on a node that is not NULL. *)
Fixpoint generate_expression_node (g : CodeGenerator) (node : ASTNode)
    {struct node} : option (CodeGenResult * CodeGenerator) :=
  match node with
  | mkNode NODE_LITERAL _ _ _ _ _ => Some (code_generator_generate_literal g node)
  | mkNode NODE_BINARY_EXPRESSION _ _ _ _ _ =>
      generate_binary_with generate_expression_node g node
  | mkNode NODE_IDENTIFIER _ _ _ _ _ => Some (CODEGEN_ERROR_UNSUPPORTED_NODE, g)
  | mkNode NODE_UNARY_EXPRESSION _ _ _ _ _ => Some (CODEGEN_ERROR_UNSUPPORTED_NODE, g)
  | _ => Some (CODEGEN_ERROR_UNSUPPORTED_NODE, g)
  end.

Definition code_generator_generate_expression (g : CodeGenerator)
    (node : option ASTNode) : option (CodeGenResult * CodeGenerator) :=
  match node with
  | Some node => generate_expression_node g node
  | None => Some (CODEGEN_ERROR_NULL_ANALYZER, g)
  end.

Definition code_generator_generate_binary (g : CodeGenerator) (node : ASTNode)
    : option (CodeGenResult * CodeGenerator) :=
  generate_binary_with generate_expression_node g node.

(** [code_generator_generate_variable_declaration];
    [generator->stack_offset += 8] is an addition of [int]. *)
Definition code_generator_generate_variable_declaration (g : CodeGenerator)
    (node : ASTNode) : option (CodeGenResult * CodeGenerator) :=
  match output_file g with
  | None => Some (CODEGEN_ERROR_NULL_ANALYZER, g)
  | Some _ =>
      if negb (bool_decide (node_type node = NODE_VARIABLE_DECLARATION))
      then Some (CODEGEN_ERROR_UNSUPPORTED_NODE, g)
      else
        let g := with_stack_offset g (int_wrap (stack_offset g + 8)) in
        let g := fprintf g (ln "    sub     rsp, 8") in
        match declaration_initializer (node_data node) with
        | Some initializer =>
            '(result, g) ← generate_expression_node g initializer;
            if negb (bool_decide (result = CODEGEN_SUCCESS)) then Some (result, g)
            else
              Some (CODEGEN_SUCCESS,
                    fprintf g (ln ("    mov     [rbp-" +:+ string_of_Z (stack_offset g)
                                   +:+ "], rax")))
        | None => Some (CODEGEN_SUCCESS, g)
        end
  end.

(** The [while (child)] loop of [code_generator_generate_program] over the
    children that are left. *)
Fixpoint generate_children (g : CodeGenerator) (children : list ASTNode)
    : option (CodeGenResult * CodeGenerator) :=
  match children with
  | [] => Some (CODEGEN_SUCCESS, g)
  | child :: rest =>
      '(result, g) ←
        match node_type child with
        | NODE_VARIABLE_DECLARATION =>
            code_generator_generate_variable_declaration g child
        | NODE_BINARY_EXPRESSION | NODE_LITERAL | NODE_IDENTIFIER =>
            generate_expression_node g child
        | _ => Some (CODEGEN_ERROR_UNSUPPORTED_NODE, g)
        end;
      if negb (bool_decide (result = CODEGEN_SUCCESS)) then Some (result, g)
      else generate_children g rest
  end.

Definition code_generator_generate_program (g : CodeGenerator) (node : ASTNode)
    : option (CodeGenResult * CodeGenerator) :=
  match output_file g with
  | None => Some (CODEGEN_ERROR_NULL_ANALYZER, g)
  | Some _ =>
      let '(result, g) := code_generator_emit_prologue g in
      if negb (bool_decide (result = CODEGEN_SUCCESS)) then Some (result, g)
      else
        '(result, g) ←
          (if bool_decide (node_type node = NODE_PROGRAM)
           then generate_children g (node_children node)
           else generate_expression_node g node);
        if negb (bool_decide (result = CODEGEN_SUCCESS)) then Some (result, g)
        else Some (code_generator_emit_epilogue g)
  end.

Definition code_generator_generate (g : CodeGenerator) (ast : option ASTNode)
    (output_filename : option string) (opened : bool)
    : option (CodeGenResult * CodeGenerator) :=
  match ast, output_filename with
  | Some ast, Some _ =>
      let '(result, g) := code_generator_set_output g output_filename opened in
      if negb (bool_decide (result = CODEGEN_SUCCESS)) then Some (result, g)
      else code_generator_generate_program g ast
  | _, _ => Some (CODEGEN_ERROR_NULL_ANALYZER, g)
  end.

Definition code_generator_generate_identifier (g : CodeGenerator)
    (node : option ASTNode) : CodeGenResult * CodeGenerator :=
  (CODEGEN_ERROR_UNSUPPORTED_NODE, g).

Definition code_generator_generate_unary (g : CodeGenerator)
    (node : option ASTNode) : CodeGenResult * CodeGenerator :=
  (CODEGEN_ERROR_UNSUPPORTED_NODE, g).

Definition code_generator_generate_assignment (g : CodeGenerator)
    (node : option ASTNode) : CodeGenResult * CodeGenerator :=
  (CODEGEN_ERROR_UNSUPPORTED_NODE, g).

(** [code_generator_push_stack] and [code_generator_pop_stack]:
    [stack_offset += size] and [stack_offset -= size] on an [int]. *)
Definition code_generator_push_stack (g : CodeGenerator) (size : Z)
    : CodeGenResult * CodeGenerator :=
  match output_file g with
  | None => (CODEGEN_ERROR_NULL_ANALYZER, g)
  | Some _ =>
      let g := with_stack_offset g (int_wrap (stack_offset g + size)) in
      (CODEGEN_SUCCESS, fprintf g (ln ("    sub     rsp, " +:+ string_of_Z size)))
  end.

Definition code_generator_pop_stack (g : CodeGenerator) (size : Z)
    : CodeGenResult * CodeGenerator :=
  match output_file g with
  | None => (CODEGEN_ERROR_NULL_ANALYZER, g)
  | Some _ =>
      let g := with_stack_offset g (int_wrap (stack_offset g - size)) in
      (CODEGEN_SUCCESS, fprintf g (ln ("    add     rsp, " +:+ string_of_Z size)))
  end.

(* ================================================================== *)
(** * The tokenizer terminates and makes progress *)
(* ================================================================== *)

Section LexerProperties.

(** The invariant of a lexer: the current character is the character of
    the source at the position. *)
Definition lexer_wf (l : Lexer) : Prop :=
  lexer_current_char l = char_at (lexer_source l) (lexer_position l).

(** [l'] is [l] after some calls of [advance]. *)
Record lexer_step (l l' : Lexer) : Prop := mkLexerStep {
  step_wf : lexer_wf l';
  step_source : lexer_source l' = lexer_source l;
  step_position : (lexer_position l <= lexer_position l')%nat
}.

(** Characters of the source the lexer has not consumed. *)
Definition lexer_remaining (l : Lexer) : nat :=
  String.length (lexer_source l) - lexer_position l.

Lemma get_length_None (s : string) (i : nat) :
  (String.length s <= i)%nat → String.get i s = None.
Proof.
  revert i. induction s as [|c s IH]; intros i Hi; [by destruct i|].
  destruct i as [|i]; simpl in *; [lia|]. apply IH. lia.
Qed.

Lemma char_at_not_NUL (s : string) (i : nat) :
  char_at s i ≠ NUL → (i < String.length s)%nat.
Proof.
  intros H. destruct (decide (i < String.length s)%nat) as [|Hge]; [done|].
  exfalso. apply H. unfold char_at. rewrite get_length_None; [done|lia].
Qed.

Lemma lexer_create_wf (source : string) : lexer_wf (lexer_create source).
Proof. reflexivity. Qed.

Lemma lexer_wf_not_NUL (l : Lexer) :
  lexer_wf l → Ascii.eqb (lexer_current_char l) NUL = false →
  (lexer_position l < String.length (lexer_source l))%nat.
Proof.
  intros Hwf H. apply char_at_not_NUL. rewrite <- Hwf.
  intros E. rewrite E in H. discriminate.
Qed.

Lemma lexer_step_refl (l : Lexer) : lexer_wf l → lexer_step l l.
Proof. by split. Qed.

Lemma lexer_step_trans (l1 l2 l3 : Lexer) :
  lexer_step l1 l2 → lexer_step l2 l3 → lexer_step l1 l3.
Proof.
  intros [? E1 ?] [? E2 ?]. split; [done|congruence|lia].
Qed.

Lemma advance_step (l : Lexer) : lexer_step l (advance l).
Proof.
  unfold advance. destruct (Ascii.eqb _ _); split; simpl; try done; try lia.
Qed.

Lemma advance_wf (l : Lexer) : lexer_wf (advance l).
Proof. apply advance_step. Qed.

Lemma advance_position (l : Lexer) :
  lexer_position (advance l) = S (lexer_position l).
Proof. unfold advance. by destruct (Ascii.eqb _ _). Qed.

Lemma advance_had_error (l : Lexer) :
  lexer_had_error (advance l) = lexer_had_error l
  ∧ lexer_last_error (advance l) = lexer_last_error l.
Proof. unfold advance. by destruct (Ascii.eqb _ _). Qed.

Lemma lexer_set_error_step (l : Lexer) (e : Error) :
  lexer_wf l → lexer_step l (lexer_set_error l e).
Proof. intros Hwf. by split. Qed.

Create HintDb lexer.
Local Hint Resolve lexer_step_refl advance_step advance_wf lexer_step_trans : lexer.

(** Two lexers that differ by calls of [advance] only: same error state. *)
Definition same_errors (l l' : Lexer) : Prop :=
  lexer_had_error l' = lexer_had_error l
  ∧ lexer_last_error l' = lexer_last_error l.

Lemma same_errors_advance (l l' : Lexer) :
  same_errors l l' → same_errors l (advance l').
Proof.
  intros [E1 E2]. destruct (advance_had_error l') as [E3 E4].
  split; congruence.
Qed.

Lemma same_errors_refl (l : Lexer) : same_errors l l.
Proof. by split. Qed.

Local Hint Resolve same_errors_refl same_errors_advance : lexer.

Lemma skip_whitespace_loop_total (fuel : nat) (l : Lexer) :
  lexer_wf l → (lexer_remaining l < fuel)%nat →
  ∃ l', skip_whitespace_loop fuel l = Some l' ∧ lexer_step l l'
        ∧ same_errors l l'.
Proof.
  revert l. induction fuel as [|fuel IH]; intros l Hwf Hfuel; [lia|].
  simpl. destruct (Ascii.eqb (lexer_current_char l) NUL) eqn:Hnul; simpl;
    [eauto with lexer|].
  destruct (_ || _); [|eauto with lexer].
  pose proof (lexer_wf_not_NUL l Hwf Hnul) as Hlt.
  destruct (IH (advance l)) as (l' & -> & Hstep & Herr).
  - apply advance_step.
  - unfold lexer_remaining in *. rewrite advance_position.
    rewrite (step_source _ _ (advance_step l)). lia.
  - exists l'. split_and!; [done|eauto with lexer|].
    destruct Herr as [E1 E2], (advance_had_error l) as [E3 E4].
    split; congruence.
Qed.

Lemma read_identifier_loop_total (fuel : nat) (l : Lexer) (buffer : string) :
  lexer_wf l → (lexer_remaining l < fuel)%nat →
  ∃ l' lexeme, read_identifier_loop fuel l buffer = Some (l', lexeme)
               ∧ lexer_step l l' ∧ same_errors l l'.
Proof.
  revert l buffer. induction fuel as [|fuel IH]; intros l buffer Hwf Hfuel; [lia|].
  simpl. destruct (Ascii.eqb (lexer_current_char l) NUL) eqn:Hnul; simpl;
    [eauto 6 with lexer|].
  destruct (_ || _); [|eauto 6 with lexer].
  pose proof (lexer_wf_not_NUL l Hwf Hnul) as Hlt.
  edestruct (IH (advance l)) as (l' & lexeme & -> & Hstep & Herr).
  - apply advance_step.
  - unfold lexer_remaining in *. rewrite advance_position.
    rewrite (step_source _ _ (advance_step l)). lia.
  - exists l', lexeme. split_and!; [done|eauto with lexer|].
    destruct Herr as [E1 E2], (advance_had_error l) as [E3 E4].
    split; congruence.
Qed.

Lemma read_number_loop_total (fuel : nat) (l : Lexer) (buffer : string)
    (has_decimal : bool) :
  lexer_wf l → (lexer_remaining l < fuel)%nat →
  ∃ l' lexeme d, read_number_loop fuel l buffer has_decimal = Some (l', lexeme, d)
                 ∧ lexer_step l l' ∧ same_errors l l'.
Proof.
  revert l buffer has_decimal.
  induction fuel as [|fuel IH]; intros l buffer has_decimal Hwf Hfuel; [lia|].
  simpl. destruct (Ascii.eqb (lexer_current_char l) NUL) eqn:Hnul; simpl;
    [eauto 7 with lexer|].
  pose proof (lexer_wf_not_NUL l Hwf Hnul) as Hlt.
  assert (lexer_remaining (advance l) < fuel)%nat as Hfuel'.
  { unfold lexer_remaining in *. rewrite advance_position.
    rewrite (step_source _ _ (advance_step l)). lia. }
  assert (∀ l', same_errors (advance l) l' → same_errors l l') as Herr'.
  { intros l' [E1 E2]. destruct (advance_had_error l) as [E3 E4].
    split; congruence. }
  destruct (isdigit _); [|destruct (_ && _)];
    [ edestruct (IH (advance l)) as (l' & lexeme & d & -> & Hstep & Herr);
      [apply advance_step|done|eauto 10 with lexer] ..
    | eauto 7 with lexer].
Qed.

Lemma read_string_loop_total (fuel : nat) (l : Lexer) (buffer : string) :
  lexer_wf l → (lexer_remaining l < fuel)%nat →
  ∃ l' content, read_string_loop fuel l buffer = Some (l', content)
                ∧ lexer_step l l' ∧ same_errors l l'
                ∧ (Ascii.eqb (lexer_current_char l') NUL
                   || Ascii.eqb (lexer_current_char l') DQUOTE = true).
Proof.
  revert l buffer. induction fuel as [|fuel IH]; intros l buffer Hwf Hfuel; [lia|].
  simpl. destruct (Ascii.eqb (lexer_current_char l) NUL) eqn:Hnul; simpl.
  { exists l, buffer. rewrite Hnul. eauto with lexer. }
  destruct (Ascii.eqb (lexer_current_char l) DQUOTE) eqn:Hquote; simpl.
  { exists l, buffer. rewrite Hquote, orb_true_r. eauto with lexer. }
  pose proof (lexer_wf_not_NUL l Hwf Hnul) as Hlt.
  assert (lexer_remaining (advance l) < fuel)%nat as Hfuel'.
  { unfold lexer_remaining in *. rewrite advance_position.
    rewrite (step_source _ _ (advance_step l)). lia. }
  assert (lexer_remaining (advance (advance l)) < fuel)%nat as Hfuel''.
  { unfold lexer_remaining in *. rewrite !advance_position.
    rewrite !(step_source _ _ (advance_step _)). lia. }
  assert (∀ l', same_errors (advance l) l' → same_errors l l') as Herr'.
  { intros l' [E1 E2]. destruct (advance_had_error l) as [E3 E4].
    split; congruence. }
  assert (∀ l', same_errors (advance (advance l)) l' → same_errors l l') as Herr''.
  { intros l' [E1 E2]. destruct (advance_had_error l) as [E3 E4].
    destruct (advance_had_error (advance l)) as [E5 E6].
    split; congruence. }
  destruct (Ascii.eqb (lexer_current_char l) BACKSLASH).
  - destruct (negb _);
      edestruct (IH (advance (advance l))) as (l' & content & -> & Hstep & Herr & Hend);
      eauto 10 with lexer.
  - edestruct (IH (advance l)) as (l' & content & -> & Hstep & Herr & Hend);
      eauto 10 with lexer.
Qed.

(** A step from a lexer that is not at the terminator to a later position
    leaves fewer characters. *)
Lemma lexer_step_remaining (l l' : Lexer) :
  lexer_step l l' → (lexer_remaining l' <= lexer_remaining l)%nat.
Proof.
  intros [_ E H]. unfold lexer_remaining. rewrite E. lia.
Qed.

Lemma advance_remaining (l : Lexer) :
  lexer_wf l → Ascii.eqb (lexer_current_char l) NUL = false →
  (lexer_remaining (advance l) < lexer_remaining l)%nat.
Proof.
  intros Hwf Hnul. pose proof (lexer_wf_not_NUL l Hwf Hnul).
  unfold lexer_remaining. rewrite advance_position.
  rewrite (step_source _ _ (advance_step l)). lia.
Qed.

Lemma read_operator_step (l : Lexer) :
  ∃ n, (read_operator l).2 = Nat.iter (S n) advance l.
Proof.
  unfold read_operator.
  repeat match goal with
         | |- context [if ?b then _ else _] => destruct b
         end; simpl; first [by exists 0%nat | by exists 1%nat].
Qed.

Lemma read_char_step (l : Lexer) :
  ∃ n e, (read_char l).2 = Nat.iter (S n) advance l
         ∨ (read_char l).2 = lexer_set_error (Nat.iter (S n) advance l) e.
Proof.
  unfold read_char.
  repeat match goal with
         | |- context [if ?b then _ else _] => destruct b
         end; simpl;
    first [ by exists 0%nat; eexists; right
          | by exists 1%nat; eexists; right
          | by exists 2%nat; eexists; right
          | by exists 1%nat, (mkError ERROR_NONE EmptyString 0 0 None); left
          | by exists 2%nat, (mkError ERROR_NONE EmptyString 0 0 None); left
          | by exists 3%nat, (mkError ERROR_NONE EmptyString 0 0 None); left ].
Qed.

Lemma iter_advance_step (n : nat) (l : Lexer) :
  lexer_wf l → lexer_step l (Nat.iter n advance l).
Proof.
  intros Hwf. induction n as [|n IH]; simpl; eauto with lexer.
Qed.

Lemma iter_advance_remaining (n : nat) (l : Lexer) :
  lexer_wf l → Ascii.eqb (lexer_current_char l) NUL = false →
  (lexer_remaining (Nat.iter (S n) advance l) < lexer_remaining l)%nat.
Proof.
  intros Hwf Hnul. pose proof (lexer_wf_not_NUL l Hwf Hnul) as Hlt.
  pose proof (iter_advance_step n l Hwf) as [_ E Hpos].
  simpl. unfold lexer_remaining in *. rewrite advance_position.
  rewrite (step_source _ _ (advance_step _)), E. lia.
Qed.

(** [lexer_next_token] returns a token on every well-formed lexer, and a
    token other than end-of-input consumes at least one character. *)
Lemma lexer_next_token_total (l : Lexer) :
  lexer_wf l →
  ∃ token l', lexer_next_token l = Some (token, l')
    ∧ lexer_step l l'
    ∧ (token_type token ≠ TOKEN_EOF →
       (lexer_remaining l' < lexer_remaining l)%nat).
Proof.
  intros Hwf. unfold lexer_next_token.
  destruct (Ascii.eqb (lexer_current_char l) NUL) eqn:Hnul0.
  { eexists _, _. split_and!; [done|eauto with lexer|done]. }
  destruct (skip_whitespace_loop_total (lexer_fuel l) l Hwf) as (l1 & E1 & Hs1 & _).
  { unfold lexer_fuel, lexer_remaining. lia. }
  unfold skip_whitespace. rewrite E1. simpl.
  pose proof (step_wf _ _ Hs1) as Hwf1.
  pose proof (lexer_step_remaining _ _ Hs1) as Hrem1.
  destruct (Ascii.eqb (lexer_current_char l1) LF) eqn:Hlf.
  { eexists _, _. split_and!; [done|eauto with lexer|].
    intros _. eapply Nat.lt_le_trans; [apply advance_remaining|]; try done.
    apply Ascii.eqb_eq in Hlf. by rewrite Hlf. }
  destruct (Ascii.eqb (lexer_current_char l1) NUL) eqn:Hnul.
  { eexists _, _. split_and!; [done|eauto with lexer|done]. }
  pose proof (advance_remaining l1 Hwf1 Hnul) as Hadv.
  destruct (isalpha (lexer_current_char l1) || Ascii.eqb (lexer_current_char l1) "_")
    eqn:Hid.
  { unfold read_identifier, lexer_fuel. simpl. rewrite Hnul. simpl.
    replace (isalnum _ || _) with true.
    2:{ unfold isalnum. symmetry. apply orb_true_iff in Hid as [->| ->]; [done|].
        by rewrite orb_true_r. }
    edestruct (read_identifier_loop_total
                 (String.length (lexer_source l1) - lexer_position l1) (advance l1))
      as (l2 & lexeme & -> & Hs2 & _); [eauto with lexer|exact Hadv|].
    simpl. eexists _, _. split_and!; [done|eauto with lexer|].
    intros _. pose proof (lexer_step_remaining _ _ Hs2). lia. }
  destruct (isdigit (lexer_current_char l1)) eqn:Hdigit.
  { unfold read_number, lexer_fuel. simpl. rewrite Hnul, Hdigit. simpl.
    edestruct (read_number_loop_total
                 (String.length (lexer_source l1) - lexer_position l1) (advance l1))
      as (l2 & lexeme & d & -> & Hs2 & _); [eauto with lexer|exact Hadv|].
    simpl. eexists _, _. split_and!; [done|eauto with lexer|].
    intros _. pose proof (lexer_step_remaining _ _ Hs2). lia. }
  destruct (Ascii.eqb (lexer_current_char l1) DQUOTE) eqn:Hdq.
  { unfold read_string.
    edestruct (read_string_loop_total (lexer_fuel (advance l1)) (advance l1))
      as (l2 & content & -> & Hs2 & _ & _); [eauto with lexer| |].
    { unfold lexer_fuel, lexer_remaining. lia. }
    simpl. pose proof (lexer_step_remaining _ _ Hs2).
    pose proof (step_wf _ _ Hs2).
    destruct (Ascii.eqb (lexer_current_char l2) DQUOTE).
    - eexists _, _. split_and!; [done|eauto 6 with lexer|].
      intros _. pose proof (lexer_step_remaining _ _ (advance_step l2)). lia.
    - eexists _, _. split_and!; [done| |].
      + eapply lexer_step_trans; [|by apply lexer_set_error_step].
        eauto with lexer.
      + intros _. unfold lexer_remaining in *. simpl. lia. }
  destruct (Ascii.eqb (lexer_current_char l1) SQUOTE).
  { destruct (read_char l1) as [token l2] eqn:E.
    destruct (read_char_step l1) as (n & e & Hn). rewrite E in Hn. cbn [snd] in Hn.
    pose proof (iter_advance_step (S n) l1 Hwf1) as Hs2.
    pose proof (iter_advance_remaining n l1 Hwf1 Hnul) as Hr2.
    eexists _, _. split; [done|]. destruct Hn as [-> | ->].
    - split; [eauto with lexer|]. intros _. lia.
    - split.
      + eapply lexer_step_trans; [exact Hs1|].
        eapply lexer_step_trans; [exact Hs2|].
        apply lexer_set_error_step, Hs2.
      + intros _. unfold lexer_remaining in *. simpl in *. lia. }
  destruct (read_operator l1) as [token l2] eqn:E.
  destruct (read_operator_step l1) as (n & Hn). rewrite E in Hn. cbn [snd] in Hn.
  subst l2. eexists _, _. split; [done|].
  pose proof (iter_advance_step (S n) l1 Hwf1) as Hs2.
  pose proof (iter_advance_remaining n l1 Hwf1 Hnul) as Hr2.
  split; [eauto with lexer|]. intros _. lia.
Qed.

(* ------------------------------------------------------------------ *)
(** ** String literals (C4) and [lexer_peek_token] (C10) *)

(** The source from index [n] on. *)
Fixpoint string_drop (n : nat) (s : string) : string :=
  match n, s with
  | O, _ => s
  | S n', String _ s' => string_drop n' s'
  | S _, EmptyString => EmptyString
  end.

(** What the lexer has not consumed. *)
Definition lexer_rest (l : Lexer) : string :=
  string_drop (lexer_position l) (lexer_source l).

(** The text of a C string holds no NUL. *)
Fixpoint no_NUL (s : string) : bool :=
  match s with
  | EmptyString => true
  | String c rest => negb (Ascii.eqb c NUL) && no_NUL rest
  end.

(** The body of a string literal is the text behind its opening quote.
    [body_closed] tells whether a closing quote ends the literal before
    the end of the input: a backslash takes the next character with it. *)
Fixpoint body_closed (body : string) : bool :=
  match body with
  | EmptyString => false
  | String c rest =>
      if Ascii.eqb c DQUOTE then true
      else if Ascii.eqb c BACKSLASH then
        match rest with
        | EmptyString => false
        | String _ rest' => body_closed rest'
        end
      else body_closed rest
  end.

(** The characters a string literal with this body denotes: up to the
    closing quote or the end of the input, with the escapes replaced. *)
Fixpoint body_content (body : string) : string :=
  match body with
  | EmptyString => EmptyString
  | String c rest =>
      if Ascii.eqb c DQUOTE then EmptyString
      else if Ascii.eqb c BACKSLASH then
        match rest with
        | EmptyString => EmptyString
        | String c' rest' => String (string_escape c') (body_content rest')
        end
      else String c (body_content rest)
  end.

(** [read_string] stays inside the text on this body: the input does
    not end in a backslash that starts an escape.  Behind such a backslash
    the loop steps over the terminator and reads what lies behind the
    source. *)
Fixpoint body_in_bounds (body : string) : bool :=
  match body with
  | EmptyString => true
  | String c rest =>
      if Ascii.eqb c DQUOTE then true
      else if Ascii.eqb c BACKSLASH then
        match rest with
        | EmptyString => false
        | String _ rest' => body_in_bounds rest'
        end
      else body_in_bounds rest
  end.

(** The lexer stands inside its text or on the terminator. *)
Definition lexer_in_bounds (l : Lexer) : Prop :=
  (lexer_position l <= String.length (lexer_source l))%nat.

Lemma string_app_cons (x : ascii) (a b : string) :
  String x a +:+ b = String x (a +:+ b).
Proof. reflexivity. Qed.

Lemma string_app_assoc (a b c : string) : (a +:+ b) +:+ c = a +:+ (b +:+ c).
Proof.
  induction a as [|x a IH]; [done|]. by rewrite !string_app_cons, IH.
Qed.

Lemma string_app_nil_r (a : string) : a +:+ EmptyString = a.
Proof.
  induction a as [|x a IH]; [done|]. by rewrite string_app_cons, IH.
Qed.

Lemma string_drop_nil (n : nat) : string_drop n EmptyString = EmptyString.
Proof. by destruct n. Qed.

Lemma string_drop_S (n : nat) (s : string) :
  string_drop (S n) s = string_drop 1 (string_drop n s).
Proof.
  revert s. induction n as [|n IH]; intros s; [done|].
  destruct s as [|c s]; [done|]. change (string_drop (S (S n)) (String c s))
    with (string_drop (S n) s). by rewrite IH.
Qed.

Lemma char_at_drop (s : string) (n : nat) :
  char_at s n = match string_drop n s with
                | String c _ => c
                | EmptyString => NUL
                end.
Proof.
  revert s. induction n as [|n IH]; intros [|c s]; try done.
  apply (IH s).
Qed.

Lemma string_drop_length (s : string) (n : nat) :
  String.length (string_drop n s) = (String.length s - n)%nat.
Proof.
  revert s. induction n as [|n IH]; intros [|c s]; simpl; auto with lia.
Qed.

Lemma lexer_rest_cons (l : Lexer) (c : ascii) (rest : string) :
  lexer_wf l → lexer_rest l = String c rest →
  lexer_current_char l = c ∧ lexer_rest (advance l) = rest.
Proof.
  unfold lexer_wf, lexer_rest. intros Hwf E. split.
  - by rewrite Hwf, char_at_drop, E.
  - rewrite advance_position, (step_source _ _ (advance_step l)).
    by rewrite string_drop_S, E.
Qed.

Lemma lexer_rest_nil (l : Lexer) :
  lexer_wf l → lexer_rest l = EmptyString →
  lexer_current_char l = NUL ∧ lexer_rest (advance l) = EmptyString.
Proof.
  unfold lexer_wf, lexer_rest. intros Hwf E. split.
  - by rewrite Hwf, char_at_drop, E.
  - rewrite advance_position, (step_source _ _ (advance_step l)).
    by rewrite string_drop_S, E.
Qed.

Lemma lexer_rest_remaining (l : Lexer) :
  lexer_remaining l = String.length (lexer_rest l).
Proof. unfold lexer_rest, lexer_remaining. by rewrite string_drop_length. Qed.

(** The loop of [read_string] appends the content of the body to the
    buffer and stops at the closing quote, or at the terminator when the
    body is not closed. *)
Lemma read_string_loop_body (fuel : nat) (l : Lexer) (buffer : string) :
  lexer_wf l → no_NUL (lexer_rest l) = true →
  (String.length (lexer_rest l) < fuel)%nat →
  ∃ l', read_string_loop fuel l buffer
          = Some (l', buffer +:+ body_content (lexer_rest l))
        ∧ lexer_step l l' ∧ same_errors l l'
        ∧ lexer_current_char l'
          = if body_closed (lexer_rest l) then DQUOTE else NUL.
Proof.
  revert l buffer. induction (lt_wf fuel) as [fuel _ IH].
  intros l buffer Hwf Hnul Hfuel. destruct fuel as [|fuel]; [lia|].
  destruct (lexer_rest l) as [|c rest] eqn:Hrest.
  { destruct (lexer_rest_nil l Hwf Hrest) as [Hc _]. simpl. rewrite Hc. simpl.
    exists l. rewrite string_app_nil_r. eauto with lexer. }
  destruct (lexer_rest_cons l c rest Hwf Hrest) as [Hc Hadv].
  simpl in Hnul, Hfuel. apply andb_true_iff in Hnul as [Hcn Hnul].
  simpl. rewrite Hc. apply negb_true_iff in Hcn. rewrite Hcn. simpl.
  destruct (Ascii.eqb c DQUOTE) eqn:Hq; simpl.
  { exists l. rewrite string_app_nil_r. split_and!; eauto with lexer.
    by apply Ascii.eqb_eq in Hq; subst c. }
  assert (∀ l', same_errors (advance l) l' → same_errors l l') as Herr'.
  { intros l' [E1 E2]. destruct (advance_had_error l) as [E3 E4].
    split; congruence. }
  destruct (Ascii.eqb c BACKSLASH) eqn:Hb.
  - destruct rest as [|c' rest'].
    + destruct (lexer_rest_nil (advance l) (advance_wf l) Hadv) as [Hc' Hadv'].
      rewrite Hc'. simpl.
      destruct (IH fuel (Nat.lt_succ_diag_r _) (advance (advance l)) buffer)
        as (l' & -> & Hs & He & Hend);
        [eauto with lexer|by rewrite Hadv'|rewrite Hadv'; simpl in *; lia|].
      rewrite Hadv' in *. simpl in Hend. rewrite !string_app_nil_r.
      exists l'. split_and!; eauto 6 with lexer.
      apply Herr'. destruct He as [E1 E2].
      destruct (advance_had_error (advance l)) as [E3 E4]. split; congruence.
    + destruct (lexer_rest_cons (advance l) c' rest' (advance_wf l) Hadv)
        as [Hc' Hadv'].
      simpl in Hnul. apply andb_true_iff in Hnul as [Hcn' Hnul].
      rewrite Hc', Hcn'.
      destruct (IH fuel (Nat.lt_succ_diag_r _) (advance (advance l))
                  (string_buffer_append_char buffer (string_escape c')))
        as (l' & -> & Hs & He & Hend);
        [eauto with lexer|by rewrite Hadv'|rewrite Hadv'; simpl in *; lia|].
      rewrite Hadv' in *.
      exists l'. unfold string_buffer_append_char. rewrite string_app_assoc.
      split_and!; eauto 6 with lexer.
      apply Herr'. destruct He as [E1 E2].
      destruct (advance_had_error (advance l)) as [E3 E4]. split; congruence.
  - destruct (IH fuel (Nat.lt_succ_diag_r _) (advance l)
                (string_buffer_append_char buffer c))
      as (l' & -> & Hs & He & Hend);
      [eauto with lexer|by rewrite Hadv|rewrite Hadv; lia|].
    rewrite Hadv in *.
    exists l'. unfold string_buffer_append_char. rewrite string_app_assoc.
    split_and!; eauto 6 with lexer.
Qed.

Lemma advance_in_bounds (l : Lexer) (c : ascii) (rest : string) :
  lexer_rest l = String c rest → lexer_in_bounds (advance l).
Proof.
  intros Hrest. unfold lexer_in_bounds.
  rewrite advance_position, (step_source _ _ (advance_step l)).
  pose proof (lexer_rest_remaining l) as H. rewrite Hrest in H.
  unfold lexer_remaining in H. simpl in H. lia.
Qed.

(** On a body that is in bounds the loop of [read_string] stops inside the
    text. *)
Lemma read_string_loop_in_bounds (fuel : nat) (l : Lexer) (buffer : string) :
  lexer_wf l → lexer_in_bounds l → no_NUL (lexer_rest l) = true →
  body_in_bounds (lexer_rest l) = true →
  ∀ l' content,
    read_string_loop fuel l buffer = Some (l', content) → lexer_in_bounds l'.
Proof.
  revert l buffer. induction fuel as [|fuel IH];
    intros l buffer Hwf Hin Hnul Hbody l' content; [done|].
  destruct (lexer_rest l) as [|c rest] eqn:Hrest.
  { destruct (lexer_rest_nil l Hwf Hrest) as [Hc _]. simpl. rewrite Hc. simpl.
    by intros [= <- _]. }
  destruct (lexer_rest_cons l c rest Hwf Hrest) as [Hc Hadv].
  simpl in Hnul. apply andb_true_iff in Hnul as [Hcn Hnul].
  simpl. rewrite Hc. apply negb_true_iff in Hcn. rewrite Hcn. simpl.
  simpl in Hbody.
  destruct (Ascii.eqb c DQUOTE) eqn:Hq; simpl; [by intros [= <- _]|].
  destruct (Ascii.eqb c BACKSLASH) eqn:Hb.
  - destruct rest as [|c' rest']; [done|].
    destruct (lexer_rest_cons (advance l) c' rest' (advance_wf l) Hadv)
      as [Hc' Hadv'].
    simpl in Hnul. apply andb_true_iff in Hnul as [Hcn' Hnul].
    rewrite Hc', Hcn'.
    apply IH; [apply advance_wf|by eapply advance_in_bounds
              |by rewrite Hadv'|by rewrite Hadv'].
  - apply IH; [apply advance_wf|by eapply advance_in_bounds
              |by rewrite Hadv|by rewrite Hadv].
Qed.

(** On a body that is not in bounds the loop of [read_string] calls
    [advance] on the terminator: the lexer leaves the text, and the C
    program reads behind the block of its source. *)
Lemma read_string_loop_out_of_bounds (fuel : nat) (l : Lexer) (buffer : string) :
  lexer_wf l → lexer_in_bounds l → no_NUL (lexer_rest l) = true →
  body_in_bounds (lexer_rest l) = false →
  ∀ l' content,
    read_string_loop fuel l buffer = Some (l', content) → ¬ lexer_in_bounds l'.
Proof.
  revert l buffer. induction fuel as [|fuel IH];
    intros l buffer Hwf Hin Hnul Hbody l' content; [done|].
  destruct (lexer_rest l) as [|c rest] eqn:Hrest; [done|].
  destruct (lexer_rest_cons l c rest Hwf Hrest) as [Hc Hadv].
  simpl in Hnul. apply andb_true_iff in Hnul as [Hcn Hnul].
  simpl. rewrite Hc. apply negb_true_iff in Hcn. rewrite Hcn. simpl.
  simpl in Hbody.
  destruct (Ascii.eqb c DQUOTE) eqn:Hq; simpl; [done|].
  destruct (Ascii.eqb c BACKSLASH) eqn:Hb.
  - destruct rest as [|c' rest'].
    + destruct (lexer_rest_nil (advance l) (advance_wf l) Hadv) as [Hc' Hadv'].
      rewrite Hc'. simpl. intros Hloop.
      assert (lexer_step (advance (advance l)) l') as Hstep.
      { destruct (read_string_loop_total fuel (advance (advance l)) buffer)
          as (l2 & b2 & E2 & Hs & _); [apply advance_wf|..].
        - unfold lexer_remaining.
          rewrite advance_position, (step_source _ _ (advance_step (advance l))).
          pose proof (lexer_rest_remaining (advance l)) as H.
          rewrite Hadv in H. unfold lexer_remaining in H. simpl in H.
          destruct fuel; [done|]. lia.
        - rewrite E2 in Hloop. by injection Hloop as <- _. }
      unfold lexer_in_bounds. pose proof (step_position _ _ Hstep) as Hpos.
      rewrite (step_source _ _ Hstep),
        (step_source _ _ (advance_step (advance l))),
        (step_source _ _ (advance_step l)).
      rewrite !advance_position in Hpos.
      pose proof (lexer_rest_remaining (advance l)) as H.
      rewrite Hadv in H. unfold lexer_remaining in H. simpl in H.
      rewrite advance_position, (step_source _ _ (advance_step l)) in H.
      unfold lexer_in_bounds in Hin. lia.
    + destruct (lexer_rest_cons (advance l) c' rest' (advance_wf l) Hadv)
        as [Hc' Hadv'].
      simpl in Hnul. apply andb_true_iff in Hnul as [Hcn' Hnul].
      rewrite Hc', Hcn'.
      apply IH; [apply advance_wf|by eapply advance_in_bounds
                |by rewrite Hadv'|by rewrite Hadv'].
  - apply IH; [apply advance_wf|by eapply advance_in_bounds
              |by rewrite Hadv|by rewrite Hadv].
Qed.

(** On a lexer that stands on a double quote, [lexer_next_token] is
    [read_string]. *)
Lemma lexer_next_token_at_quote (l : Lexer) :
  lexer_current_char l = DQUOTE → lexer_next_token l = read_string l.
Proof.
  intros Hc. unfold lexer_next_token, skip_whitespace, lexer_fuel.
  rewrite Hc. simpl. rewrite Hc. simpl. by rewrite Hc.
Qed.

(** [read_string] in one piece: the token is quote, content, quote, with
    the content as its literal. *)
Lemma read_string_eq (l : Lexer) :
  read_string l =
    '(l1, content) ← read_string_loop (lexer_fuel (advance l)) (advance l) EmptyString;
    Some (mkToken TOKEN_STRING_LITERAL
            (String DQUOTE (content +:+ String DQUOTE EmptyString))
            (lexer_line l) (lexer_column l) (LitString content),
          if Ascii.eqb (lexer_current_char l1) DQUOTE then advance l1
          else lexer_set_error l1
                 (error_create ERROR_LEXICAL "Unterminated string literal"
                    (lexer_line l) (lexer_column l) None)).
Proof.
  unfold read_string.
  destruct (read_string_loop _ _ _) as [[l1 content]|]; [|done].
  unfold token_create_with_literal. cbn [mbind option_bind].
  by destruct (_ <=? _)%nat.
Qed.

(** The token and the lexer [read_string] returns on an unterminated
    literal with this body, the literal starting where [l] stands. *)
Definition unterminated_string_token (l : Lexer) (body : string) : Token :=
  mkToken TOKEN_STRING_LITERAL
    (String DQUOTE (body_content body +:+ String DQUOTE EmptyString))
    (lexer_line l) (lexer_column l) (LitString (body_content body)).

Definition unterminated_string_error (l : Lexer) : Error :=
  error_create ERROR_LEXICAL "Unterminated string literal"
    (lexer_line l) (lexer_column l) None.

Lemma read_string_unterminated (l : Lexer) (body : string) :
  lexer_wf l →
  lexer_rest l = String DQUOTE body →
  no_NUL body = true →
  body_closed body = false →
  ∃ l',
    lexer_next_token l = Some (unterminated_string_token l body, l')
    ∧ lexer_had_error l' = true
    ∧ lexer_get_last_error l' = Some (unterminated_string_error l)
    ∧ lexer_current_char l' = NUL.
Proof.
  intros Hwf Hrest Hnul Hopen.
  destruct (lexer_rest_cons l DQUOTE body Hwf Hrest) as [Hc Hadv].
  rewrite (lexer_next_token_at_quote l Hc), read_string_eq.
  destruct (read_string_loop_body (lexer_fuel (advance l)) (advance l) EmptyString)
    as (l1 & E & Hstep & Herr & Hend).
  - apply advance_wf.
  - by rewrite Hadv.
  - rewrite <- lexer_rest_remaining. unfold lexer_fuel, lexer_remaining. lia.
  - rewrite E, Hadv in *. rewrite Hopen in Hend.
    cbn [mbind option_bind]. rewrite Hend.
    eexists. split_and!; done.
Qed.

(** On a body that is in bounds, [lexer_next_token] on a string literal
    leaves the lexer inside the text. *)
Lemma read_string_in_bounds (l : Lexer) (body : string) (t : Token) (l' : Lexer) :
  lexer_wf l →
  lexer_rest l = String DQUOTE body →
  no_NUL body = true →
  body_closed body = false →
  body_in_bounds body = true →
  lexer_next_token l = Some (t, l') → lexer_in_bounds l'.
Proof.
  intros Hwf Hrest Hnul Hopen Hbody.
  destruct (lexer_rest_cons l DQUOTE body Hwf Hrest) as [Hc Hadv].
  rewrite (lexer_next_token_at_quote l Hc), read_string_eq.
  destruct (read_string_loop_body (lexer_fuel (advance l)) (advance l) EmptyString)
    as (l1 & E & Hstep & Herr & Hend).
  - apply advance_wf.
  - by rewrite Hadv.
  - rewrite <- lexer_rest_remaining. unfold lexer_fuel, lexer_remaining. lia.
  - pose proof (read_string_loop_in_bounds (lexer_fuel (advance l)) (advance l)
                  EmptyString (advance_wf l) (advance_in_bounds l _ _ Hrest))
      as Hin.
    rewrite Hadv in Hin, Hend. specialize (Hin Hnul Hbody _ _ E).
    rewrite E. cbn [mbind option_bind]. rewrite Hopen in Hend. rewrite Hend.
    by intros [= _ <-].
Qed.

(** On a body that is not in bounds, [lexer_next_token] on a string
    literal has left the text: what the C program returns there is not
    defined. *)
Lemma read_string_out_of_bounds (l : Lexer) (body : string) (t : Token)
    (l' : Lexer) :
  lexer_wf l →
  lexer_rest l = String DQUOTE body →
  no_NUL body = true →
  body_in_bounds body = false →
  lexer_next_token l = Some (t, l') → ¬ lexer_in_bounds l'.
Proof.
  intros Hwf Hrest Hnul Hbody.
  destruct (lexer_rest_cons l DQUOTE body Hwf Hrest) as [Hc Hadv].
  rewrite (lexer_next_token_at_quote l Hc), read_string_eq.
  destruct (read_string_loop _ (advance l) EmptyString) as [[l1 content]|] eqn:E;
    [|done].
  pose proof (read_string_loop_out_of_bounds (lexer_fuel (advance l)) (advance l)
                EmptyString (advance_wf l) (advance_in_bounds l _ _ Hrest))
    as Hout.
  rewrite Hadv in Hout. specialize (Hout Hnul Hbody _ _ E).
  cbn [mbind option_bind]. intros [= _ <-]. intros Hin. apply Hout.
  unfold lexer_in_bounds in *.
  destruct (Ascii.eqb (lexer_current_char l1) DQUOTE); [|done].
  rewrite advance_position, (step_source _ _ (advance_step l1)) in Hin. lia.
Qed.





End LexerProperties.

(* ================================================================== *)
(** * The parser *)
(* ================================================================== *)

Section ParserProperties.

(** One unfolding of each function of the expression parser. *)
Lemma parser_parse_expression_S (fuel : nat) (parser : Parser) :
  parser_parse_expression (S fuel) parser =
    match parser_current_token parser with
    | None => Some (ast_node_create NODE_ERROR None, parser)
    | Some _ => parser_parse_expression_precedence fuel parser 1
    end.
Proof. reflexivity. Qed.

Lemma parser_parse_expression_precedence_S (fuel : nat) (parser : Parser)
    (precedence : Z) :
  parser_parse_expression_precedence (S fuel) parser precedence =
    match parser_current_token parser with
    | None => Some (ast_node_create NODE_ERROR None, parser)
    | Some _ =>
        '(left_, parser) ← parser_parse_primary fuel parser;
        if is_error_node left_ then Some (left_, parser)
        else parser_binary_loop fuel parser left_ precedence
    end.
Proof. reflexivity. Qed.

Lemma parser_binary_loop_S (fuel : nat) (parser : Parser) (left : ASTNode)
    (precedence : Z) :
  parser_binary_loop (S fuel) parser left precedence =
    match parser_current_token parser with
    | None => Some (left, parser)
    | Some token =>
        if negb (parser_is_binary_operator (token_type token))
        then Some (left, parser)
        else
          if parser_get_precedence (token_type token) <? precedence
          then Some (left, parser)
          else
            parser ← parser_advance parser;
            '(right_, parser) ←
              parser_parse_expression_precedence fuel parser
                (parser_get_precedence (token_type token) + 1);
            if is_error_node right_ then Some (right_, parser)
            else
              parser_binary_loop fuel parser
                (ast_node_create_binary (Some token) (Some left) (Some right_)
                   (Some (token_lexeme token)))
                precedence
    end.
Proof. reflexivity. Qed.

Lemma parser_parse_primary_S (fuel : nat) (parser : Parser) :
  parser_parse_primary (S fuel) parser =
    match parser_current_token parser with
    | None => Some (ast_node_create NODE_ERROR None, parser)
    | Some token =>
        if decide (token_type token = TOKEN_LEFT_PAREN) then
          parser ← parser_advance parser;
          '(expr, parser) ← parser_parse_expression fuel parser;
          if is_error_node expr then Some (expr, parser)
          else
            let closing_paren := parser_current_token parser in
            if bool_decide (token_type <$> closing_paren = Some TOKEN_RIGHT_PAREN)
            then
              parser ← parser_advance parser;
              Some (expr, parser)
            else
              Some (ast_node_create NODE_ERROR closing_paren,
                    parser_set_error parser
                      (error_create ERROR_SYNTAX "Expected closing parenthesis"
                         (from_option token_line 0%nat closing_paren)
                         (from_option token_column 0%nat closing_paren)
                         (token_lexeme <$> closing_paren)))
        else
          match primary_node token with
          | Some node =>
              parser ← parser_advance parser;
              Some (node, parser)
          | None =>
              Some (ast_node_create NODE_ERROR (Some token),
                    parser_set_error parser
                      (error_create ERROR_SYNTAX "Unexpected token in expression"
                         (token_line token) (token_column token)
                         (Some (token_lexeme token))))
          end
    end.
Proof. reflexivity. Qed.

(** The weight of a parser state bounds the tokens other than
    end-of-input that are still to come: the characters the lexer has left,
    and one for a current token that is not end-of-input. *)
Definition token_weight (token : option Token) : nat :=
  match token with
  | Some token => if decide (token_type token = TOKEN_EOF) then 0 else 1
  | None => 0
  end.

Definition parser_weight (p : Parser) : nat :=
  lexer_remaining (parser_lexer p) + token_weight (parser_current_token p).

Definition parser_wf (p : Parser) : Prop := lexer_wf (parser_lexer p).

(** [p'] is a later state of [p]: well formed and no heavier. *)
Definition parser_le (p p' : Parser) : Prop :=
  parser_wf p' ∧ (parser_weight p' <= parser_weight p)%nat.

Lemma parser_advance_total (p : Parser) :
  parser_wf p →
  ∃ p', parser_advance p = Some p' ∧ parser_wf p'
        ∧ (parser_weight p' <= lexer_remaining (parser_lexer p))%nat
        ∧ parser_had_error p' = parser_had_error p
        ∧ parser_last_error p' = parser_last_error p
        ∧ is_Some (parser_current_token p').
Proof.
  intros Hwf. unfold parser_advance.
  destruct (lexer_next_token_total _ Hwf) as (token & l' & -> & Hstep & Hprog).
  simpl. eexists. split_and!; try done; [apply Hstep|].
  unfold parser_weight, token_weight. simpl.
  pose proof (lexer_step_remaining _ _ Hstep).
  destruct (decide (token_type token = TOKEN_EOF)); [lia|].
  specialize (Hprog n). lia.
Qed.

Lemma parser_set_error_le (p : Parser) (e : Error) :
  parser_wf p → parser_le p (parser_set_error p e).
Proof. intros Hwf. by split. Qed.

(** A current token that opens a parenthesis or is a binary operator
    weighs one. *)
Lemma token_weight_not_eof (token : Token) :
  token_type token ≠ TOKEN_EOF → token_weight (Some token) = 1%nat.
Proof. intros H. unfold token_weight. by destruct (decide _). Qed.

Lemma primary_node_not_eof (token : Token) (node : ASTNode) :
  primary_node token = Some node → token_type token ≠ TOKEN_EOF.
Proof. unfold primary_node. by destruct (token_type token). Qed.

Lemma binary_operator_not_eof (token : Token) :
  parser_is_binary_operator (token_type token) = true →
  token_type token ≠ TOKEN_EOF.
Proof. by destruct (token_type token). Qed.

(** The four functions return a result when the fuel covers the weight. *)
Lemma parser_functions_total (fuel : nat) :
  (∀ p, parser_wf p → (3 * parser_weight p + 1 <= fuel)%nat →
     ∃ node p', parser_parse_primary fuel p = Some (node, p') ∧ parser_le p p')
  ∧ (∀ p left precedence, parser_wf p → (3 * parser_weight p + 1 <= fuel)%nat →
     ∃ node p', parser_binary_loop fuel p left precedence = Some (node, p')
                ∧ parser_le p p')
  ∧ (∀ p precedence, parser_wf p → (3 * parser_weight p + 2 <= fuel)%nat →
     ∃ node p', parser_parse_expression_precedence fuel p precedence = Some (node, p')
                ∧ parser_le p p')
  ∧ (∀ p, parser_wf p → (3 * parser_weight p + 3 <= fuel)%nat →
     ∃ node p', parser_parse_expression fuel p = Some (node, p') ∧ parser_le p p').
Proof.
  induction fuel as [|fuel (IHprimary & IHloop & IHprec & IHexpr)].
  { split_and!; intros; lia. }
  split_and!.
  - (* parser_parse_primary *)
    intros p Hwf Hfuel. rewrite parser_parse_primary_S.
    destruct (parser_current_token p) as [token|] eqn:Htoken;
      [|by eexists _, _; split; [done|split]].
    destruct (parser_advance_total p Hwf)
      as (p1 & Hadv & Hwf1 & Hw1 & _ & _ & _).
    assert (token_type token ≠ TOKEN_EOF → parser_weight p1 < parser_weight p)%nat
      as Hlt.
    { intros Hne. unfold parser_weight at 2.
      rewrite Htoken, (token_weight_not_eof token Hne). lia. }
    destruct (decide (token_type token = TOKEN_LEFT_PAREN)) as [Hparen|_].
    + rewrite Hadv. cbn [mbind option_bind].
      assert (parser_weight p1 < parser_weight p)%nat as Hlt1
        by (apply Hlt; by rewrite Hparen).
      destruct (IHexpr p1 Hwf1) as (expr & p2 & -> & Hwf2 & Hw2); [lia|].
      cbn [mbind option_bind].
      destruct (is_error_node expr); [eexists _, _; split; [done|split; [done|lia]]|].
      cbv zeta. destruct (bool_decide _).
      * destruct (parser_advance_total p2 Hwf2)
          as (p3 & -> & Hwf3 & Hw3 & _ & _ & _).
        eexists _, _; split; [done|]. split; [done|].
        unfold parser_weight in Hw2 at 1. lia.
      * eexists _, _; split; [done|]. split; [done|].
        change (parser_weight (parser_set_error p2 _)) with (parser_weight p2). lia.
    + destruct (primary_node token) as [node|] eqn:Hnode.
      * rewrite Hadv. eexists _, _; split; [done|]. split; [done|].
        specialize (Hlt (primary_node_not_eof _ _ Hnode)). lia.
      * eexists _, _; split; [done|]. by apply parser_set_error_le.
  - (* parser_binary_loop *)
    intros p left precedence Hwf Hfuel. rewrite parser_binary_loop_S.
    destruct (parser_current_token p) as [token|] eqn:Htoken;
      [|by eexists _, _; split; [done|split]].
    destruct (parser_is_binary_operator (token_type token)) eqn:Hop; simpl;
      [|by eexists _, _; split; [done|split]].
    destruct (_ <? _); [by eexists _, _; split; [done|split]|].
    destruct (parser_advance_total p Hwf)
      as (p1 & -> & Hwf1 & Hw1 & _ & _ & _).
    assert (parser_weight p1 < parser_weight p)%nat as Hlt.
    { unfold parser_weight at 2.
      rewrite Htoken, (token_weight_not_eof token (binary_operator_not_eof _ Hop)).
      lia. }
    cbn [mbind option_bind].
    destruct (IHprec p1 (parser_get_precedence (token_type token) + 1) Hwf1)
      as (right_ & p2 & -> & Hwf2 & Hw2); [lia|].
    cbn [mbind option_bind].
    destruct (is_error_node right_); [eexists _, _; split; [done|split; [done|lia]]|].
    edestruct (IHloop p2) as (node & p3 & -> & Hwf3 & Hw3); [done|lia|].
    eexists _, _; split; [done|split; [done|lia]].
  - (* parser_parse_expression_precedence *)
    intros p precedence Hwf Hfuel. rewrite parser_parse_expression_precedence_S.
    destruct (parser_current_token p) as [token|] eqn:Htoken;
      [|by eexists _, _; split; [done|split]].
    destruct (IHprimary p Hwf) as (left_ & p1 & -> & Hwf1 & Hw1); [lia|].
    cbn [mbind option_bind].
    destruct (is_error_node left_); [by eexists _, _; split; [done|split]|].
    edestruct (IHloop p1) as (node & p2 & -> & Hwf2 & Hw2); [done|lia|].
    eexists _, _; split; [done|split; [done|lia]].
  - (* parser_parse_expression *)
    intros p Hwf Hfuel. rewrite parser_parse_expression_S.
    destruct (parser_current_token p) as [token|] eqn:Htoken;
      [|by eexists _, _; split; [done|split]].
    destruct (IHprec p 1 Hwf) as (node & p1 & -> & Hle); [lia|].
    by eexists _, _.
Qed.

Lemma parser_advance_current (p p' : Parser) :
  parser_advance p = Some p' →
  is_Some (parser_current_token p')
  ∧ parser_had_error p' = parser_had_error p
  ∧ parser_last_error p' = parser_last_error p.
Proof.
  unfold parser_advance. destruct (lexer_next_token _) as [[token l]|]; [|done].
  intros [= <-]. simpl. by split_and!; [eexists|..].
Qed.

Lemma primary_node_not_error (token : Token) (node : ASTNode) :
  primary_node token = Some node → is_error_node node = false.
Proof.
  unfold primary_node. destruct (token_type token); try done; by intros [= <-].
Qed.

(** The error flag is set and a diagnostic is kept. *)
Definition parser_flagged (p : Parser) : Prop :=
  parser_had_error p = true ∧ is_Some (parser_last_error p).

(** Below [parser_parse], a node of kind Error comes with the flag set. *)
Lemma parser_functions_flag_errors (fuel : nat) :
  (∀ p node p', is_Some (parser_current_token p) →
     parser_parse_primary fuel p = Some (node, p') →
     is_error_node node = true → parser_flagged p')
  ∧ (∀ p left precedence node p', is_error_node left = false →
     parser_binary_loop fuel p left precedence = Some (node, p') →
     is_error_node node = true → parser_flagged p')
  ∧ (∀ p precedence node p', is_Some (parser_current_token p) →
     parser_parse_expression_precedence fuel p precedence = Some (node, p') →
     is_error_node node = true → parser_flagged p')
  ∧ (∀ p node p', is_Some (parser_current_token p) →
     parser_parse_expression fuel p = Some (node, p') →
     is_error_node node = true → parser_flagged p').
Proof.
  induction fuel as [|fuel (IHprimary & IHloop & IHprec & IHexpr)].
  { by split_and!. }
  split_and!.
  - intros p node p' [token Htoken]. rewrite parser_parse_primary_S, Htoken.
    destruct (decide (token_type token = TOKEN_LEFT_PAREN)) as [Hparen|_].
    + destruct (parser_advance p) as [p1|] eqn:Hadv; [|done].
      cbn [mbind option_bind].
      destruct (parser_parse_expression fuel p1) as [[expr p2]|] eqn:Hexpr; [|done].
      cbn [mbind option_bind].
      destruct (is_error_node expr) eqn:Herr.
      * intros [= <- <-] _. eapply IHexpr; [|done..].
        apply (parser_advance_current _ _ Hadv).
      * cbv zeta. destruct (bool_decide _).
        -- destruct (parser_advance p2); [|done]. intros [= <- <-]. congruence.
        -- intros [= <- <-] _. by split; [|eexists].
    + destruct (primary_node token) as [node0|] eqn:Hnode.
      * destruct (parser_advance p); [|done]. intros [= <- <-].
        rewrite (primary_node_not_error _ _ Hnode). done.
      * intros [= <- <-] _. by split; [|eexists].
  - intros p left precedence node p' Hleft. rewrite parser_binary_loop_S.
    destruct (parser_current_token p) as [token|]; [|intros [= <- <-]; congruence].
    destruct (negb _); [intros [= <- <-]; congruence|].
    destruct (_ <? _); [intros [= <- <-]; congruence|].
    destruct (parser_advance p) as [p1|] eqn:Hadv; [|done].
    cbn [mbind option_bind].
    destruct (parser_parse_expression_precedence fuel p1 _)
      as [[right_ p2]|] eqn:Hright; [|done].
    cbn [mbind option_bind].
    destruct (is_error_node right_) eqn:Herr.
    + intros [= <- <-] _. eapply IHprec; [|done..].
      apply (parser_advance_current _ _ Hadv).
    + apply IHloop. done.
  - intros p precedence node p' [token Htoken].
    rewrite parser_parse_expression_precedence_S, Htoken.
    destruct (parser_parse_primary fuel p) as [[left_ p1]|] eqn:Hprimary; [|done].
    cbn [mbind option_bind].
    destruct (is_error_node left_) eqn:Herr.
    + intros [= <- <-] _. eapply IHprimary; [|done..]. by eexists.
    + by apply IHloop.
  - intros p node p' [token Htoken]. rewrite parser_parse_expression_S, Htoken.
    apply IHprec. by eexists.
Qed.

(** The type of the first token of a source text. *)
Definition first_token_type (source : string) : option TokenType :=
  (λ r, token_type r.1) <$> lexer_next_token (lexer_create source).

(** C5 (amended).  [parser_parse] on a fresh parser returns a node for
    every source text.  When the first token is end-of-input (an empty or
    blank text) the node is a bare Error node and neither the error flag nor
    a diagnostic is set; for every other text, a node of kind Error comes
    with the flag set and a diagnostic kept. *)
Theorem C5_parse_returns_node_and_flags_errors (source : string) :
  ∃ node p',
    parse_source source = Some (node, p')
    ∧ if decide (first_token_type source = Some TOKEN_EOF)
      then node = ast_node_create NODE_ERROR None
           ∧ parser_had_error p' = false
           ∧ parser_last_error p' = None
      else node_type node = NODE_ERROR →
           parser_had_error p' = true ∧ is_Some (parser_last_error p').
Proof.
  unfold parse_source, parser_parse, first_token_type.
  set (p0 := parser_create (lexer_create source)).
  assert (parser_wf p0) as Hwf0 by apply lexer_create_wf.
  destruct (parser_advance_total p0 Hwf0)
    as (p1 & Hadv & Hwf1 & Hw1 & Hflag & Hlast & [token Htoken]).
  change (parser_current_token p0) with (@None Token). rewrite Hadv.
  cbn [mbind option_bind]. rewrite Htoken.
  assert (lexer_next_token (lexer_create source)
          = Some (token, parser_lexer p1)) as ->.
  { revert Hadv Htoken. unfold parser_advance. simpl.
    destruct (lexer_next_token _) as [[t l]|]; [|done].
    intros [= <-]. simpl. by intros [= ->]. }
  simpl. destruct (decide (token_type token = TOKEN_EOF)) as [Heof|Hne].
  - eexists _, _. split; [done|].
    rewrite decide_True by (by rewrite Heof).
    by rewrite Hflag, Hlast.
  - destruct (decide (Some (token_type token) = Some TOKEN_EOF)); [congruence|].
    destruct (parser_functions_total (parser_fuel p0))
      as (_ & _ & _ & Htotal).
    destruct (Htotal p1 Hwf1) as (node & p' & E & _).
    { unfold parser_fuel. fold (lexer_remaining (parser_lexer p0)). lia. }
    exists node, p'. split; [done|]. intros Herr.
    destruct (parser_functions_flag_errors (parser_fuel p0)) as (_ & _ & _ & Hflagged).
    apply (Hflagged p1 node p'); [by eexists|done|].
    unfold is_error_node. by rewrite bool_decide_eq_true.
Qed.

(** The empty text: an Error node, no flag, no diagnostic. *)
Lemma C5_empty_input_counterexample :
  ∃ node p',
    parse_source "" = Some (node, p')
    ∧ node_type node = NODE_ERROR
    ∧ parser_had_error p' = false
    ∧ parser_last_error p' = None.
Proof. by eexists _, _. Qed.

(* ------------------------------------------------------------------ *)
(** ** Precedence and associativity (C2, C3) *)

(** The lexer yields these tokens, one call of [lexer_next_token] each,
    and is left in the state [l']. *)
Fixpoint lexer_run (l : Lexer) (tokens : list Token) (l' : Lexer) : Prop :=
  match tokens with
  | [] => l' = l
  | token :: rest =>
      ∃ l1, lexer_next_token l = Some (token, l1) ∧ lexer_run l1 rest l'
  end.

(** The parser [p] with another lexer state and current token. *)
Definition parser_with (p : Parser) (l : Lexer) (token : Token) : Parser :=
  mkParser l (Some token) (parser_peek_token p) (parser_had_error p)
    (parser_last_error p).

(** The node of an operand token and the node of a binary operation. *)
Definition operand_node (token : Token) : ASTNode :=
  default (ast_node_create NODE_ERROR (Some token)) (primary_node token).

Definition binary_node (op : Token) (l r : ASTNode) : ASTNode :=
  ast_node_create_binary (Some op) (Some l) (Some r) (Some (token_lexeme op)).

(** The left-associated tree of [left op1 b1 op2 b2 ...]. *)
Definition left_assoc (left : ASTNode) (pairs : list (Token * Token)) : ASTNode :=
  fold_left (λ acc pair, binary_node pair.1 acc (operand_node pair.2)) pairs left.

(** An expression as a tree of tokens, and the expression a node holds,
    read from the members of the node: the type, the token, and for a
    BinaryExpression the two operands and the operator text.  A node of
    another type, or one that lacks a member, holds none. *)
Inductive Expression :=
| Operand (token : Token)
| Binary (operator : Token) (text : string) (left right : Expression).

Fixpoint expression_of (node : ASTNode) : option Expression :=
  match node with
  | mkNode NODE_BINARY_EXPRESSION (Some operator) _
      (DataBinary (Some l) (Some r) (Some text)) _ _ =>
      match expression_of l, expression_of r with
      | Some el, Some er => Some (Binary operator text el er)
      | _, _ => None
      end
  | mkNode NODE_LITERAL (Some token) _ _ _ _
  | mkNode NODE_IDENTIFIER (Some token) _ _ _ _ => Some (Operand token)
  | _ => None
  end.


(** The tokens of [op1 b1 op2 b2 ...]. *)
Definition chain_tokens (pairs : list (Token * Token)) : list Token :=
  flat_map (λ pair, [pair.1; pair.2]) pairs.

(** Every operator of the chain is a binary operator of precedence [q] and
    every operand is a literal, an identifier, [true] or [false]. *)
Definition chain_of (q : Z) (pairs : list (Token * Token)) : Prop :=
  Forall (λ pair,
            parser_is_binary_operator (token_type pair.1) = true
            ∧ parser_get_precedence (token_type pair.1) = q
            ∧ is_Some (primary_node pair.2)) pairs.

(** A token at which the loop of [parser_parse_expression_precedence]
    stops. *)
Definition stops_loop (precedence : Z) (token : Token) : Prop :=
  parser_is_binary_operator (token_type token) = false
  ∨ parser_get_precedence (token_type token) < precedence.

Lemma parser_advance_with (p : Parser) (l l' : Lexer) (t t' : Token) :
  lexer_next_token l = Some (t', l') →
  parser_advance (parser_with p l t) = Some (parser_with p l' t').
Proof.
  intros E. unfold parser_advance. cbn [parser_with parser_lexer].
  by rewrite E.
Qed.

Lemma primary_node_not_paren (token : Token) (node : ASTNode) :
  primary_node token = Some node → token_type token ≠ TOKEN_LEFT_PAREN.
Proof. unfold primary_node. by destruct (token_type token). Qed.

Lemma operand_node_primary (token : Token) (node : ASTNode) :
  primary_node token = Some node → operand_node token = node.
Proof. intros E. unfold operand_node. by rewrite E. Qed.

Lemma parse_primary_operand (fuel : nat) (p : Parser) (l l' : Lexer)
    (a t : Token) :
  is_Some (primary_node a) →
  lexer_next_token l = Some (t, l') →
  parser_parse_primary (S fuel) (parser_with p l a)
  = Some (operand_node a, parser_with p l' t).
Proof.
  intros [na Ha] E. rewrite parser_parse_primary_S. simpl.
  rewrite decide_False by (by eapply primary_node_not_paren).
  rewrite Ha, (parser_advance_with p l l' a t E).
  by rewrite (operand_node_primary a na).
Qed.

Lemma binary_loop_stops (fuel : nat) (p : Parser) (l : Lexer) (t : Token)
    (left : ASTNode) (precedence : Z) :
  stops_loop precedence t →
  parser_binary_loop (S fuel) (parser_with p l t) left precedence
  = Some (left, parser_with p l t).
Proof.
  intros Hstop. rewrite parser_binary_loop_S.
  cbn [parser_with parser_current_token]. fold (parser_with p l t).
  destruct (parser_is_binary_operator (token_type t)) eqn:Hop; [|done].
  cbn [negb]. destruct Hstop as [|Hlt]; [congruence|].
  apply Z.ltb_lt in Hlt. by rewrite Hlt.
Qed.

Lemma operand_node_not_error (a : Token) :
  is_Some (primary_node a) → is_error_node (operand_node a) = false.
Proof.
  intros [na Ha]. rewrite (operand_node_primary a na Ha).
  by eapply primary_node_not_error.
Qed.

(** An operand followed by a token that stops the loop. *)
Lemma parse_operand_then_stop (fuel : nat) (p : Parser) (l l' : Lexer)
    (a t : Token) (precedence : Z) :
  is_Some (primary_node a) →
  lexer_next_token l = Some (t, l') →
  stops_loop precedence t →
  parser_parse_expression_precedence (S (S fuel)) (parser_with p l a) precedence
  = Some (operand_node a, parser_with p l' t).
Proof.
  intros Ha E Hstop. rewrite parser_parse_expression_precedence_S.
  cbn [parser_with parser_current_token].
  fold (parser_with p l a).
  rewrite (parse_primary_operand fuel p l l' a t Ha E).
  cbn [mbind option_bind]. rewrite (operand_node_not_error a Ha).
  by apply binary_loop_stops.
Qed.

(** The state of the loop in front of a chain: the current token is the
    first operator (or [stop] for the empty chain) and the lexer yields the
    rest of the chain, then [stop], and is left in [l_end]. *)
Fixpoint chain_run (l : Lexer) (current : Token) (pairs : list (Token * Token))
    (stop : Token) (l_end : Lexer) : Prop :=
  match pairs with
  | [] => current = stop ∧ l_end = l
  | (op, operand) :: rest =>
      current = op
      ∧ ∃ l1 l2 next,
          lexer_next_token l = Some (operand, l1)
          ∧ lexer_next_token l1 = Some (next, l2)
          ∧ chain_run l2 next rest stop l_end
  end.

Lemma chain_run_head (l : Lexer) (current : Token) (pairs : list (Token * Token))
    (q : Z) (stop : Token) (l_end : Lexer) (precedence : Z) :
  chain_of q pairs → chain_run l current pairs stop l_end →
  q < precedence → stops_loop precedence stop →
  stops_loop precedence current.
Proof.
  intros Hchain Hrun Hq Hstop. destruct pairs as [|[op operand] rest].
  - destruct Hrun as [-> _]. done.
  - destruct Hrun as [-> _]. apply Forall_cons in Hchain as [(_ & Hprec & _) _].
    cbn [fst] in Hprec. right. lia.
Qed.

(** The loop on a chain of operators of one precedence builds the
    left-associated tree. *)
Lemma binary_loop_chain (q precedence : Z) (stop : Token) (l_end : Lexer)
    (p : Parser) (pairs : list (Token * Token)) :
  precedence <= q → stops_loop precedence stop →
  ∀ (fuel : nat) (l : Lexer) (current : Token) (left : ASTNode),
    chain_of q pairs → chain_run l current pairs stop l_end →
    (length pairs + 2 <= fuel)%nat →
    parser_binary_loop fuel (parser_with p l current) left precedence
    = Some (left_assoc left pairs, parser_with p l_end stop).
Proof.
  intros Hq Hstop. induction pairs as [|[op b] rest IH];
    intros fuel l current left Hchain Hrun Hfuel.
  - destruct Hrun as [-> ->]. destruct fuel as [|fuel]; [simpl in Hfuel; lia|].
    by apply binary_loop_stops.
  - destruct Hrun as (-> & l1 & l2 & next & E1 & E2 & Hrun).
    apply Forall_cons in Hchain as [(Hop & Hprec & Hb) Hchain].
    cbn [fst snd] in *. simpl in Hfuel.
    destruct fuel as [|[|[|fuel]]]; [lia..|].
    rewrite parser_binary_loop_S. cbn [parser_with parser_current_token].
    fold (parser_with p l op). rewrite Hop. cbn [negb].
    rewrite Hprec. rewrite (proj2 (Z.ltb_ge q precedence)) by done.
    rewrite (parser_advance_with p l l1 op b E1). cbn [mbind option_bind].
    rewrite (parse_operand_then_stop _ p l1 l2 b next (q + 1) Hb E2).
    2:{ eapply chain_run_head; [done..|lia|].
        destruct Hstop as [|Hlt]; [by left|right; lia]. }
    cbn [mbind option_bind]. rewrite (operand_node_not_error b Hb).
    rewrite (IH (S (S fuel)) l2 next _ Hchain Hrun) by lia.
    done.
Qed.

(** [parser_parse_expression_precedence] on an operand followed by a chain
    of operators of one precedence [q >= precedence]. *)
Lemma parse_expression_precedence_chain (q precedence : Z) (stop : Token)
    (l l1 l_end : Lexer) (p : Parser) (a next : Token)
    (pairs : list (Token * Token)) (fuel : nat) :
  precedence <= q → stops_loop precedence stop →
  is_Some (primary_node a) →
  lexer_next_token l = Some (next, l1) →
  chain_of q pairs → chain_run l1 next pairs stop l_end →
  (length pairs + 3 <= fuel)%nat →
  parser_parse_expression_precedence fuel (parser_with p l a) precedence
  = Some (left_assoc (operand_node a) pairs, parser_with p l_end stop).
Proof.
  intros Hq Hstop Ha E Hchain Hrun Hfuel.
  destruct fuel as [|[|fuel]]; [lia..|].
  rewrite parser_parse_expression_precedence_S.
  cbn [parser_with parser_current_token]. fold (parser_with p l a).
  rewrite (parse_primary_operand fuel p l l1 a next Ha E).
  cbn [mbind option_bind]. rewrite (operand_node_not_error a Ha).
  apply (binary_loop_chain q); try done. lia.
Qed.

Lemma lexer_run_wf (l : Lexer) (tokens : list Token) (l' : Lexer) :
  lexer_wf l → lexer_run l tokens l' → lexer_wf l'.
Proof.
  revert l. induction tokens as [|token rest IH]; intros l Hwf Hrun.
  - by destruct Hrun.
  - destruct Hrun as (l1 & E & Hrun).
    destruct (lexer_next_token_total l Hwf) as (t & l2 & E' & Hstep & _).
    rewrite E in E'. injection E' as <- <-.
    eapply IH; [|done]. apply Hstep.
Qed.






Lemma binary_operator_precedence (type : TokenType) :
  parser_is_binary_operator type = true → 2 <= parser_get_precedence type.
Proof. by destruct type. Qed.

(** [parser_parse] on a fresh parser whose first token is an operand. *)
Lemma parse_source_start (source : string) (a : Token) (l1 : Lexer) :
  lexer_next_token (lexer_create source) = Some (a, l1) →
  is_Some (primary_node a) →
  parse_source source
  = parser_parse_expression_precedence (5 + 3 * String.length source)
      (parser_with (parser_create (lexer_create source)) l1 a) 1.
Proof.
  intros E [na Ha]. unfold parse_source, parser_parse, parser_advance.
  cbn [parser_create parser_current_token parser_lexer]. rewrite E.
  cbn [mbind option_bind parser_current_token].
  rewrite decide_False by (by eapply primary_node_not_eof).
  unfold parser_fuel. cbn [parser_lexer lexer_create lexer_source lexer_position].
  by rewrite Nat.sub_0_r.
Qed.

Lemma stops_loop_eof (precedence : Z) (eof : Token) :
  token_type eof = TOKEN_EOF → stops_loop precedence eof.
Proof. intros E. left. by rewrite E. Qed.

Lemma expression_of_operand (token : Token) :
  is_Some (primary_node token) →
  expression_of (operand_node token) = Some (Operand token).
Proof.
  unfold operand_node, primary_node. intros [node Hnode].
  by destruct (token_type token).
Qed.

Lemma expression_of_binary (op : Token) (l r : ASTNode) (left right : Expression) :
  expression_of l = Some left → expression_of r = Some right →
  expression_of (binary_node op l r)
  = Some (Binary op (token_lexeme op) left right).
Proof.
  intros Hl Hr. unfold binary_node, ast_node_create_binary, with_data.
  cbn [ast_node_create node_type node_token node_children node_line
         node_column expression_of].
  by rewrite Hl, Hr.
Qed.



(** The tokens the lexer makes of an integer, an identifier and an
    operator at a column of line 1, and the end-of-input token. *)
Definition int_token (lexeme : string) (column : nat) : Token :=
  token_create_with_literal TOKEN_INTEGER_LITERAL lexeme 1 column.

Definition identifier_token (lexeme : string) (column : nat) : Token :=
  token_create TOKEN_IDENTIFIER lexeme 1 column.

Definition operator_token (type : TokenType) (lexeme : string) (column : nat)
    : Token :=
  token_create type lexeme 1 column.

Definition eof_token (column : nat) : Token :=
  token_create TOKEN_EOF "" 1 column.

(** The lexer on line 1 of a source, at a position. *)
Definition lexer_at (source : string) (position : nat) : Lexer :=
  mkLexer source position 1 (S position) (char_at source position) false None.

(** The state [lexer_next_token] leaves. *)
Definition lexer_after (l : Lexer) : Lexer :=
  from_option snd l (lexer_next_token l).

Ltac lexer_run_concrete :=
  cbn [lexer_run chain_tokens flat_map app fst snd];
  repeat (lazymatch goal with
          | |- ∃ l1, lexer_next_token ?l = _ ∧ _ =>
              exists (lexer_after l); split; [vm_compute; reflexivity|]
          end);
  vm_compute; reflexivity.


(** C3 (the code differs).  [parser_get_precedence] gives [=] the
    precedence 1, but [parser_is_binary_operator] does not list it: on a
    source text whose tokens are an operand and [=], the loop stops at the
    [=].  The result is the node of the operand alone; the [=] stays the
    current token, no BinaryExpression or assignment node is built and no
    error is flagged. *)
Theorem C3_assign_has_precedence_but_is_not_consumed
    (source : string) (a assign : Token) (l_end : Lexer) :
  lexer_run (lexer_create source) [a; assign] l_end →
  is_Some (primary_node a) →
  token_type assign = TOKEN_ASSIGN →
  parser_get_precedence (token_type assign) = 1
  ∧ parser_is_binary_operator (token_type assign) = false
  ∧ parse_source source
    = Some (operand_node a, mkParser l_end (Some assign) None false None).
Proof.
  intros (l1 & E1 & l2 & E2 & ->) Ha Hassign. rewrite Hassign.
  split; [done|]. split; [done|].
  rewrite (parse_source_start source a l1 E1 Ha).
  change (5 + 3 * String.length source)%nat
    with (S (S (3 + 3 * String.length source))).
  apply (parse_operand_then_stop _ (parser_create (lexer_create source))
           l1 l2 a assign 1 Ha E2).
  left. by rewrite Hassign.
Qed.

Lemma C3_assign_witness :
  parser_get_precedence TOKEN_ASSIGN = 1
  ∧ parser_is_binary_operator TOKEN_ASSIGN = false
  ∧ parse_source "a = b"
    = Some (operand_node (identifier_token "a" 1),
            mkParser (lexer_at "a = b" 3)
              (Some (operator_token TOKEN_ASSIGN "=" 3)) None false None).
Proof.
  apply (C3_assign_has_precedence_but_is_not_consumed "a = b"
           (identifier_token "a" 1) (operator_token TOKEN_ASSIGN "=" 3)
           (lexer_at "a = b" 3));
    [lexer_run_concrete|by eexists|reflexivity].
Defined.

(** Parsing [a = b] does not give a BinaryExpression node. *)
Lemma C3_assign_counterexample :
  ¬ ∃ node p',
      parse_source "a = b" = Some (node, p')
      ∧ node_type node = NODE_BINARY_EXPRESSION
      ∧ binary_operator (node_data node) = Some "=".
Proof.
  intros (node & p' & E & Htype & _).
  vm_compute in E. injection E as <- _. discriminate Htype.
Qed.

End ParserProperties.

(* ================================================================== *)
(** * The semantic analyzer *)
(* ================================================================== *)

Section SemanticProperties.

(** ** Type inference (C1) *)

Lemma binary_type_same_numeric (t : DataType) (operator : option string) :
  t = TYPE_INT ∨ t = TYPE_FLOAT → binary_type t t operator = t.
Proof. by intros [-> | ->]. Qed.

Lemma binary_type_comparison (left_type right_type : DataType) (op : string) :
  is_comparison_operator op = true →
  ¬ (left_type = right_type ∧ (left_type = TYPE_INT ∨ left_type = TYPE_FLOAT)) →
  binary_type left_type right_type (Some op) = TYPE_BOOL.
Proof.
  intros Hop Hne. unfold binary_type. simpl. rewrite Hop.
  destruct (bool_decide (left_type = right_type)) eqn:E1; [|done].
  apply bool_decide_eq_true in E1.
  destruct (bool_decide (left_type = TYPE_INT)) eqn:E2.
  { apply bool_decide_eq_true in E2. naive_solver. }
  destruct (bool_decide (left_type = TYPE_FLOAT)) eqn:E3; [|done].
  apply bool_decide_eq_true in E3. naive_solver.
Qed.

(** C1 (the code differs).  On a BinaryExpression node with the operator
    [==], [ast_node_get_type] answers the type of the operands when both
    are Int or both are Float, and Bool in every other case.  For the tree
    of the text [1 == 2] the answer is Int. *)
Theorem C1_equality_of_two_ints_is_typed_int (st : option Semantic) :
  (∀ left_type right_type,
     binary_type left_type right_type (Some "==")
     = if bool_decide (left_type = right_type
                       ∧ (left_type = TYPE_INT ∨ left_type = TYPE_FLOAT))
       then left_type else TYPE_BOOL)
  ∧ ∃ node p',
      parse_source "1 == 2" = Some (node, p')
      ∧ node_type node = NODE_BINARY_EXPRESSION
      ∧ binary_operator (node_data node) = Some "=="
      ∧ ast_node_get_type (Some node) st = Some TYPE_INT.
Proof.
  split.
  - intros left_type right_type. case_bool_decide as H.
    + destruct H as [<- H]. by apply binary_type_same_numeric.
    + by apply binary_type_comparison.
  - by eexists _, _.
Qed.

(* ------------------------------------------------------------------ *)
(** ** The scope stack (C6) *)

(** The operations on an analyzer: entering a scope (with the address
    [malloc] returns for the new table), leaving a scope, and adding a
    symbol to the current table. *)
Inductive AnalyzerOp :=
| OpEnter (new_scope : nat)
| OpExit
| OpAdd (symbol : Symbol).

(** One operation.  [malloc] never returns the address of a live table:
    an [OpEnter] with such an address has no result. *)
Definition run_op (st : Semantic) (op : AnalyzerOp) : option Semantic :=
  match op with
  | OpEnter new_scope =>
      if decide (tables st !! new_scope = None)
      then semantic_analyzer_enter_scope new_scope st
      else None
  | OpExit => semantic_analyzer_exit_scope st
  | OpAdd symbol =>
      tbls ← symbol_table_add (tables st) (current_scope (analyzer st)) symbol;
      Some (mkSemantic tbls (analyzer st))
  end.

Fixpoint run_ops (st : Semantic) (ops : list AnalyzerOp) : option Semantic :=
  match ops with
  | [] => Some st
  | op :: rest => st' ← run_op st op; run_ops st' rest
  end.

(** The invariant of an analyzer: the stack ends in the current table; the
    live tables are those of the stack, each once; the table at index [i]
    has scope level [i], the global table has no parent and every other
    table has the table below it as parent. *)
Record analyzer_invariant (st : Semantic) : Prop := mkAnalyzerInvariant {
  inv_current :
    last (scope_stack (analyzer st)) = Some (current_scope (analyzer st));
  inv_size : size (tables st) = length (scope_stack (analyzer st));
  inv_live :
    ∀ addr, addr ∈ scope_stack (analyzer st) ↔ is_Some (tables st !! addr);
  inv_nodup : NoDup (scope_stack (analyzer st));
  inv_table :
    ∀ i addr t,
      scope_stack (analyzer st) !! i = Some addr →
      tables st !! addr = Some t →
      table_scope_level t = Z.of_nat i
      ∧ table_parent t
        = match i with
          | O => None
          | S j => scope_stack (analyzer st) !! j
          end
}.

Lemma analyzer_invariant_create (global : nat) :
  analyzer_invariant (semantic_analyzer_create global).
Proof.
  split; simpl.
  - done.
  - by rewrite map_size_singleton.
  - intros addr. rewrite list_elem_of_singleton.
    rewrite <- elem_of_dom, dom_singleton_L. set_solver.
  - apply NoDup_singleton.
  - intros [|i] addr t; [|done]. intros [= <-].
    rewrite lookup_singleton_eq. by intros [= <-].
Qed.

Lemma last_lookup_length {A} (l : list A) (x : A) :
  last l = Some x → l !! (length l - 1)%nat = Some x ∧ (0 < length l)%nat.
Proof.
  rewrite last_lookup. intros H. split.
  - by replace (length l - 1)%nat with (Nat.pred (length l)) by lia.
  - destruct l; [done|simpl; lia].
Qed.

Lemma analyzer_invariant_current (st : Semantic) :
  analyzer_invariant st →
  ∃ t, tables st !! current_scope (analyzer st) = Some t
       ∧ table_scope_level t
         = Z.of_nat (length (scope_stack (analyzer st)) - 1).
Proof.
  intros Hinv. destruct (last_lookup_length _ _ (inv_current _ Hinv)) as [Hcur Hlen].
  assert (is_Some (tables st !! current_scope (analyzer st))) as [t Ht].
  { apply (inv_live _ Hinv). by eapply list_elem_of_lookup_2. }
  exists t. split; [done|].
  by destruct (inv_table _ Hinv _ _ _ Hcur Ht) as [-> _].
Qed.

Lemma analyzer_invariant_enter (st : Semantic) (new_scope : nat) :
  analyzer_invariant st → tables st !! new_scope = None →
  ∃ st', semantic_analyzer_enter_scope new_scope st = Some st'
         ∧ analyzer_invariant st'.
Proof.
  intros Hinv Hfresh.
  destruct (analyzer_invariant_current st Hinv) as (t & Ht & Hlevel).
  destruct (last_lookup_length _ _ (inv_current _ Hinv)) as [Hcur Hlen].
  unfold semantic_analyzer_enter_scope. rewrite Ht. simpl.
  eexists. split; [done|].
  assert (new_scope ∉ scope_stack (analyzer st)) as Hnotin.
  { rewrite (inv_live _ Hinv), Hfresh. by intros [? ?]. }
  split; simpl.
  - by rewrite last_snoc.
  - rewrite map_size_insert_None by done. rewrite length_app. simpl.
    rewrite (inv_size _ Hinv). lia.
  - intros addr. rewrite elem_of_app, list_elem_of_singleton.
    rewrite (inv_live _ Hinv). destruct (decide (addr = new_scope)) as [->|Hne].
    + rewrite lookup_insert_eq. split; [by eexists|by right].
    + rewrite lookup_insert_ne by done. split; [by intros [H|H]|by left].
  - apply NoDup_app. split_and!; [apply Hinv| |apply NoDup_singleton].
    intros x Hx. rewrite list_elem_of_singleton. by intros ->.
  - intros i addr t' Hi Haddr.
    destruct (decide (i < length (scope_stack (analyzer st)))%nat) as [Hlt|Hge].
    + rewrite lookup_app_l in Hi by done.
      assert (addr ≠ new_scope) as Hne.
      { intros ->. apply Hnotin. by eapply list_elem_of_lookup_2. }
      rewrite lookup_insert_ne in Haddr by done.
      destruct (inv_table _ Hinv _ _ _ Hi Haddr) as [Hl Hp]. split; [done|].
      rewrite Hp. destruct i as [|j]; [done|].
      rewrite lookup_app_l by lia. done.
    + rewrite lookup_app_r in Hi by lia.
      destruct (i - length (scope_stack (analyzer st)))%nat as [|k] eqn:Hk;
        [|by destruct k].
      injection Hi as <-. rewrite lookup_insert_eq in Haddr.
      injection Haddr as <-. simpl.
      assert (i = length (scope_stack (analyzer st))) as -> by lia.
      split; [lia|].
      destruct (length (scope_stack (analyzer st))) as [|j] eqn:Hj; [lia|].
      rewrite lookup_app_l by lia.
      rewrite <- Hcur. f_equal. lia.
Qed.

Lemma analyzer_invariant_add (st : Semantic) (symbol : Symbol) :
  analyzer_invariant st →
  ∃ tbls, symbol_table_add (tables st) (current_scope (analyzer st)) symbol
          = Some tbls
          ∧ analyzer_invariant (mkSemantic tbls (analyzer st)).
Proof.
  intros Hinv. destruct (analyzer_invariant_current st Hinv) as (t & Ht & _).
  unfold symbol_table_add. rewrite Ht. simpl. eexists. split; [done|].
  split; simpl.
  - apply Hinv.
  - rewrite map_size_insert_Some by done. apply Hinv.
  - intros addr. rewrite (inv_live _ Hinv).
    destruct (decide (addr = current_scope (analyzer st))) as [->|Hne].
    + rewrite lookup_insert_eq, Ht. split; by eexists.
    + by rewrite lookup_insert_ne.
  - apply Hinv.
  - intros i addr t' Hi Haddr.
    destruct (decide (addr = current_scope (analyzer st))) as [->|Hne].
    + rewrite lookup_insert_eq in Haddr. injection Haddr as <-. simpl.
      by apply (inv_table _ Hinv i (current_scope (analyzer st)) t).
    + rewrite lookup_insert_ne in Haddr by done.
      by apply (inv_table _ Hinv i addr t').
Qed.

(** A stack of more than one table: the tables below the current one. *)
Lemma analyzer_stack_split (st : Semantic) :
  analyzer_invariant st →
  (1 < length (scope_stack (analyzer st)))%nat →
  ∃ below previous,
    scope_stack (analyzer st) = below ++ [previous; current_scope (analyzer st)].
Proof.
  intros Hinv Hlen. pose proof (inv_current _ Hinv) as Hlast.
  destruct (scope_stack (analyzer st)) as [|x stack _] using rev_ind; [done|].
  rewrite last_snoc in Hlast. injection Hlast as ->.
  destruct stack as [|previous below _] using rev_ind.
  { simpl in Hlen. lia. }
  exists below, previous. by rewrite <- app_assoc.
Qed.

Lemma analyzer_invariant_exit (st : Semantic) :
  analyzer_invariant st →
  ∃ st', semantic_analyzer_exit_scope st = Some st' ∧ analyzer_invariant st'.
Proof.
  intros Hinv. unfold semantic_analyzer_exit_scope, scope_stack_size.
  destruct (_ <=? 1)%nat eqn:Hle; [by exists st|].
  apply Nat.leb_gt in Hle.
  destruct (analyzer_invariant_current st Hinv) as (t & Ht & _).
  destruct (analyzer_stack_split st Hinv Hle) as (below & previous & Hstack).
  rewrite Ht, Hstack. cbn [mbind option_bind].
  assert (take (length (below ++ [previous; current_scope (analyzer st)]) - 1)
            (below ++ [previous; current_scope (analyzer st)])
          = below ++ [previous]) as ->.
  { rewrite length_app. simpl.
    replace (length below + 2 - 1)%nat with (length below + 1)%nat by lia.
    rewrite take_app_add'; done. }
  assert ((below ++ [previous]) !! (length (below ++ [previous]) - 1)%nat
          = Some previous) as ->.
  { rewrite length_app. simpl.
    replace (length below + 1 - 1)%nat with (length below + 0)%nat by lia.
    by rewrite lookup_app_r, Nat.add_0_r, Nat.sub_diag by lia. }
  cbn [mbind option_bind]. eexists. split; [done|].
  pose proof (inv_nodup _ Hinv) as Hnodup. rewrite Hstack in Hnodup.
  change [previous; current_scope (analyzer st)]
    with ([previous] ++ [current_scope (analyzer st)]) in Hnodup, Hstack.
  rewrite app_assoc in Hnodup, Hstack.
  apply NoDup_app in Hnodup as (Hnodup & Hnotin & _).
  split; simpl.
  - by rewrite last_snoc.
  - rewrite map_size_delete_Some by done. rewrite (inv_size _ Hinv), Hstack.
    rewrite (length_app (below ++ [previous])). simpl. lia.
  - intros addr. destruct (decide (addr = current_scope (analyzer st))) as [->|Hne].
    + rewrite lookup_delete_eq. split; [|by intros [? ?]].
      intros Hin. exfalso. apply (Hnotin _ Hin). by apply list_elem_of_singleton.
    + rewrite lookup_delete_ne by done. rewrite <- (inv_live _ Hinv), Hstack.
      rewrite (elem_of_app (below ++ [previous])), list_elem_of_singleton.
      split; [by left|by intros [?|?]].
  - done.
  - intros i addr t' Hi Haddr.
    assert (addr ≠ current_scope (analyzer st)) as Hne.
    { intros ->. eapply Hnotin; [by eapply list_elem_of_lookup_2|].
      by apply list_elem_of_singleton. }
    rewrite lookup_delete_ne in Haddr by done.
    pose proof (lookup_lt_Some _ _ _ Hi) as Hlt.
    destruct (inv_table _ Hinv i addr t') as [Hl Hp]; [|done|].
    { rewrite Hstack. by rewrite lookup_app_l. }
    split; [done|]. rewrite Hp. destruct i as [|j]; [done|].
    rewrite Hstack. rewrite lookup_app_l by lia. done.
Qed.

Lemma analyzer_invariant_run_op (st : Semantic) (op : AnalyzerOp) (st' : Semantic) :
  analyzer_invariant st → run_op st op = Some st' → analyzer_invariant st'.
Proof.
  intros Hinv. destruct op as [new_scope| |symbol]; simpl.
  - case_decide as Hfresh; [|done].
    destruct (analyzer_invariant_enter st new_scope Hinv Hfresh) as (st1 & -> & H1).
    by intros [= <-].
  - destruct (analyzer_invariant_exit st Hinv) as (st1 & -> & H1).
    by intros [= <-].
  - destruct (analyzer_invariant_add st symbol Hinv) as (tbls & -> & H1).
    by intros [= <-].
Qed.

Lemma analyzer_invariant_run_ops (ops : list AnalyzerOp) (st st' : Semantic) :
  analyzer_invariant st → run_ops st ops = Some st' → analyzer_invariant st'.
Proof.
  revert st. induction ops as [|op ops IH]; intros st Hinv; simpl.
  - by intros [= <-].
  - destruct (run_op st op) as [st1|] eqn:Hop; [|done]. simpl.
    apply IH. by eapply analyzer_invariant_run_op.
Qed.

(** The global table stays at the bottom of the stack. *)
Lemma run_op_global (st : Semantic) (op : AnalyzerOp) (st' : Semantic) :
  analyzer_invariant st → run_op st op = Some st' →
  head (scope_stack (analyzer st')) = head (scope_stack (analyzer st)).
Proof.
  intros Hinv. destruct op as [new_scope| |symbol]; simpl.
  - case_decide; [|done]. unfold semantic_analyzer_enter_scope.
    destruct (tables st !! current_scope (analyzer st)); simpl; [|done].
    intros [= <-]. simpl.
    destruct (last_lookup_length _ _ (inv_current _ Hinv)) as [_ Hlen].
    revert Hlen. destruct (scope_stack (analyzer st)); simpl; [lia|done].
  - unfold semantic_analyzer_exit_scope, scope_stack_size.
    destruct (_ <=? 1)%nat eqn:Hle; [by intros [= <-]|].
    apply Nat.leb_gt in Hle.
    destruct (tables st !! current_scope (analyzer st)); simpl; [|done].
    destruct (_ !! _); simpl; [|done]. intros [= <-]. simpl.
    revert Hle.
    destruct (scope_stack (analyzer st)) as [|x [|y stack]]; simpl; try lia.
    done.
  - destruct (symbol_table_add _ _ _); [|done]. by intros [= <-].
Qed.

Lemma run_ops_global (ops : list AnalyzerOp) (st st' : Semantic) :
  analyzer_invariant st → run_ops st ops = Some st' →
  head (scope_stack (analyzer st')) = head (scope_stack (analyzer st)).
Proof.
  revert st. induction ops as [|op ops IH]; intros st Hinv; simpl.
  - by intros [= <-].
  - destruct (run_op st op) as [st1|] eqn:Hop; [|done]. simpl. intros Hrun.
    rewrite (IH st1); [by eapply run_op_global| |done].
    by eapply analyzer_invariant_run_op.
Qed.

(** C6.  After any sequence of operations on a new analyzer: the current
    table is the top of the stack and the global table its bottom, still
    live.  [semantic_analyzer_enter_scope] pushes a new, empty table whose
    parent is the current table and whose scope level is one more.
    [semantic_analyzer_exit_scope] above the global scope frees the current
    table, pops it and makes its parent current; in the global scope it
    changes nothing. *)
Theorem C6_scope_stack_discipline (global : nat) (ops : list AnalyzerOp)
    (st : Semantic) :
  run_ops (semantic_analyzer_create global) ops = Some st →
  ∃ table,
    tables st !! current_scope (analyzer st) = Some table
    ∧ last (scope_stack (analyzer st)) = Some (current_scope (analyzer st))
    ∧ head (scope_stack (analyzer st)) = Some global
    ∧ is_Some (tables st !! global)
    ∧ table_scope_level table
      = Z.of_nat (length (scope_stack (analyzer st)) - 1)
    ∧ (∀ new_scope,
         tables st !! new_scope = None →
         ∃ st',
           semantic_analyzer_enter_scope new_scope st = Some st'
           ∧ current_scope (analyzer st') = new_scope
           ∧ scope_stack (analyzer st') = scope_stack (analyzer st) ++ [new_scope]
           ∧ tables st'
             = <[new_scope := mkSymbolTable [] 16
                                (Some (current_scope (analyzer st)))
                                (table_scope_level table + 1)]> (tables st))
    ∧ ((1 < length (scope_stack (analyzer st)))%nat →
       ∃ previous st',
         table_parent table = Some previous
         ∧ semantic_analyzer_exit_scope st = Some st'
         ∧ current_scope (analyzer st') = previous
         ∧ scope_stack (analyzer st')
           = take (length (scope_stack (analyzer st)) - 1)
               (scope_stack (analyzer st))
         ∧ tables st' = delete (current_scope (analyzer st)) (tables st)
         ∧ is_Some (tables st' !! global))
    ∧ (length (scope_stack (analyzer st)) = 1%nat →
       current_scope (analyzer st) = global
       ∧ semantic_analyzer_exit_scope st = Some st).
Proof.
  intros Hrun.
  pose proof (analyzer_invariant_run_ops ops _ st
                (analyzer_invariant_create global) Hrun) as Hinv.
  pose proof (run_ops_global ops _ st (analyzer_invariant_create global) Hrun)
    as Hglobal.
  change (head (scope_stack (analyzer (semantic_analyzer_create global))))
    with (Some global) in Hglobal.
  destruct (analyzer_invariant_current st Hinv) as (table & Htable & Hlevel).
  assert (is_Some (tables st !! global)) as Hlive.
  { apply (inv_live _ Hinv). by apply head_Some_elem_of. }
  exists table. split_and!; try done; [apply Hinv|..].
  - intros new_scope Hfresh. unfold semantic_analyzer_enter_scope.
    rewrite Htable. simpl. by eexists.
  - intros Hlen.
    destruct (analyzer_stack_split st Hinv Hlen) as (below & previous & Hstack).
    pose proof (inv_nodup _ Hinv) as Hnodup.
    assert (scope_stack (analyzer st) !! length below = Some previous) as Hprev.
    { rewrite Hstack. by rewrite lookup_app_r, Nat.sub_diag by lia. }
    assert (scope_stack (analyzer st) !! S (length below)
            = Some (current_scope (analyzer st))) as Hcur.
    { rewrite Hstack. rewrite lookup_app_r by lia.
      by replace (S (length below) - length below)%nat with 1%nat by lia. }
    destruct (inv_table _ Hinv _ _ _ Hcur Htable) as [_ Hparent].
    rewrite Hprev in Hparent.
    exists previous. unfold semantic_analyzer_exit_scope, scope_stack_size.
    rewrite (proj2 (Nat.leb_gt _ _) Hlen), Htable. cbn [mbind option_bind].
    assert (take (length (scope_stack (analyzer st)) - 1) (scope_stack (analyzer st))
            = below ++ [previous]) as Htake.
    { rewrite Hstack, length_app. simpl.
      replace (length below + 2 - 1)%nat with (length below + 1)%nat by lia.
      change [previous; current_scope (analyzer st)]
        with ([previous] ++ [current_scope (analyzer st)]).
      rewrite app_assoc. rewrite take_app_length'; [done|].
      rewrite length_app. simpl. lia. }
    rewrite Htake.
    assert ((below ++ [previous]) !! (length (below ++ [previous]) - 1)%nat
            = Some previous) as ->.
    { rewrite length_app. simpl.
      replace (length below + 1 - 1)%nat with (length below + 0)%nat by lia.
      by rewrite lookup_app_r, Nat.add_0_r, Nat.sub_diag by lia. }
    cbn [mbind option_bind]. eexists. split_and!; try done.
    simpl. rewrite lookup_delete_ne; [done|].
    intros <-. rewrite Hstack in Hnodup, Hglobal.
    destruct below as [|x below]; simpl in Hglobal; injection Hglobal as ->.
    + apply NoDup_cons in Hnodup as [Hnotin _]. apply Hnotin. set_solver.
    + apply NoDup_cons in Hnodup as [Hnotin _]. apply Hnotin. set_solver.
  - intros Hlen. pose proof (inv_current _ Hinv) as Hlast.
    destruct (scope_stack (analyzer st)) as [|x [|y stack]] eqn:Hstack;
      try done.
    simpl in Hlast, Hglobal. split; [congruence|].
    unfold semantic_analyzer_exit_scope, scope_stack_size. by rewrite Hstack.
Qed.

Lemma C6_scope_stack_witness :
  ∃ st st',
    run_ops (semantic_analyzer_create 0) [OpEnter 1; OpExit; OpExit; OpEnter 2]
    = Some st
    ∧ current_scope (analyzer st) = 2%nat
    ∧ (table_scope_level <$> tables st !! 2%nat) = Some 1
    ∧ semantic_analyzer_exit_scope st = Some st'
    ∧ current_scope (analyzer st') = 0%nat
    ∧ scope_stack (analyzer st') = [0%nat]
    ∧ tables st' !! 2%nat = None
    ∧ is_Some (tables st' !! 0%nat).
Proof.
  eexists.
  edestruct (C6_scope_stack_discipline 0 [OpEnter 1; OpExit; OpExit; OpEnter 2])
    as (table & Htable & _ & _ & _ & Hlevel & _ & Hexit & _); [reflexivity|].
  destruct Hexit as (previous & st' & Hparent & Hexit & Hcur & Hstack & Htables & Hlive).
  { apply Nat.lt_succ_diag_r. }
  exists st'. injection Htable as <-. injection Hparent as <-.
  split_and!; try done. rewrite Htables. reflexivity.
Defined.

(* ------------------------------------------------------------------ *)
(** ** Symbol lookup (C7) *)

(** The local scan returns the first symbol of that name. *)
Lemma lookup_symbols_first (symbols : list Symbol) (name : string) :
  match lookup_symbols symbols name with
  | Some found =>
      ∃ before after,
        symbols = before ++ found :: after
        ∧ symbol_name found = name
        ∧ Forall (λ s, symbol_name s ≠ name) before
  | None => Forall (λ s, symbol_name s ≠ name) symbols
  end.
Proof.
  induction symbols as [|s rest IH]; simpl; [constructor|].
  destruct (String.eqb (symbol_name s) name) eqn:E.
  - apply String.eqb_eq in E. by exists [], rest.
  - apply String.eqb_neq in E. destruct (lookup_symbols rest name) as [found|].
    + destruct IH as (before & after & -> & Hname & Hbefore).
      exists (s :: before), after. split_and!; [done..|by constructor].
    + by constructor.
Qed.

(** With the invariant, the lookup from the table at index [i] of the
    stack needs [i + 1] units of fuel and has a result. *)
Lemma lookup_fuel_enough (st : Semantic) (name : string) :
  analyzer_invariant st →
  ∀ i addr fuel,
    scope_stack (analyzer st) !! i = Some addr → (i < fuel)%nat →
    symbol_table_lookup_fuel fuel (tables st) (Some addr) name
    = symbol_table_lookup_fuel (S i) (tables st) (Some addr) name
    ∧ is_Some (symbol_table_lookup_fuel (S i) (tables st) (Some addr) name).
Proof.
  intros Hinv. induction i as [|i IH]; intros addr fuel Hi Hfuel.
  - assert (is_Some (tables st !! addr)) as [t Ht].
    { apply (inv_live _ Hinv). by eapply list_elem_of_lookup_2. }
    destruct (inv_table _ Hinv _ _ _ Hi Ht) as [_ Hparent].
    destruct fuel as [|fuel]; [lia|]. simpl. rewrite Ht. simpl.
    destruct (symbol_table_lookup_local t name); [by split; [|eexists]|].
    rewrite Hparent. by split; [|eexists].
  - assert (is_Some (tables st !! addr)) as [t Ht].
    { apply (inv_live _ Hinv). by eapply list_elem_of_lookup_2. }
    destruct (inv_table _ Hinv _ _ _ Hi Ht) as [_ Hparent].
    destruct fuel as [|fuel]; [lia|].
    cbn [symbol_table_lookup_fuel]. rewrite Ht. cbn [mbind option_bind].
    destruct (symbol_table_lookup_local t name); [by split; [|eexists]|].
    rewrite Hparent.
    destruct (scope_stack (analyzer st) !! i) as [p|] eqn:Hp; [|by split; [|eexists]].
    destruct (IH p fuel eq_refl) as [-> Hsome]; [lia|]. done.
Qed.

(** [symbol_table_lookup] on a live table of an analyzer: the local match
    if there is one, the lookup in the parent otherwise. *)
Lemma symbol_table_lookup_equation (st : Semantic) (addr : nat) (t : SymbolTable)
    (name : string) :
  analyzer_invariant st → tables st !! addr = Some t →
  symbol_table_lookup (tables st) (Some addr) name
  = match symbol_table_lookup_local t name with
    | Some found => Some (Some found)
    | None => symbol_table_lookup (tables st) (table_parent t) name
    end
  ∧ is_Some (symbol_table_lookup (tables st) (Some addr) name).
Proof.
  intros Hinv Ht.
  assert (addr ∈ scope_stack (analyzer st)) as Hin.
  { apply (inv_live _ Hinv). by eexists. }
  apply list_elem_of_lookup_1 in Hin as [i Hi].
  pose proof (lookup_lt_Some _ _ _ Hi) as Hlt.
  destruct (inv_table _ Hinv _ _ _ Hi Ht) as [_ Hparent].
  unfold symbol_table_lookup. rewrite (inv_size _ Hinv).
  destruct (lookup_fuel_enough st name Hinv i addr
              (S (length (scope_stack (analyzer st)))) Hi) as [E Hsome]; [lia|].
  split; [|by rewrite E]. rewrite E.
  destruct i as [|j].
  - simpl. rewrite Ht. simpl. rewrite Hparent.
    by destruct (symbol_table_lookup_local t name).
  - rewrite Hparent.
    destruct (scope_stack (analyzer st) !! j) as [p|] eqn:Hp.
    + destruct (lookup_fuel_enough st name Hinv j p
                  (S (length (scope_stack (analyzer st)))) Hp) as [-> _]; [lia|].
      change (symbol_table_lookup_fuel (S (S j)) (tables st) (Some addr) name)
        with (t' ← tables st !! addr;
              match symbol_table_lookup_local t' name with
              | Some found => Some (Some found)
              | None =>
                  match table_parent t' with
                  | None => Some None
                  | Some p' => symbol_table_lookup_fuel (S j) (tables st) (Some p') name
                  end
              end).
      rewrite Ht. cbn [mbind option_bind]. by rewrite ?Hparent, ?Hp.
    + apply lookup_ge_None in Hp. lia.
Qed.

(** The scenario of the scope test: [count] is added in the global scope,
    a scope is entered (its table allocated at [inner]) and [local] is
    added. *)
Definition scope_scenario (count local : Symbol) (inner : nat)
    : list AnalyzerOp :=
  [OpAdd count; OpEnter inner; OpAdd local].

Lemma scope_scenario_run (global inner : nat) (type_c type_l : string)
    (mut_c mut_l : bool) (line_c column_c line_l column_l : Z) :
  inner ≠ global →
  let count := symbol_create_variable "count" type_c mut_c line_c column_c in
  let local := symbol_create_variable "local" type_l mut_l line_l column_l in
  let global_table := mkSymbolTable [count] 16 None 0 in
  let inner_table := mkSymbolTable [local] 16 (Some global) 1 in
  run_ops (semantic_analyzer_create global) (scope_scenario count local inner)
  = Some (mkSemantic (<[inner := inner_table]> {[global := global_table]})
            (mkSemanticAnalyzer inner false None [global; inner] 16)).
Proof.
  intros Hne count local global_table inner_table.
  set (a0 := mkSemanticAnalyzer global false None [global] 16).
  assert (run_op (semantic_analyzer_create global) (OpAdd count)
          = Some (mkSemantic {[global := global_table]} a0)) as E1.
  { unfold run_op, symbol_table_add, semantic_analyzer_create.
    cbn [tables analyzer current_scope]. rewrite lookup_singleton_eq.
    cbn [mbind option_bind]. by rewrite insert_singleton_eq. }
  assert (run_op (mkSemantic {[global := global_table]} a0) (OpEnter inner)
          = Some (mkSemantic
                    (<[inner := mkSymbolTable [] 16 (Some global) 1]>
                       {[global := global_table]})
                    (mkSemanticAnalyzer inner false None [global; inner] 16)))
    as E2.
  { unfold run_op, semantic_analyzer_enter_scope.
    cbn [tables analyzer current_scope a0].
    rewrite decide_True by (by rewrite lookup_singleton_ne).
    by rewrite lookup_singleton_eq. }
  assert (run_op (mkSemantic
                    (<[inner := mkSymbolTable [] 16 (Some global) 1]>
                       {[global := global_table]})
                    (mkSemanticAnalyzer inner false None [global; inner] 16))
            (OpAdd local)
          = Some (mkSemantic (<[inner := inner_table]> {[global := global_table]})
                    (mkSemanticAnalyzer inner false None [global; inner] 16)))
    as E3.
  { unfold run_op, symbol_table_add. cbn [tables analyzer current_scope].
    rewrite lookup_insert_eq. cbn [mbind option_bind].
    by rewrite insert_insert_eq. }
  unfold scope_scenario. cbn [run_ops]. rewrite E1. cbn [mbind option_bind].
  rewrite E2. cbn [mbind option_bind]. rewrite E3. done.
Qed.

(** C7.  [symbol_table_lookup_local] returns the first symbol of the table
    with the name, in insertion order.  [symbol_table_lookup] on a table of
    an analyzer returns the local match if there is one and the result for
    the parent otherwise, which is not-found when there is no parent.  In
    the scenario of the scope test, both [local] and [count] are found
    inside the inner scope; after [semantic_analyzer_exit_scope], [local]
    is not found and the scope level is 0. *)
Theorem C7_lookup_first_match_then_parent_chain :
  (∀ t name,
     match symbol_table_lookup_local t name with
     | Some found =>
         ∃ before after,
           table_symbols t = before ++ found :: after
           ∧ symbol_name found = name
           ∧ Forall (λ s, symbol_name s ≠ name) before
     | None => Forall (λ s, symbol_name s ≠ name) (table_symbols t)
     end)
  ∧ (∀ tbls name, symbol_table_lookup tbls None name = Some None)
  ∧ (∀ global ops st addr t name,
       run_ops (semantic_analyzer_create global) ops = Some st →
       tables st !! addr = Some t →
       symbol_table_lookup (tables st) (Some addr) name
       = match symbol_table_lookup_local t name with
         | Some found => Some (Some found)
         | None => symbol_table_lookup (tables st) (table_parent t) name
         end)
  ∧ (∀ global inner type_c type_l mut_c mut_l line_c column_c line_l column_l,
       inner ≠ global →
       let count := symbol_create_variable "count" type_c mut_c line_c column_c in
       let local := symbol_create_variable "local" type_l mut_l line_l column_l in
       ∃ st st' table,
         run_ops (semantic_analyzer_create global)
           (scope_scenario count local inner) = Some st
         ∧ symbol_table_lookup (tables st) (Some (current_scope (analyzer st)))
             "local" = Some (Some local)
         ∧ symbol_table_lookup (tables st) (Some (current_scope (analyzer st)))
             "count" = Some (Some count)
         ∧ semantic_analyzer_exit_scope st = Some st'
         ∧ symbol_table_lookup (tables st') (Some (current_scope (analyzer st')))
             "local" = Some None
         ∧ symbol_table_lookup (tables st') (Some (current_scope (analyzer st')))
             "count" = Some (Some count)
         ∧ tables st' !! current_scope (analyzer st') = Some table
         ∧ table_scope_level table = 0).
Proof.
  split_and!.
  - intros t name. apply lookup_symbols_first.
  - done.
  - intros global ops st addr t name Hrun Ht.
    apply symbol_table_lookup_equation; [|done].
    by eapply analyzer_invariant_run_ops; [apply analyzer_invariant_create|].
  - intros global inner type_c type_l mut_c mut_l line_c column_c line_l column_l
      Hne count local.
    pose proof (scope_scenario_run global inner type_c type_l mut_c mut_l
                  line_c column_c line_l column_l Hne) as Hrun.
    cbv zeta in Hrun. fold count local in Hrun.
    set (global_table := mkSymbolTable [count] 16 None 0) in *.
    set (inner_table := mkSymbolTable [local] 16 (Some global) 1) in *.
    set (st := mkSemantic _ _) in Hrun.
    pose proof (analyzer_invariant_run_ops _ _ st
                  (analyzer_invariant_create global) Hrun) as Hinv.
    assert (tables st !! inner = Some inner_table) as Hinner
      by apply lookup_insert_eq.
    assert (tables st !! global = Some global_table) as Hglobal.
    { unfold st. simpl. rewrite lookup_insert_ne by done.
      apply lookup_singleton_eq. }
    destruct (analyzer_invariant_exit st Hinv) as (st' & Hexit & Hinv').
    assert (st' = mkSemantic (delete inner (tables st))
                    (mkSemanticAnalyzer global false None [global] 16)) as Hst'.
    { revert Hexit. unfold semantic_analyzer_exit_scope. simpl.
      rewrite lookup_insert_eq. simpl. by intros [= <-]. }
    assert (tables st' !! global = Some global_table) as Hglobal'.
    { rewrite Hst'. simpl. rewrite lookup_delete_ne by done.
      rewrite lookup_insert_ne by done. apply lookup_singleton_eq. }
    exists st, st', global_table.
    change (current_scope (analyzer st)) with inner.
    split_and!; try done.
    + by rewrite (proj1 (symbol_table_lookup_equation st inner inner_table
                           "local" Hinv Hinner)).
    + rewrite (proj1 (symbol_table_lookup_equation st inner inner_table
                        "count" Hinv Hinner)).
      change (symbol_table_lookup_local inner_table "count") with (@None Symbol).
      cbv iota. cbn [table_parent inner_table].
      by rewrite (proj1 (symbol_table_lookup_equation st global global_table
                           "count" Hinv Hglobal)).
    + rewrite Hst' at 2. cbn [analyzer current_scope].
      by rewrite (proj1 (symbol_table_lookup_equation st' global global_table
                           "local" Hinv' Hglobal')).
    + rewrite Hst' at 2. cbn [analyzer current_scope].
      by rewrite (proj1 (symbol_table_lookup_equation st' global global_table
                           "count" Hinv' Hglobal')).
    + assert (current_scope (analyzer st') = global) as -> by (by rewrite Hst').
      exact Hglobal'.
Qed.

Lemma C7_lookup_witness :
  let count := symbol_create_variable "count" "int" true 1 1 in
  let local := symbol_create_variable "local" "float" false 5 1 in
  ∃ st st',
    run_ops (semantic_analyzer_create 0) (scope_scenario count local 1) = Some st
    ∧ symbol_table_lookup (tables st) (Some 1%nat) "local" = Some (Some local)
    ∧ symbol_table_lookup (tables st) (Some 1%nat) "count"
      = symbol_table_lookup (tables st) (Some 0%nat) "count"
    ∧ symbol_table_lookup (tables st) (Some 1%nat) "count" = Some (Some count)
    ∧ semantic_analyzer_exit_scope st = Some st'
    ∧ symbol_table_lookup (tables st') (Some (current_scope (analyzer st')))
        "local" = Some None.
Proof.
  intros count local.
  destruct C7_lookup_first_match_then_parent_chain as (_ & _ & Hchain & Hscenario).
  destruct (Hscenario 0%nat 1%nat "int" "float" true false 1 1 5 1
              ltac:(discriminate))
    as (st & st' & table & Hrun & Hlocal & Hcount & Hexit & Hgone & _).
  exists st, st'. split_and!; try done.
  - assert (st = mkSemantic
                   (<[1%nat := mkSymbolTable [local] 16 (Some 0%nat) 1]>
                      {[0%nat := mkSymbolTable [count] 16 None 0]})
                   (mkSemanticAnalyzer 1 false None [0%nat; 1%nat] 16)) as ->.
    { apply (inj Some). rewrite <- Hrun. reflexivity. }
    exact Hlocal.
  - assert (tables st !! 1%nat = Some (mkSymbolTable [local] 16 (Some 0%nat) 1))
      as Ht.
    { assert (Some st = Some (mkSemantic
                   (<[1%nat := mkSymbolTable [local] 16 (Some 0%nat) 1]>
                      {[0%nat := mkSymbolTable [count] 16 None 0]})
                   (mkSemanticAnalyzer 1 false None [0%nat; 1%nat] 16))) as E.
      { rewrite <- Hrun. reflexivity. }
      injection E as ->. reflexivity. }
    exact (Hchain 0%nat _ st 1%nat _ "count" Hrun Ht).
  - assert (st = mkSemantic
                   (<[1%nat := mkSymbolTable [local] 16 (Some 0%nat) 1]>
                      {[0%nat := mkSymbolTable [count] 16 None 0]})
                   (mkSemanticAnalyzer 1 false None [0%nat; 1%nat] 16)) as ->.
    { apply (inj Some). rewrite <- Hrun. reflexivity. }
    exact Hcount.
Defined.

End SemanticProperties.

(* ================================================================== *)
(** * The code generator *)
(* ================================================================== *)

Section CodegenProperties.

(** ** The stack offset (C8) *)

Lemma fprintf_stack_offset (g : CodeGenerator) (text : string) :
  stack_offset (fprintf g text) = stack_offset g.
Proof. reflexivity. Qed.

Lemma generate_literal_stack_offset (g : CodeGenerator) (node : ASTNode) :
  stack_offset (code_generator_generate_literal g node).2 = stack_offset g.
Proof.
  unfold code_generator_generate_literal.
  destruct (output_file g); [|done].
  destruct (negb _); [done|]. by destruct (bool_decide _).
Qed.

(** Generating an expression leaves the stack offset as it is. *)
Lemma generate_expression_node_stack_offset :
  ∀ (node : ASTNode) (g : CodeGenerator) (result : CodeGenResult)
    (g' : CodeGenerator),
    generate_expression_node g node = Some (result, g') →
    stack_offset g' = stack_offset g.
Proof.
  fix IH 1. intros [type token children data line column] g result g'.
  destruct type; try (by intros [= <- <-]).
  - (* NODE_BINARY_EXPRESSION *)
    cbn [generate_expression_node]. unfold generate_binary_with.
    destruct (output_file g); [|by intros [= <- <-]].
    destruct data as [|l r op| | | | | |];
      try (by intros [= <- <-]).
    destruct (match l with
              | Some l0 => generate_expression_node g l0
              | None => Some (CODEGEN_ERROR_NULL_ANALYZER, g)
              end) as [[r1 g1]|] eqn:E1; [|done].
    assert (stack_offset g1 = stack_offset g) as H1.
    { destruct l as [l0|]; [exact (IH l0 _ _ _ E1)|by injection E1 as <- <-]. }
    cbn [mbind option_bind].
    destruct (negb (bool_decide (r1 = CODEGEN_SUCCESS)));
      [by intros [= <- <-]|].
    destruct (match r with
              | Some r0 => generate_expression_node (fprintf g1 _) r0
              | None => Some (CODEGEN_ERROR_NULL_ANALYZER, fprintf g1 _)
              end) as [[r2 g2]|] eqn:E2; [|done].
    assert (stack_offset g2 = stack_offset g) as H2.
    { rewrite <- H1. destruct r as [r0|];
        [exact (IH r0 _ _ _ E2)|by injection E2 as <- <-]. }
    cbn [mbind option_bind].
    destruct (negb (bool_decide (r2 = CODEGEN_SUCCESS)));
      [by intros [= <- <-]|].
    cbn [binary_operator]. destruct op as [op|]; [|done].
    cbn [mbind option_bind].
    repeat (destruct (String.eqb op _)); by intros [= <- <-].
  - (* NODE_LITERAL *)
    cbn [generate_expression_node]. intros [= E].
    pose proof (generate_literal_stack_offset g
                  (mkNode NODE_LITERAL token children data line column)) as H.
    by rewrite E in H.
Qed.

(** [int_wrap] leaves an [int] as it is. *)
Lemma int_wrap_in_int (z : Z) : in_int z → int_wrap z = z.
Proof.
  unfold in_int, int_wrap, INT_MIN, INT_MAX. intros H.
  rewrite Z.mod_small; lia.
Qed.

Lemma int_wrap_range (z : Z) : in_int (int_wrap z).
Proof.
  unfold in_int, int_wrap, INT_MIN, INT_MAX.
  pose proof (Z.mod_pos_bound (z - -2147483648) 4294967296). lia.
Qed.

(** The stack offset after [k] declarations: [stack_offset += 8] on an
    [int], [k] times. *)
Definition bumped (k : nat) (offset : Z) : Z :=
  Nat.iter k (λ z, int_wrap (z + 8)) offset.

Lemma bumped_in_int (k : nat) (offset : Z) :
  in_int offset → offset + 8 * Z.of_nat k <= INT_MAX →
  bumped k offset = offset + 8 * Z.of_nat k.
Proof.
  intros Hin. induction k as [|k IH]; intros Hmax; [simpl; lia|].
  change (bumped (S k) offset) with (int_wrap (bumped k offset + 8)).
  rewrite IH by lia.
  rewrite int_wrap_in_int; [lia|]. unfold in_int in *. lia.
Qed.

(** The children of a node that are declarations. *)
Definition declarations (node : ASTNode) : nat :=
  length (filter (λ child, node_type child = NODE_VARIABLE_DECLARATION)
            (node_children node)).

(** A declaration adds 8 once the output is open and the node is a
    declaration, whatever its initializer does. *)
Lemma generate_variable_declaration_stack_offset (g : CodeGenerator)
    (node : ASTNode) (result : CodeGenResult) (g' : CodeGenerator) :
  code_generator_generate_variable_declaration g node = Some (result, g') →
  stack_offset g'
  = if bool_decide (is_Some (output_file g)
                    ∧ node_type node = NODE_VARIABLE_DECLARATION)
    then int_wrap (stack_offset g + 8) else stack_offset g.
Proof.
  unfold code_generator_generate_variable_declaration.
  destruct (output_file g) as [out|] eqn:Hout.
  2:{ intros [= <- <-]. rewrite bool_decide_eq_false_2; [done|].
      by intros [[? ?] _]. }
  destruct (bool_decide (node_type node = NODE_VARIABLE_DECLARATION)) eqn:Hdecl.
  2:{ intros [= <- <-]. apply bool_decide_eq_false in Hdecl.
      rewrite bool_decide_eq_false_2; [done|]. by intros [_ ?]. }
  apply bool_decide_eq_true in Hdecl. cbn [negb].
  rewrite bool_decide_eq_true_2 by (by split; [eexists|]).
  destruct (declaration_initializer (node_data node)) as [initializer|];
    [|by intros [= <- <-]].
  destruct (generate_expression_node _ initializer) as [[r1 g1]|] eqn:E1; [|done].
  apply generate_expression_node_stack_offset in E1.
  cbn [mbind option_bind]. rewrite fprintf_stack_offset in E1. simpl in E1.
  destruct (negb _); intros [= <- <-]; by rewrite ?fprintf_stack_offset.
Qed.

(** The children of a program bump the offset once for each declaration
    that is generated. *)
Lemma generate_children_stack_offset (children : list ASTNode) :
  ∀ g result g',
    generate_children g children = Some (result, g') →
    ∃ k,
      (k <= length (filter (λ child, node_type child = NODE_VARIABLE_DECLARATION)
                      children))%nat
      ∧ stack_offset g' = bumped k (stack_offset g).
Proof.
  induction children as [|child rest IH]; intros g result g'; simpl.
  { intros [= <- <-]. by exists 0%nat. }
  destruct (match node_type child with
            | NODE_VARIABLE_DECLARATION =>
                code_generator_generate_variable_declaration g child
            | NODE_BINARY_EXPRESSION | NODE_LITERAL | NODE_IDENTIFIER =>
                generate_expression_node g child
            | _ => Some (CODEGEN_ERROR_UNSUPPORTED_NODE, g)
            end) as [[r1 g1]|] eqn:E1; [|done].
  cbn [mbind option_bind].
  destruct (decide (node_type child = NODE_VARIABLE_DECLARATION)) as [Hdecl|Hother].
  - rewrite Hdecl in E1. rewrite filter_cons_True by done. cbn [length].
    apply generate_variable_declaration_stack_offset in E1.
    destruct (bool_decide _) in E1.
    + destruct (negb _).
      * intros [= <- <-]. exists 1%nat. split; [lia|done].
      * intros E2. destruct (IH _ _ _ E2) as (k & Hk & ->).
        exists (S k). split; [lia|]. rewrite E1. unfold bumped.
        by rewrite Nat.iter_succ_r.
    + destruct (negb _).
      * intros [= <- <-]. exists 0%nat. split; [lia|done].
      * intros E2. destruct (IH _ _ _ E2) as (k & Hk & ->).
        exists k. split; [lia|]. by rewrite E1.
  - rewrite filter_cons_False by done.
    assert (stack_offset g1 = stack_offset g) as H1.
    { destruct (node_type child); try done;
        try (by injection E1 as <- <-);
        by apply generate_expression_node_stack_offset in E1. }
    destruct (negb _).
    + intros [= <- <-]. exists 0%nat. split; [lia|done].
    + intros E2. destruct (IH _ _ _ E2) as (k & Hk & ->).
      exists k. split; [done|]. by rewrite H1.
Qed.

Lemma emit_prologue_stack_offset (g : CodeGenerator) :
  stack_offset (code_generator_emit_prologue g).2 = stack_offset g.
Proof. unfold code_generator_emit_prologue. by destruct (output_file g). Qed.

Lemma emit_epilogue_stack_offset (g : CodeGenerator) :
  stack_offset (code_generator_emit_epilogue g).2 = stack_offset g.
Proof. unfold code_generator_emit_epilogue. by destruct (output_file g). Qed.

Lemma generate_program_stack_offset (g : CodeGenerator) (node : ASTNode)
    (result : CodeGenResult) (g' : CodeGenerator) :
  code_generator_generate_program g node = Some (result, g') →
  ∃ k, (k <= declarations node)%nat
       ∧ stack_offset g' = bumped k (stack_offset g).
Proof.
  unfold code_generator_generate_program.
  destruct (output_file g) eqn:Hout; [|intros [= <- <-]; exists 0%nat; split; [lia|done]].
  pose proof (emit_prologue_stack_offset g) as Hpro.
  destruct (code_generator_emit_prologue g) as [r0 g0]. simpl in Hpro.
  destruct (negb _); [intros [= <- <-]; exists 0%nat; split; [lia|done]|].
  destruct (if bool_decide (node_type node = NODE_PROGRAM)
            then generate_children g0 (node_children node)
            else generate_expression_node g0 node) as [[r1 g1]|] eqn:E1; [|done].
  assert (∃ k, (k <= declarations node)%nat
               ∧ stack_offset g1 = bumped k (stack_offset g)) as (k & Hk & H1).
  { rewrite <- Hpro. destruct (bool_decide _).
    - by eapply generate_children_stack_offset.
    - apply generate_expression_node_stack_offset in E1.
      exists 0%nat. split; [lia|done]. }
  cbn [mbind option_bind].
  destruct (negb _); [intros [= <- <-]; by exists k|].
  pose proof (emit_epilogue_stack_offset g1) as Hepi.
  destruct (code_generator_emit_epilogue g1) as [r2 g2]. simpl in Hepi.
  intros [= <- <-]. exists k. split; [done|]. by rewrite Hepi.
Qed.

Lemma set_output_stack_offset (g : CodeGenerator) (filename : option string)
    (opened : bool) :
  stack_offset (code_generator_set_output g filename opened).2 = stack_offset g.
Proof.
  unfold code_generator_set_output. destruct filename; [|done].
  by destruct opened.
Qed.

Lemma generate_stack_offset (g : CodeGenerator) (ast : ASTNode)
    (filename : option string) (opened : bool) (result : CodeGenResult)
    (g' : CodeGenerator) :
  code_generator_generate g (Some ast) filename opened = Some (result, g') →
  ∃ k, (k <= declarations ast)%nat
       ∧ stack_offset g' = bumped k (stack_offset g).
Proof.
  unfold code_generator_generate.
  destruct filename as [filename|];
    [|intros [= <- <-]; exists 0%nat; split; [lia|done]].
  pose proof (set_output_stack_offset g (Some filename) opened) as Hset.
  destruct (code_generator_set_output _ _ _) as [r0 g0]. simpl in Hset.
  destruct (negb _); [intros [= <- <-]; exists 0%nat; split; [lia|done]|].
  intros E. apply generate_program_stack_offset in E. by rewrite <- Hset.
Qed.

(** The operations of the generator, with their arguments. *)
Inductive GeneratorOp :=
| GSetOutput (filename : option string) (opened : bool)
| GEmitPrologue
| GEmitEpilogue
| GEmitComment (comment : option string)
| GEmitLabel (label : option string)
| GEmitInstruction (instruction operands : option string)
| GAllocateRegister
| GFreeRegister (reg : nat)
| GError (message : string)
| GGenerateLiteral (node : ASTNode)
| GGenerateBinary (node : ASTNode)
| GGenerateExpression (node : option ASTNode)
| GGenerateIdentifier (node : option ASTNode)
| GGenerateUnary (node : option ASTNode)
| GGenerateAssignment (node : option ASTNode)
| GGenerateVariableDeclaration (node : ASTNode)
| GGenerateProgram (node : ASTNode)
| GGenerate (ast : option ASTNode) (filename : option string) (opened : bool)
| GPushStack (size : Z)
| GPopStack (size : Z).

(** The generator an operation leaves, when it returns. *)
Definition run_generator_op (g : CodeGenerator) (op : GeneratorOp)
    : option CodeGenerator :=
  match op with
  | GSetOutput filename opened =>
      Some (code_generator_set_output g filename opened).2
  | GEmitPrologue => Some (code_generator_emit_prologue g).2
  | GEmitEpilogue => Some (code_generator_emit_epilogue g).2
  | GEmitComment comment => Some (code_generator_emit_comment g comment).2
  | GEmitLabel label => Some (code_generator_emit_label g label).2
  | GEmitInstruction instruction operands =>
      Some (code_generator_emit_instruction g instruction operands).2
  | GAllocateRegister => Some (code_generator_allocate_register g).2
  | GFreeRegister reg => Some (code_generator_free_register g reg)
  | GError message => Some (code_generator_error g message)
  | GGenerateLiteral node => Some (code_generator_generate_literal g node).2
  | GGenerateBinary node => snd <$> code_generator_generate_binary g node
  | GGenerateExpression node => snd <$> code_generator_generate_expression g node
  | GGenerateIdentifier node => Some (code_generator_generate_identifier g node).2
  | GGenerateUnary node => Some (code_generator_generate_unary g node).2
  | GGenerateAssignment node => Some (code_generator_generate_assignment g node).2
  | GGenerateVariableDeclaration node =>
      snd <$> code_generator_generate_variable_declaration g node
  | GGenerateProgram node => snd <$> code_generator_generate_program g node
  | GGenerate ast filename opened =>
      snd <$> code_generator_generate g ast filename opened
  | GPushStack size => Some (code_generator_push_stack g size).2
  | GPopStack size => Some (code_generator_pop_stack g size).2
  end.

(** What an operation does to the stack offset, an [int]: the additions
    wrap around. *)
Definition stack_offset_effect (g : CodeGenerator) (op : GeneratorOp)
    (g' : CodeGenerator) : Prop :=
  let opened := bool_decide (is_Some (output_file g)) in
  match op with
  | GPushStack size =>
      stack_offset g'
      = if opened then int_wrap (stack_offset g + size) else stack_offset g
  | GPopStack size =>
      stack_offset g'
      = if opened then int_wrap (stack_offset g - size) else stack_offset g
  | GGenerateVariableDeclaration node =>
      stack_offset g'
      = if opened && bool_decide (node_type node = NODE_VARIABLE_DECLARATION)
        then int_wrap (stack_offset g + 8) else stack_offset g
  | GGenerateProgram node | GGenerate (Some node) _ _ =>
      ∃ k, (k <= declarations node)%nat
           ∧ stack_offset g' = bumped k (stack_offset g)
  | _ => stack_offset g' = stack_offset g
  end.

(** The stack offset is an [int] and stays one over the operation. *)
Definition no_overflow (g : CodeGenerator) (op : GeneratorOp) : Prop :=
  in_int (stack_offset g)
  ∧ match op with
    | GPushStack size => in_int (stack_offset g + size)
    | GPopStack size => in_int (stack_offset g - size)
    | GGenerateVariableDeclaration _ => stack_offset g + 8 <= INT_MAX
    | GGenerateProgram node | GGenerate (Some node) _ _ =>
        stack_offset g + 8 * Z.of_nat (declarations node) <= INT_MAX
    | _ => True
    end.

(** What an operation does to the stack offset when nothing overflows. *)
Definition stack_offset_change (g : CodeGenerator) (op : GeneratorOp)
    (g' : CodeGenerator) : Prop :=
  let opened := bool_decide (is_Some (output_file g)) in
  match op with
  | GPushStack size =>
      stack_offset g' = stack_offset g + (if opened then size else 0)
  | GPopStack size =>
      stack_offset g' = stack_offset g - (if opened then size else 0)
  | GGenerateVariableDeclaration node =>
      stack_offset g'
      = stack_offset g
        + (if opened && bool_decide (node_type node = NODE_VARIABLE_DECLARATION)
           then 8 else 0)
  | GGenerateProgram _ | GGenerate _ _ _ => stack_offset g <= stack_offset g'
  | _ => stack_offset g' = stack_offset g
  end.

Lemma stack_offset_effect_change (g : CodeGenerator) (op : GeneratorOp)
    (g' : CodeGenerator) :
  stack_offset_effect g op g' → no_overflow g op → stack_offset_change g op g'.
Proof.
  unfold stack_offset_effect, no_overflow, stack_offset_change.
  intros Heffect [Hin Hfit]. destruct op; try done.
  - rewrite Heffect. destruct (_ && _); [|lia].
    rewrite int_wrap_in_int; [done|]. unfold in_int in *. lia.
  - destruct Heffect as (k & Hk & ->). rewrite bumped_in_int; [lia|done|lia].
  - destruct ast as [ast|]; [|lia].
    destruct Heffect as (k & Hk & ->). rewrite bumped_in_int; [lia|done|lia].
  - rewrite Heffect. destruct (bool_decide _); [|lia]. by rewrite int_wrap_in_int.
  - rewrite Heffect. destruct (bool_decide _); [|lia]. by rewrite int_wrap_in_int.
Qed.

(** C8 (amended).  The stack offset is an [int]: [stack_offset += 8] and
    [+= size] wrap around at [INT_MAX].  As long as nothing overflows, no
    operation that generates code lowers the stack offset, and a
    VariableDeclaration adds exactly 8 to it once the output is open;
    a program adds 8 for each declaration it generates.
    [code_generator_push_stack] adds its argument and
    [code_generator_pop_stack] subtracts it. *)
Theorem C8_stack_offset_effects (g : CodeGenerator) (op : GeneratorOp) :
  match run_generator_op g op with
  | Some g' =>
      stack_offset_effect g op g'
      ∧ (no_overflow g op → stack_offset_change g op g')
  | None => True
  end.
Proof.
  enough (match run_generator_op g op with
          | Some g' => stack_offset_effect g op g'
          | None => True
          end) as H.
  { destruct (run_generator_op g op) as [g'|]; [|done].
    split; [done|]. by apply stack_offset_effect_change. }
  destruct op; cbn [run_generator_op stack_offset_effect fmap option_fmap option_map].
  - apply set_output_stack_offset.
  - apply emit_prologue_stack_offset.
  - apply emit_epilogue_stack_offset.
  - unfold code_generator_emit_comment.
    destruct (output_file g); [|done]. by destruct comment.
  - unfold code_generator_emit_label.
    destruct (output_file g); [|done]. by destruct label.
  - unfold code_generator_emit_instruction.
    destruct (output_file g); [|done]. destruct instruction; [|done].
    by destruct operands.
  - unfold code_generator_allocate_register. by destruct (first_free_register _ _).
  - unfold code_generator_free_register. by destruct (_ <? _)%nat.
  - done.
  - apply generate_literal_stack_offset.
  - destruct (code_generator_generate_binary g node) as [[r g']|] eqn:E; [|done].
    destruct node as [type token children data line column].
    destruct type;
      try (unfold code_generator_generate_binary, generate_binary_with in E;
           destruct (output_file g); by injection E as <- <-).
    by apply (generate_expression_node_stack_offset
                (mkNode NODE_BINARY_EXPRESSION token children data line column)
                g r g').
  - destruct node as [node|]; [|done]. simpl.
    destruct (generate_expression_node g node) as [[r g']|] eqn:E; [|done].
    by apply (generate_expression_node_stack_offset node g r g').
  - done.
  - done.
  - done.
  - destruct (code_generator_generate_variable_declaration g node)
      as [[r g']|] eqn:E; [|done].
    simpl. rewrite (generate_variable_declaration_stack_offset g node r g' E).
    destruct (bool_decide (is_Some (output_file g))) eqn:E1;
      destruct (bool_decide (node_type node = NODE_VARIABLE_DECLARATION)) eqn:E2;
      simpl.
    + apply bool_decide_eq_true in E1, E2. by rewrite bool_decide_eq_true_2.
    + apply bool_decide_eq_false in E2. rewrite bool_decide_eq_false_2; [done|].
      by intros [_ ?].
    + apply bool_decide_eq_false in E1. rewrite bool_decide_eq_false_2; [done|].
      by intros [? _].
    + apply bool_decide_eq_false in E1. rewrite bool_decide_eq_false_2; [done|].
      by intros [? _].
  - destruct (code_generator_generate_program g node) as [[r g']|] eqn:E; [|done].
    by apply (generate_program_stack_offset g node r g').
  - destruct ast as [ast|].
    + destruct (code_generator_generate g (Some ast) filename opened)
        as [[r g']|] eqn:E; [|done].
      by apply (generate_stack_offset g ast filename opened r g').
    + done.
  - unfold code_generator_push_stack. by destruct (output_file g).
  - unfold code_generator_pop_stack. by destruct (output_file g).
Qed.

(** A declaration on an open generator at offset 16. *)
Lemma C8_stack_offset_witness :
  let g := with_stack_offset
             (with_output (code_generator_create 0) (Some EmptyString)) 16 in
  let declaration :=
    mkNode NODE_VARIABLE_DECLARATION None []
      (DataDeclaration (Some "a") None (Some "int") true) 1 1 in
  no_overflow g (GGenerateVariableDeclaration declaration)
  ∧ match run_generator_op g (GGenerateVariableDeclaration declaration) with
    | Some g' => stack_offset g' = 24
    | None => False
    end.
Proof.
  intros g declaration.
  assert (no_overflow g (GGenerateVariableDeclaration declaration)) as Hfit.
  { split; [split|]; vm_compute; discriminate. }
  split; [exact Hfit|].
  pose proof (C8_stack_offset_effects g (GGenerateVariableDeclaration declaration))
    as H.
  destruct (run_generator_op g (GGenerateVariableDeclaration declaration))
    as [g'|] eqn:E; [|discriminate E].
  destruct H as [_ H]. exact (H Hfit).
Defined.

(** [code_generator_pop_stack] lowers the stack offset, and so does an
    addition that overflows. *)
Lemma C8_pop_stack_counterexample :
  let g1 :=
    (code_generator_set_output (code_generator_create 0) (Some "out.asm") true).2 in
  let g2 := (code_generator_push_stack g1 8).2 in
  let g3 := (code_generator_push_stack g1 INT_MAX).2 in
  stack_offset g2 = 8
  ∧ stack_offset (code_generator_pop_stack g2 8).2 = 0
  ∧ stack_offset (code_generator_pop_stack g2 8).2 < stack_offset g2
  ∧ stack_offset g3 = INT_MAX
  ∧ stack_offset (code_generator_push_stack g3 1).2 = INT_MIN
  ∧ stack_offset (code_generator_push_stack g3 1).2 < stack_offset g3.
Proof. by split_and!; vm_compute. Qed.

(* ------------------------------------------------------------------ *)
(** ** Code for an addition (C9) *)

(** How often [pattern] occurs in [text]. *)
Fixpoint count_occurrences (pattern text : string) : nat :=
  match text with
  | EmptyString => 0
  | String _ rest =>
      (if String.prefix pattern text then 1 else 0)
      + count_occurrences pattern rest
  end.

(** The code for [left + right] between two integer literals. *)
Definition addition_body (left right : Z) : string :=
  ln ("    mov     rax, " +:+ string_of_Z left)
  +:+ ln "    push    rax"
  +:+ ln ("    mov     rax, " +:+ string_of_Z right)
  +:+ ln "    pop     rbx"
  +:+ ln "    add     rax, rbx".

(** The generator after [code_generator_set_output] opened a file. *)
Definition opened_generator (symbol_table : nat) : CodeGenerator :=
  (code_generator_set_output (code_generator_create symbol_table)
     (Some "out.asm") true).2.

Lemma fprintf_output (g : CodeGenerator) (written text : string) :
  output_file g = Some written →
  output_file (fprintf g text) = Some (written +:+ text).
Proof. intros E. unfold fprintf. simpl. by rewrite E. Qed.

(** C9.  For the sum of two integer literals, [code_generator_generate]
    succeeds and writes the prologue, the body (left operand into [rax],
    [push rax], right operand into [rax], [pop rbx], [add rax, rbx]) and
    the epilogue, and nothing else.  The tree of the text [5 + 3] is such a
    sum; its output holds [push rax] before [add rax, rbx], and [add]
    occurs in it once. *)
Theorem C9_addition_code :
  (∀ symbol_table filename op lexeme_l column_l lexeme_r column_r,
     ∃ g',
       code_generator_generate (code_generator_create symbol_table)
         (Some (ast_node_create_binary (Some op)
                  (Some (operand_node (int_token lexeme_l column_l)))
                  (Some (operand_node (int_token lexeme_r column_r)))
                  (Some "+")))
         (Some filename) true = Some (CODEGEN_SUCCESS, g')
       ∧ output_file g'
         = Some (prologue_text
                 +:+ addition_body (atoi lexeme_l) (atoi lexeme_r)
                 +:+ epilogue_text)
       ∧ stack_offset g' = 0)
  ∧ fst <$> parse_source "5 + 3"
    = Some (ast_node_create_binary (Some (operator_token TOKEN_PLUS "+" 3))
              (Some (operand_node (int_token "5" 1)))
              (Some (operand_node (int_token "3" 5)))
              (Some "+"))
  ∧ atoi "5" = 5 ∧ atoi "3" = 3
  ∧ String.index 0 "push    rax"
      (prologue_text +:+ addition_body 5 3 +:+ epilogue_text) = Some 123%nat
  ∧ String.index 0 "add     rax, rbx"
      (prologue_text +:+ addition_body 5 3 +:+ epilogue_text) = Some 174%nat
  ∧ count_occurrences "add"
      (prologue_text +:+ addition_body 5 3 +:+ epilogue_text) = 1%nat.
Proof.
  split.
  - intros symbol_table filename op lexeme_l column_l lexeme_r column_r.
    cbv -[String.append string_of_Z atoi ln].
    eexists. split_and!; [reflexivity| |reflexivity].
    cbv beta iota. f_equal. rewrite !string_app_assoc. reflexivity.
  - split_and!; vm_compute; reflexivity.
Qed.

End CodegenProperties.

(* ================================================================== *)
(** * The tokenizer: positions, lexemes and the kinds of token *)
(* ================================================================== *)

Section LexerCoverage.

(** A property of lexers that [advance] and the assignments to the error
    fields keep. *)
Definition set_errors (l : Lexer) (flag : bool) (e : option Error) : Lexer :=
  mkLexer (lexer_source l) (lexer_position l) (lexer_line l) (lexer_column l)
    (lexer_current_char l) flag e.

Record cursor_closed (P : Lexer → Prop) : Prop := mkCursorClosed {
  closed_advance : ∀ l, P l → P (advance l);
  closed_errors : ∀ l flag e, P l → P (set_errors l flag e)
}.

Lemma skip_whitespace_loop_closed (P : Lexer → Prop) (fuel : nat) :
  cursor_closed P →
  ∀ l l', skip_whitespace_loop fuel l = Some l' → P l → P l'.
Proof.
  intros HP. induction fuel as [|fuel IH]; intros l l'; [done|]. simpl.
  destruct (negb _); [|by intros [= <-]].
  destruct (_ || _); [|by intros [= <-]].
  intros E Hl. apply (IH _ _ E). by apply HP.
Qed.

Lemma read_identifier_loop_closed (P : Lexer → Prop) (fuel : nat) :
  cursor_closed P →
  ∀ l buffer l' lexeme,
    read_identifier_loop fuel l buffer = Some (l', lexeme) → P l → P l'.
Proof.
  intros HP. induction fuel as [|fuel IH]; intros l buffer l' lexeme; [done|].
  simpl. destruct (_ && _); [|by intros [= <- _]].
  intros E Hl. apply (IH _ _ _ _ E). by apply HP.
Qed.

Lemma read_number_loop_closed (P : Lexer → Prop) (fuel : nat) :
  cursor_closed P →
  ∀ l buffer d l' lexeme d',
    read_number_loop fuel l buffer d = Some (l', lexeme, d') → P l → P l'.
Proof.
  intros HP. induction fuel as [|fuel IH]; intros l buffer d l' lexeme d'; [done|].
  simpl. destruct (negb _); [|by intros [= <- _ _]].
  destruct (isdigit _); [|destruct (_ && _)]; try (by intros [= <- _ _]);
    intros E Hl; apply (IH _ _ _ _ _ _ E); by apply HP.
Qed.

Lemma read_string_loop_closed (P : Lexer → Prop) (fuel : nat) :
  cursor_closed P →
  ∀ l buffer l' content,
    read_string_loop fuel l buffer = Some (l', content) → P l → P l'.
Proof.
  intros HP. induction fuel as [|fuel IH]; intros l buffer l' content; [done|].
  simpl. destruct (_ && _); [|by intros [= <- _]].
  destruct (Ascii.eqb _ BACKSLASH).
  - destruct (negb _); intros E Hl; apply (IH _ _ _ _ E); by do 2 apply HP.
  - intros E Hl. apply (IH _ _ _ _ E). by apply HP.
Qed.

Lemma iter_advance_closed (P : Lexer → Prop) (n : nat) (l : Lexer) :
  cursor_closed P → P l → P (Nat.iter n advance l).
Proof.
  intros HP Hl. induction n as [|n IH]; [done|]. simpl.
  by apply (closed_advance _ HP).
Qed.

Lemma lexer_set_error_set_errors (l : Lexer) (e : Error) :
  lexer_set_error l e = set_errors l true (Some e).
Proof. reflexivity. Qed.

(** [lexer_next_token] keeps every such property. *)
Lemma lexer_next_token_closed (P : Lexer → Prop) (l : Lexer) (t : Token)
    (l' : Lexer) :
  cursor_closed P → lexer_next_token l = Some (t, l') → P l → P l'.
Proof.
  intros HP. unfold lexer_next_token.
  destruct (Ascii.eqb (lexer_current_char l) NUL); [by intros [= _ <-]|].
  destruct (skip_whitespace l) as [l1|] eqn:E1; [|done]. cbn [mbind option_bind].
  intros E Hl.
  assert (P l1) as H1 by (by eapply skip_whitespace_loop_closed).
  clear Hl E1. revert E.
  destruct (Ascii.eqb _ LF); [intros [= _ <-]; by apply HP|].
  destruct (Ascii.eqb _ NUL); [by intros [= _ <-]|].
  destruct (_ || _).
  { unfold read_identifier.
    destruct (read_identifier_loop _ _ _) as [[l2 lexeme]|] eqn:E2; [|done].
    intros [= _ <-]. by eapply read_identifier_loop_closed. }
  destruct (isdigit _).
  { unfold read_number.
    destruct (read_number_loop _ _ _ _) as [[[l2 lexeme] d]|] eqn:E2; [|done].
    intros [= _ <-]. by eapply read_number_loop_closed. }
  destruct (Ascii.eqb _ DQUOTE).
  { rewrite read_string_eq.
    destruct (read_string_loop _ _ _) as [[l2 content]|] eqn:E2; [|done].
    cbn [mbind option_bind]. intros [= _ <-].
    assert (P l2) as H2.
    { eapply read_string_loop_closed; [done..|]. by apply HP. }
    destruct (Ascii.eqb _ DQUOTE); [by apply HP|].
    rewrite lexer_set_error_set_errors. by apply HP. }
  destruct (Ascii.eqb _ SQUOTE).
  { intros [= E]. destruct (read_char_step l1) as (n & e & Hn).
    rewrite E in Hn. cbn [snd] in Hn.
    pose proof (iter_advance_closed P (S n) l1 HP H1) as Hn'.
    destruct Hn as [-> | ->]; [done|].
    rewrite lexer_set_error_set_errors. by apply HP. }
  intros [= E]. destruct (read_operator_step l1) as (n & Hn).
  rewrite E in Hn. cbn [snd] in Hn. subst l'.
  by apply iter_advance_closed.
Qed.

(* ------------------------------------------------------------------ *)
(** ** Lines and columns *)

(** The first [n] characters of a text. *)
Fixpoint string_take (n : nat) (s : string) : string :=
  match n, s with
  | S n', String c rest => String c (string_take n' rest)
  | _, _ => EmptyString
  end.

(** The number of newlines of a text, and the text behind its last
    newline. *)
Fixpoint newlines (s : string) : nat :=
  match s with
  | EmptyString => 0
  | String c rest => (if Ascii.eqb c LF then 1 else 0) + newlines rest
  end.

Fixpoint last_line (s : string) : string :=
  match s with
  | EmptyString => EmptyString
  | String c rest =>
      if (0 <? newlines rest)%nat then last_line rest
      else if Ascii.eqb c LF then rest
      else s
  end.

Lemma newlines_snoc (s : string) (c : ascii) :
  newlines (s +:+ String c EmptyString)
  = (newlines s + if Ascii.eqb c LF then 1 else 0)%nat.
Proof.
  induction s as [|x s IH]; [simpl; lia|].
  rewrite string_app_cons. simpl. rewrite IH. lia.
Qed.

Lemma last_line_snoc (s : string) (c : ascii) :
  last_line (s +:+ String c EmptyString)
  = if Ascii.eqb c LF then EmptyString else last_line s +:+ String c EmptyString.
Proof.
  induction s as [|x s IH].
  { simpl. by destruct (Ascii.eqb c LF). }
  rewrite string_app_cons. simpl. rewrite newlines_snoc, IH.
  destruct (Ascii.eqb c LF) eqn:Ec.
  - by replace (0 <? newlines s + 1)%nat with true by (symmetry; apply Nat.ltb_lt; lia).
  - rewrite Nat.add_0_r. destruct (0 <? newlines s)%nat; [done|].
    destruct (Ascii.eqb x LF); [done|]. by rewrite string_app_cons.
Qed.

Lemma string_length_snoc (s : string) (c : ascii) :
  String.length (s +:+ String c EmptyString) = S (String.length s).
Proof. induction s as [|x s IH]; [done|]. rewrite string_app_cons. simpl. by rewrite IH. Qed.

Lemma string_take_S (n : nat) (s : string) :
  (n < String.length s)%nat →
  string_take (S n) s = string_take n s +:+ String (char_at s n) EmptyString.
Proof.
  revert s. induction n as [|n IH]; intros [|c s] Hn; simpl in Hn; try lia.
  - done.
  - change (string_take (S (S n)) (String c s)) with (String c (string_take (S n) s)).
    rewrite IH by lia. done.
Qed.

(** The line and the column of a lexer that has not left its text count
    the newlines before the position and the characters behind the last of
    them, from 1. *)
Definition lexer_tracks (l : Lexer) : Prop :=
  (lexer_position l <= String.length (lexer_source l))%nat →
  lexer_line l = S (newlines (string_take (lexer_position l) (lexer_source l)))
  ∧ lexer_column l
    = S (String.length (last_line (string_take (lexer_position l) (lexer_source l)))).

Lemma lexer_tracks_closed : cursor_closed (λ l, lexer_wf l ∧ lexer_tracks l).
Proof.
  split.
  - intros l [Hwf Htracks]. split; [apply advance_wf|].
    intros Hpos. rewrite advance_position in Hpos |- *.
    rewrite (step_source _ _ (advance_step l)) in Hpos |- *.
    destruct Htracks as [Hline Hcol]; [lia|].
    rewrite string_take_S by lia. rewrite newlines_snoc, last_line_snoc.
    rewrite <- Hwf. unfold advance.
    destruct (Ascii.eqb (lexer_current_char l) LF); cbn; [split; lia|].
    rewrite string_length_snoc. split; lia.
  - by intros l flag e.
Qed.

(** The blanks [skip_whitespace] steps over. *)
Definition is_blank (c : ascii) : bool :=
  Ascii.eqb c " " || Ascii.eqb c TAB || Ascii.eqb c CR.

Fixpoint leading_blanks (s : string) : nat :=
  match s with
  | String c rest => if is_blank c then S (leading_blanks rest) else 0
  | EmptyString => 0
  end.

Lemma iter_advance_S (n : nat) (l : Lexer) :
  Nat.iter (S n) advance l = Nat.iter n advance (advance l).
Proof. induction n as [|n IH]; [done|]. simpl in *. by rewrite IH. Qed.

Lemma is_blank_not_NUL (c : ascii) : is_blank c = true → Ascii.eqb c NUL = false.
Proof.
  unfold is_blank. destruct (Ascii.eqb c NUL) eqn:E; [|done].
  apply Ascii.eqb_eq in E. by subst c.
Qed.

(** [skip_whitespace] is that many calls of [advance]. *)
Lemma skip_whitespace_loop_blanks (fuel : nat) (l : Lexer) :
  lexer_wf l → (leading_blanks (lexer_rest l) < fuel)%nat →
  skip_whitespace_loop fuel l
  = Some (Nat.iter (leading_blanks (lexer_rest l)) advance l).
Proof.
  revert l. induction fuel as [|fuel IH]; intros l Hwf Hfuel; [lia|].
  simpl. destruct (lexer_rest l) as [|c rest] eqn:Hrest.
  { destruct (lexer_rest_nil l Hwf Hrest) as [-> _]. done. }
  destruct (lexer_rest_cons l c rest Hwf Hrest) as [Hc Hadv].
  rewrite Hc. simpl in Hfuel |- *. fold (is_blank c).
  destruct (is_blank c) eqn:Hblank.
  - rewrite (is_blank_not_NUL c Hblank). simpl.
    rewrite IH; [|apply advance_wf|rewrite Hadv; lia].
    by rewrite Hadv, <- iter_advance_S.
  - by destruct (negb _).
Qed.

Lemma leading_blanks_length (s : string) :
  (leading_blanks s <= String.length s)%nat.
Proof. induction s as [|c s IH]; simpl; [lia|]. destruct (is_blank c); lia. Qed.

Definition skip_blanks (l : Lexer) : Lexer :=
  Nat.iter (leading_blanks (lexer_rest l)) advance l.

Lemma skip_whitespace_blanks (l : Lexer) :
  lexer_wf l → skip_whitespace l = Some (skip_blanks l).
Proof.
  intros Hwf. apply skip_whitespace_loop_blanks; [done|].
  pose proof (leading_blanks_length (lexer_rest l)).
  rewrite <- lexer_rest_remaining in H. unfold lexer_fuel, lexer_remaining in *. lia.
Qed.

Lemma iter_advance_position (n : nat) (l : Lexer) :
  lexer_position (Nat.iter n advance l) = (lexer_position l + n)%nat.
Proof.
  induction n as [|n IH]; simpl; [lia|]. rewrite advance_position, IH. lia.
Qed.

Lemma iter_advance_source (n : nat) (l : Lexer) :
  lexer_source (Nat.iter n advance l) = lexer_source l.
Proof.
  induction n as [|n IH]; simpl; [done|].
  by rewrite (step_source _ _ (advance_step _)).
Qed.

(** The line and the column of a token are those of the lexer behind the
    blanks. *)
Lemma lexer_next_token_start (l : Lexer) (t : Token) (l' : Lexer) :
  lexer_wf l → lexer_next_token l = Some (t, l') →
  token_line t = lexer_line (skip_blanks l)
  ∧ token_column t = lexer_column (skip_blanks l).
Proof.
  intros Hwf. unfold lexer_next_token.
  destruct (Ascii.eqb (lexer_current_char l) NUL) eqn:Hnul.
  { intros [= <- _]. unfold skip_blanks.
    destruct (lexer_rest l) as [|c rest] eqn:Hrest; [done|].
    destruct (lexer_rest_cons l c rest Hwf Hrest) as [Hc _].
    rewrite Hc in Hnul. apply Ascii.eqb_eq in Hnul. by subst c. }
  rewrite (skip_whitespace_blanks l Hwf). cbn [mbind option_bind].
  generalize (skip_blanks l). clear Hnul. intros l1.
  destruct (Ascii.eqb _ LF); [by intros [= <- _]|].
  destruct (Ascii.eqb _ NUL); [by intros [= <- _]|].
  destruct (_ || _).
  { unfold read_identifier. destruct (read_identifier_loop _ _ _) as [[l2 x]|]; [|done].
    by intros [= <- _]. }
  destruct (isdigit _).
  { unfold read_number, token_create_with_literal.
    destruct (read_number_loop _ _ _ _) as [[[l2 x] d]|]; [|done].
    intros [= <- _]. by destruct d. }
  destruct (Ascii.eqb _ DQUOTE).
  { rewrite read_string_eq. destruct (read_string_loop _ _ _) as [[l2 x]|]; [|done].
    by intros [= <- _]. }
  destruct (Ascii.eqb _ SQUOTE).
  { unfold read_char.
    repeat match goal with
           | |- context [if ?b then _ else _] => destruct b
           end; by intros [= <- _]. }
  unfold read_operator.
  repeat match goal with
         | |- context [if ?b then _ else _] => destruct b
         end; by intros [= <- _].
Qed.

Lemma lexer_run_closed (P : Lexer → Prop) (tokens : list Token) :
  cursor_closed P →
  ∀ l l', lexer_run l tokens l' → P l → P l'.
Proof.
  intros HP. induction tokens as [|t tokens IH]; intros l l'.
  - by intros ->.
  - intros (l1 & E & Hrun) Hl. apply (IH l1 l' Hrun).
    by eapply lexer_next_token_closed.
Qed.

Lemma lexer_run_source (tokens : list Token) (l l' : Lexer) :
  lexer_wf l → lexer_run l tokens l' → lexer_source l' = lexer_source l.
Proof.
  revert l. induction tokens as [|t tokens IH]; intros l Hwf.
  - by intros ->.
  - intros (l1 & E & Hrun).
    destruct (lexer_next_token_total l Hwf) as (t' & l2 & E' & Hstep & _).
    rewrite E in E'. injection E' as <- <-.
    rewrite (IH l1 (step_wf _ _ Hstep) Hrun). apply Hstep.
Qed.

(** X1.  Line and column of a token.  After any number of tokens of a text,
    with the lexer still inside the text, the next token carries the line
    and the column of its first character: one more than the number of
    newlines in front of it, and one more than the number of characters
    between the last of those newlines and it.  The blanks in front of the
    token are not part of it. *)
Theorem X1_token_line_and_column (source : string) (tokens : list Token)
    (l : Lexer) (t : Token) (l' : Lexer) :
  lexer_run (lexer_create source) tokens l →
  lexer_next_token l = Some (t, l') →
  (lexer_position l <= String.length source)%nat →
  let start := (lexer_position l + leading_blanks (lexer_rest l))%nat in
  token_line t = S (newlines (string_take start source))
  ∧ token_column t = S (String.length (last_line (string_take start source))).
Proof.
  intros Hrun E Hpos start.
  pose proof (lexer_run_closed _ tokens lexer_tracks_closed _ _ Hrun) as [Hwf Htracks].
  { split; [apply lexer_create_wf|]. by intros _. }
  pose proof (lexer_run_source tokens _ _ (lexer_create_wf source) Hrun) as Hsrc.
  cbn [lexer_create lexer_source] in Hsrc.
  destruct (lexer_next_token_start l t l' Hwf E) as [-> ->].
  destruct (iter_advance_closed _ (leading_blanks (lexer_rest l)) l
              lexer_tracks_closed (conj Hwf Htracks)) as [_ Hskip].
  fold (skip_blanks l) in Hskip. unfold lexer_tracks in Hskip.
  unfold skip_blanks in Hskip at 1 2 4 5 7 8.
  rewrite iter_advance_position, iter_advance_source, Hsrc in Hskip.
  apply Hskip. pose proof (leading_blanks_length (lexer_rest l)) as Hb.
  rewrite <- lexer_rest_remaining in Hb. unfold lexer_remaining in Hb.
  rewrite Hsrc in Hb. lia.
Qed.

Ltac lexer_run_steps :=
  cbn [lexer_run app];
  repeat (lazymatch goal with
          | |- ∃ l1, lexer_next_token ?l = _ ∧ _ =>
              exists (lexer_after l); split; [vm_compute; reflexivity|]
          end);
  vm_compute; reflexivity.

(** The text [ab], a newline, two blanks and [cd]: [cd] is at line 2,
    column 3. *)
Lemma X1_token_line_and_column_witness :
  let source := "ab" +:+ String LF "  cd" in
  lexer_next_token (mkLexer source 3 2 1 " " false None)
  = Some (token_create TOKEN_IDENTIFIER "cd" 2 3,
          mkLexer source 7 2 5 NUL false None)
  ∧ 2%nat = S (newlines (string_take 5 source))
  ∧ 3%nat = S (String.length (last_line (string_take 5 source))).
Proof.
  intros source. split; [vm_compute; reflexivity|].
  apply (X1_token_line_and_column source
           [token_create TOKEN_IDENTIFIER "ab" 1 1;
            token_create TOKEN_NEWLINE (String LF EmptyString) 1 3]
           (mkLexer source 3 2 1 " " false None)
           (token_create TOKEN_IDENTIFIER "cd" 2 3)
           (mkLexer source 7 2 5 NUL false None));
    [lexer_run_steps|vm_compute; reflexivity|vm_compute; lia].
Defined.

(* ------------------------------------------------------------------ *)
(** ** The text of a token *)

Lemma string_drop_add (n m : nat) (s : string) :
  string_drop (n + m) s = string_drop m (string_drop n s).
Proof.
  revert s. induction n as [|n IH]; intros s; [done|].
  destruct s as [|c s]; [by rewrite !string_drop_nil|]. apply IH.
Qed.

Lemma lexer_rest_iter (n : nat) (l : Lexer) :
  lexer_rest (Nat.iter n advance l) = string_drop n (lexer_rest l).
Proof.
  unfold lexer_rest. by rewrite iter_advance_position, iter_advance_source, string_drop_add.
Qed.

Lemma string_take_drop (n : nat) (s : string) :
  s = string_take n s +:+ string_drop n s.
Proof.
  revert s. induction n as [|n IH]; intros [|c s]; try done.
  simpl. rewrite string_app_cons. by rewrite <- IH.
Qed.

Lemma string_drop_app_length (a b : string) :
  string_drop (String.length a) (a +:+ b) = b.
Proof. induction a as [|x a IH]; [done|]. by rewrite string_app_cons. Qed.

Lemma string_take_app_length (a b : string) :
  string_take (String.length a) (a +:+ b) = a.
Proof.
  induction a as [|x a IH]; [by destruct b|]. rewrite string_app_cons. simpl.
  by rewrite IH.
Qed.

Lemma iter_advance_wf (n : nat) (l : Lexer) :
  lexer_wf l → lexer_wf (Nat.iter n advance l).
Proof. intros Hwf. by apply iter_advance_step. Qed.

Lemma iter_advance_add (n m : nat) (l : Lexer) :
  Nat.iter (n + m) advance l = Nat.iter m advance (Nat.iter n advance l).
Proof.
  revert l. induction n as [|n IH]; intros l; [done|].
  change (S n + m)%nat with (S (n + m)). by rewrite !iter_advance_S, IH.
Qed.

(** The longest prefix of characters that satisfy [p]. *)
Fixpoint span (p : ascii → bool) (s : string) : string :=
  match s with
  | String c rest => if p c then String c (span p rest) else EmptyString
  | EmptyString => EmptyString
  end.

(** The characters the loop of [read_identifier] takes. *)
Definition identifier_char (c : ascii) : bool :=
  negb (Ascii.eqb c NUL) && (isalnum c || Ascii.eqb c "_").

Lemma read_identifier_loop_span (fuel : nat) (l : Lexer) (buffer : string) :
  lexer_wf l →
  (String.length (span identifier_char (lexer_rest l)) < fuel)%nat →
  read_identifier_loop fuel l buffer
  = Some (Nat.iter (String.length (span identifier_char (lexer_rest l))) advance l,
          buffer +:+ span identifier_char (lexer_rest l)).
Proof.
  revert l buffer. induction fuel as [|fuel IH]; intros l buffer Hwf Hfuel; [lia|].
  simpl. destruct (lexer_rest l) as [|c rest] eqn:Hrest.
  { destruct (lexer_rest_nil l Hwf Hrest) as [-> _]. simpl.
    by rewrite string_app_nil_r. }
  destruct (lexer_rest_cons l c rest Hwf Hrest) as [Hc Hadv].
  rewrite Hc. simpl in Hfuel |- *. fold (identifier_char c).
  destruct (identifier_char c) eqn:Hid.
  - simpl in Hfuel. rewrite IH; [|apply advance_wf|rewrite Hadv; lia].
    rewrite Hadv. unfold string_buffer_append_char.
    rewrite string_app_assoc, string_app_cons. simpl String.length.
    by rewrite iter_advance_S.
  - by rewrite string_app_nil_r.
Qed.

Lemma span_length (p : ascii → bool) (s : string) :
  (String.length (span p s) <= String.length s)%nat.
Proof. induction s as [|c s IH]; simpl; [lia|]. destruct (p c); simpl; lia. Qed.

Lemma span_drop (p : ascii → bool) (s : string) :
  s = span p s +:+ string_drop (String.length (span p s)) s.
Proof.
  induction s as [|c s IH]; [done|]. simpl. destruct (p c); [|done].
  rewrite string_app_cons. simpl. by rewrite <- IH.
Qed.

(** [read_identifier] in one piece. *)
Lemma read_identifier_span (l : Lexer) :
  lexer_wf l →
  let word := span identifier_char (lexer_rest l) in
  read_identifier l
  = Some (token_create (default TOKEN_IDENTIFIER (token_is_keyword word)) word
            (lexer_line l) (lexer_column l),
          Nat.iter (String.length word) advance l).
Proof.
  intros Hwf word. unfold read_identifier.
  rewrite read_identifier_loop_span; [done..|].
  pose proof (span_length identifier_char (lexer_rest l)) as H.
  rewrite <- lexer_rest_remaining in H. unfold lexer_fuel, lexer_remaining in *. lia.
Qed.

(** The characters the loop of [read_number] takes, and whether a decimal
    point is among them. *)
Fixpoint number_span (s : string) (has_decimal : bool) : string * bool :=
  match s with
  | String c rest =>
      if negb (Ascii.eqb c NUL) then
        if isdigit c then
          let '(w, d) := number_span rest has_decimal in (String c w, d)
        else if Ascii.eqb c "." && negb has_decimal then
          let '(w, d) := number_span rest true in (String c w, d)
        else (EmptyString, has_decimal)
      else (EmptyString, has_decimal)
  | EmptyString => (EmptyString, has_decimal)
  end.

Lemma number_span_length (s : string) (has_decimal : bool) :
  (String.length (number_span s has_decimal).1 <= String.length s)%nat.
Proof.
  revert has_decimal. induction s as [|c s IH]; intros d; simpl; [lia|].
  destruct (negb _); [|simpl; lia].
  destruct (isdigit c).
  { specialize (IH d). destruct (number_span s d). simpl in *. lia. }
  destruct (_ && _); [|simpl; lia].
  specialize (IH true). destruct (number_span s true). simpl in *. lia.
Qed.

Lemma number_span_drop (s : string) (has_decimal : bool) :
  s = (number_span s has_decimal).1
      +:+ string_drop (String.length (number_span s has_decimal).1) s.
Proof.
  revert has_decimal. induction s as [|c s IH]; intros d; [done|]. simpl.
  destruct (negb _); [|done].
  destruct (isdigit c).
  { specialize (IH d). destruct (number_span s d). simpl in *.
    rewrite string_app_cons. by rewrite <- IH. }
  destruct (_ && _); [|done].
  specialize (IH true). destruct (number_span s true). simpl in *.
  rewrite string_app_cons. by rewrite <- IH.
Qed.

Lemma read_number_loop_span (fuel : nat) (l : Lexer) (buffer : string)
    (has_decimal : bool) :
  lexer_wf l →
  (String.length (number_span (lexer_rest l) has_decimal).1 < fuel)%nat →
  read_number_loop fuel l buffer has_decimal
  = Some (Nat.iter (String.length (number_span (lexer_rest l) has_decimal).1)
            advance l,
          buffer +:+ (number_span (lexer_rest l) has_decimal).1,
          (number_span (lexer_rest l) has_decimal).2).
Proof.
  revert l buffer has_decimal.
  induction fuel as [|fuel IH]; intros l buffer d Hwf Hfuel; [lia|].
  simpl. destruct (lexer_rest l) as [|c rest] eqn:Hrest.
  { destruct (lexer_rest_nil l Hwf Hrest) as [-> _]. simpl.
    by rewrite string_app_nil_r. }
  destruct (lexer_rest_cons l c rest Hwf Hrest) as [Hc Hadv].
  rewrite Hc. simpl in Hfuel |- *.
  destruct (negb (Ascii.eqb c NUL)); [|by rewrite string_app_nil_r].
  destruct (isdigit c).
  { specialize (IH (advance l) (string_buffer_append_char buffer c) d
                  (advance_wf l)).
    rewrite Hadv in IH. destruct (number_span rest d) as [w d'].
    simpl in *. rewrite IH by lia. unfold string_buffer_append_char.
    by rewrite string_app_assoc, string_app_cons, <- iter_advance_S. }
  destruct (_ && _); [|by rewrite string_app_nil_r].
  specialize (IH (advance l) (string_buffer_append_char buffer c) true
                (advance_wf l)).
  rewrite Hadv in IH. destruct (number_span rest true) as [w d'].
  simpl in *. rewrite IH by lia. unfold string_buffer_append_char.
  by rewrite string_app_assoc, string_app_cons, <- iter_advance_S.
Qed.

(** [read_number] in one piece. *)
Lemma read_number_span (l : Lexer) :
  lexer_wf l →
  let '(lexeme, has_decimal) := number_span (lexer_rest l) false in
  read_number l
  = Some (token_create_with_literal
            (if has_decimal then TOKEN_FLOAT_LITERAL else TOKEN_INTEGER_LITERAL)
            lexeme (lexer_line l) (lexer_column l),
          Nat.iter (String.length lexeme) advance l).
Proof.
  intros Hwf. unfold read_number.
  rewrite read_number_loop_span; [|done|].
  - by destruct (number_span (lexer_rest l) false).
  - pose proof (number_span_length (lexer_rest l) false) as H.
    rewrite <- lexer_rest_remaining in H. unfold lexer_fuel, lexer_remaining in *. lia.
Qed.

Lemma peek_rest (l : Lexer) (c : ascii) (rest : string) :
  lexer_wf l → lexer_rest l = String c rest →
  peek l = match rest with String c' _ => c' | EmptyString => NUL end.
Proof.
  intros Hwf Hrest. destruct (lexer_rest_cons l c rest Hwf Hrest) as [_ Hadv].
  unfold peek. rewrite Nat.add_1_r.
  pose proof (advance_wf l) as Hwf'. unfold lexer_wf in Hwf'.
  rewrite advance_position, (step_source _ _ (advance_step l)) in Hwf'.
  rewrite <- Hwf'. destruct rest as [|c' rest'].
  - by destruct (lexer_rest_nil _ (advance_wf l) Hadv).
  - by destruct (lexer_rest_cons _ _ _ (advance_wf l) Hadv).
Qed.

Ltac case_char :=
  match goal with
  | |- context [if Ascii.eqb ?a ?b then _ else _] =>
      let E := fresh "E" in
      destruct (Ascii.eqb a b) eqn:E; [apply Ascii.eqb_eq in E; try subst a|]
  end.

(** [read_operator] takes one or two characters, and they are the lexeme. *)
Lemma read_operator_lexeme (l : Lexer) (c : ascii) (rest : string) :
  lexer_wf l → lexer_rest l = String c rest →
  ∃ type lexeme,
    read_operator l
    = (token_create type lexeme (lexer_line l) (lexer_column l),
       Nat.iter (String.length lexeme) advance l)
    ∧ lexeme = string_take (String.length lexeme) (lexer_rest l).
Proof.
  intros Hwf Hrest. unfold read_operator.
  rewrite (peek_rest l c rest Hwf Hrest).
  destruct (lexer_rest_cons l c rest Hwf Hrest) as [-> _]. rewrite Hrest.
  destruct rest as [|c' rest'];
    repeat case_char; try discriminate;
    lazymatch goal with
    | |- ∃ type lexeme, (token_create ?ty ?lx _ _, _) = _ ∧ _ =>
        exists ty, lx; split; reflexivity
    end.
Qed.

Lemma lexer_rest_current (l : Lexer) :
  lexer_wf l → Ascii.eqb (lexer_current_char l) NUL = false →
  ∃ rest, lexer_rest l = String (lexer_current_char l) rest.
Proof.
  intros Hwf Hnul. destruct (lexer_rest l) as [|c rest] eqn:Hrest.
  - destruct (lexer_rest_nil l Hwf Hrest) as [Hc _]. by rewrite Hc in Hnul.
  - destruct (lexer_rest_cons l c rest Hwf Hrest) as [<- _]. by exists rest.
Qed.

Lemma leading_blanks_NUL (l : Lexer) :
  lexer_wf l → Ascii.eqb (lexer_current_char l) NUL = true →
  leading_blanks (lexer_rest l) = 0%nat.
Proof.
  intros Hwf Hnul. apply Ascii.eqb_eq in Hnul.
  destruct (lexer_rest l) as [|c rest] eqn:Hrest; [done|].
  destruct (lexer_rest_cons l c rest Hwf Hrest) as [Hc _].
  rewrite Hnul in Hc. by subst c.
Qed.

Lemma read_char_kind (l : Lexer) :
  token_type (read_char l).1 = TOKEN_CHAR_LITERAL
  ∨ (token_type (read_char l).1 = TOKEN_UNKNOWN
     ∧ token_lexeme (read_char l).1 = String SQUOTE EmptyString).
Proof.
  unfold read_char.
  repeat match goal with
         | |- context [if ?b then _ else _] => destruct b
         end; simpl; auto.
Qed.

Lemma token_create_with_literal_lexeme (type : TokenType) (lexeme : string)
    (line column : nat) :
  token_lexeme (token_create_with_literal type lexeme line column) = lexeme
  ∧ token_type (token_create_with_literal type lexeme line column) = type
  ∧ token_line (token_create_with_literal type lexeme line column) = line
  ∧ token_column (token_create_with_literal type lexeme line column) = column.
Proof.
  unfold token_create_with_literal.
  destruct type; try done; by destruct (_ <=? _)%nat.
Qed.

(** X2.  The lexeme is the text of the token.  For every token that is not
    a string or character literal (nor the token of a character literal
    that went wrong), the text in front of the lexer is the blanks that
    were skipped, then the lexeme, then the text in front of the lexer
    afterwards: nothing is dropped, added or reordered. *)
Theorem X2_lexeme_is_the_consumed_text (l : Lexer) (t : Token) (l' : Lexer) :
  lexer_wf l →
  lexer_next_token l = Some (t, l') →
  token_type t ≠ TOKEN_STRING_LITERAL →
  token_type t ≠ TOKEN_CHAR_LITERAL →
  token_lexeme t ≠ String SQUOTE EmptyString →
  lexer_rest l
  = string_take (leading_blanks (lexer_rest l)) (lexer_rest l)
    +:+ token_lexeme t +:+ lexer_rest l'.
Proof.
  intros Hwf E Hstring Hchar Hquote. revert E. unfold lexer_next_token.
  destruct (Ascii.eqb (lexer_current_char l) NUL) eqn:Hnul.
  { intros [= <- <-]. by rewrite (leading_blanks_NUL l Hwf Hnul). }
  rewrite (skip_whitespace_blanks l Hwf). cbn [mbind option_bind].
  rewrite (string_take_drop (leading_blanks (lexer_rest l)) (lexer_rest l)) at 1.
  intros E. f_equal.
  assert (lexer_rest (skip_blanks l)
          = string_drop (leading_blanks (lexer_rest l)) (lexer_rest l)) as <-
    by apply lexer_rest_iter.
  assert (lexer_wf (skip_blanks l)) as Hwf1 by (by apply iter_advance_wf).
  revert E Hwf1. generalize (skip_blanks l). clear Hnul Hwf l. intros l E Hwf.
  revert E.
  destruct (Ascii.eqb (lexer_current_char l) LF) eqn:Hlf.
  { intros [= <- <-]. apply Ascii.eqb_eq in Hlf.
    destruct (lexer_rest_current l Hwf) as [rest Hrest]; [by rewrite Hlf|].
    destruct (lexer_rest_cons l _ rest Hwf Hrest) as [_ ->].
    by rewrite Hrest, Hlf. }
  destruct (Ascii.eqb (lexer_current_char l) NUL) eqn:Hnul.
  { by intros [= <- <-]. }
  destruct (_ || _).
  { pose proof (read_identifier_span l Hwf) as Hid. cbv zeta in Hid. rewrite Hid.
    intros [= <- <-]. cbn [token_create token_lexeme].
    rewrite lexer_rest_iter. apply span_drop. }
  destruct (isdigit _).
  { pose proof (read_number_span l Hwf) as Hnum.
    pose proof (number_span_drop (lexer_rest l) false) as Hdrop.
    destruct (number_span (lexer_rest l) false) as [lexeme d]. rewrite Hnum.
    intros [= <- <-].
    rewrite (proj1 (token_create_with_literal_lexeme _ _ _ _)), lexer_rest_iter.
    exact Hdrop. }
  destruct (Ascii.eqb _ DQUOTE).
  { rewrite read_string_eq. destruct (read_string_loop _ _ _) as [[l1 x]|]; [|done].
    intros [= <- _]. done. }
  destruct (Ascii.eqb _ SQUOTE).
  { intros [= E]. destruct (read_char_kind l) as [H|[_ H]]; rewrite E in H; done. }
  destruct (lexer_rest_current l Hwf Hnul) as [rest Hrest].
  destruct (read_operator_lexeme l _ rest Hwf Hrest) as (type & lexeme & -> & Hlx).
  intros [= <- <-]. cbn [token_create token_lexeme].
  rewrite lexer_rest_iter. rewrite Hlx at 1. apply string_take_drop.
Qed.

Lemma X2_lexeme_is_the_consumed_text_witness :
  lexer_rest (lexer_at "  count <= 10" 0)
  = string_take 2 "  count <= 10" +:+ "count" +:+ lexer_rest (lexer_at "  count <= 10" 7).
Proof.
  apply (X2_lexeme_is_the_consumed_text (lexer_at "  count <= 10" 0)
           (identifier_token "count" 3) (lexer_at "  count <= 10" 7));
    [reflexivity|vm_compute; reflexivity|discriminate..].
Defined.

(* ------------------------------------------------------------------ *)
(** ** The end of the input *)

Fixpoint all_blank (s : string) : bool :=
  match s with
  | EmptyString => true
  | String c rest => is_blank c && all_blank rest
  end.

Lemma all_blank_drop (s : string) :
  all_blank s = true ↔ string_drop (leading_blanks s) s = EmptyString.
Proof.
  induction s as [|c s IH]; [done|]. simpl.
  destruct (is_blank c); simpl; [done|]. split; discriminate.
Qed.

Lemma no_NUL_drop (n : nat) (s : string) :
  no_NUL s = true → no_NUL (string_drop n s) = true.
Proof.
  revert s. induction n as [|n IH]; intros [|c s]; try done.
  simpl. intros [_ H]%andb_true_iff. by apply IH.
Qed.

Lemma keyword_not_eof (lexeme : string) (type : TokenType) :
  token_is_keyword lexeme = Some type →
  type ≠ TOKEN_EOF ∧ type ≠ TOKEN_IDENTIFIER.
Proof.
  unfold token_is_keyword, keywords. simpl.
  repeat (destruct (String.eqb lexeme _); [by intros [= <-]|]). done.
Qed.

Lemma read_operator_not_eof (l : Lexer) :
  token_type (read_operator l).1 ≠ TOKEN_EOF.
Proof.
  unfold read_operator.
  repeat match goal with
         | |- context [if ?b then _ else _] => destruct b
         end; discriminate.
Qed.

(** X3.  The end of the input.  On a text without NUL, the token is the
    end-of-input token exactly when nothing but blanks (space, tab,
    carriage return) is left.  Once it is returned it is returned again and
    again, and the lexer does not move. *)
Theorem X3_end_of_input_token (l : Lexer) :
  lexer_wf l → no_NUL (lexer_rest l) = true →
  ∃ t l',
    lexer_next_token l = Some (t, l')
    ∧ (token_type t = TOKEN_EOF ↔ all_blank (lexer_rest l) = true)
    ∧ (token_type t = TOKEN_EOF →
       token_lexeme t = EmptyString
       ∧ lexer_rest l' = EmptyString
       ∧ lexer_next_token l' = Some (t, l')).
Proof.
  intros Hwf Hnn. unfold lexer_next_token.
  destruct (Ascii.eqb (lexer_current_char l) NUL) eqn:Hnul.
  { assert (lexer_rest l = EmptyString) as Hrest.
    { destruct (lexer_rest l) as [|c rest] eqn:Hrest; [done|].
      destruct (lexer_rest_cons l c rest Hwf Hrest) as [Hc _].
      simpl in Hnn. rewrite <- Hc, Hnul in Hnn. done. }
    eexists _, _. split; [done|]. rewrite Hrest, Hnul. done. }
  rewrite (skip_whitespace_blanks l Hwf). cbn [mbind option_bind].
  assert (all_blank (lexer_rest l) = true
          ↔ lexer_rest (skip_blanks l) = EmptyString) as Hblank.
  { unfold skip_blanks. by rewrite all_blank_drop, lexer_rest_iter. }
  enough (∃ t l',
            (let c := lexer_current_char (skip_blanks l) in
             if Ascii.eqb c LF then
               Some (token_create TOKEN_NEWLINE (String LF EmptyString)
                       (lexer_line (skip_blanks l)) (lexer_column (skip_blanks l)),
                     advance (skip_blanks l))
             else if Ascii.eqb c NUL then
               Some (token_create TOKEN_EOF "" (lexer_line (skip_blanks l))
                       (lexer_column (skip_blanks l)), skip_blanks l)
             else if isalpha c || Ascii.eqb c "_" then read_identifier (skip_blanks l)
             else if isdigit c then read_number (skip_blanks l)
             else if Ascii.eqb c DQUOTE then read_string (skip_blanks l)
             else if Ascii.eqb c SQUOTE then Some (read_char (skip_blanks l))
             else Some (read_operator (skip_blanks l))) = Some (t, l')
            ∧ (token_type t = TOKEN_EOF ↔ lexer_rest (skip_blanks l) = EmptyString)
            ∧ (token_type t = TOKEN_EOF →
               token_lexeme t = EmptyString ∧ lexer_rest l' = EmptyString
               ∧ lexer_next_token l' = Some (t, l')))
    as (t & l' & E & H1 & H2).
  { exists t, l'. split_and!; [done| |done]. by rewrite Hblank. }
  clear Hblank. cbv zeta.
  assert (lexer_wf (skip_blanks l)) as Hwf1 by (by apply iter_advance_wf).
  assert (no_NUL (lexer_rest (skip_blanks l)) = true) as Hnn1.
  { unfold skip_blanks. rewrite lexer_rest_iter. by apply no_NUL_drop. }
  revert Hwf1 Hnn1. generalize (skip_blanks l). clear. intros l Hwf Hnn.
  destruct (Ascii.eqb (lexer_current_char l) NUL) eqn:Hnul.
  { assert (lexer_rest l = EmptyString) as Hrest.
    { destruct (lexer_rest l) as [|c rest] eqn:Hrest; [done|].
      destruct (lexer_rest_cons l c rest Hwf Hrest) as [Hc _].
      simpl in Hnn. rewrite <- Hc, Hnul in Hnn. done. }
    replace (Ascii.eqb (lexer_current_char l) LF) with false.
    2:{ apply Ascii.eqb_eq in Hnul. by rewrite Hnul. }
    eexists _, _. split; [done|]. rewrite Hrest. split_and!; try done.
    intros _. unfold lexer_next_token. by rewrite Hnul. }
  destruct (lexer_rest_current l Hwf Hnul) as [rest Hrest]. rewrite Hrest.
  assert (∀ (t : Token) (l' : Lexer) (r : option (Token * Lexer)),
            r = Some (t, l') → token_type t ≠ TOKEN_EOF →
            ∃ t l', r = Some (t, l')
              ∧ (token_type t = TOKEN_EOF
                 ↔ String (lexer_current_char l) rest = EmptyString)
              ∧ (token_type t = TOKEN_EOF →
                 token_lexeme t = EmptyString ∧ lexer_rest l' = EmptyString
                 ∧ lexer_next_token l' = Some (t, l'))) as Hcase.
  { intros t l' r -> Hne. exists t, l'. by split_and!. }
  destruct (Ascii.eqb (lexer_current_char l) LF); [by eapply Hcase|].
  destruct (_ || _).
  { pose proof (read_identifier_span l Hwf) as Hid. cbv zeta in Hid.
    eapply Hcase; [exact Hid|]. cbn [token_create token_type].
    destruct (token_is_keyword _) as [type|] eqn:Hk; [|done].
    by apply keyword_not_eof in Hk as [? _]. }
  destruct (isdigit _).
  { pose proof (read_number_span l Hwf) as Hnum.
    destruct (number_span (lexer_rest l) false) as [lexeme d].
    eapply Hcase; [exact Hnum|].
    rewrite (proj1 (proj2 (token_create_with_literal_lexeme _ _ _ _))).
    by destruct d. }
  destruct (Ascii.eqb _ DQUOTE).
  { destruct (lexer_next_token_total l Hwf) as (t & l' & E & _).
    unfold lexer_next_token in E. rewrite Hnul in E.
    rewrite read_string_eq.
    destruct (read_string_loop _ _ _) as [[l1 x]|] eqn:Hloop.
    - by eapply Hcase.
    - exfalso. destruct (read_string_loop_total (lexer_fuel (advance l)) (advance l)
                           EmptyString) as (? & ? & E' & _);
        [apply advance_wf|unfold lexer_fuel, lexer_remaining; lia|].
      congruence. }
  destruct (Ascii.eqb _ SQUOTE).
  { destruct (read_char l) as [t l'] eqn:E. eapply Hcase; [done|].
    destruct (read_char_kind l) as [H|[H _]]; rewrite E in H; simpl in H;
      by rewrite H. }
  destruct (read_operator l) as [t l'] eqn:E. eapply Hcase; [done|].
  pose proof (read_operator_not_eof l) as H. by rewrite E in H.
Qed.

Lemma X3_end_of_input_token_witness :
  ∃ t l',
    lexer_next_token (lexer_create "  ") = Some (t, l')
    ∧ (token_type t = TOKEN_EOF ↔ all_blank "  " = true)
    ∧ (token_type t = TOKEN_EOF →
       token_lexeme t = EmptyString
       ∧ lexer_rest l' = EmptyString
       ∧ lexer_next_token l' = Some (t, l')).
Proof.
  apply (X3_end_of_input_token (lexer_create "  ")); reflexivity.
Defined.



(* ------------------------------------------------------------------ *)
(** ** Peeking, then taking *)

Lemma advance_set_errors (l : Lexer) (flag : bool) (e : option Error) :
  advance (set_errors l flag e) = set_errors (advance l) flag e.
Proof. unfold advance, set_errors. simpl. by destruct (Ascii.eqb _ _). Qed.

Lemma iter_advance_set_errors (n : nat) (l : Lexer) (flag : bool)
    (e : option Error) :
  Nat.iter n advance (set_errors l flag e) = set_errors (Nat.iter n advance l) flag e.
Proof.
  induction n as [|n IH]; [done|]. simpl. by rewrite IH, advance_set_errors.
Qed.

Lemma skip_whitespace_loop_set_errors (fuel : nat) (l : Lexer) (flag : bool)
    (e : option Error) :
  skip_whitespace_loop fuel (set_errors l flag e)
  = (λ l', set_errors l' flag e) <$> skip_whitespace_loop fuel l.
Proof.
  revert l. induction fuel as [|fuel IH]; intros l; [done|]. simpl.
  destruct (negb _); [|done]. destruct (_ || _); [|done].
  by rewrite advance_set_errors, IH.
Qed.

Lemma read_identifier_loop_set_errors (fuel : nat) (l : Lexer) (buffer : string)
    (flag : bool) (e : option Error) :
  read_identifier_loop fuel (set_errors l flag e) buffer
  = (λ r, (set_errors r.1 flag e, r.2)) <$> read_identifier_loop fuel l buffer.
Proof.
  revert l buffer. induction fuel as [|fuel IH]; intros l buffer; [done|]. simpl.
  destruct (_ && _); [|done]. by rewrite advance_set_errors, IH.
Qed.

Lemma read_number_loop_set_errors (fuel : nat) (l : Lexer) (buffer : string)
    (d flag : bool) (e : option Error) :
  read_number_loop fuel (set_errors l flag e) buffer d
  = (λ r, (set_errors r.1.1 flag e, r.1.2, r.2)) <$> read_number_loop fuel l buffer d.
Proof.
  revert l buffer d. induction fuel as [|fuel IH]; intros l buffer d; [done|]. simpl.
  destruct (negb _); [|done].
  destruct (isdigit _); [by rewrite advance_set_errors, IH|].
  destruct (_ && _); [|done]. by rewrite advance_set_errors, IH.
Qed.

Lemma read_string_loop_set_errors (fuel : nat) (l : Lexer) (buffer : string)
    (flag : bool) (e : option Error) :
  read_string_loop fuel (set_errors l flag e) buffer
  = (λ r, (set_errors r.1 flag e, r.2)) <$> read_string_loop fuel l buffer.
Proof.
  revert l buffer. induction fuel as [|fuel IH]; intros l buffer; [done|]. simpl.
  destruct (_ && _); [|done].
  destruct (Ascii.eqb _ BACKSLASH).
  - rewrite !advance_set_errors. simpl.
    destruct (negb _); by rewrite advance_set_errors, IH.
  - by rewrite advance_set_errors, IH.
Qed.

Lemma set_errors_cursor (l : Lexer) (flag : bool) (e : option Error) :
  lexer_current_char (set_errors l flag e) = lexer_current_char l
  ∧ lexer_line (set_errors l flag e) = lexer_line l
  ∧ lexer_column (set_errors l flag e) = lexer_column l
  ∧ lexer_position (set_errors l flag e) = lexer_position l
  ∧ lexer_source (set_errors l flag e) = lexer_source l.
Proof. done. Qed.

Lemma read_char_set_errors (l : Lexer) (flag : bool) (e : option Error) :
  read_char (set_errors l flag e) = ((read_char l).1, set_errors (read_char l).2 flag e)
  ∨ read_char (set_errors l flag e) = read_char l.
Proof.
  unfold read_char. cbv zeta.
  repeat (repeat rewrite ?advance_set_errors, ?(proj1 (set_errors_cursor _ _ _)),
            ?(proj1 (proj2 (set_errors_cursor _ _ _))),
            ?(proj1 (proj2 (proj2 (set_errors_cursor _ _ _))));
          match goal with
          | |- context [if ?b then _ else _] => destruct b
          end);
    repeat rewrite ?advance_set_errors, ?(proj1 (set_errors_cursor _ _ _)),
      ?(proj1 (proj2 (set_errors_cursor _ _ _))),
      ?(proj1 (proj2 (proj2 (set_errors_cursor _ _ _))));
    first [by left | by right].
Qed.

Lemma read_operator_set_errors (l : Lexer) (flag : bool) (e : option Error) :
  read_operator (set_errors l flag e)
  = ((read_operator l).1, set_errors (read_operator l).2 flag e).
Proof.
  unfold read_operator, peek. cbv zeta.
  repeat rewrite ?advance_set_errors, ?(proj1 (set_errors_cursor _ _ _)),
    ?(proj1 (proj2 (set_errors_cursor _ _ _))),
    ?(proj1 (proj2 (proj2 (set_errors_cursor _ _ _)))).
  cbn [set_errors lexer_source lexer_position].
  repeat match goal with
         | |- context [if ?b then _ else _] => destruct b
         end; done.
Qed.

(** What [lexer_next_token] does to the error fields: it leaves them as
    they are, or it overwrites them. *)
Lemma lexer_next_token_set_errors (l : Lexer) (t : Token) (l' : Lexer)
    (flag : bool) (e : option Error) :
  lexer_next_token l = Some (t, l') →
  lexer_next_token (set_errors l flag e) = Some (t, set_errors l' flag e)
  ∨ lexer_next_token (set_errors l flag e) = Some (t, l').
Proof.
  unfold lexer_next_token. cbn [set_errors lexer_current_char].
  destruct (Ascii.eqb (lexer_current_char l) NUL); [intros [= <- <-]; by left|].
  unfold skip_whitespace. change (lexer_fuel (set_errors l _ _)) with (lexer_fuel l).
  rewrite skip_whitespace_loop_set_errors.
  destruct (skip_whitespace_loop (lexer_fuel l) l) as [l1|] eqn:E1; [|done].
  cbn [mbind option_bind fmap option_fmap option_map set_errors lexer_current_char
       lexer_line lexer_column].
  fold (set_errors l1 flag e).
  destruct (Ascii.eqb (lexer_current_char l1) LF).
  { intros [= <- <-]. left. by rewrite advance_set_errors. }
  destruct (Ascii.eqb (lexer_current_char l1) NUL).
  { intros [= <- <-]. by left. }
  destruct (_ || _).
  { unfold read_identifier. change (lexer_fuel (set_errors l1 _ _)) with (lexer_fuel l1).
    rewrite read_identifier_loop_set_errors.
    destruct (read_identifier_loop (lexer_fuel l1) l1 EmptyString)
      as [[l2 x]|] eqn:E2; [|done].
    intros [= <- <-]. by left. }
  destruct (isdigit _).
  { unfold read_number. change (lexer_fuel (set_errors l1 _ _)) with (lexer_fuel l1).
    rewrite read_number_loop_set_errors.
    destruct (read_number_loop (lexer_fuel l1) l1 EmptyString false)
      as [[[l2 x] d]|] eqn:E2; [|done].
    intros [= <- <-]. by left. }
  destruct (Ascii.eqb (lexer_current_char l1) DQUOTE).
  { rewrite !read_string_eq, advance_set_errors.
    change (lexer_fuel (set_errors (advance l1) flag e))
      with (lexer_fuel (advance l1)).
    rewrite read_string_loop_set_errors.
    destruct (read_string_loop (lexer_fuel (advance l1)) (advance l1) EmptyString)
      as [[l2 x]|] eqn:E2; [|done].
    cbn [mbind option_bind fmap option_fmap option_map fst snd set_errors
         lexer_current_char lexer_line lexer_column].
    fold (set_errors l2 flag e).
    destruct (Ascii.eqb (lexer_current_char l2) DQUOTE); intros [= <- <-].
    - left. by rewrite advance_set_errors.
    - by right. }
  destruct (Ascii.eqb (lexer_current_char l1) SQUOTE).
  { intros [= E]. destruct (read_char_set_errors l1 flag e) as [-> | ->];
      rewrite E; [by left|by right]. }
  intros [= E]. rewrite read_operator_set_errors, E. by left.
Qed.

(** X5.  Peeking, then taking.  After [lexer_peek_token], the next call
    of [lexer_next_token] returns the token that was peeked and leaves the
    lexer exactly as it would have without the peek; peeking again returns
    the same token and changes nothing. *)
Theorem X5_peek_then_next (l : Lexer) (t : Token) (l1 : Lexer) :
  lexer_peek_token l = Some (t, l1) →
  lexer_next_token l1 = lexer_next_token l
  ∧ lexer_peek_token l1 = Some (t, l1)
  ∧ ∃ l', lexer_next_token l = Some (t, l').
Proof.
  unfold lexer_peek_token at 1.
  destruct (lexer_next_token l) as [[t' l']|] eqn:E; [|done].
  cbn [mbind option_bind]. intros [= <- <-].
  assert (lexer_source l' = lexer_source l) as Hsource.
  { apply (lexer_next_token_closed (λ m, lexer_source m = lexer_source l) l t' l');
      [|done..].
    split; [|done]. intros m <-. apply (step_source _ _ (advance_step m)). }
  rewrite Hsource.
  fold (set_errors l (lexer_had_error l') (lexer_last_error l')).
  assert (set_errors l' (lexer_had_error l') (lexer_last_error l') = l') as Hown
    by (by destruct l').
  assert (lexer_next_token
            (set_errors l (lexer_had_error l') (lexer_last_error l'))
          = Some (t', l')) as Hnext.
  { destruct (lexer_next_token_set_errors l t' l' (lexer_had_error l')
                (lexer_last_error l') E) as [-> | ->]; [by rewrite Hown|done]. }
  split_and!; [done| |by eexists].
  unfold lexer_peek_token. rewrite Hnext. cbn [mbind option_bind].
  by rewrite Hsource.
Qed.

Lemma X5_peek_then_next_witness :
  let l := lexer_create (String DQUOTE "abc") in
  let l1 := mkLexer (String DQUOTE "abc") 0 1 1 DQUOTE true
              (Some (mkError ERROR_LEXICAL "Unterminated string literal" 1 1 None)) in
  let t := mkToken TOKEN_STRING_LITERAL
             (String DQUOTE ("abc" +:+ String DQUOTE EmptyString)) 1 1
             (LitString "abc") in
  lexer_next_token l1 = lexer_next_token l
  ∧ lexer_peek_token l1 = Some (t, l1)
  ∧ ∃ l', lexer_next_token l = Some (t, l').
Proof.
  intros l l1 t. apply (X5_peek_then_next l t l1). reflexivity.
Defined.

(* ------------------------------------------------------------------ *)
(** ** Identifiers, keywords and numbers *)

Fixpoint string_forall (p : ascii → bool) (s : string) : bool :=
  match s with
  | EmptyString => true
  | String c rest => p c && string_forall p rest
  end.

(** The first character of a text, NUL for the empty text. *)
Definition string_head (s : string) : ascii :=
  match s with
  | String c _ => c
  | EmptyString => NUL
  end.

Lemma span_app (p : ascii → bool) (word rest : string) :
  string_forall p word = true → p (string_head rest) = false → p NUL = false →
  span p (word +:+ rest) = word.
Proof.
  intros Hword Hrest Hnul. induction word as [|c word IH].
  - destruct rest as [|c rest]; [done|]. simpl in *. by rewrite Hrest.
  - simpl in Hword. apply andb_true_iff in Hword as [Hc Hword].
    rewrite string_app_cons. simpl. by rewrite Hc, IH.
Qed.

Lemma identifier_start_class (c : ascii) :
  isalpha c || Ascii.eqb c "_" = true →
  is_blank c = false ∧ Ascii.eqb c LF = false ∧ Ascii.eqb c NUL = false
  ∧ identifier_char c = true.
Proof. destruct c as [[] [] [] [] [] [] [] []]; by vm_compute. Qed.

Lemma keyword_lookup_elem_of (table : list (string * TokenType)) (word : string) :
  match keyword_lookup table word with
  | Some type => (word, type) ∈ table
  | None => word ∉ table.*1
  end.
Proof.
  induction table as [|[keyword type] table IH]; simpl; [apply not_elem_of_nil|].
  destruct (String.eqb word keyword) eqn:E.
  - apply String.eqb_eq in E as ->. apply elem_of_cons. by left.
  - apply String.eqb_neq in E. destruct (keyword_lookup table word).
    + apply elem_of_cons. by right.
    + apply not_elem_of_cons. by split.
Qed.

Lemma keyword_lookup_NoDup (table : list (string * TokenType)) (word : string)
    (type : TokenType) :
  NoDup table.*1 → (word, type) ∈ table → keyword_lookup table word = Some type.
Proof.
  induction table as [|[keyword type'] table IH]; simpl; [by intros _ ?%elem_of_nil|].
  intros [Hnotin Hnodup]%NoDup_cons [Heq|Hin]%elem_of_cons.
  - injection Heq as -> ->. by rewrite String.eqb_refl.
  - destruct (String.eqb word keyword) eqn:E; [|by apply IH].
    apply String.eqb_eq in E as ->. exfalso. apply Hnotin.
    apply list_elem_of_fmap. by exists (keyword, type).
Qed.

Lemma keywords_NoDup : NoDup keywords.*1.
Proof. apply (bool_decide_unpack (NoDup keywords.*1)). by vm_compute. Qed.

(** X6.  Identifiers and keywords.  In front of a word of letters, digits
    and underscores that starts with a letter or an underscore and is
    followed by another kind of character (or the end of the text), the
    lexer returns one token with the word as its lexeme, at the line and
    column of the word, and stands behind the word afterwards; the error
    fields are as before.  The type is that of the keyword table for its
    15 words and Identifier for every other word. *)
Theorem X6_identifier_or_keyword (l : Lexer) (word rest : string) :
  lexer_wf l →
  lexer_rest l = word +:+ rest →
  isalpha (string_head word) || Ascii.eqb (string_head word) "_" = true →
  string_forall identifier_char word = true →
  identifier_char (string_head rest) = false →
  ∃ type l',
    lexer_next_token l
    = Some (token_create type word (lexer_line l) (lexer_column l), l')
    ∧ lexer_rest l' = rest
    ∧ lexer_position l' = (lexer_position l + String.length word)%nat
    ∧ same_errors l l'
    ∧ (∀ keyword_type, (word, keyword_type) ∈ keywords → type = keyword_type)
    ∧ (word ∉ keywords.*1 → type = TOKEN_IDENTIFIER).
Proof.
  intros Hwf Hrest Hstart Hword Hstop.
  destruct word as [|c word]; [done|]. cbn [string_head] in Hstart.
  destruct (identifier_start_class c Hstart) as (Hblank & Hlf & Hnul & _).
  rewrite string_app_cons in Hrest.
  destruct (lexer_rest_cons l c _ Hwf Hrest) as [Hc _].
  assert (skip_blanks l = l) as Hskip.
  { unfold skip_blanks. rewrite Hrest. simpl. by rewrite Hblank. }
  unfold lexer_next_token. rewrite (skip_whitespace_blanks l Hwf), Hskip.
  cbn [mbind option_bind]. rewrite Hc, Hnul, Hlf, Hstart.
  pose proof (read_identifier_span l Hwf) as Hid. cbv zeta in Hid.
  rewrite Hrest, <- string_app_cons in Hid.
  rewrite (span_app identifier_char (String c word) rest Hword Hstop eq_refl) in Hid.
  rewrite Hid. eexists _, _. split; [done|].
  rewrite lexer_rest_iter, Hrest, <- string_app_cons, string_drop_app_length.
  rewrite iter_advance_position. split_and!; try done.
  - generalize (String.length (String c word)). intros n.
    induction n as [|n IH]; [done|]. simpl. by apply same_errors_advance.
  - intros keyword_type Hin. unfold token_is_keyword.
    by rewrite (keyword_lookup_NoDup _ _ _ keywords_NoDup Hin).
  - intros Hnotin. pose proof (keyword_lookup_elem_of keywords (String c word)) as H.
    unfold token_is_keyword. destruct (keyword_lookup _ _) as [type|]; [|done].
    exfalso. apply Hnotin. apply list_elem_of_fmap. by eexists (_, _).
Qed.

Lemma X6_identifier_or_keyword_witness :
  ∃ type l',
    lexer_next_token (lexer_at "while_1 (x)" 0)
    = Some (token_create type "while_1" 1 1, l')
    ∧ lexer_rest l' = " (x)"
    ∧ lexer_position l' = 7%nat
    ∧ same_errors (lexer_at "while_1 (x)" 0) l'
    ∧ (∀ keyword_type, ("while_1", keyword_type) ∈ keywords → type = keyword_type)
    ∧ ("while_1" ∉ keywords.*1 → type = TOKEN_IDENTIFIER).
Proof.
  apply (X6_identifier_or_keyword (lexer_at "while_1 (x)" 0) "while_1" " (x)");
    reflexivity.
Defined.

Lemma digit_class (c : ascii) :
  isdigit c = true →
  is_blank c = false ∧ Ascii.eqb c LF = false ∧ Ascii.eqb c NUL = false
  ∧ isalpha c || Ascii.eqb c "_" = false ∧ Ascii.eqb c "." = false.
Proof. destruct c as [[] [] [] [] [] [] [] []]; by vm_compute. Qed.

Lemma number_span_digits (digits rest : string) (has_decimal : bool) :
  string_forall isdigit digits = true →
  number_span (digits +:+ rest) has_decimal
  = (digits +:+ (number_span rest has_decimal).1, (number_span rest has_decimal).2).
Proof.
  intros Hdigits. induction digits as [|c digits IH].
  { change (EmptyString +:+ rest) with rest.
    by destruct (number_span rest has_decimal). }
  simpl in Hdigits. apply andb_true_iff in Hdigits as [Hc Hdigits].
  destruct (digit_class c Hc) as (_ & _ & Hnul & _).
  rewrite string_app_cons. simpl. rewrite Hnul, Hc, (IH Hdigits). done.
Qed.

Lemma number_span_stop (rest : string) (has_decimal : bool) :
  isdigit (string_head rest) = false →
  Ascii.eqb (string_head rest) "." && negb has_decimal = false →
  number_span rest has_decimal = (EmptyString, has_decimal).
Proof.
  destruct rest as [|c rest]; [done|]. simpl. intros -> ->.
  by destruct (negb _).
Qed.

Lemma iter_advance_same_errors (n : nat) (l : Lexer) :
  same_errors l (Nat.iter n advance l).
Proof. induction n as [|n IH]; [done|]. simpl. by apply same_errors_advance. Qed.

(** [lexer_next_token] in front of a digit is [read_number]. *)
Lemma lexer_next_token_at_digit (l : Lexer) (c : ascii) (rest : string) :
  lexer_wf l → lexer_rest l = String c rest → isdigit c = true →
  lexer_next_token l = read_number l.
Proof.
  intros Hwf Hrest Hc. destruct (digit_class c Hc) as (Hblank & Hlf & Hnul & Hid & _).
  destruct (lexer_rest_cons l c _ Hwf Hrest) as [Hcur _].
  assert (skip_blanks l = l) as Hskip.
  { unfold skip_blanks. rewrite Hrest. simpl. by rewrite Hblank. }
  unfold lexer_next_token. rewrite (skip_whitespace_blanks l Hwf), Hskip.
  cbn [mbind option_bind]. by rewrite Hcur, Hnul, Hlf, Hid, Hc.
Qed.

Lemma decimal_digits_nonneg (s : string) :
  ∀ acc, 0 <= acc → 0 <= decimal_digits acc s.
Proof.
  induction s as [|c s IH]; intros acc Hacc; simpl; [done|].
  destruct (isdigit c); [|done]. apply IH. lia.
Qed.

(** [atoi] on a run of digits: no blank and no sign is skipped, and the
    number the digits write is cut at [LONG_MAX] and kept in an [int]. *)
Lemma atoi_digit_run (digits : string) :
  digits ≠ EmptyString → string_forall isdigit digits = true →
  atoi digits = int_wrap (Z.min LONG_MAX (decimal_digits 0 digits)).
Proof.
  intros Hne Hdigits. destruct digits as [|c digits]; [done|].
  simpl in Hdigits. apply andb_true_iff in Hdigits as [Hc _].
  unfold atoi, strtol. f_equal.
  assert (isspace c = false ∧ Ascii.eqb c "-" = false ∧ Ascii.eqb c "+" = false)
    as (Hspace & Hminus & Hplus).
  { clear -Hc. by destruct c as [[] [] [] [] [] [] [] []]. }
  cbn [skip_spaces]. rewrite Hspace, Hminus, Hplus.
  pose proof (decimal_digits_nonneg (String c digits) 0 ltac:(done)).
  unfold LONG_MIN, LONG_MAX in *. lia.
Qed.

(** X7.  Integer literals.  In front of a run of digits that is followed
    by neither a digit nor a point, the lexer returns one IntegerLiteral
    token: its lexeme is the run, its value is [atoi] of the run, and the
    lexer stands behind the run afterwards, with its error fields as
    before.  The value is kept in an [int]: it is the number the digits
    write when that is at most [INT_MAX], and wraps around above (the
    number is first cut at [LONG_MAX]). *)
Theorem X7_integer_literal (l : Lexer) (digits rest : string) :
  lexer_wf l →
  lexer_rest l = digits +:+ rest →
  digits ≠ EmptyString →
  string_forall isdigit digits = true →
  isdigit (string_head rest) = false →
  string_head rest ≠ "."%char →
  ∃ l',
    lexer_next_token l
    = Some (mkToken TOKEN_INTEGER_LITERAL digits (lexer_line l) (lexer_column l)
              (LitInt (atoi digits)), l')
    ∧ lexer_rest l' = rest
    ∧ lexer_position l' = (lexer_position l + String.length digits)%nat
    ∧ same_errors l l'
    ∧ atoi digits = int_wrap (Z.min LONG_MAX (decimal_digits 0 digits))
    ∧ (decimal_digits 0 digits <= INT_MAX →
       atoi digits = decimal_digits 0 digits).
Proof.
  intros Hwf Hrest Hne Hdigits Hstop Hpoint.
  pose proof (atoi_digit_run digits Hne Hdigits) as Hatoi.
  pose proof (decimal_digits_nonneg digits 0 ltac:(done)) as Hpos.
  destruct digits as [|c digits]; [done|].
  pose proof Hdigits as Hc. simpl in Hc. apply andb_true_iff in Hc as [Hc _].
  rewrite string_app_cons in Hrest.
  rewrite (lexer_next_token_at_digit l c _ Hwf Hrest Hc).
  pose proof (read_number_span l Hwf) as Hnum.
  rewrite Hrest, <- string_app_cons in Hnum.
  rewrite (number_span_digits _ rest false Hdigits) in Hnum.
  rewrite number_span_stop in Hnum; [|done|].
  2:{ apply andb_false_iff. left. by apply Ascii.eqb_neq. }
  cbn [fst snd] in Hnum. rewrite string_app_nil_r in Hnum. rewrite Hnum.
  eexists. split; [done|].
  rewrite lexer_rest_iter, Hrest, <- string_app_cons, string_drop_app_length.
  rewrite iter_advance_position. split_and!; try done.
  - apply iter_advance_same_errors.
  - intros Hmax. rewrite Hatoi. rewrite Z.min_r by (unfold LONG_MAX, INT_MAX in *; lia).
    apply int_wrap_in_int. unfold in_int, INT_MIN, INT_MAX in *. lia.
Qed.

Lemma X7_integer_literal_witness :
  (∃ l',
     lexer_next_token (lexer_at "x = 042;" 4)
     = Some (mkToken TOKEN_INTEGER_LITERAL "042" 1 5 (LitInt 42), l')
     ∧ lexer_rest l' = ";"
     ∧ lexer_position l' = 7%nat
     ∧ same_errors (lexer_at "x = 042;" 4) l'
     ∧ atoi "042" = int_wrap (Z.min LONG_MAX (decimal_digits 0 "042"))
     ∧ (decimal_digits 0 "042" <= INT_MAX → atoi "042" = decimal_digits 0 "042"))
  ∧ ∃ l',
      lexer_next_token (lexer_at "2147483648" 0)
      = Some (mkToken TOKEN_INTEGER_LITERAL "2147483648" 1 1
                (LitInt (-2147483648)), l')
      ∧ lexer_rest l' = EmptyString
      ∧ lexer_position l' = 10%nat
      ∧ same_errors (lexer_at "2147483648" 0) l'
      ∧ atoi "2147483648"
        = int_wrap (Z.min LONG_MAX (decimal_digits 0 "2147483648"))
      ∧ (decimal_digits 0 "2147483648" <= INT_MAX →
         atoi "2147483648" = decimal_digits 0 "2147483648").
Proof.
  split.
  - apply (X7_integer_literal (lexer_at "x = 042;" 4) "042" ";");
      [reflexivity|reflexivity|discriminate|reflexivity|reflexivity|discriminate].
  - apply (X7_integer_literal (lexer_at "2147483648" 0) "2147483648" EmptyString);
      [reflexivity|reflexivity|discriminate|reflexivity|reflexivity|discriminate].
Defined.

(** X8.  Float literals.  A run of digits, a point and a (possibly empty)
    run of digits, followed by a character that is not a digit, is one
    FloatLiteral token whose lexeme is that text.  A second point ends the
    literal and is left in the text. *)
Theorem X8_float_literal (l : Lexer) (whole fraction rest : string) :
  lexer_wf l →
  lexer_rest l = whole +:+ String "." fraction +:+ rest →
  whole ≠ EmptyString →
  string_forall isdigit whole = true →
  string_forall isdigit fraction = true →
  isdigit (string_head rest) = false →
  ∃ l',
    lexer_next_token l
    = Some (mkToken TOKEN_FLOAT_LITERAL (whole +:+ String "." fraction)
              (lexer_line l) (lexer_column l)
              (LitFloat (whole +:+ String "." fraction)), l')
    ∧ lexer_rest l' = rest
    ∧ same_errors l l'.
Proof.
  intros Hwf Hrest Hne Hwhole Hfraction Hstop.
  destruct whole as [|c whole]; [done|].
  pose proof Hwhole as Hc. simpl in Hc. apply andb_true_iff in Hc as [Hc _].
  pose proof Hrest as Hrest'. rewrite string_app_cons in Hrest'.
  rewrite (lexer_next_token_at_digit l c _ Hwf Hrest' Hc).
  pose proof (read_number_span l Hwf) as Hnum. rewrite Hrest in Hnum.
  rewrite (number_span_digits _ _ false Hwhole) in Hnum.
  rewrite string_app_cons in Hnum. cbn [number_span] in Hnum.
  replace (negb (Ascii.eqb "." NUL)) with true in Hnum by done.
  replace (isdigit ".") with false in Hnum by done.
  replace (Ascii.eqb "." "." && negb false) with true in Hnum by done.
  rewrite (number_span_digits _ _ true Hfraction) in Hnum.
  rewrite (number_span_stop rest true Hstop) in Hnum by apply andb_false_r.
  cbn [fst snd] in Hnum. rewrite string_app_nil_r in Hnum. rewrite Hnum.
  eexists. split; [done|].
  rewrite lexer_rest_iter, Hrest, <- string_app_assoc, string_drop_app_length.
  split; [done|]. apply iter_advance_same_errors.
Qed.

Lemma X8_float_literal_witness :
  ∃ l',
    lexer_next_token (lexer_at "1.25.5" 0)
    = Some (mkToken TOKEN_FLOAT_LITERAL "1.25" 1 1 (LitFloat "1.25"), l')
    ∧ lexer_rest l' = ".5"
    ∧ same_errors (lexer_at "1.25.5" 0) l'.
Proof.
  apply (X8_float_literal (lexer_at "1.25.5" 0) "1" "25" ".5");
    [reflexivity|reflexivity|discriminate|reflexivity..].
Defined.

(* ------------------------------------------------------------------ *)
(** ** String literals that are closed *)

(** The text behind the closing quote of a string literal with this
    body. *)
Fixpoint body_rest (body : string) : string :=
  match body with
  | EmptyString => EmptyString
  | String c rest =>
      if Ascii.eqb c DQUOTE then rest
      else if Ascii.eqb c BACKSLASH then
        match rest with
        | EmptyString => EmptyString
        | String _ rest' => body_rest rest'
        end
      else body_rest rest
  end.

(** On a closed body the loop of [read_string] stops on the closing
    quote. *)
Lemma read_string_loop_closed_body (fuel : nat) (l : Lexer) (buffer : string) :
  lexer_wf l → no_NUL (lexer_rest l) = true →
  body_closed (lexer_rest l) = true →
  (String.length (lexer_rest l) < fuel)%nat →
  ∃ l', read_string_loop fuel l buffer
          = Some (l', buffer +:+ body_content (lexer_rest l))
        ∧ lexer_wf l' ∧ same_errors l l'
        ∧ lexer_rest l' = String DQUOTE (body_rest (lexer_rest l)).
Proof.
  revert l buffer. induction (lt_wf fuel) as [fuel _ IH].
  intros l buffer Hwf Hnul Hclosed Hfuel. destruct fuel as [|fuel]; [lia|].
  destruct (lexer_rest l) as [|c rest] eqn:Hrest; [done|].
  destruct (lexer_rest_cons l c rest Hwf Hrest) as [Hc Hadv].
  simpl in Hnul, Hfuel, Hclosed. apply andb_true_iff in Hnul as [Hcn Hnul].
  simpl. rewrite Hc. apply negb_true_iff in Hcn. rewrite Hcn. simpl.
  destruct (Ascii.eqb c DQUOTE) eqn:Hq; simpl.
  { exists l. rewrite string_app_nil_r. split_and!; try done.
    apply Ascii.eqb_eq in Hq. by rewrite Hrest, Hq. }
  destruct (Ascii.eqb c BACKSLASH) eqn:Hb.
  - destruct rest as [|c' rest']; [done|].
    destruct (lexer_rest_cons (advance l) c' rest' (advance_wf l) Hadv)
      as [Hc' Hadv'].
    simpl in Hnul. apply andb_true_iff in Hnul as [Hcn' Hnul].
    rewrite Hc', Hcn'.
    destruct (IH fuel (Nat.lt_succ_diag_r _) (advance (advance l))
                (string_buffer_append_char buffer (string_escape c')))
      as (l' & -> & Hwf' & He & Hend);
      [apply advance_wf|by rewrite Hadv'|by rewrite Hadv'
      |rewrite Hadv'; simpl in *; lia|].
    rewrite Hadv' in *.
    exists l'. unfold string_buffer_append_char. rewrite string_app_assoc.
    split_and!; try done.
    destruct He as [E1 E2], (advance_had_error l) as [E3 E4],
      (advance_had_error (advance l)) as [E5 E6]. split; congruence.
  - destruct (IH fuel (Nat.lt_succ_diag_r _) (advance l)
                (string_buffer_append_char buffer c))
      as (l' & -> & Hwf' & He & Hend);
      [apply advance_wf|by rewrite Hadv|by rewrite Hadv|rewrite Hadv; lia|].
    rewrite Hadv in *.
    exists l'. unfold string_buffer_append_char. rewrite string_app_assoc.
    split_and!; try done.
    destruct He as [E1 E2], (advance_had_error l) as [E3 E4]. split; congruence.
Qed.

(** A character that is neither a double quote nor a backslash. *)
Definition plain_char (c : ascii) : bool :=
  negb (Ascii.eqb c DQUOTE) && negb (Ascii.eqb c BACKSLASH).

Lemma body_plain_text (text tail : string) :
  string_forall plain_char text = true →
  body_closed (text +:+ String DQUOTE tail) = true
  ∧ body_content (text +:+ String DQUOTE tail) = text
  ∧ body_rest (text +:+ String DQUOTE tail) = tail.
Proof.
  intros Hplain. induction text as [|c text IH]; [done|].
  simpl in Hplain. apply andb_true_iff in Hplain as [Hc Hplain].
  apply andb_true_iff in Hc as [Hq Hb]. apply negb_true_iff in Hq, Hb.
  rewrite string_app_cons. simpl. rewrite Hq, Hb.
  destruct (IH Hplain) as (-> & -> & ->). done.
Qed.

(** X9.  String literals that are closed.  A double quote, a body without
    NUL, and the closing double quote that ends it: the lexer returns a
    StringLiteral token whose value is the body with each escape replaced
    (backslash-n, -t, -r by newline, tab, carriage return; a backslash
    before any other character by that character) and whose lexeme is that
    value between two double quotes; it stands behind the closing quote,
    and flags no error.  A body of plain characters is its own value. *)
Theorem X9_closed_string_literal (l : Lexer) (body : string) :
  lexer_wf l →
  lexer_rest l = String DQUOTE body →
  no_NUL body = true →
  body_closed body = true →
  ∃ l',
    lexer_next_token l
    = Some (mkToken TOKEN_STRING_LITERAL
              (String DQUOTE (body_content body +:+ String DQUOTE EmptyString))
              (lexer_line l) (lexer_column l) (LitString (body_content body)), l')
    ∧ lexer_rest l' = body_rest body
    ∧ same_errors l l'
    ∧ ∀ text tail,
        body = text +:+ String DQUOTE tail →
        string_forall plain_char text = true →
        body_content body = text ∧ body_rest body = tail.
Proof.
  intros Hwf Hrest Hnul Hclosed.
  destruct (lexer_rest_cons l DQUOTE body Hwf Hrest) as [Hc Hadv].
  rewrite (lexer_next_token_at_quote l Hc), read_string_eq.
  destruct (read_string_loop_closed_body (lexer_fuel (advance l)) (advance l)
              EmptyString) as (l1 & E & Hwf1 & Herr & Hend).
  - apply advance_wf.
  - by rewrite Hadv.
  - by rewrite Hadv.
  - rewrite <- lexer_rest_remaining. unfold lexer_fuel, lexer_remaining. lia.
  - rewrite E, Hadv in *. cbn [mbind option_bind].
    destruct (lexer_rest_cons l1 _ _ Hwf1 Hend) as [-> Hadv1].
    change (Ascii.eqb DQUOTE DQUOTE) with true. cbv iota.
    eexists. split_and!; [done|done| |].
    + destruct Herr as [E1 E2], (advance_had_error l) as [E3 E4],
        (advance_had_error l1) as [E5 E6]. split; congruence.
    + intros text tail -> Hplain.
      by destruct (body_plain_text text tail Hplain) as (_ & -> & ->).
Qed.

Lemma X9_closed_string_literal_witness :
  ∃ l',
    lexer_next_token
      (lexer_create (String DQUOTE ("a\nb" +:+ String DQUOTE " + 1")))
    = Some (mkToken TOKEN_STRING_LITERAL
              (String DQUOTE (String "a" (String LF "b") +:+ String DQUOTE EmptyString))
              1 1 (LitString (String "a" (String LF "b"))), l')
    ∧ lexer_rest l' = " + 1"
    ∧ same_errors
        (lexer_create (String DQUOTE ("a\nb" +:+ String DQUOTE " + 1"))) l'
    ∧ ∀ text tail,
        "a\nb" +:+ String DQUOTE " + 1" = text +:+ String DQUOTE tail →
        string_forall plain_char text = true →
        String "a" (String LF "b") = text ∧ " + 1" = tail.
Proof.
  apply (X9_closed_string_literal
           (lexer_create (String DQUOTE ("a\nb" +:+ String DQUOTE " + 1")))
           ("a\nb" +:+ String DQUOTE " + 1")); reflexivity.
Defined.

End LexerCoverage.

(* ================================================================== *)
(** * The parser: results, shapes and errors *)
(* ================================================================== *)

Section ParserCoverage.

(** ** A result that is no Error node *)

(** Below [parser_parse], a node that is no Error node comes with the
    error fields as they were. *)
Lemma parser_functions_keep_errors (fuel : nat) :
  (∀ p node p',
     parser_parse_primary fuel p = Some (node, p') →
     is_error_node node = false →
     parser_had_error p' = parser_had_error p
     ∧ parser_last_error p' = parser_last_error p)
  ∧ (∀ p left precedence node p',
     parser_binary_loop fuel p left precedence = Some (node, p') →
     is_error_node node = false →
     parser_had_error p' = parser_had_error p
     ∧ parser_last_error p' = parser_last_error p)
  ∧ (∀ p precedence node p',
     parser_parse_expression_precedence fuel p precedence = Some (node, p') →
     is_error_node node = false →
     parser_had_error p' = parser_had_error p
     ∧ parser_last_error p' = parser_last_error p)
  ∧ (∀ p node p',
     parser_parse_expression fuel p = Some (node, p') →
     is_error_node node = false →
     parser_had_error p' = parser_had_error p
     ∧ parser_last_error p' = parser_last_error p).
Proof.
  induction fuel as [|fuel (IHprimary & IHloop & IHprec & IHexpr)].
  { by split_and!. }
  split_and!.
  - intros p node p'. rewrite parser_parse_primary_S.
    destruct (parser_current_token p) as [token|]; [|by intros [= <- <-]].
    destruct (decide (token_type token = TOKEN_LEFT_PAREN)) as [Hparen|_].
    + destruct (parser_advance p) as [p1|] eqn:Hadv; [|done].
      destruct (parser_advance_current _ _ Hadv) as (_ & E1 & E2).
      cbn [mbind option_bind].
      destruct (parser_parse_expression fuel p1) as [[expr p2]|] eqn:Hexpr; [|done].
      cbn [mbind option_bind].
      destruct (is_error_node expr) eqn:Herr; [intros [= <- <-]; congruence|].
      destruct (IHexpr _ _ _ Hexpr Herr) as [E3 E4].
      cbv zeta. destruct (bool_decide _).
      * destruct (parser_advance p2) as [p3|] eqn:Hadv2; [|done].
        destruct (parser_advance_current _ _ Hadv2) as (_ & E5 & E6).
        intros [= <- <-] _. split; congruence.
      * intros [= <- <-]. done.
    + destruct (primary_node token) as [node0|] eqn:Hnode.
      * destruct (parser_advance p) as [p1|] eqn:Hadv; [|done].
        destruct (parser_advance_current _ _ Hadv) as (_ & E1 & E2).
        by intros [= <- <-].
      * intros [= <- <-]. done.
  - intros p left precedence node p'. rewrite parser_binary_loop_S.
    destruct (parser_current_token p) as [token|]; [|by intros [= <- <-]].
    destruct (negb _); [by intros [= <- <-]|].
    destruct (_ <? _); [by intros [= <- <-]|].
    destruct (parser_advance p) as [p1|] eqn:Hadv; [|done].
    destruct (parser_advance_current _ _ Hadv) as (_ & E1 & E2).
    cbn [mbind option_bind].
    destruct (parser_parse_expression_precedence fuel p1 _)
      as [[right_ p2]|] eqn:Hright; [|done].
    cbn [mbind option_bind].
    destruct (is_error_node right_) eqn:Herr; [intros [= <- <-]; congruence|].
    destruct (IHprec _ _ _ _ Hright Herr) as [E3 E4].
    intros Hloop Hnode. destruct (IHloop _ _ _ _ _ Hloop Hnode) as [E5 E6].
    split; congruence.
  - intros p precedence node p'. rewrite parser_parse_expression_precedence_S.
    destruct (parser_current_token p) as [token|]; [|by intros [= <- <-]].
    destruct (parser_parse_primary fuel p) as [[left_ p1]|] eqn:Hprimary; [|done].
    cbn [mbind option_bind].
    destruct (is_error_node left_) eqn:Herr; [intros [= <- <-]; congruence|].
    destruct (IHprimary _ _ _ Hprimary Herr) as [E1 E2].
    intros Hloop Hnode. destruct (IHloop _ _ _ _ _ Hloop Hnode) as [E3 E4].
    split; congruence.
  - intros p node p'. rewrite parser_parse_expression_S.
    destruct (parser_current_token p) as [token|]; [|by intros [= <- <-]].
    apply IHprec.
Qed.

Lemma parse_source_result (source : string) :
  ∃ node p',
    parse_source source = Some (node, p')
    ∧ (node_type node ≠ NODE_ERROR →
       parser_had_error p' = false ∧ parser_last_error p' = None).
Proof.
  unfold parse_source, parser_parse.
  set (p0 := parser_create (lexer_create source)).
  assert (parser_wf p0) as Hwf0 by apply lexer_create_wf.
  destruct (parser_advance_total p0 Hwf0)
    as (p1 & Hadv & Hwf1 & Hw1 & Hflag & Hlast & [token Htoken]).
  change (parser_current_token p0) with (@None Token). rewrite Hadv.
  cbn [mbind option_bind]. rewrite Htoken.
  destruct (decide (token_type token = TOKEN_EOF)) as [Heof|Hne].
  { eexists _, _. by split. }
  destruct (parser_functions_total (parser_fuel p0)) as (_ & _ & _ & Htotal).
  destruct (Htotal p1 Hwf1) as (node & p' & E & _).
  { unfold parser_fuel. fold (lexer_remaining (parser_lexer p0)). lia. }
  exists node, p'. split; [done|].
  destruct (parser_functions_keep_errors (parser_fuel p0)) as (_ & _ & _ & Hkeep).
  intros Hnode. destruct (Hkeep p1 node p' E) as [-> ->].
  - unfold is_error_node. by rewrite bool_decide_eq_false.
  - by rewrite Hflag, Hlast.
Qed.

(** X10.  A result that is no Error node flags nothing.  [parser_parse]
    on a new parser returns a node for every text, and when the node is no
    Error node the error flag is clear and no diagnostic is kept: the flag
    is raised on the way to an Error node only. *)
Theorem X10_parse_result_without_error_is_unflagged (source : string) :
  ∃ node p',
    parse_source source = Some (node, p')
    ∧ (node_type node ≠ NODE_ERROR →
       parser_had_error p' = false ∧ parser_last_error p' = None)
    ∧ (parser_had_error p' = true → node_type node = NODE_ERROR).
Proof.
  destruct (parse_source_result source) as (node & p' & E & H).
  exists node, p'. split; [done|]. split; [done|]. intros Hflagged.
  destruct (decide (node_type node = NODE_ERROR)) as [|Hnode]; [done|].
  destruct (H Hnode) as [Hclear _]. congruence.
Qed.

(* ------------------------------------------------------------------ *)
(** ** The shape of a parsed expression *)

(** The trees the expression parser builds, told by the members of their
    nodes: a Literal or Identifier node that holds an operand token and is
    the node of that token, or a node of type BinaryExpression that holds
    a binary operator as its token, the lexeme of that token as its
    operator text, and two such trees as its left and right operand. *)
Inductive parsed_expression : ASTNode → Prop :=
| parsed_operand (token : Token) (node : ASTNode) :
    primary_node token = Some node →
    node_token node = Some token →
    node_type node = NODE_LITERAL ∨ node_type node = NODE_IDENTIFIER →
    parsed_expression node
| parsed_binary (node : ASTNode) (op : Token) (l r : ASTNode) :
    node_type node = NODE_BINARY_EXPRESSION →
    node_token node = Some op →
    binary_left (node_data node) = Some l →
    binary_right (node_data node) = Some r →
    binary_operator (node_data node) = Some (token_lexeme op) →
    parser_is_binary_operator (token_type op) = true →
    parsed_expression l → parsed_expression r →
    parsed_expression node.

(** Every operator of the expression is a binary operator of the parser
    and its text is the lexeme of the operator token; every operand is a
    token that starts an operand. *)
Fixpoint well_formed (e : Expression) : Prop :=
  match e with
  | Operand token => is_Some (primary_node token)
  | Binary op text l r =>
      parser_is_binary_operator (token_type op) = true
      ∧ text = token_lexeme op
      ∧ well_formed l ∧ well_formed r
  end.

Lemma primary_node_type (token : Token) (node : ASTNode) :
  primary_node token = Some node →
  node_type node = NODE_LITERAL ∨ node_type node = NODE_IDENTIFIER.
Proof.
  unfold primary_node.
  destruct (token_type token); intros [= <-]; by (left + right).
Qed.

Lemma primary_node_token (token : Token) (node : ASTNode) :
  primary_node token = Some node → node_token node = Some token.
Proof.
  unfold primary_node. by destruct (token_type token); intros [= <-].
Qed.

Lemma parsed_expression_of (node : ASTNode) :
  parsed_expression node →
  ∃ e, expression_of node = Some e ∧ well_formed e.
Proof.
  induction 1 as [token node Hnode Htoken Htype
                 |node op l r Htype Htoken Hl Hr Hop Hbinary
                    _ (el & Hel & Hwl) _ (er & Her & Hwr)].
  - exists (Operand token). split; [|by eexists].
    rewrite <- (expression_of_operand token) by (by eexists).
    unfold operand_node. by rewrite Hnode.
  - exists (Binary op (token_lexeme op) el er). split; [|by split_and!].
    destruct node as [type token children data line column].
    simpl in Htype, Htoken, Hl, Hr, Hop. subst type token.
    destruct data as [|l0 r0 op0| | | | | |]; try done.
    simpl in Hl, Hr, Hop. subst l0 r0 op0.
    cbn [expression_of]. by rewrite Hel, Her.
Qed.

Lemma parser_functions_shape (fuel : nat) :
  (∀ p node p',
     parser_parse_primary fuel p = Some (node, p') →
     is_error_node node = false → parsed_expression node)
  ∧ (∀ p left precedence node p',
     parsed_expression left →
     parser_binary_loop fuel p left precedence = Some (node, p') →
     is_error_node node = false → parsed_expression node)
  ∧ (∀ p precedence node p',
     parser_parse_expression_precedence fuel p precedence = Some (node, p') →
     is_error_node node = false → parsed_expression node)
  ∧ (∀ p node p',
     parser_parse_expression fuel p = Some (node, p') →
     is_error_node node = false → parsed_expression node).
Proof.
  induction fuel as [|fuel (IHprimary & IHloop & IHprec & IHexpr)].
  { by split_and!. }
  split_and!.
  - intros p node p'. rewrite parser_parse_primary_S.
    destruct (parser_current_token p) as [token|]; [|by intros [= <- <-]].
    destruct (decide (token_type token = TOKEN_LEFT_PAREN)) as [Hparen|_].
    + destruct (parser_advance p) as [p1|]; [|done]. cbn [mbind option_bind].
      destruct (parser_parse_expression fuel p1) as [[expr p2]|] eqn:Hexpr; [|done].
      cbn [mbind option_bind].
      destruct (is_error_node expr) eqn:Herr; [intros [= <- <-]; congruence|].
      cbv zeta. destruct (bool_decide _).
      * destruct (parser_advance p2); [|done]. intros [= <- <-] _. by eapply IHexpr.
      * by intros [= <- <-].
    + destruct (primary_node token) as [node0|] eqn:Hnode.
      * destruct (parser_advance p); [|done]. intros [= <- <-] _.
        eapply parsed_operand;
          [done|by eapply primary_node_token|by eapply primary_node_type].
      * by intros [= <- <-].
  - intros p left precedence node p' Hleft. rewrite parser_binary_loop_S.
    destruct (parser_current_token p) as [token|]; [|by intros [= <- <-]].
    destruct (parser_is_binary_operator (token_type token)) eqn:Hop;
      [|by intros [= <- <-]].
    cbn [negb]. destruct (_ <? _); [by intros [= <- <-]|].
    destruct (parser_advance p) as [p1|]; [|done]. cbn [mbind option_bind].
    destruct (parser_parse_expression_precedence fuel p1 _)
      as [[right_ p2]|] eqn:Hright; [|done].
    cbn [mbind option_bind].
    destruct (is_error_node right_) eqn:Herr; [intros [= <- <-]; congruence|].
    apply IHloop.
    apply (parsed_binary _ token left right_); try done. by eapply IHprec.
  - intros p precedence node p'. rewrite parser_parse_expression_precedence_S.
    destruct (parser_current_token p) as [token|]; [|by intros [= <- <-]].
    destruct (parser_parse_primary fuel p) as [[left_ p1]|] eqn:Hprimary; [|done].
    cbn [mbind option_bind].
    destruct (is_error_node left_) eqn:Herr; [intros [= <- <-]; congruence|].
    apply IHloop. by eapply IHprimary.
  - intros p node p'. rewrite parser_parse_expression_S.
    destruct (parser_current_token p) as [token|]; [|by intros [= <- <-]].
    apply IHprec.
Qed.

Lemma parse_source_shape (source : string) (node : ASTNode) (p' : Parser) :
  parse_source source = Some (node, p') →
  node_type node ≠ NODE_ERROR → parsed_expression node.
Proof.
  unfold parse_source, parser_parse.
  set (p0 := parser_create (lexer_create source)).
  change (parser_current_token p0) with (@None Token).
  destruct (parser_advance p0) as [p1|]; [|done]. cbn [mbind option_bind].
  destruct (parser_current_token p1) as [token|]; [|by intros [= <- _]].
  destruct (decide _); [by intros [= <- _]|].
  intros E Hnode.
  destruct (parser_functions_shape (parser_fuel p0)) as (_ & _ & _ & Hshape).
  apply (Hshape _ _ _ E). unfold is_error_node. by rewrite bool_decide_eq_false.
Qed.

(** X11.  The shape of a parsed expression.  When [parser_parse] returns a
    node that is no Error node, the whole tree is well formed: every leaf
    is the node of a literal, an identifier, [true] or [false], carrying
    its token; every inner node is a BinaryExpression whose two operands
    are present, whose token is one of the binary operators of the parser
    and whose operator text is the lexeme of that token.  No Error node
    and no other kind of node occurs inside it.  The members of the nodes
    say so: the type, the token, the left and the right operand and the
    operator text of every node are read, down to the leaves. *)
Theorem X11_parsed_expression_shape (source : string) (node : ASTNode)
    (p' : Parser) :
  parse_source source = Some (node, p') →
  node_type node ≠ NODE_ERROR →
  parsed_expression node
  ∧ ∃ e, expression_of node = Some e ∧ well_formed e.
Proof.
  intros E Hnode. pose proof (parse_source_shape source node p' E Hnode) as H.
  split; [done|]. by apply parsed_expression_of.
Qed.

Ltac lexer_run_steps :=
  cbn [lexer_run app];
  repeat (lazymatch goal with
          | |- ∃ l1, lexer_next_token ?l = _ ∧ _ =>
              exists (lexer_after l); split; [vm_compute; reflexivity|]
          end);
  vm_compute; reflexivity.

Lemma X11_parsed_expression_shape_witness :
  let node :=
    binary_node (operator_token TOKEN_PLUS "+" 3)
      (operand_node (int_token "1" 1))
      (binary_node (operator_token TOKEN_MULTIPLY "*" 7)
         (operand_node (int_token "2" 5))
         (operand_node (int_token "3" 9))) in
  expression_of node
  = Some (Binary (operator_token TOKEN_PLUS "+" 3) "+"
            (Operand (int_token "1" 1))
            (Binary (operator_token TOKEN_MULTIPLY "*" 7) "*"
               (Operand (int_token "2" 5)) (Operand (int_token "3" 9))))
  ∧ parsed_expression node
  ∧ ∃ e, expression_of node = Some e ∧ well_formed e.
Proof.
  split; [vm_compute; reflexivity|].
  apply (X11_parsed_expression_shape "1 + 2 * 3" _
           (mkParser (lexer_at "1 + 2 * 3" 9) (Some (eof_token 10)) None false None));
    [vm_compute; reflexivity|discriminate].
Defined.

(* ------------------------------------------------------------------ *)
(** ** Parentheses, and what follows an operand *)

(** [parser_parse] on a new parser whose first token is not the end of
    the input. *)
Lemma parse_source_first (source : string) (t : Token) (l1 : Lexer) :
  lexer_next_token (lexer_create source) = Some (t, l1) →
  token_type t ≠ TOKEN_EOF →
  parse_source source
  = parser_parse_expression_precedence (5 + 3 * String.length source)
      (parser_with (parser_create (lexer_create source)) l1 t) 1.
Proof.
  intros E Hne. unfold parse_source, parser_parse, parser_advance.
  cbn [parser_create parser_current_token parser_lexer]. rewrite E.
  cbn [mbind option_bind parser_current_token].
  rewrite decide_False by done.
  unfold parser_fuel. cbn [parser_lexer lexer_create lexer_source lexer_position].
  by rewrite Nat.sub_0_r.
Qed.

Lemma binary_node_not_error (op : Token) (l r : ASTNode) :
  is_error_node (binary_node op l r) = false.
Proof. done. Qed.

(** X12.  Parentheses.  For a text whose tokens are [( a op1 b ) op2 c],
    whatever the precedences of the two binary operators, the tree has
    [op2] at its root, the tree of [a op1 b] on the left and [c] on the
    right.  The parentheses leave no node of their own, and no error is
    flagged.  The tree is given as the node the parser builds and as the
    expression that the members of its nodes hold. *)
Theorem X12_parentheses_group (source : string)
    (lp a op1 b rp op2 c eof : Token) (l_end : Lexer) :
  lexer_run (lexer_create source) [lp; a; op1; b; rp; op2; c; eof] l_end →
  token_type lp = TOKEN_LEFT_PAREN → token_type rp = TOKEN_RIGHT_PAREN →
  is_Some (primary_node a) → is_Some (primary_node b) → is_Some (primary_node c) →
  parser_is_binary_operator (token_type op1) = true →
  parser_is_binary_operator (token_type op2) = true →
  token_type eof = TOKEN_EOF →
  ∃ node,
    parse_source source
    = Some (node, mkParser l_end (Some eof) None false None)
    ∧ node = binary_node op2 (binary_node op1 (operand_node a) (operand_node b))
               (operand_node c)
    ∧ expression_of node
      = Some (Binary op2 (token_lexeme op2)
                (Binary op1 (token_lexeme op1) (Operand a) (Operand b))
                (Operand c)).
Proof.
  intros (l1 & E1 & l2 & E2 & l3 & E3 & l4 & E4 & l5 & E5 & l6 & E6 & l7 & E7
          & l8 & E8 & ->) Hlp Hrp Ha Hb Hc Hop1 Hop2 Heof.
  eexists. split; [|split; [reflexivity|]].
  2:{ apply expression_of_binary; [|by apply expression_of_operand].
      apply expression_of_binary; by apply expression_of_operand. }
  assert (1 <= String.length source)%nat as Hlen.
  { destruct (lexer_next_token_total _ (lexer_create_wf source))
      as (t & l & E & _ & Hprog). rewrite E1 in E. injection E as <- <-.
    specialize (Hprog ltac:(by rewrite Hlp)).
    unfold lexer_remaining in Hprog. simpl in Hprog. lia. }
  rewrite (parse_source_first source lp l1 E1) by (by rewrite Hlp).
  set (p := parser_create (lexer_create source)).
  destruct (String.length source) as [|n]; [lia|].
  replace (5 + 3 * S n)%nat with (S (S (S (S (S (S (S (3 * n + 1)))))))) by lia.
  generalize (3 * n + 1)%nat. clear n Hlen. intros n.
  pose proof (binary_operator_precedence _ Hop1) as Hp1.
  pose proof (binary_operator_precedence _ Hop2) as Hp2.
  rewrite parser_parse_expression_precedence_S.
  cbn [parser_with parser_current_token]. fold (parser_with p l1 lp).
  rewrite parser_parse_primary_S.
  cbn [parser_with parser_current_token]. fold (parser_with p l1 lp).
  rewrite decide_True by done.
  rewrite (parser_advance_with p l1 l2 lp a E2). cbn [mbind option_bind].
  rewrite parser_parse_expression_S.
  cbn [parser_with parser_current_token]. fold (parser_with p l2 a).
  rewrite (parse_expression_precedence_chain
             (parser_get_precedence (token_type op1)) 1 rp l2 l3 l5 p a op1
             [(op1, b)]); try done; [|lia|left; by rewrite Hrp|by repeat constructor
                                     |split; [done|]; by exists l4, l5, rp|simpl; lia].
  cbn [mbind option_bind left_assoc fold_left fst snd].
  rewrite binary_node_not_error. cbv zeta.
  cbn [parser_with parser_current_token fmap option_fmap option_map].
  rewrite Hrp. rewrite bool_decide_eq_true_2 by done.
  fold (parser_with p l5 rp).
  rewrite (parser_advance_with p l5 l6 rp op2 E6). cbn [mbind option_bind].
  rewrite binary_node_not_error.
  change (mkParser l8 (Some eof) None false None) with (parser_with p l8 eof).
  apply (binary_loop_chain (parser_get_precedence (token_type op2)) 1 eof l8 p
           [(op2, c)] ltac:(lia) (stops_loop_eof 1 eof Heof));
    [by repeat constructor|split; [done|]; by exists l7, l8, eof|simpl; lia].
Qed.

Lemma X12_parentheses_group_witness :
  ∃ node,
    parse_source "(1 + 2) * 3"
    = Some (node,
            mkParser (lexer_at "(1 + 2) * 3" 11) (Some (eof_token 12))
              None false None)
    ∧ node = binary_node (operator_token TOKEN_MULTIPLY "*" 9)
               (binary_node (operator_token TOKEN_PLUS "+" 4)
                  (operand_node (int_token "1" 2))
                  (operand_node (int_token "2" 6)))
               (operand_node (int_token "3" 11))
    ∧ expression_of node
      = Some (Binary (operator_token TOKEN_MULTIPLY "*" 9) "*"
                (Binary (operator_token TOKEN_PLUS "+" 4) "+"
                   (Operand (int_token "1" 2)) (Operand (int_token "2" 6)))
                (Operand (int_token "3" 11))).
Proof.
  apply (X12_parentheses_group "(1 + 2) * 3"
           (operator_token TOKEN_LEFT_PAREN "(" 1) (int_token "1" 2)
           (operator_token TOKEN_PLUS "+" 4) (int_token "2" 6)
           (operator_token TOKEN_RIGHT_PAREN ")" 7)
           (operator_token TOKEN_MULTIPLY "*" 9) (int_token "3" 11)
           (eof_token 12) (lexer_at "(1 + 2) * 3" 11));
    [lexer_run_steps|reflexivity|reflexivity|by eexists..|reflexivity|reflexivity
    |reflexivity].
Defined.

(** X13.  A parenthesis that is not closed.  For a text whose tokens are
    [( a] and then a token that is neither a binary operator nor a closing
    parenthesis (the end of the input, for one), the result is an Error
    node that carries this token; the error flag is set and the diagnostic
    is a Syntax error with the message of the missing parenthesis, at the
    line and column of the token, whose lexeme is stored in the file field
    of the diagnostic. *)
Theorem X13_missing_closing_parenthesis (source : string)
    (lp a stop : Token) (l_end : Lexer) :
  lexer_run (lexer_create source) [lp; a; stop] l_end →
  token_type lp = TOKEN_LEFT_PAREN →
  is_Some (primary_node a) →
  parser_is_binary_operator (token_type stop) = false →
  token_type stop ≠ TOKEN_RIGHT_PAREN →
  parse_source source
  = Some (ast_node_create NODE_ERROR (Some stop),
          mkParser l_end (Some stop) None true
            (Some (mkError ERROR_SYNTAX "Expected closing parenthesis"
                     (token_line stop) (token_column stop)
                     (Some (token_lexeme stop))))).
Proof.
  intros (l1 & E1 & l2 & E2 & l3 & E3 & ->) Hlp Ha Hstop Hrp.
  rewrite (parse_source_first source lp l1 E1) by (by rewrite Hlp).
  set (p := parser_create (lexer_create source)).
  change (5 + 3 * String.length source)%nat
    with (S (S (S (S (S (3 * String.length source)))))).
  generalize (3 * String.length source)%nat. intros n.
  rewrite parser_parse_expression_precedence_S.
  cbn [parser_with parser_current_token]. fold (parser_with p l1 lp).
  rewrite parser_parse_primary_S.
  cbn [parser_with parser_current_token]. fold (parser_with p l1 lp).
  rewrite decide_True by done.
  rewrite (parser_advance_with p l1 l2 lp a E2). cbn [mbind option_bind].
  rewrite parser_parse_expression_S.
  cbn [parser_with parser_current_token]. fold (parser_with p l2 a).
  rewrite (parse_operand_then_stop n p l2 l3 a stop 1 Ha E3) by (by left).
  cbn [mbind option_bind]. rewrite (operand_node_not_error a Ha). cbv zeta.
  cbn [parser_with parser_current_token fmap option_fmap option_map].
  rewrite bool_decide_eq_false_2 by (by intros [= ?]).
  done.
Qed.

Lemma X13_missing_closing_parenthesis_witness :
  parse_source "(7"
  = Some (ast_node_create NODE_ERROR (Some (eof_token 3)),
          mkParser (lexer_at "(7" 2) (Some (eof_token 3)) None true
            (Some (mkError ERROR_SYNTAX "Expected closing parenthesis" 1 3
                     (Some "")))).
Proof.
  apply (X13_missing_closing_parenthesis "(7"
           (operator_token TOKEN_LEFT_PAREN "(" 1) (int_token "7" 2)
           (eof_token 3) (lexer_at "(7" 2));
    [lexer_run_steps|reflexivity|by eexists|reflexivity|discriminate].
Defined.

(** X14.  An operator without a right operand.  For a text whose tokens
    are [a op] and then a token that starts no operand (the end of the
    input, a closing parenthesis, another operator, ...), the result is an
    Error node that carries this token, not the tree of [a]; the error flag
    is set and the diagnostic is a Syntax error with the message of the
    unexpected token, at the line and column of the token. *)
Theorem X14_operator_without_right_operand (source : string)
    (a op x : Token) (l_end : Lexer) :
  lexer_run (lexer_create source) [a; op; x] l_end →
  is_Some (primary_node a) →
  parser_is_binary_operator (token_type op) = true →
  primary_node x = None →
  token_type x ≠ TOKEN_LEFT_PAREN →
  parse_source source
  = Some (ast_node_create NODE_ERROR (Some x),
          mkParser l_end (Some x) None true
            (Some (mkError ERROR_SYNTAX "Unexpected token in expression"
                     (token_line x) (token_column x) (Some (token_lexeme x))))).
Proof.
  intros (l1 & E1 & l2 & E2 & l3 & E3 & ->) Ha Hop Hx Hparen.
  destruct Ha as [na Hna].
  rewrite (parse_source_first source a l1 E1) by (by eapply primary_node_not_eof).
  set (p := parser_create (lexer_create source)).
  change (5 + 3 * String.length source)%nat
    with (S (S (S (S (S (3 * String.length source)))))).
  generalize (3 * String.length source)%nat. intros n.
  pose proof (binary_operator_precedence _ Hop) as Hp.
  rewrite parser_parse_expression_precedence_S.
  cbn [parser_with parser_current_token]. fold (parser_with p l1 a).
  rewrite (parse_primary_operand _ p l1 l2 a op (ex_intro _ na Hna) E2).
  cbn [mbind option_bind].
  rewrite (operand_node_not_error a (ex_intro _ na Hna)).
  rewrite parser_binary_loop_S.
  cbn [parser_with parser_current_token]. fold (parser_with p l2 op).
  rewrite Hop. cbn [negb]. rewrite (proj2 (Z.ltb_ge _ 1)) by lia.
  rewrite (parser_advance_with p l2 l3 op x E3). cbn [mbind option_bind].
  rewrite parser_parse_expression_precedence_S.
  cbn [parser_with parser_current_token]. fold (parser_with p l3 x).
  rewrite parser_parse_primary_S.
  cbn [parser_with parser_current_token]. fold (parser_with p l3 x).
  rewrite decide_False by done. rewrite Hx. done.
Qed.

Lemma X14_operator_without_right_operand_witness :
  parse_source "1 +"
  = Some (ast_node_create NODE_ERROR (Some (eof_token 4)),
          mkParser (lexer_at "1 +" 3) (Some (eof_token 4)) None true
            (Some (mkError ERROR_SYNTAX "Unexpected token in expression" 1 4
                     (Some "")))).
Proof.
  apply (X14_operator_without_right_operand "1 +" (int_token "1" 1)
           (operator_token TOKEN_PLUS "+" 3) (eof_token 4) (lexer_at "1 +" 3));
    [lexer_run_steps|by eexists|reflexivity|reflexivity|discriminate].
Defined.

(** X15.  A second operator that binds no tighter.  For a text whose
    tokens are [a op1 b op2 c] where the precedence of [op2] is at most
    that of [op1], the tree has [op2] at its root, the tree of [a op1 b] on
    the left and [c] on the right.  The tree is given as the node the
    parser builds and as the expression that the members of its nodes
    hold. *)
Theorem X15_lower_precedence_nests_left (source : string)
    (a op1 b op2 c eof : Token) (l_end : Lexer) :
  lexer_run (lexer_create source) [a; op1; b; op2; c; eof] l_end →
  is_Some (primary_node a) → is_Some (primary_node b) → is_Some (primary_node c) →
  parser_is_binary_operator (token_type op1) = true →
  parser_is_binary_operator (token_type op2) = true →
  parser_get_precedence (token_type op2) <= parser_get_precedence (token_type op1) →
  token_type eof = TOKEN_EOF →
  ∃ node,
    parse_source source
    = Some (node, mkParser l_end (Some eof) None false None)
    ∧ node = binary_node op2 (binary_node op1 (operand_node a) (operand_node b))
               (operand_node c)
    ∧ expression_of node
      = Some (Binary op2 (token_lexeme op2)
                (Binary op1 (token_lexeme op1) (Operand a) (Operand b))
                (Operand c)).
Proof.
  intros (l1 & E1 & l2 & E2 & l3 & E3 & l4 & E4 & l5 & E5 & l6 & E6 & ->)
    Ha Hb Hc Hop1 Hop2 Hprec Heof.
  eexists. split; [|split; [reflexivity|]].
  2:{ apply expression_of_binary; [|by apply expression_of_operand].
      apply expression_of_binary; by apply expression_of_operand. }
  rewrite (parse_source_start source a l1 E1 Ha).
  set (p := parser_create (lexer_create source)).
  change (5 + 3 * String.length source)%nat
    with (S (S (S (S (S (3 * String.length source)))))).
  generalize (3 * String.length source)%nat. intros n.
  pose proof (binary_operator_precedence _ Hop1) as Hp1.
  pose proof (binary_operator_precedence _ Hop2) as Hp2.
  rewrite parser_parse_expression_precedence_S.
  cbn [parser_with parser_current_token]. fold (parser_with p l1 a).
  rewrite (parse_primary_operand _ p l1 l2 a op1 Ha E2).
  cbn [mbind option_bind]. rewrite (operand_node_not_error a Ha).
  rewrite parser_binary_loop_S.
  cbn [parser_with parser_current_token]. fold (parser_with p l2 op1).
  rewrite Hop1. cbn [negb]. rewrite (proj2 (Z.ltb_ge _ 1)) by lia.
  rewrite (parser_advance_with p l2 l3 op1 b E3). cbn [mbind option_bind].
  rewrite (parse_operand_then_stop _ p l3 l4 b op2 _ Hb E4) by (right; lia).
  cbn [mbind option_bind]. rewrite (operand_node_not_error b Hb).
  change (mkParser l6 (Some eof) None false None) with (parser_with p l6 eof).
  apply (binary_loop_chain (parser_get_precedence (token_type op2)) 1 eof l6 p
           [(op2, c)] ltac:(lia) (stops_loop_eof 1 eof Heof));
    [by repeat constructor|split; [done|]; by exists l5, l6, eof|simpl; lia].
Qed.

Lemma X15_lower_precedence_nests_left_witness :
  ∃ node,
    parse_source "2 * 3 + 4"
    = Some (node,
            mkParser (lexer_at "2 * 3 + 4" 9) (Some (eof_token 10)) None false None)
    ∧ node = binary_node (operator_token TOKEN_PLUS "+" 7)
               (binary_node (operator_token TOKEN_MULTIPLY "*" 3)
                  (operand_node (int_token "2" 1))
                  (operand_node (int_token "3" 5)))
               (operand_node (int_token "4" 9))
    ∧ expression_of node
      = Some (Binary (operator_token TOKEN_PLUS "+" 7) "+"
                (Binary (operator_token TOKEN_MULTIPLY "*" 3) "*"
                   (Operand (int_token "2" 1)) (Operand (int_token "3" 5)))
                (Operand (int_token "4" 9))).
Proof.
  apply (X15_lower_precedence_nests_left "2 * 3 + 4" (int_token "2" 1)
           (operator_token TOKEN_MULTIPLY "*" 3) (int_token "3" 5)
           (operator_token TOKEN_PLUS "+" 7) (int_token "4" 9)
           (eof_token 10) (lexer_at "2 * 3 + 4" 9));
    [lexer_run_steps|by eexists..|reflexivity|reflexivity| |reflexivity].
  vm_compute. discriminate.
Defined.

(** X16.  A lexical error is no parse error.  For a text that is a string
    literal without its closing quote (and that does not end in a
    backslash that starts an escape, so that the lexer stays inside the
    text), the lexer flags a
    Lexical error, but [parser_parse] returns the Literal node of the
    string (node type Literal, the string token, the body as its string
    value, no child) with the parser's own error flag clear and no
    diagnostic: the parser does not look at the error state of its
    lexer. *)
Theorem X16_lexical_error_is_not_a_parse_error (body : string) :
  no_NUL body = true →
  body_closed body = false →
  body_in_bounds body = true →
  let source := String DQUOTE body in
  let token := unterminated_string_token (lexer_create source) body in
  ∃ node p',
    parse_source source = Some (node, p')
    ∧ node_type node = NODE_LITERAL
    ∧ node_token node = Some token
    ∧ node_data node = DataLiteralString (Some (body_content body))
    ∧ node_children node = []
    ∧ parser_had_error p' = false
    ∧ parser_last_error p' = None
    ∧ lexer_had_error (parser_lexer p') = true
    ∧ lexer_get_last_error (parser_lexer p')
      = Some (unterminated_string_error (lexer_create source))
    ∧ lexer_in_bounds (parser_lexer p').
Proof.
  intros Hnul Hopen Hbody source token.
  destruct (read_string_unterminated (lexer_create source) body
              (lexer_create_wf source) eq_refl Hnul Hopen)
    as (l' & E & Hflag & Hlast & Hend).
  pose proof (read_string_in_bounds (lexer_create source) body _ l'
                (lexer_create_wf source) eq_refl Hnul Hopen Hbody E) as Hin.
  fold token in E.
  assert (is_Some (primary_node token)) as Ha by (by eexists).
  rewrite (parse_source_start source token l' E Ha).
  change (5 + 3 * String.length source)%nat
    with (S (S (3 + 3 * String.length source))).
  assert (lexer_next_token l'
          = Some (token_create TOKEN_EOF "" (lexer_line l') (lexer_column l'), l'))
    as Eeof.
  { unfold lexer_next_token. by rewrite Hend. }
  rewrite (parse_operand_then_stop _ (parser_create (lexer_create source))
             l' l' token _ 1 Ha Eeof) by (by left).
  eexists _, _. split; [done|]. by split_and!.
Qed.

Lemma X16_lexical_error_is_not_a_parse_error_witness :
  ∃ node p',
    parse_source (String DQUOTE "abc") = Some (node, p')
    ∧ node_type node = NODE_LITERAL
    ∧ node_token node
      = Some (mkToken TOKEN_STRING_LITERAL
                (String DQUOTE ("abc" +:+ String DQUOTE EmptyString)) 1 1
                (LitString "abc"))
    ∧ node_data node = DataLiteralString (Some "abc")
    ∧ node_children node = []
    ∧ parser_had_error p' = false
    ∧ parser_last_error p' = None
    ∧ lexer_had_error (parser_lexer p') = true
    ∧ lexer_get_last_error (parser_lexer p')
      = Some (mkError ERROR_LEXICAL "Unterminated string literal" 1 1 None)
    ∧ lexer_in_bounds (parser_lexer p').
Proof.
  apply (X16_lexical_error_is_not_a_parse_error "abc"); reflexivity.
Defined.

End ParserCoverage.

(* ================================================================== *)
(** * The analyzer: scopes, bounds and types *)
(* ================================================================== *)

Section SemanticCoverage.

(** ** Adding a symbol and finding it *)

Lemma lookup_symbols_app (symbols : list Symbol) (s : Symbol) (name : string) :
  lookup_symbols (symbols ++ [s]) name
  = match lookup_symbols symbols name with
    | Some found => Some found
    | None => if String.eqb (symbol_name s) name then Some s else None
    end.
Proof.
  induction symbols as [|x symbols IH]; simpl; [done|].
  by destruct (String.eqb (symbol_name x) name).
Qed.

(** X17.  Adding a symbol and finding it.  [symbol_table_add] on a live
    table stores the symbol behind the symbols of the table, as it is, and
    touches no other table.  Afterwards the local lookup of its name finds
    the symbol itself when the name was new, and still the older symbol
    when the name was taken: a second declaration is accepted and stays
    hidden.  The lookup of every other name is as before. *)
Theorem X17_add_then_lookup (tbls : gmap nat SymbolTable) (table : nat)
    (t : SymbolTable) (symbol : Symbol) :
  tbls !! table = Some t →
  ∃ tbls' t',
    symbol_table_add tbls table symbol = Some tbls'
    ∧ tbls' !! table = Some t'
    ∧ table_symbols t' = table_symbols t ++ [symbol]
    ∧ table_parent t' = table_parent t
    ∧ table_scope_level t' = table_scope_level t
    ∧ symbol_table_lookup_local t' (symbol_name symbol)
      = Some (default symbol (symbol_table_lookup_local t (symbol_name symbol)))
    ∧ (∀ name, name ≠ symbol_name symbol →
         symbol_table_lookup_local t' name = symbol_table_lookup_local t name)
    ∧ (∀ other, other ≠ table → tbls' !! other = tbls !! other).
Proof.
  intros Ht. unfold symbol_table_add. rewrite Ht. cbn [mbind option_bind].
  eexists _, _. split; [done|]. rewrite lookup_insert_eq. split; [done|].
  cbn [table_symbols table_parent table_scope_level]. split_and!; try done.
  - unfold symbol_table_lookup_local. cbn [table_symbols].
    rewrite lookup_symbols_app, String.eqb_refl.
    by destruct (lookup_symbols (table_symbols t) (symbol_name symbol)).
  - intros name Hne. unfold symbol_table_lookup_local. cbn [table_symbols].
    rewrite lookup_symbols_app.
    destruct (lookup_symbols (table_symbols t) name); [done|].
    destruct (String.eqb (symbol_name symbol) name) eqn:E; [|done].
    by apply String.eqb_eq in E.
  - intros other Hne. by rewrite lookup_insert_ne.
Qed.

Lemma X17_add_then_lookup_witness :
  let first := symbol_create_variable "x" "int" true 1 1 in
  let second := symbol_create_variable "x" "float" false 2 1 in
  let t := mkSymbolTable [first] 16 None 0 in
  ∃ tbls' t',
    symbol_table_add {[ 0%nat := t ]} 0 second = Some tbls'
    ∧ tbls' !! 0%nat = Some t'
    ∧ table_symbols t' = [first; second]
    ∧ table_parent t' = None
    ∧ table_scope_level t' = 0
    ∧ symbol_table_lookup_local t' "x" = Some first
    ∧ (∀ name, name ≠ "x" →
         symbol_table_lookup_local t' name = symbol_table_lookup_local t name)
    ∧ (∀ other, other ≠ 0%nat →
         tbls' !! other = ({[ 0%nat := t ]} : gmap nat SymbolTable) !! other).
Proof.
  intros first second t.
  apply (X17_add_then_lookup {[ 0%nat := t ]} 0 t second). reflexivity.
Defined.

(* ------------------------------------------------------------------ *)
(** ** Entering and leaving a scope *)

Lemma run_ops_app (st : Semantic) (ops1 ops2 : list AnalyzerOp) :
  run_ops st (ops1 ++ ops2) = st' ← run_ops st ops1; run_ops st' ops2.
Proof.
  revert st. induction ops1 as [|op ops1 IH]; intros st; [done|]. simpl.
  destruct (run_op st op) as [st1|]; [|done]. apply IH.
Qed.

(** Adding symbols changes the current table only. *)
Lemma run_ops_adds (symbols : list Symbol) :
  ∀ (tbls : gmap nat SymbolTable) (a : SemanticAnalyzer) (t : SymbolTable),
    tbls !! current_scope a = Some t →
    ∃ capacity,
      run_ops (mkSemantic tbls a) (OpAdd <$> symbols)
      = Some (mkSemantic
                (<[current_scope a :=
                     mkSymbolTable (table_symbols t ++ symbols) capacity
                       (table_parent t) (table_scope_level t)]> tbls) a).
Proof.
  induction symbols as [|s symbols IH]; intros tbls a t Ht.
  - exists (table_capacity t). simpl. rewrite app_nil_r.
    destruct t. by rewrite insert_id.
  - cbn [fmap list_fmap run_ops run_op tables analyzer].
    unfold symbol_table_add. rewrite Ht. cbn [mbind option_bind].
    set (t1 := mkSymbolTable (table_symbols t ++ [s]) _ (table_parent t)
                 (table_scope_level t)).
    destruct (IH (<[current_scope a := t1]> tbls) a t1) as [capacity ->];
      [apply lookup_insert_eq|].
    exists capacity. cbn [t1 table_symbols table_parent table_scope_level].
    by rewrite insert_insert_eq, <- app_assoc.
Qed.

(** X18.  Entering and leaving a scope.  On an analyzer reached by any
    sequence of operations, entering a scope, adding any symbols and
    leaving the scope again restores the tables, the current scope and the
    scope stack: the symbols of the inner scope are gone and nothing of
    the outer scopes has changed.  (Only the capacity of the scope stack
    may have grown.) *)
Theorem X18_scope_round_trip (global : nat) (ops : list AnalyzerOp)
    (st : Semantic) (new_scope : nat) (symbols : list Symbol) :
  run_ops (semantic_analyzer_create global) ops = Some st →
  tables st !! new_scope = None →
  ∃ st',
    run_ops st (OpEnter new_scope :: (OpAdd <$> symbols) ++ [OpExit]) = Some st'
    ∧ tables st' = tables st
    ∧ current_scope (analyzer st') = current_scope (analyzer st)
    ∧ scope_stack (analyzer st') = scope_stack (analyzer st)
    ∧ analyzer_had_error (analyzer st') = analyzer_had_error (analyzer st)
    ∧ analyzer_last_error (analyzer st') = analyzer_last_error (analyzer st).
Proof.
  intros Hrun Hfresh.
  pose proof (analyzer_invariant_run_ops ops _ st
                (analyzer_invariant_create global) Hrun) as Hinv.
  destruct (analyzer_invariant_current st Hinv) as (t & Ht & _).
  destruct (last_lookup_length _ _ (inv_current _ Hinv)) as [Hcur Hlen].
  cbn [run_ops run_op]. rewrite decide_True by done.
  unfold semantic_analyzer_enter_scope. rewrite Ht. cbn [mbind option_bind].
  rewrite run_ops_app.
  set (t1 := mkSymbolTable [] 16 (Some (current_scope (analyzer st)))
               (table_scope_level t + 1)).
  set (a1 := mkSemanticAnalyzer new_scope _ _ _ _).
  destruct (run_ops_adds symbols (<[new_scope := t1]> (tables st)) a1 t1)
    as [capacity ->]; [apply lookup_insert_eq|].
  subst a1 t1.
  cbn [mbind option_bind run_ops run_op current_scope].
  unfold semantic_analyzer_exit_scope, scope_stack_size.
  cbn [analyzer scope_stack tables current_scope].
  rewrite length_app. cbn [length].
  replace (length (scope_stack (analyzer st)) + 1 <=? 1)%nat with false
    by (symmetry; apply Nat.leb_gt; lia).
  replace (length (scope_stack (analyzer st)) + 1 - 1)%nat
    with (length (scope_stack (analyzer st))) by lia.
  rewrite take_app_length, lookup_insert_eq, Hcur. cbn [mbind option_bind].
  eexists. split; [done|]. cbn [tables analyzer]. split_and!; try done.
  rewrite insert_insert_eq, delete_insert_eq. by apply delete_id.
Qed.

Lemma X18_scope_round_trip_witness :
  let count := symbol_create_variable "count" "int" true 1 1 in
  let local := symbol_create_variable "local" "float" false 5 1 in
  ∃ st',
    run_ops (mkSemantic {[ 0%nat := mkSymbolTable [count] 16 None 0 ]}
               (mkSemanticAnalyzer 0 false None [0%nat] 16))
      (OpEnter 1 :: (OpAdd <$> [local]) ++ [OpExit]) = Some st'
    ∧ tables st' = {[ 0%nat := mkSymbolTable [count] 16 None 0 ]}
    ∧ current_scope (analyzer st') = 0%nat
    ∧ scope_stack (analyzer st') = [0%nat]
    ∧ analyzer_had_error (analyzer st') = false
    ∧ analyzer_last_error (analyzer st') = None.
Proof.
  intros count local.
  exact (X18_scope_round_trip 0 [OpAdd count]
           (mkSemantic {[ 0%nat := mkSymbolTable [count] 16 None 0 ]}
              (mkSemanticAnalyzer 0 false None [0%nat] 16)) 1 [local]
           eq_refl eq_refl).
Defined.

(* ------------------------------------------------------------------ *)
(** ** The arrays and their capacities *)

(** The symbols of every table fit its array, and the scope stack fits
    its array. *)
Definition capacities_ok (st : Semantic) : Prop :=
  (∀ addr t, tables st !! addr = Some t →
     (symbol_count t <= table_capacity t)%nat ∧ (16 <= table_capacity t)%nat)
  ∧ (scope_stack_size (analyzer st) <= scope_stack_capacity (analyzer st))%nat
  ∧ (16 <= scope_stack_capacity (analyzer st))%nat.

Lemma capacities_ok_run_op (st : Semantic) (op : AnalyzerOp) (st' : Semantic) :
  capacities_ok st → run_op st op = Some st' → capacities_ok st'.
Proof.
  intros (Htables & Hstack & Hcap). destruct op as [new_scope| |symbol]; simpl.
  - case_decide; [|done]. unfold semantic_analyzer_enter_scope.
    destruct (tables st !! current_scope (analyzer st)); [|done]. simpl.
    intros [= <-]. unfold capacities_ok, scope_stack_size in *. simpl.
    split_and!.
    + intros addr t'. destruct (decide (addr = new_scope)) as [->|Hne].
      * rewrite lookup_insert_eq. intros [= <-]. unfold symbol_count. simpl. lia.
      * rewrite lookup_insert_ne by done. apply (Htables addr).
    + rewrite length_app. simpl. destruct (_ <=? _)%nat eqn:E.
      * apply Nat.leb_le in E. lia.
      * apply Nat.leb_gt in E. lia.
    + destruct (_ <=? _)%nat; lia.
  - unfold semantic_analyzer_exit_scope, scope_stack_size in *.
    destruct (_ <=? 1)%nat; [by intros [= <-]|].
    destruct (tables st !! current_scope (analyzer st)); [|done]. simpl.
    destruct (_ !! _); [|done]. simpl. intros [= <-].
    unfold capacities_ok, scope_stack_size. simpl.
    split_and!; [|rewrite length_take; lia|done].
    intros addr t' Ht'. apply lookup_delete_Some in Ht' as [_ Ht'].
    by apply (Htables addr).
  - unfold symbol_table_add.
    destruct (tables st !! current_scope (analyzer st)) as [t|] eqn:Ht; [|done].
    simpl. intros [= <-]. unfold capacities_ok. simpl. split_and!; [|done..].
    intros addr t'. destruct (decide (addr = current_scope (analyzer st))) as [->|Hne].
    + rewrite lookup_insert_eq. intros [= <-]. unfold symbol_count. simpl.
      destruct (Htables _ _ Ht) as [H1 H2]. unfold symbol_count in *.
      rewrite length_app. simpl. destruct (_ <=? _)%nat eqn:E.
      * apply Nat.leb_le in E. lia.
      * apply Nat.leb_gt in E. lia.
    + rewrite lookup_insert_ne by done. apply (Htables addr).
Qed.

Lemma capacities_ok_run_ops (ops : list AnalyzerOp) (st st' : Semantic) :
  capacities_ok st → run_ops st ops = Some st' → capacities_ok st'.
Proof.
  revert st. induction ops as [|op ops IH]; intros st Hok; simpl.
  - by intros [= <-].
  - destruct (run_op st op) as [st1|] eqn:Hop; [|done]. simpl.
    apply IH. by eapply capacities_ok_run_op.
Qed.

(** X19.  The arrays stay in bounds.  After any sequence of operations on
    a new analyzer, no table holds more symbols than its array has room
    for, and the scope stack is no higher than its array; every capacity
    is at least 16.  So the slot that [symbol_table_add] and
    [semantic_analyzer_enter_scope] write next lies inside the array, which
    they grow first when it is full. *)
Theorem X19_arrays_stay_in_bounds (global : nat) (ops : list AnalyzerOp)
    (st : Semantic) :
  run_ops (semantic_analyzer_create global) ops = Some st →
  (∀ addr t, tables st !! addr = Some t →
     (symbol_count t <= table_capacity t)%nat ∧ (16 <= table_capacity t)%nat)
  ∧ (scope_stack_size (analyzer st) <= scope_stack_capacity (analyzer st))%nat
  ∧ (16 <= scope_stack_capacity (analyzer st))%nat
  ∧ (∀ symbol tbls' t',
       symbol_table_add (tables st) (current_scope (analyzer st)) symbol = Some tbls' →
       tbls' !! current_scope (analyzer st) = Some t' →
       (length (table_symbols t') - 1 < table_capacity t')%nat)
  ∧ (∀ new_scope st',
       semantic_analyzer_enter_scope new_scope st = Some st' →
       (scope_stack_size (analyzer st) < scope_stack_capacity (analyzer st'))%nat).
Proof.
  intros Hrun.
  assert (capacities_ok st) as Hok.
  { eapply capacities_ok_run_ops; [|done].
    unfold capacities_ok, semantic_analyzer_create, scope_stack_size,
      symbol_table_create. simpl. split_and!; [|lia..].
    intros addr t [<- <-]%lookup_singleton_Some. unfold symbol_count. simpl. lia. }
  destruct Hok as (Htables & Hstack & Hcap). split_and!; try done.
  - intros symbol tbls' t' Hadd Ht'.
    assert (capacities_ok (mkSemantic tbls' (analyzer st))) as (Htables' & _).
    { apply (capacities_ok_run_op st (OpAdd symbol)); [done|].
      simpl. by rewrite Hadd. }
    destruct (Htables' _ _ Ht') as [H1 H2]. unfold symbol_count in H1. lia.
  - intros new_scope st'. unfold semantic_analyzer_enter_scope, scope_stack_size in *.
    destruct (tables st !! current_scope (analyzer st)); [|done]. simpl.
    intros [= <-]. simpl. destruct (_ <=? _)%nat eqn:E.
    + apply Nat.leb_le in E. lia.
    + apply Nat.leb_gt in E. lia.
Qed.

Lemma X19_arrays_stay_in_bounds_witness :
  let ops :=
    [OpEnter 1; OpAdd (symbol_create_variable "local" "float" false 5 1);
     OpEnter 2; OpExit] in
  ∃ st,
    run_ops (semantic_analyzer_create 0) ops = Some st
    ∧ (∀ addr t, tables st !! addr = Some t →
         (symbol_count t <= table_capacity t)%nat
         ∧ (16 <= table_capacity t)%nat)
    ∧ (scope_stack_size (analyzer st) <= scope_stack_capacity (analyzer st))%nat
    ∧ (16 <= scope_stack_capacity (analyzer st))%nat
    ∧ (∀ symbol tbls' t',
         symbol_table_add (tables st) (current_scope (analyzer st)) symbol
         = Some tbls' →
         tbls' !! current_scope (analyzer st) = Some t' →
         (length (table_symbols t') - 1 < table_capacity t')%nat)
    ∧ (∀ new_scope st',
         semantic_analyzer_enter_scope new_scope st = Some st' →
         (scope_stack_size (analyzer st)
          < scope_stack_capacity (analyzer st'))%nat).
Proof.
  intros ops.
  assert (run_ops (semantic_analyzer_create 0) ops
          = Some (default (semantic_analyzer_create 0)
                    (run_ops (semantic_analyzer_create 0) ops))) as Hrun
    by (vm_compute; reflexivity).
  eexists. split; [exact Hrun|].
  exact (X19_arrays_stay_in_bounds 0 ops _ Hrun).
Defined.

(* ------------------------------------------------------------------ *)
(** ** Types of expressions *)

(** With the invariant of the analyzer, every node has a type. *)
Lemma node_get_type_total (st : Semantic) :
  analyzer_invariant st → ∀ node, is_Some (node_get_type (Some st) node).
Proof.
  intros Hinv. fix IH 1. intros [type token children data line column].
  destruct type; try (by eexists).
  - (* NODE_BINARY_EXPRESSION *)
    cbn [node_get_type].
    assert (is_Some (match data with
                     | DataBinary (Some l) _ _ => node_get_type (Some st) l
                     | _ => Some TYPE_ERROR
                     end)) as [left_type ->].
    { destruct data as [|[l|] r op| | | | | |]; try (by eexists). apply IH. }
    assert (is_Some (match data with
                     | DataBinary _ (Some r) _ => node_get_type (Some st) r
                     | _ => Some TYPE_ERROR
                     end)) as [right_type ->].
    { destruct data as [|l [r|] op| | | | | |]; try (by eexists). apply IH. }
    by eexists.
  - (* NODE_IDENTIFIER *)
    cbn [node_get_type]. unfold identifier_type.
    destruct (data_identifier_name data) as [name|]; [|by eexists].
    destruct (analyzer_invariant_current st Hinv) as (t & Ht & _).
    destruct (symbol_table_lookup_equation st _ t name Hinv Ht) as [_ [found ->]].
    cbn [mbind option_bind].
    destruct (symbol_data <$> found) as [[]|]; by eexists.
Qed.

Lemma type_of_name_not_error (type_name : string) :
  type_of_name type_name ≠ TYPE_ERROR.
Proof. unfold type_of_name. by repeat destruct (String.eqb _ _). Qed.

(** X20.  What the operation check accepts has a type.  When
    [semantic_check_binary_operation] accepts two operands and an operator,
    [ast_node_get_type] gives the BinaryExpression over them a type that is
    not the error type, and [semantic_analyze] accepts it.  The two
    disagree in one case only: a logical operator over operands that are
    not both Bool is rejected by the check and typed Bool. *)
Theorem X20_accepted_operation_has_a_type (st : Semantic)
    (token : option Token) (l r : ASTNode) (op : string) (accepted : bool) :
  semantic_check_binary_operation (Some l) (Some r) (Some op) (Some st)
  = Some accepted →
  let node := ast_node_create_binary token (Some l) (Some r) (Some op) in
  ∃ left_type right_type type,
    node_get_type (Some st) l = Some left_type
    ∧ node_get_type (Some st) r = Some right_type
    ∧ ast_node_get_type (Some node) (Some st) = Some type
    ∧ (accepted = true →
       type ≠ TYPE_ERROR ∧ semantic_analyze (Some node) (Some st) = Some true)
    ∧ (accepted = false → type ≠ TYPE_ERROR →
       is_logical_operator op = true ∧ type = TYPE_BOOL
       ∧ ¬ (left_type = TYPE_BOOL ∧ right_type = TYPE_BOOL)).
Proof.
  unfold semantic_check_binary_operation, ast_node_get_type, semantic_analyze.
  cbn [ast_node_create_binary ast_node_create with_data node_type node_token
       node_children node_data node_line node_column node_get_type
       ast_node_get_type binary_operator].
  destruct (node_get_type (Some st) l) as [left_type|]; [|done].
  destruct (node_get_type (Some st) r) as [right_type|]; [|done].
  cbn [mbind option_bind]. intros [= <-].
  exists left_type, right_type, (binary_type left_type right_type (Some op)).
  split_and!; try done.
  - unfold binary_type. cbn [from_option].
    destruct left_type, right_type; cbn;
      destruct (is_comparison_operator op), (is_logical_operator op); cbn;
      try done; by intros _.
  - unfold binary_type. cbn [from_option].
    destruct left_type, right_type; cbn;
      destruct (is_comparison_operator op), (is_logical_operator op); cbn;
      try done; intros _ _; split_and!; try done; by intros [? ?].
Qed.

Lemma X20_accepted_operation_has_a_type_witness :
  let l := operand_node (int_token "1" 1) in
  let r := operand_node (mkToken TOKEN_STRING_LITERAL "s" 1 6 (LitString "s")) in
  let node := ast_node_create_binary None (Some l) (Some r) (Some "&&") in
  ∃ left_type right_type type,
    node_get_type (Some (semantic_analyzer_create 0)) l = Some left_type
    ∧ node_get_type (Some (semantic_analyzer_create 0)) r = Some right_type
    ∧ ast_node_get_type (Some node) (Some (semantic_analyzer_create 0)) = Some type
    ∧ (false = true →
       type ≠ TYPE_ERROR
       ∧ semantic_analyze (Some node) (Some (semantic_analyzer_create 0)) = Some true)
    ∧ (false = false → type ≠ TYPE_ERROR →
       is_logical_operator "&&" = true ∧ type = TYPE_BOOL
       ∧ ¬ (left_type = TYPE_BOOL ∧ right_type = TYPE_BOOL)).
Proof.
  intros l r node.
  exact (X20_accepted_operation_has_a_type (semantic_analyzer_create 0) None l r
           "&&" false eq_refl).
Defined.

(** X21.  The type of an identifier.  On an analyzer reached by any
    sequence of operations, an Identifier node has a type, and it is never
    the error type: Unknown when the name is not declared in the current
    scope or a scope around it, Unknown as well when the name is declared
    as a function or a parameter, and for a variable the type its declared
    type name stands for.  The names are those [data_type_to_string] gives
    to Int, Float, String, Bool and Void; [char] stands for no type. *)
Theorem X21_type_of_an_identifier (global : nat) (ops : list AnalyzerOp)
    (st : Semantic) (token : option Token) (name : string) :
  run_ops (semantic_analyzer_create global) ops = Some st →
  let node := ast_node_create_identifier token (Some name) in
  ∃ found,
    symbol_table_lookup (tables st) (Some (current_scope (analyzer st))) name
    = Some found
    ∧ ast_node_get_type (Some node) (Some st)
      = Some match symbol_data <$> found with
             | Some (VariableData type_name _) => type_of_name type_name
             | _ => TYPE_UNKNOWN
             end
    ∧ semantic_analyze (Some node) (Some st) = Some true
    ∧ ∀ type,
        type_of_name (data_type_to_string type)
        = match type with
          | TYPE_CHAR | TYPE_UNKNOWN | TYPE_ERROR => TYPE_UNKNOWN
          | _ => type
          end.
Proof.
  intros Hrun node.
  pose proof (analyzer_invariant_run_ops ops _ st
                (analyzer_invariant_create global) Hrun) as Hinv.
  destruct (analyzer_invariant_current st Hinv) as (t & Ht & _).
  destruct (symbol_table_lookup_equation st _ t name Hinv Ht) as [_ [found Hfound]].
  exists found. split; [done|].
  assert (ast_node_get_type (Some node) (Some st)
          = Some match symbol_data <$> found with
                 | Some (VariableData type_name _) => type_of_name type_name
                 | _ => TYPE_UNKNOWN
                 end) as Htype.
  { unfold node, ast_node_get_type.
    cbn [ast_node_create_identifier ast_node_create with_data node_type node_token
         node_children node_data node_line node_column node_get_type
         data_identifier_name identifier_type].
    rewrite Hfound. cbn [mbind option_bind].
    by destruct (symbol_data <$> found) as [[]|]. }
  split; [done|]. split; [|by intros []].
  unfold semantic_analyze. rewrite Htype. cbn [mbind option_bind]. do 2 f_equal.
  apply negb_true_iff, bool_decide_eq_false.
  destruct (symbol_data <$> found) as [[]|]; try done. apply type_of_name_not_error.
Qed.

Lemma X21_type_of_an_identifier_witness :
  let st := mkSemantic
              {[ 0%nat := mkSymbolTable
                            [symbol_create_variable "c" "char" true 1 1] 16 None 0 ]}
              (mkSemanticAnalyzer 0 false None [0%nat] 16) in
  let node := ast_node_create_identifier None (Some "c") in
  ∃ found,
    symbol_table_lookup (tables st) (Some (current_scope (analyzer st))) "c"
    = Some found
    ∧ ast_node_get_type (Some node) (Some st)
      = Some match symbol_data <$> found with
             | Some (VariableData type_name _) => type_of_name type_name
             | _ => TYPE_UNKNOWN
             end
    ∧ semantic_analyze (Some node) (Some st) = Some true
    ∧ ∀ type,
        type_of_name (data_type_to_string type)
        = match type with
          | TYPE_CHAR | TYPE_UNKNOWN | TYPE_ERROR => TYPE_UNKNOWN
          | _ => type
          end.
Proof.
  intros st node.
  exact (X21_type_of_an_identifier 0
           [OpAdd (symbol_create_variable "c" "char" true 1 1)] st None "c" eq_refl).
Defined.

(** X22.  Comparisons and logical operations always pass.  On an analyzer
    reached by any sequence of operations, [semantic_analyze] accepts every
    BinaryExpression whose operator is a comparison or a logical operator,
    whatever its operands are: operands of different types, of the error
    type, or missing.  A type error below such an operator is not
    reported. *)
Theorem X22_comparisons_always_pass (global : nat) (ops : list AnalyzerOp)
    (st : Semantic) (token : option Token) (l r : option ASTNode) (op : string) :
  run_ops (semantic_analyzer_create global) ops = Some st →
  is_comparison_operator op || is_logical_operator op = true →
  let node := ast_node_create_binary token l r (Some op) in
  ∃ type,
    ast_node_get_type (Some node) (Some st) = Some type
    ∧ type ≠ TYPE_ERROR
    ∧ semantic_analyze (Some node) (Some st) = Some true.
Proof.
  intros Hrun Hop node.
  pose proof (analyzer_invariant_run_ops ops _ st
                (analyzer_invariant_create global) Hrun) as Hinv.
  assert (∃ left_type right_type,
            ast_node_get_type (Some node) (Some st)
            = Some (binary_type left_type right_type (Some op)))
    as (left_type & right_type & Htype).
  { unfold node, ast_node_get_type.
    cbn [ast_node_create_binary ast_node_create with_data node_type node_token
         node_children node_data node_line node_column node_get_type
         binary_operator].
    destruct l as [l|], r as [r|];
      try destruct (node_get_type_total st Hinv l) as [left_type ->];
      try destruct (node_get_type_total st Hinv r) as [right_type ->];
      by eexists _, _. }
  assert (binary_type left_type right_type (Some op) ≠ TYPE_ERROR) as Hne.
  { unfold binary_type. cbn [from_option].
    destruct left_type, right_type; cbn;
      destruct (is_comparison_operator op), (is_logical_operator op); done. }
  eexists. split; [done|]. split; [done|].
  unfold semantic_analyze. rewrite Htype. cbn [mbind option_bind].
  by rewrite bool_decide_eq_false_2.
Qed.

Lemma X22_comparisons_always_pass_witness :
  let st := semantic_analyzer_create 0 in
  let bad := ast_node_create_binary None
               (Some (operand_node (int_token "1" 2)))
               (Some (operand_node
                        (mkToken TOKEN_STRING_LITERAL "s" 1 6 (LitString "s"))))
               (Some "+") in
  let node := ast_node_create_binary None (Some bad)
                (Some (operand_node (int_token "2" 12))) (Some "==") in
  ast_node_get_type (Some bad) (Some st) = Some TYPE_ERROR
  ∧ ∃ type,
      ast_node_get_type (Some node) (Some st) = Some type
      ∧ type ≠ TYPE_ERROR
      ∧ semantic_analyze (Some node) (Some st) = Some true.
Proof.
  intros st bad node. split; [reflexivity|].
  exact (X22_comparisons_always_pass 0 [] st None (Some bad)
           (Some (operand_node (int_token "2" 12))) "==" eq_refl eq_refl).
Defined.

(* ------------------------------------------------------------------ *)
(** ** Freeing the analyzer *)

Lemma free_scopes_all (stack : list nat) :
  ∀ tbls : gmap nat SymbolTable,
    NoDup stack → (∀ addr, addr ∈ stack ↔ is_Some (tbls !! addr)) →
    free_scopes tbls stack = Some ∅.
Proof.
  induction stack as [|a stack IH]; intros tbls Hnodup Hlive.
  - simpl. f_equal. apply map_empty. intros addr.
    apply eq_None_not_Some. rewrite <- Hlive. apply not_elem_of_nil.
  - apply NoDup_cons in Hnodup as [Hnotin Hnodup]. simpl.
    unfold symbol_table_free.
    destruct (proj1 (Hlive a) ltac:(left)) as [t ->]. cbn [mbind option_bind].
    apply IH; [done|]. intros addr.
    destruct (decide (addr = a)) as [->|Hne].
    + rewrite lookup_delete_eq. split; [done|by intros [? ?]].
    + rewrite lookup_delete_ne by done. rewrite <- Hlive.
      rewrite elem_of_cons. split; [by right|by intros [?|?]].
Qed.

(** X23.  Freeing the analyzer.  After any sequence of operations on a
    new analyzer, [semantic_analyzer_free] frees every live table exactly
    once: no table is freed twice, and no table is left over. *)
Theorem X23_free_releases_every_table_once (global : nat)
    (ops : list AnalyzerOp) (st : Semantic) :
  run_ops (semantic_analyzer_create global) ops = Some st →
  semantic_analyzer_free st = Some ∅
  ∧ NoDup (scope_stack (analyzer st))
  ∧ ∀ addr, addr ∈ scope_stack (analyzer st) ↔ is_Some (tables st !! addr).
Proof.
  intros Hrun.
  pose proof (analyzer_invariant_run_ops ops _ st
                (analyzer_invariant_create global) Hrun) as Hinv.
  split_and!; [|apply Hinv..].
  apply free_scopes_all; apply Hinv.
Qed.

Lemma X23_free_releases_every_table_once_witness :
  let st := mkSemantic
              (<[ 2%nat := mkSymbolTable [] 16 (Some 0%nat) 1 ]>
                 {[ 0%nat := mkSymbolTable [] 16 None 0 ]})
              (mkSemanticAnalyzer 2 false None [0%nat; 2%nat] 16) in
  semantic_analyzer_free st = Some ∅
  ∧ NoDup (scope_stack (analyzer st))
  ∧ ∀ addr, addr ∈ scope_stack (analyzer st) ↔ is_Some (tables st !! addr).
Proof.
  intros st.
  exact (X23_free_releases_every_table_once 0 [OpEnter 1; OpExit; OpEnter 2] st
           eq_refl).
Defined.

End SemanticCoverage.

(* ================================================================== *)
(** * The generator: registers, writing and the generated file *)
(* ================================================================== *)

Section CodegenCoverage.

(** ** Registers *)

Lemma first_free_register_spec (regs : list bool) :
  ∀ i,
    match first_free_register i regs with
    | Some reg =>
        (i <= reg)%nat ∧ regs !! (reg - i)%nat = Some false
        ∧ ∀ j, (j < reg - i)%nat → regs !! j = Some true
    | None => ∀ j, (j < length regs)%nat → regs !! j = Some true
    end.
Proof.
  induction regs as [|used regs IH]; intros i; simpl.
  { intros j Hj. lia. }
  destruct used.
  - specialize (IH (S i)). destruct (first_free_register (S i) regs) as [reg|].
    + destruct IH as (Hle & Hfree & Hused). split_and!; [lia| |].
      * replace (reg - i)%nat with (S (reg - S i)) by lia. done.
      * intros [|j] Hj; [done|]. simpl. apply Hused. lia.
    + intros [|j] Hj; [done|]. simpl. apply IH. lia.
  - rewrite Nat.sub_diag. split_and!; [lia|done|]. intros j Hj. lia.
Qed.

(** X24.  Registers.  With its array of 16 flags,
    [code_generator_allocate_register] hands out the lowest register among
    the first 14 that is free and marks it used; it never hands out [rbp]
    or [rsp]; when the 14 are in use it returns [REGISTER_COUNT] and
    changes nothing.  [code_generator_free_register] on the register just
    handed out restores the generator. *)
Theorem X24_register_allocation (g : CodeGenerator) :
  length (used_registers g) = REGISTER_COUNT →
  let reg := (code_generator_allocate_register g).1 in
  let g' := (code_generator_allocate_register g).2 in
  ((reg < REGISTER_RBP)%nat
   ∧ used_registers g !! reg = Some false
   ∧ (∀ j, (j < reg)%nat → used_registers g !! j = Some true)
   ∧ used_registers g' = <[reg := true]> (used_registers g)
   ∧ used_registers g' !! reg = Some true
   ∧ code_generator_free_register g' reg = g)
  ∨ (reg = REGISTER_COUNT
     ∧ g' = g
     ∧ ∀ j, (j < REGISTER_RBP)%nat → used_registers g !! j = Some true).
Proof.
  intros Hlen reg g'. subst reg g'. unfold code_generator_allocate_register.
  pose proof (first_free_register_spec (take REGISTER_RBP (used_registers g))
                REGISTER_RAX) as Hspec.
  destruct (first_free_register _ _) as [reg|]; cbn [fst snd].
  - left. destruct Hspec as (_ & Hfree & Hused).
    unfold REGISTER_RAX in *. rewrite Nat.sub_0_r in *.
    pose proof (lookup_lt_Some _ _ _ Hfree) as Hlt.
    rewrite length_take in Hlt.
    rewrite lookup_take_lt in Hfree by lia.
    split_and!; try done; [lia| | |].
    + intros j Hj. specialize (Hused j Hj). by rewrite lookup_take_lt in Hused by lia.
    + apply list_lookup_insert_eq. unfold REGISTER_COUNT in *. lia.
    + unfold code_generator_free_register.
      replace (reg <? REGISTER_COUNT)%nat with true
        by (symmetry; apply Nat.ltb_lt; unfold REGISTER_COUNT, REGISTER_RBP in *; lia).
      unfold with_used_registers. cbn.
      rewrite list_insert_insert_eq, list_insert_id by done. by destruct g.
  - right. split_and!; try done. intros j Hj.
    specialize (Hspec j). rewrite length_take, Hlen in Hspec.
    rewrite lookup_take_lt in Hspec by done. apply Hspec.
    unfold REGISTER_COUNT, REGISTER_RBP in *. lia.
Qed.

Lemma X24_register_allocation_witness :
  let g := with_used_registers (code_generator_create 0)
             (true :: true :: replicate 14 false) in
  let reg := (code_generator_allocate_register g).1 in
  let g' := (code_generator_allocate_register g).2 in
  reg = 2%nat
  ∧ (((reg < REGISTER_RBP)%nat
      ∧ used_registers g !! reg = Some false
      ∧ (∀ j, (j < reg)%nat → used_registers g !! j = Some true)
      ∧ used_registers g' = <[reg := true]> (used_registers g)
      ∧ used_registers g' !! reg = Some true
      ∧ code_generator_free_register g' reg = g)
     ∨ (reg = REGISTER_COUNT
        ∧ g' = g
        ∧ ∀ j, (j < REGISTER_RBP)%nat → used_registers g !! j = Some true)).
Proof.
  intros g reg g'. split; [reflexivity|].
  exact (X24_register_allocation g eq_refl).
Defined.

(* ------------------------------------------------------------------ *)
(** ** Writing *)

(** [g'] is [g] with some text written behind what was written (nothing
    when no file is open); the stack offset may differ. *)
Record only_appends (g g' : CodeGenerator) : Prop := mkOnlyAppends {
  appends_symbol_table : generator_symbol_table g' = generator_symbol_table g;
  appends_had_error : generator_had_error g' = generator_had_error g;
  appends_last_error : generator_last_error g' = generator_last_error g;
  appends_label_counter : label_counter g' = label_counter g;
  appends_used_registers : used_registers g' = used_registers g;
  appends_temp_var_counter : temp_var_counter g' = temp_var_counter g;
  appends_output :
    ∃ text, output_file g' = (λ written, written +:+ text) <$> output_file g
}.

Lemma only_appends_refl (g : CodeGenerator) : only_appends g g.
Proof.
  split; try done. exists EmptyString.
  destruct (output_file g); [|done]. simpl. by rewrite string_app_nil_r.
Qed.

Lemma only_appends_trans (g1 g2 g3 : CodeGenerator) :
  only_appends g1 g2 → only_appends g2 g3 → only_appends g1 g3.
Proof.
  intros [? ? ? ? ? ? [t1 H1]] [? ? ? ? ? ? [t2 H2]].
  split; try congruence. exists (t1 +:+ t2). rewrite H2, H1.
  destruct (output_file g1); [|done]. simpl. by rewrite string_app_assoc.
Qed.

Lemma only_appends_fprintf (g : CodeGenerator) (text : string) :
  only_appends g (fprintf g text).
Proof. split; try done. by exists text. Qed.

Lemma only_appends_stack_offset (g : CodeGenerator) (offset : Z) :
  only_appends g (with_stack_offset g offset).
Proof.
  split; try done. exists EmptyString. simpl.
  destruct (output_file g); [|done]. simpl. by rewrite string_app_nil_r.
Qed.

Ltac appends_step :=
  repeat first
    [ apply only_appends_refl
    | eapply only_appends_trans; [|apply only_appends_fprintf]
    | eapply only_appends_trans; [|apply only_appends_stack_offset] ].

Lemma generate_literal_appends (g : CodeGenerator) (node : ASTNode) :
  only_appends g (code_generator_generate_literal g node).2.
Proof.
  unfold code_generator_generate_literal.
  destruct (output_file g); [|apply only_appends_refl].
  destruct (negb _); [apply only_appends_refl|].
  destruct (bool_decide _); cbn [snd]; appends_step.
Qed.

Lemma generate_expression_node_appends :
  ∀ (node : ASTNode) (g : CodeGenerator) (result : CodeGenResult)
    (g' : CodeGenerator),
    generate_expression_node g node = Some (result, g') → only_appends g g'.
Proof.
  fix IH 1. intros [type token children data line column] g result g'.
  destruct type; try (intros [= <- <-]; apply only_appends_refl).
  - cbn [generate_expression_node]. unfold generate_binary_with.
    destruct (output_file g); [|intros [= <- <-]; apply only_appends_refl].
    destruct data as [|l r op| | | | | |];
      try (intros [= <- <-]; apply only_appends_refl).
    destruct (match l with
              | Some l0 => generate_expression_node g l0
              | None => Some (CODEGEN_ERROR_NULL_ANALYZER, g)
              end) as [[r1 g1]|] eqn:E1; [|done].
    assert (only_appends g g1) as H1.
    { destruct l as [l0|]; [exact (IH l0 _ _ _ E1)|].
      injection E1 as <- <-. apply only_appends_refl. }
    cbn [mbind option_bind].
    destruct (negb (bool_decide (r1 = CODEGEN_SUCCESS)));
      [by intros [= <- <-]|].
    destruct (match r with
              | Some r0 => generate_expression_node (fprintf g1 _) r0
              | None => Some (CODEGEN_ERROR_NULL_ANALYZER, fprintf g1 _)
              end) as [[r2 g2]|] eqn:E2; [|done].
    assert (only_appends g g2) as H2.
    { eapply only_appends_trans; [exact H1|].
      eapply only_appends_trans; [apply only_appends_fprintf|].
      destruct r as [r0|]; [exact (IH r0 _ _ _ E2)|].
      injection E2 as <- <-. apply only_appends_refl. }
    cbn [mbind option_bind].
    destruct (negb (bool_decide (r2 = CODEGEN_SUCCESS)));
      [by intros [= <- <-]|].
    cbn [binary_operator]. destruct op as [op|]; [|done].
    cbn [mbind option_bind].
    repeat (destruct (String.eqb op _)); intros [= <- <-];
      (eapply only_appends_trans; [exact H2|]); appends_step.
  - cbn [generate_expression_node]. intros [= E].
    pose proof (generate_literal_appends g
                  (mkNode NODE_LITERAL token children data line column)) as H.
    by rewrite E in H.
Qed.

Lemma generate_variable_declaration_appends (g : CodeGenerator) (node : ASTNode)
    (result : CodeGenResult) (g' : CodeGenerator) :
  code_generator_generate_variable_declaration g node = Some (result, g') →
  only_appends g g'.
Proof.
  unfold code_generator_generate_variable_declaration.
  destruct (output_file g); [|intros [= <- <-]; apply only_appends_refl].
  destruct (negb _); [intros [= <- <-]; apply only_appends_refl|].
  destruct (declaration_initializer (node_data node)) as [initializer|].
  - destruct (generate_expression_node _ initializer) as [[r1 g1]|] eqn:E1; [|done].
    apply generate_expression_node_appends in E1. cbn [mbind option_bind].
    assert (only_appends g g1) as H1.
    { eapply only_appends_trans; [|exact E1]. appends_step. }
    destruct (negb _); intros [= <- <-]; [done|].
    eapply only_appends_trans; [exact H1|]. appends_step.
  - intros [= <- <-]. appends_step.
Qed.

Lemma generate_children_appends (children : list ASTNode) :
  ∀ g result g',
    generate_children g children = Some (result, g') → only_appends g g'.
Proof.
  induction children as [|child rest IH]; intros g result g'; simpl.
  { intros [= <- <-]. apply only_appends_refl. }
  destruct (match node_type child with
            | NODE_VARIABLE_DECLARATION =>
                code_generator_generate_variable_declaration g child
            | NODE_BINARY_EXPRESSION | NODE_LITERAL | NODE_IDENTIFIER =>
                generate_expression_node g child
            | _ => Some (CODEGEN_ERROR_UNSUPPORTED_NODE, g)
            end) as [[r1 g1]|] eqn:E1; [|done].
  assert (only_appends g g1) as H1.
  { destruct (node_type child);
      try (injection E1 as <- <-; apply only_appends_refl);
      try (by apply generate_expression_node_appends in E1).
    by apply generate_variable_declaration_appends in E1. }
  cbn [mbind option_bind].
  destruct (negb _); [by intros [= <- <-]|].
  intros E2. apply IH in E2. by eapply only_appends_trans.
Qed.

Lemma emit_prologue_appends (g : CodeGenerator) :
  only_appends g (code_generator_emit_prologue g).2.
Proof.
  unfold code_generator_emit_prologue.
  destruct (output_file g); cbn [snd]; appends_step.
Qed.

Lemma emit_epilogue_appends (g : CodeGenerator) :
  only_appends g (code_generator_emit_epilogue g).2.
Proof.
  unfold code_generator_emit_epilogue.
  destruct (output_file g); cbn [snd]; appends_step.
Qed.

Lemma generate_program_appends (g : CodeGenerator) (node : ASTNode)
    (result : CodeGenResult) (g' : CodeGenerator) :
  code_generator_generate_program g node = Some (result, g') →
  only_appends g g'.
Proof.
  unfold code_generator_generate_program.
  destruct (output_file g) eqn:Hout; [|intros [= <- <-]; apply only_appends_refl].
  pose proof (emit_prologue_appends g) as Hpro.
  destruct (code_generator_emit_prologue g) as [r0 g0]. cbn [snd] in Hpro.
  destruct (negb _); [by intros [= <- <-]|].
  destruct (if bool_decide (node_type node = NODE_PROGRAM)
            then generate_children g0 (node_children node)
            else generate_expression_node g0 node) as [[r1 g1]|] eqn:E1; [|done].
  assert (only_appends g0 g1) as H1.
  { destruct (bool_decide _).
    - by eapply generate_children_appends.
    - by eapply generate_expression_node_appends. }
  cbn [mbind option_bind].
  destruct (negb _); [intros [= <- <-]; by eapply only_appends_trans|].
  pose proof (emit_epilogue_appends g1) as Hepi.
  destruct (code_generator_emit_epilogue g1) as [r2 g2]. cbn [snd] in Hepi.
  intros [= <- <-]. eapply only_appends_trans; [exact Hpro|].
  by eapply only_appends_trans.
Qed.

(** The operations that write code, with their arguments, and what they
    return. *)
Inductive WritingOp :=
| WEmitPrologue
| WEmitEpilogue
| WEmitComment (comment : option string)
| WEmitLabel (label : option string)
| WEmitInstruction (instruction operands : option string)
| WGenerateLiteral (node : ASTNode)
| WGenerateBinary (node : ASTNode)
| WGenerateExpression (node : option ASTNode)
| WGenerateVariableDeclaration (node : ASTNode)
| WGenerateProgram (node : ASTNode)
| WPushStack (size : Z)
| WPopStack (size : Z).

Definition run_writing_op (g : CodeGenerator) (op : WritingOp)
    : option (CodeGenResult * CodeGenerator) :=
  match op with
  | WEmitPrologue => Some (code_generator_emit_prologue g)
  | WEmitEpilogue => Some (code_generator_emit_epilogue g)
  | WEmitComment comment => Some (code_generator_emit_comment g comment)
  | WEmitLabel label => Some (code_generator_emit_label g label)
  | WEmitInstruction instruction operands =>
      Some (code_generator_emit_instruction g instruction operands)
  | WGenerateLiteral node => Some (code_generator_generate_literal g node)
  | WGenerateBinary node => code_generator_generate_binary g node
  | WGenerateExpression node => code_generator_generate_expression g node
  | WGenerateVariableDeclaration node =>
      code_generator_generate_variable_declaration g node
  | WGenerateProgram node => code_generator_generate_program g node
  | WPushStack size => Some (code_generator_push_stack g size)
  | WPopStack size => Some (code_generator_pop_stack g size)
  end.

Lemma run_writing_op_appends (g : CodeGenerator) (op : WritingOp)
    (result : CodeGenResult) (g' : CodeGenerator) :
  run_writing_op g op = Some (result, g') → only_appends g g'.
Proof.
  destruct op; cbn [run_writing_op].
  - intros [= E]. pose proof (emit_prologue_appends g) as H. by rewrite E in H.
  - intros [= E]. pose proof (emit_epilogue_appends g) as H. by rewrite E in H.
  - unfold code_generator_emit_comment.
    destruct (output_file g), comment; intros [= <- <-]; appends_step.
  - unfold code_generator_emit_label.
    destruct (output_file g), label; intros [= <- <-]; appends_step.
  - unfold code_generator_emit_instruction.
    destruct (output_file g), instruction, operands; intros [= <- <-]; appends_step.
  - intros [= E]. pose proof (generate_literal_appends g node) as H. by rewrite E in H.
  - destruct node as [type token children data line column].
    destruct type;
      try (unfold code_generator_generate_binary, generate_binary_with;
           destruct (output_file g); intros [= <- <-]; apply only_appends_refl).
    apply (generate_expression_node_appends
             (mkNode NODE_BINARY_EXPRESSION token children data line column)).
  - destruct node as [node|]; [|intros [= <- <-]; apply only_appends_refl].
    apply generate_expression_node_appends.
  - apply generate_variable_declaration_appends.
  - apply generate_program_appends.
  - unfold code_generator_push_stack.
    destruct (output_file g); intros [= <- <-]; appends_step.
  - unfold code_generator_pop_stack.
    destruct (output_file g); intros [= <- <-]; appends_step.
Qed.

Lemma run_writing_op_no_file (g : CodeGenerator) (op : WritingOp) :
  output_file g = None →
  ∃ result, run_writing_op g op = Some (result, g) ∧ result ≠ CODEGEN_SUCCESS.
Proof.
  intros Hout. destruct op; cbn [run_writing_op];
    unfold code_generator_emit_prologue, code_generator_emit_epilogue,
      code_generator_emit_comment, code_generator_emit_label,
      code_generator_emit_instruction, code_generator_generate_literal,
      code_generator_generate_binary, generate_binary_with,
      code_generator_generate_variable_declaration,
      code_generator_generate_program, code_generator_push_stack,
      code_generator_pop_stack; rewrite ?Hout; try (by eexists).
  destruct node as [[type token children data line column]|]; [|by eexists].
  destruct type; cbn [code_generator_generate_expression generate_expression_node];
    unfold generate_binary_with, code_generator_generate_literal; rewrite ?Hout;
    by eexists.
Qed.

(** X25.  Writing only appends.  Every operation that writes code (the
    emitters, the generators of literals, expressions, declarations and
    programs, and the stack operations) leaves the symbol table, the error
    flag, the error message, the label counter, the register flags and the
    temporary counter as they are, whether it succeeds or fails; a failed
    generation does not raise the error flag.  With a file open, the text
    written before is kept and text is written behind it; with no file
    open, the operation fails and changes nothing at all. *)
Theorem X25_writing_only_appends (g : CodeGenerator) (op : WritingOp)
    (result : CodeGenResult) (g' : CodeGenerator) :
  run_writing_op g op = Some (result, g') →
  generator_symbol_table g' = generator_symbol_table g
  ∧ generator_had_error g' = generator_had_error g
  ∧ generator_last_error g' = generator_last_error g
  ∧ label_counter g' = label_counter g
  ∧ used_registers g' = used_registers g
  ∧ temp_var_counter g' = temp_var_counter g
  ∧ match output_file g with
    | Some written => ∃ text, output_file g' = Some (written +:+ text)
    | None => g' = g ∧ result ≠ CODEGEN_SUCCESS
    end.
Proof.
  intros Hrun. destruct (run_writing_op_appends g op result g' Hrun)
    as [? ? ? ? ? ? [text Htext]].
  split_and!; try done.
  destruct (output_file g) as [written|] eqn:Hout; [by exists text|].
  destruct (run_writing_op_no_file g op Hout) as (r & E & Hr).
  rewrite Hrun in E. by injection E as <- <-.
Qed.

Lemma X25_writing_only_appends_witness :
  let g := with_output (code_generator_create 0) (Some "_main:") in
  let g' := (code_generator_push_stack g 16).2 in
  run_writing_op g (WPushStack 16) = Some (CODEGEN_SUCCESS, g')
  ∧ output_file g' = Some ("_main:" +:+ ln "    sub     rsp, 16")
  ∧ generator_symbol_table g' = generator_symbol_table g
  ∧ generator_had_error g' = generator_had_error g
  ∧ generator_last_error g' = generator_last_error g
  ∧ label_counter g' = label_counter g
  ∧ used_registers g' = used_registers g
  ∧ temp_var_counter g' = temp_var_counter g
  ∧ match output_file g with
    | Some written => ∃ text, output_file g' = Some (written +:+ text)
    | None => g' = g ∧ CODEGEN_SUCCESS ≠ CODEGEN_SUCCESS
    end.
Proof.
  split; [vm_compute; reflexivity|]. split; [vm_compute; reflexivity|].
  apply (X25_writing_only_appends
           (with_output (code_generator_create 0) (Some "_main:"))
           (WPushStack 16) CODEGEN_SUCCESS).
  vm_compute; reflexivity.
Defined.

(* ------------------------------------------------------------------ *)
(** ** The expressions the generator supports *)

(** The expressions for which code is generated: integer literals, and
    [+], [-] and [*] over two such expressions. *)
Fixpoint supported_expression (node : ASTNode) : bool :=
  match node with
  | mkNode NODE_LITERAL token _ _ _ _ =>
      bool_decide (token_type <$> token = Some TOKEN_INTEGER_LITERAL)
  | mkNode NODE_BINARY_EXPRESSION _ _ (DataBinary (Some l) (Some r) (Some op)) _ _ =>
      supported_expression l && supported_expression r
      && (String.eqb op "+" || String.eqb op "-" || String.eqb op "*")
  | _ => false
  end.

(** The instructions of an operator, on [rbx] (left operand) and [rax]
    (right operand). *)
Definition operator_code (op : string) : string :=
  if String.eqb op "+" then ln "    add     rax, rbx"
  else if String.eqb op "-" then ln "    sub     rbx, rax" +:+ ln "    mov     rax, rbx"
  else ln "    imul    rax, rbx".

(** The code of a supported expression: the left operand, a push, the
    right operand, a pop and the instructions of the operator. *)
Fixpoint expression_code (node : ASTNode) : string :=
  match node with
  | mkNode NODE_LITERAL _ _ data _ _ =>
      ln ("    mov     rax, " +:+ string_of_Z (literal_data_int_value data))
  | mkNode NODE_BINARY_EXPRESSION _ _ (DataBinary (Some l) (Some r) (Some op)) _ _ =>
      expression_code l +:+ ln "    push    rax"
      +:+ expression_code r +:+ ln "    pop     rbx" +:+ operator_code op
  | _ => EmptyString
  end.

Lemma fprintf_fprintf (g : CodeGenerator) (a b : string) :
  fprintf (fprintf g a) b = fprintf g (a +:+ b).
Proof.
  unfold fprintf, with_output. simpl. f_equal.
  destruct (output_file g); [|done]. simpl. by rewrite string_app_assoc.
Qed.

Lemma fprintf_is_Some (g : CodeGenerator) (text : string) :
  is_Some (output_file g) → is_Some (output_file (fprintf g text)).
Proof. intros [w Hw]. unfold fprintf. simpl. rewrite Hw. by eexists. Qed.

Lemma generate_supported_expression :
  ∀ (node : ASTNode) (g : CodeGenerator),
    is_Some (output_file g) → supported_expression node = true →
    generate_expression_node g node
    = Some (CODEGEN_SUCCESS, fprintf g (expression_code node)).
Proof.
  fix IH 1. intros [type token children data line column] g Hout.
  destruct type; try done.
  - (* NODE_BINARY_EXPRESSION *)
    destruct data as [|[l|] [r|] [op|]| | | | | |]; try done.
    cbn [supported_expression]. intros Hs.
    apply andb_prop in Hs as [Hs Hop]. apply andb_prop in Hs as [Hl Hr].
    cbn [generate_expression_node]. unfold generate_binary_with.
    destruct Hout as [w Hw]. rewrite Hw.
    rewrite (IH l g (ex_intro _ w Hw) Hl). cbn [mbind option_bind].
    rewrite bool_decide_eq_true_2 by done. cbn [negb].
    rewrite (IH r _ (fprintf_is_Some _ _ (fprintf_is_Some _ _ (ex_intro _ w Hw))) Hr).
    cbn [mbind option_bind].
    rewrite bool_decide_eq_true_2 by done. cbn [negb binary_operator].
    cbn [expression_code mbind option_bind]. unfold operator_code.
    rewrite !fprintf_fprintf, ?string_app_assoc.
    destruct (String.eqb op "+"); [done|].
    destruct (String.eqb op "-"); [done|].
    by destruct (String.eqb op "*").
  - (* NODE_LITERAL *)
    cbn [supported_expression generate_expression_node expression_code].
    intros Hs. unfold code_generator_generate_literal.
    destruct Hout as [w ->]. cbn [node_type node_token node_data].
    rewrite (bool_decide_eq_true_2 (NODE_LITERAL = NODE_LITERAL)) by done.
    by rewrite Hs.
Qed.

Lemma generated_expression_is_supported :
  ∀ (node : ASTNode) (g g' : CodeGenerator),
    generate_expression_node g node = Some (CODEGEN_SUCCESS, g') →
    supported_expression node = true.
Proof.
  fix IH 1. intros [type token children data line column] g g'.
  destruct type; try done.
  - cbn [generate_expression_node]. unfold generate_binary_with.
    destruct (output_file g); [|done].
    destruct data as [|[l|] [r|] op| | | | | |]; try done.
    + destruct (generate_expression_node g l) as [[r1 g1]|] eqn:E1; [|done].
      cbn [mbind option_bind].
      destruct (decide (r1 = CODEGEN_SUCCESS)) as [->|Hne];
        [|rewrite bool_decide_eq_false_2 by done; cbn [negb]; congruence].
      rewrite bool_decide_eq_true_2 by done. cbn [negb].
      destruct (generate_expression_node _ r) as [[r2 g2]|] eqn:E2; [|done].
      cbn [mbind option_bind].
      destruct (decide (r2 = CODEGEN_SUCCESS)) as [->|Hne];
        [|rewrite bool_decide_eq_false_2 by done; cbn [negb]; congruence].
      rewrite bool_decide_eq_true_2 by done. cbn [negb binary_operator].
      destruct op as [op|]; [|done]. cbn [mbind option_bind supported_expression].
      rewrite (IH _ _ _ E1), (IH _ _ _ E2).
      by repeat destruct (String.eqb op _).
    + destruct (generate_expression_node g l) as [[r1 g1]|] eqn:E1; [|done].
      cbn [mbind option_bind].
      destruct (decide (r1 = CODEGEN_SUCCESS)) as [->|Hne];
        [|rewrite bool_decide_eq_false_2 by done; cbn [negb]; congruence].
      by rewrite bool_decide_eq_true_2 by done.
  - cbn [generate_expression_node supported_expression].
    unfold code_generator_generate_literal.
    destruct (output_file g); [|done]. cbn [node_type node_token].
    rewrite (bool_decide_eq_true_2 (NODE_LITERAL = NODE_LITERAL)) by done.
    cbn [negb]. by destruct (bool_decide _).
Qed.




(* ------------------------------------------------------------------ *)
(** ** The generated file *)

Lemma emit_prologue_opened (g : CodeGenerator) :
  is_Some (output_file g) →
  code_generator_emit_prologue g = (CODEGEN_SUCCESS, fprintf g prologue_text).
Proof.
  intros [w Hw]. unfold code_generator_emit_prologue, prologue_text.
  rewrite Hw. by rewrite !fprintf_fprintf, ?string_app_assoc.
Qed.

Lemma emit_epilogue_opened (g : CodeGenerator) :
  is_Some (output_file g) →
  code_generator_emit_epilogue g = (CODEGEN_SUCCESS, fprintf g epilogue_text).
Proof.
  intros [w Hw]. unfold code_generator_emit_epilogue, epilogue_text.
  rewrite Hw. by rewrite !fprintf_fprintf, ?string_app_assoc.
Qed.

(** The lines the generators of expressions and declarations write. *)
Inductive body_line : string → Prop :=
| line_mov_value (value : Z) :
    body_line ("    mov     rax, " +:+ string_of_Z value)
| line_push : body_line "    push    rax"
| line_pop : body_line "    pop     rbx"
| line_add : body_line "    add     rax, rbx"
| line_sub : body_line "    sub     rbx, rax"
| line_mov_rbx : body_line "    mov     rax, rbx"
| line_imul : body_line "    imul    rax, rbx"
| line_sub_rsp : body_line "    sub     rsp, 8"
| line_store (offset : Z) :
    body_line ("    mov     [rbp-" +:+ string_of_Z offset +:+ "], rax").

(** The text of lines, each with its newline. *)
Fixpoint lines_text (lines : list string) : string :=
  match lines with
  | [] => EmptyString
  | line :: rest => ln line +:+ lines_text rest
  end.

Definition prologue_lines : list string :=
  ["    .section .data"; "    .section .text"; "    .global _main"; "_main:";
   "    push    rbp"; "    mov     rbp, rsp"].

Definition epilogue_lines : list string :=
  ["    mov     rsp, rbp"; "    pop     rbp"; "    ret"].

(** A text that holds no newline: one line. *)
Definition single_line (line : string) : Prop :=
  string_forall (λ c, negb (Ascii.eqb c LF)) line = true.

Lemma lines_text_app (a b : list string) :
  lines_text (a ++ b) = lines_text a +:+ lines_text b.
Proof.
  induction a as [|line a IH]; [done|]. simpl.
  by rewrite IH, string_app_assoc.
Qed.

Lemma string_forall_app (p : ascii → bool) (a b : string) :
  string_forall p (a +:+ b) = string_forall p a && string_forall p b.
Proof.
  induction a as [|c a IH]; [done|]. rewrite string_app_cons. simpl.
  by rewrite IH, andb_assoc.
Qed.

Lemma string_of_uint_digits (d : Decimal.uint) :
  string_forall isdigit (NilEmpty.string_of_uint d) = true.
Proof. induction d; simpl; by rewrite ?IHd. Qed.

Lemma string_of_Z_single_line (z : Z) : single_line (string_of_Z z).
Proof.
  assert (∀ s, string_forall isdigit s = true →
               string_forall (λ c, negb (Ascii.eqb c LF)) s = true) as Hdigits.
  { induction s as [|c s IH]; [done|]. simpl. intros H.
    apply andb_true_iff in H as [Hc Hs]. rewrite (IH Hs), andb_true_r.
    clear -Hc. by destruct c as [[] [] [] [] [] [] [] []]. }
  unfold single_line, string_of_Z, NilZero.string_of_int.
  destruct (Z.to_int z) as [d|d]; [|simpl];
    unfold NilZero.string_of_uint; destruct d; try done;
    apply Hdigits; apply (string_of_uint_digits (_ _)).
Qed.

(** A line of the body is one line, and it is not the line of [ret]. *)
Lemma body_line_single (line : string) :
  body_line line → single_line line ∧ line ≠ "    ret".
Proof.
  destruct 1; (split; [|by intros H; cbv -[string_of_Z] in H]);
    try done; unfold single_line; rewrite !string_forall_app;
    by rewrite (string_of_Z_single_line _).
Qed.

(** The output [out'] is the output [out] with lines of the body behind
    it. *)
Definition writes_lines (out out' : option string) : Prop :=
  ∃ lines,
    Forall body_line lines
    ∧ out' = (λ written, written +:+ lines_text lines) <$> out.

Lemma writes_lines_refl (out : option string) : writes_lines out out.
Proof.
  exists []. split; [done|]. destruct out; [|done]. simpl.
  by rewrite string_app_nil_r.
Qed.

Lemma writes_lines_trans (out1 out2 out3 : option string) :
  writes_lines out1 out2 → writes_lines out2 out3 → writes_lines out1 out3.
Proof.
  intros (a & Ha & ->) (b & Hb & ->). exists (a ++ b).
  split; [by apply Forall_app|]. destruct out1; [|done]. simpl.
  by rewrite lines_text_app, string_app_assoc.
Qed.

Lemma writes_lines_fprintf (g : CodeGenerator) (line : string) :
  body_line line →
  writes_lines (output_file g) (output_file (fprintf g (ln line))).
Proof.
  intros Hline. exists [line]. split; [by repeat constructor|].
  simpl. by rewrite string_app_nil_r.
Qed.

Ltac lines_step :=
  repeat first
    [ apply writes_lines_refl
    | eapply writes_lines_trans;
        [|apply writes_lines_fprintf; by constructor] ].

Lemma generate_literal_lines (g : CodeGenerator) (node : ASTNode) :
  writes_lines (output_file g)
    (output_file (code_generator_generate_literal g node).2).
Proof.
  unfold code_generator_generate_literal.
  destruct (output_file g) eqn:Hout;
    [|cbn [snd]; rewrite Hout; apply writes_lines_refl].
  destruct (negb _); [cbn [snd]; rewrite Hout; apply writes_lines_refl|].
  destruct (bool_decide _); cbn [snd]; [|rewrite Hout; apply writes_lines_refl].
  rewrite <- Hout. apply writes_lines_fprintf. constructor.
Qed.

Lemma generate_expression_node_lines :
  ∀ (node : ASTNode) (g : CodeGenerator) (result : CodeGenResult)
    (g' : CodeGenerator),
    generate_expression_node g node = Some (result, g') →
    writes_lines (output_file g) (output_file g').
Proof.
  fix IH 1. intros [type token children data line column] g result g'.
  destruct type; try (intros [= <- <-]; apply writes_lines_refl).
  - cbn [generate_expression_node]. unfold generate_binary_with.
    destruct (output_file g) eqn:Hout;
      [|intros [= <- <-]; rewrite Hout; apply writes_lines_refl].
    rewrite <- Hout. clear Hout.
    destruct data as [|l r op| | | | | |];
      try (intros [= <- <-]; apply writes_lines_refl).
    destruct (match l with
              | Some l0 => generate_expression_node g l0
              | None => Some (CODEGEN_ERROR_NULL_ANALYZER, g)
              end) as [[r1 g1]|] eqn:E1; [|done].
    assert (writes_lines (output_file g) (output_file g1)) as H1.
    { destruct l as [l0|]; [exact (IH l0 _ _ _ E1)|].
      injection E1 as <- <-. apply writes_lines_refl. }
    cbn [mbind option_bind].
    destruct (negb (bool_decide (r1 = CODEGEN_SUCCESS)));
      [by intros [= <- <-]|].
    destruct (match r with
              | Some r0 => generate_expression_node (fprintf g1 _) r0
              | None => Some (CODEGEN_ERROR_NULL_ANALYZER, fprintf g1 _)
              end) as [[r2 g2]|] eqn:E2; [|done].
    assert (writes_lines (output_file g) (output_file g2)) as H2.
    { eapply writes_lines_trans; [exact H1|].
      eapply writes_lines_trans;
        [apply (writes_lines_fprintf g1 "    push    rax"), line_push|].
      destruct r as [r0|]; [exact (IH r0 _ _ _ E2)|].
      injection E2 as <- <-. apply writes_lines_refl. }
    cbn [mbind option_bind].
    destruct (negb (bool_decide (r2 = CODEGEN_SUCCESS)));
      [by intros [= <- <-]|].
    cbn [binary_operator]. destruct op as [op|]; [|done].
    cbn [mbind option_bind].
    repeat (destruct (String.eqb op _)); intros [= <- <-];
      (eapply writes_lines_trans; [exact H2|]); lines_step.
  - cbn [generate_expression_node]. intros [= E].
    pose proof (generate_literal_lines g
                  (mkNode NODE_LITERAL token children data line column)) as H.
    by rewrite E in H.
Qed.

Lemma generate_variable_declaration_lines (g : CodeGenerator) (node : ASTNode)
    (result : CodeGenResult) (g' : CodeGenerator) :
  code_generator_generate_variable_declaration g node = Some (result, g') →
  writes_lines (output_file g) (output_file g').
Proof.
  unfold code_generator_generate_variable_declaration.
  destruct (output_file g) eqn:Hout;
    [|intros [= <- <-]; rewrite Hout; apply writes_lines_refl].
  rewrite <- Hout. clear Hout.
  destruct (negb _); [intros [= <- <-]; apply writes_lines_refl|].
  set (g0 := with_stack_offset g (int_wrap (stack_offset g + 8))).
  change (output_file g) with (output_file g0).
  destruct (declaration_initializer (node_data node)) as [initializer|].
  - destruct (generate_expression_node _ initializer) as [[r1 g1]|] eqn:E1; [|done].
    apply generate_expression_node_lines in E1. cbn [mbind option_bind].
    assert (writes_lines (output_file g0) (output_file g1)) as H1.
    { eapply writes_lines_trans; [|exact E1].
      apply writes_lines_fprintf. constructor. }
    destruct (negb _); intros [= <- <-]; [done|].
    eapply writes_lines_trans; [exact H1|]. lines_step.
  - intros [= <- <-]. apply writes_lines_fprintf. constructor.
Qed.

Lemma generate_children_lines (children : list ASTNode) :
  ∀ g result g',
    generate_children g children = Some (result, g') →
    writes_lines (output_file g) (output_file g').
Proof.
  induction children as [|child rest IH]; intros g result g'; simpl.
  { intros [= <- <-]. apply writes_lines_refl. }
  destruct (match node_type child with
            | NODE_VARIABLE_DECLARATION =>
                code_generator_generate_variable_declaration g child
            | NODE_BINARY_EXPRESSION | NODE_LITERAL | NODE_IDENTIFIER =>
                generate_expression_node g child
            | _ => Some (CODEGEN_ERROR_UNSUPPORTED_NODE, g)
            end) as [[r1 g1]|] eqn:E1; [|done].
  assert (writes_lines (output_file g) (output_file g1)) as H1.
  { destruct (node_type child);
      try (injection E1 as <- <-; apply writes_lines_refl);
      try (by apply generate_expression_node_lines in E1).
    by apply generate_variable_declaration_lines in E1. }
  cbn [mbind option_bind].
  destruct (negb _); [by intros [= <- <-]|].
  intros E2. apply IH in E2. by eapply writes_lines_trans.
Qed.

Lemma prologue_lines_text : lines_text prologue_lines = prologue_text.
Proof. vm_compute; reflexivity. Qed.

Lemma epilogue_lines_text : lines_text epilogue_lines = epilogue_text.
Proof. vm_compute; reflexivity. Qed.

(** X27.  The file [code_generator_generate] writes.  When the file opens,
    what the generator had written before is dropped and the new file
    holds the six lines of the prologue, then lines of the body (the
    [mov], [push], [pop], [add], [sub], [imul] and [sub rsp] lines of
    expressions and declarations), then the three lines of the epilogue
    exactly when the generation succeeds.  Every line in front of the
    epilogue is one line and none of them is the line of [ret], so a
    failed generation leaves a file without [ret]; it does not raise the
    error flag.  When the file does not open, the result is
    [CODEGEN_ERROR_INVALID_EXPRESSION], no file is open afterwards, the
    error flag is raised and the message names the file (255 characters of
    it are kept). *)
Theorem X27_generated_file (g : CodeGenerator) (ast : ASTNode)
    (filename : string) (opened : bool) (result : CodeGenResult)
    (g' : CodeGenerator) :
  code_generator_generate g (Some ast) (Some filename) opened
  = Some (result, g') →
  if opened then
    (∃ lines,
       output_file g'
       = Some (lines_text
                 (prologue_lines ++ lines
                  ++ (if bool_decide (result = CODEGEN_SUCCESS)
                      then epilogue_lines else [])))
       ∧ Forall body_line lines
       ∧ Forall (λ line, single_line line ∧ line ≠ "    ret")
           (prologue_lines ++ lines))
    ∧ lines_text prologue_lines = prologue_text
    ∧ lines_text epilogue_lines = epilogue_text
    ∧ generator_had_error g' = generator_had_error g
    ∧ generator_last_error g' = generator_last_error g
  else
    result = CODEGEN_ERROR_INVALID_EXPRESSION
    ∧ output_file g' = None
    ∧ generator_had_error g' = true
    ∧ generator_last_error g'
      = String.substring 0 255 ("Failed to open output file: " +:+ filename).
Proof.
  unfold code_generator_generate, code_generator_set_output.
  destruct opened; [|by intros [= <- <-]].
  rewrite bool_decide_eq_true_2 by done. cbn [negb].
  set (g0 := with_output g (Some EmptyString)).
  unfold code_generator_generate_program.
  change (output_file g0) with (Some EmptyString).
  rewrite (emit_prologue_opened g0) by (by eexists).
  rewrite bool_decide_eq_true_2 by done. cbn [negb].
  destruct (if bool_decide (node_type ast = NODE_PROGRAM)
            then generate_children (fprintf g0 prologue_text) (node_children ast)
            else generate_expression_node (fprintf g0 prologue_text) ast)
    as [[r1 g1]|] eqn:E1; [|done].
  assert (only_appends (fprintf g0 prologue_text) g1) as [? Hflag Hlast ? ? ? _].
  { destruct (bool_decide _).
    - by eapply generate_children_appends.
    - by eapply generate_expression_node_appends. }
  assert (writes_lines (output_file (fprintf g0 prologue_text)) (output_file g1))
    as (lines & Hlines & Hbody).
  { destruct (bool_decide _).
    - by eapply generate_children_lines.
    - by eapply generate_expression_node_lines. }
  change (output_file (fprintf g0 prologue_text)) with (Some prologue_text) in Hbody.
  cbn [fmap option_fmap option_map] in Hbody.
  assert (Forall (λ line, single_line line ∧ line ≠ "    ret")
            (prologue_lines ++ lines)) as Hsingle.
  { apply Forall_app. split; [by repeat constructor|].
    eapply Forall_impl; [exact Hlines|]. apply body_line_single. }
  cbn [mbind option_bind].
  destruct (decide (r1 = CODEGEN_SUCCESS)) as [->|Hne].
  - rewrite bool_decide_eq_true_2 by done. cbn [negb].
    rewrite emit_epilogue_opened by (by rewrite Hbody; eexists).
    intros [= <- <-]. rewrite bool_decide_eq_true_2 by done.
    split; [|by split_and!].
    exists lines. split; [|done].
    rewrite (fprintf_output g1 (prologue_text +:+ lines_text lines)) by done.
    by rewrite !lines_text_app, prologue_lines_text, epilogue_lines_text,
      string_app_assoc.
  - rewrite bool_decide_eq_false_2 by done. cbn [negb].
    intros [= <- <-]. rewrite bool_decide_eq_false_2 by done.
    split; [|by split_and!]. exists lines. split; [|done].
    by rewrite app_nil_r, lines_text_app, prologue_lines_text.
Qed.

Lemma X27_generated_file_witness :
  let g := fprintf (with_output (code_generator_create 0) (Some EmptyString))
             "old text" in
  let seven := operand_node (int_token "7" 1) in
  let name := operand_node (identifier_token "x" 5) in
  let ast := binary_node (operator_token TOKEN_PLUS "+" 3) seven name in
  let g' := with_output g
              (Some (prologue_text +:+ ln "    mov     rax, 7"
                     +:+ ln "    push    rax")) in
  code_generator_generate g (Some ast) (Some "out.asm") true
  = Some (CODEGEN_ERROR_UNSUPPORTED_NODE, g')
  ∧ (∃ lines,
       output_file g'
       = Some (lines_text
                 (prologue_lines ++ lines
                  ++ (if bool_decide
                           (CODEGEN_ERROR_UNSUPPORTED_NODE = CODEGEN_SUCCESS)
                      then epilogue_lines else [])))
       ∧ Forall body_line lines
       ∧ Forall (λ line, single_line line ∧ line ≠ "    ret")
           (prologue_lines ++ lines))
  ∧ lines_text prologue_lines = prologue_text
  ∧ lines_text epilogue_lines = epilogue_text
  ∧ generator_had_error g' = generator_had_error g
  ∧ generator_last_error g' = generator_last_error g.
Proof.
  split; [vm_compute; reflexivity|].
  apply (X27_generated_file
           (fprintf (with_output (code_generator_create 0) (Some EmptyString))
              "old text")
           (binary_node (operator_token TOKEN_PLUS "+" 3)
              (operand_node (int_token "7" 1))
              (operand_node (identifier_token "x" 5)))
           "out.asm" true CODEGEN_ERROR_UNSUPPORTED_NODE).
  vm_compute; reflexivity.
Defined.

(* ------------------------------------------------------------------ *)
(** ** Declarations *)








End CodegenCoverage.

(* ================================================================== *)
(** * From a source text to its code *)
(* ================================================================== *)

Section PipelineCoverage.

Lemma parsed_expression_generates (node : ASTNode) :
  parsed_expression node →
  node_type node ≠ NODE_PROGRAM
  ∧ ∀ g, is_Some (generate_expression_node g node).
Proof.
  induction 1 as [token node Hnode _ _
                 |node op l r Htype Htoken Hl Hr Hop Hbinary
                    _ [_ IHl] _ [_ IHr]].
  - split; [by destruct (primary_node_type _ _ Hnode) as [-> | ->]|].
    intros g. destruct node as [type ? ? ? ? ?].
    destruct (primary_node_type _ _ Hnode) as [Ht|Ht]; simpl in Ht; subst type;
      by eexists.
  - split; [by rewrite Htype|]. intros g.
    destruct node as [type token children data line column].
    simpl in Htype, Htoken, Hl, Hr, Hop. subst type token.
    destruct data as [|l0 r0 op0| | | | | |]; try done.
    simpl in Hl, Hr, Hop. subst l0 r0 op0.
    cbn [node_type generate_expression_node]. unfold generate_binary_with.
    destruct (output_file g); [|by eexists].
    destruct (IHl g) as [[r1 g1] ->]. cbn [mbind option_bind].
    destruct (negb _); [by eexists|].
    destruct (IHr (fprintf g1 (ln "    push    rax"))) as [[r2 g2] ->].
    cbn [mbind option_bind]. destruct (negb _); [by eexists|].
    cbn [binary_operator mbind option_bind].
    repeat (destruct (String.eqb _ _); [by eexists|]). by eexists.
Qed.

(** A literal that does not fit an [int] reaches the file as the [int] it
    wraps around to. *)
Lemma source_to_code_wraps :
  (parse_source "2147483648 + 1"
   ≫= λ parsed,
       code_generator_generate (code_generator_create 0) (Some parsed.1)
         (Some "out.asm") true
   ≫= λ generated, Some (generated.1, output_file generated.2))
  = Some (CODEGEN_SUCCESS,
          Some (prologue_text
                +:+ ln "    mov     rax, -2147483648" +:+ ln "    push    rax"
                +:+ ln "    mov     rax, 1" +:+ ln "    pop     rbx"
                +:+ ln "    add     rax, rbx" +:+ epilogue_text)).
Proof. vm_compute; reflexivity. Qed.

(** X29.  From a text to its code.  For every source text, parsing it and
    generating code for the result (the file opens) returns a result: the
    trees the parser builds carry their operator, so the generator never
    compares a missing operator.  The result is [CODEGEN_SUCCESS] exactly
    when the tree is made of integer literals and of [+], [-] and [*];
    then no syntax error was flagged and the file holds the prologue, the
    code of the expression and the epilogue. *)
Theorem X29_from_source_to_code (source : string) (g : CodeGenerator)
    (filename : string) :
  ∃ node p' result g',
    parse_source source = Some (node, p')
    ∧ code_generator_generate g (Some node) (Some filename) true
      = Some (result, g')
    ∧ (result = CODEGEN_SUCCESS ↔ supported_expression node = true)
    ∧ (result = CODEGEN_SUCCESS →
       parser_had_error p' = false
       ∧ output_file g'
         = Some (prologue_text +:+ expression_code node +:+ epilogue_text)).
Proof.
  destruct (parse_source_result source) as (node & p' & E & Hflags).
  exists node, p'.
  unfold code_generator_generate, code_generator_set_output.
  rewrite bool_decide_eq_true_2 by done. cbn [negb].
  set (g0 := with_output g (Some EmptyString)).
  unfold code_generator_generate_program.
  change (output_file g0) with (Some EmptyString).
  rewrite (emit_prologue_opened g0) by (by eexists).
  rewrite bool_decide_eq_true_2 by done. cbn [negb].
  set (g1 := fprintf g0 prologue_text).
  assert (is_Some (output_file g1)) as Hout by (by eexists).
  destruct (decide (node_type node = NODE_ERROR)) as [Herr|Hnode].
  { destruct node as [type token children data line column].
    simpl in Herr. subst type.
    rewrite bool_decide_eq_false_2 by done.
    cbn [generate_expression_node mbind option_bind].
    rewrite bool_decide_eq_false_2 by done. cbn [negb].
    eexists _, _. split; [done|]. split; [done|]. by split. }
  destruct (parsed_expression_generates node (parse_source_shape _ _ _ E Hnode))
    as [Hprogram Htotal].
  rewrite bool_decide_eq_false_2 by done.
  destruct (supported_expression node) eqn:Hs.
  - rewrite (generate_supported_expression node g1 Hout Hs).
    cbn [mbind option_bind]. rewrite bool_decide_eq_true_2 by done. cbn [negb].
    rewrite emit_epilogue_opened by (by apply fprintf_is_Some).
    eexists _, _. split; [done|]. split; [done|]. split; [done|]. intros _.
    split; [by apply Hflags|]. simpl. by rewrite ?string_app_assoc.
  - destruct (Htotal g1) as [[r2 g2] E2]. rewrite E2.
    cbn [mbind option_bind].
    destruct (decide (r2 = CODEGEN_SUCCESS)) as [->|Hne].
    { apply generated_expression_is_supported in E2. congruence. }
    rewrite bool_decide_eq_false_2 by done. cbn [negb].
    eexists _, _. split; [done|]. split; [done|]. by split.
Qed.

End PipelineCoverage.

(* ================================================================== *)
(** * The string buffer and its block of memory *)
(* ================================================================== *)

Section BufferCoverage.

(** The buffer as the tokenizer is written with it: a string, and
    appending to it. *)
Local Abbreviation lexer_append_char := string_buffer_append_char (only parsing).

Import InMemory.

(** The block has the size of the capacity, the length and its terminator
    lie inside it, and the terminator is in place. *)
Record buffer_ok (buffer : StringBuffer) : Prop := mkBufferOk {
  ok_block : length (buffer_data buffer) = buffer_capacity buffer;
  ok_length : (buffer_length buffer < buffer_capacity buffer)%nat;
  ok_terminator : buffer_data buffer !! buffer_length buffer = Some NUL
}.

(** The characters appended so far. *)
Definition buffer_contents (buffer : StringBuffer) : string :=
  String.string_of_list_ascii (take (buffer_length buffer) (buffer_data buffer)).

Lemma realloc_length (fresh : nat → ascii) (block : list ascii) (size : nat) :
  length (realloc fresh block size) = size.
Proof.
  unfold realloc. rewrite length_app, length_take, length_fmap, length_seq. lia.
Qed.

Lemma realloc_take (fresh : nat → ascii) (block : list ascii) (size n : nat) :
  (n ≤ length block)%nat → (n ≤ size)%nat →
  take n (realloc fresh block size) = take n block.
Proof.
  intros Hn Hsize. unfold realloc.
  rewrite take_app_le by (rewrite length_take; lia).
  rewrite take_take. f_equal. lia.
Qed.

Lemma store_Some (block : list ascii) (i : nat) (c : ascii) :
  (i < length block)%nat → store block i c = Some (<[i := c]> block).
Proof.
  intros Hi. unfold store.
  by destruct (Nat.ltb_spec i (length block)); [|lia].
Qed.

Lemma string_of_list_ascii_app (a b : list ascii) :
  String.string_of_list_ascii (a ++ b)
  = String.string_of_list_ascii a +:+ String.string_of_list_ascii b.
Proof.
  induction a as [|x a IH]; [done|]. simpl. by rewrite IH.
Qed.

Lemma take_S_insert (block : list ascii) (n : nat) (c : ascii) :
  (n < length block)%nat →
  take (S n) (<[n := c]> block) = take n block ++ [c].
Proof.
  revert n. induction block as [|x block IH]; intros [|n] Hn; simpl in *;
    try lia; [done|]. by rewrite IH by lia.
Qed.

Lemma c_string_terminated (a rest : list ascii) :
  no_NUL (String.string_of_list_ascii a) = true →
  c_string (a ++ NUL :: rest) = String.string_of_list_ascii a.
Proof.
  induction a as [|x a IH]; [done|]. simpl. intros H.
  apply andb_prop in H as [Hx Ha]. apply negb_true_iff in Hx.
  rewrite Hx. by rewrite IH.
Qed.

Lemma buffer_c_string (buffer : StringBuffer) :
  buffer_ok buffer → no_NUL (buffer_contents buffer) = true →
  c_string (buffer_data buffer) = buffer_contents buffer.
Proof.
  intros [Hblock Hlen Hterm] Hnul. unfold buffer_contents in *.
  rewrite <- (take_drop (buffer_length buffer) (buffer_data buffer)) at 1.
  rewrite (drop_S _ NUL (buffer_length buffer)) by done.
  by apply c_string_terminated.
Qed.

Lemma strcpy_spec (str : string) :
  ∀ (block : list ascii) (offset : nat),
    (offset + String.length str < length block)%nat →
    ∃ block',
      strcpy block offset str = Some block'
      ∧ length block' = length block
      ∧ take (offset + String.length str) block'
        = take offset block ++ String.list_ascii_of_string str
      ∧ block' !! (offset + String.length str)%nat = Some NUL.
Proof.
  induction str as [|c str IH]; intros block offset Hlen; simpl in *.
  - rewrite store_Some by lia. eexists. split; [done|].
    rewrite length_insert, Nat.add_0_r, app_nil_r.
    split; [done|]. split.
    + by rewrite take_insert_ge by lia.
    + by rewrite list_lookup_insert_eq by lia.
  - rewrite store_Some by lia. cbn [mbind option_bind].
    destruct (IH (<[offset := c]> block) (S offset)) as (block' & -> & Hl & Ht & Hn).
    { rewrite length_insert. lia. }
    exists block'. rewrite length_insert in Hl.
    replace (offset + S (String.length str))%nat
      with (S offset + String.length str)%nat by lia.
    split; [done|]. split; [done|]. split; [|done].
    rewrite Ht, take_S_insert by lia. by rewrite <- app_assoc.
Qed.

Lemma string_of_list_ascii_of_string (s : string) :
  String.string_of_list_ascii (String.list_ascii_of_string s) = s.
Proof. induction s as [|c s IH]; [done|]. simpl. by rewrite IH. Qed.

(** X30.  The buffer stays inside its block.  A buffer created with a
    capacity of at least one byte is empty and well formed.  On a well
    formed buffer, [string_buffer_append_char] and [string_buffer_append]
    store inside the block only, growing it first when the new length and
    its terminator do not fit; the buffer stays well formed, the capacity
    does not shrink, and the contents are the old contents followed by
    what was appended, whatever the bytes of a fresh block hold.  When no
    NUL was appended, the string at [data] is the contents. *)
Theorem X30_string_buffer_stays_in_bounds (fresh : nat → ascii)
    (buffer : StringBuffer) (c : ascii) (str : string) :
  buffer_ok buffer →
  (∃ buffer',
     string_buffer_append_char fresh buffer c = Some buffer'
     ∧ buffer_ok buffer'
     ∧ (buffer_capacity buffer ≤ buffer_capacity buffer')%nat
     ∧ buffer_contents buffer'
       = lexer_append_char (buffer_contents buffer) c)
  ∧ (∃ buffer',
       string_buffer_append fresh buffer (Some str) = Some buffer'
       ∧ buffer_ok buffer'
       ∧ (buffer_capacity buffer ≤ buffer_capacity buffer')%nat
       ∧ buffer_contents buffer' = buffer_contents buffer +:+ str)
  ∧ (no_NUL (buffer_contents buffer) = true →
     c_string (buffer_data buffer) = buffer_contents buffer)
  ∧ ∀ initial_capacity,
      (1 ≤ initial_capacity)%nat →
      ∃ new,
        string_buffer_create fresh initial_capacity = Some new
        ∧ buffer_ok new
        ∧ buffer_capacity new = initial_capacity
        ∧ buffer_contents new = EmptyString.
Proof.
  intros Hok. pose proof Hok as [Hblock Hlen Hterm].
  destruct buffer as [data len cap]. simpl in *.
  split_and!.
  - unfold string_buffer_append_char. cbn [buffer_capacity buffer_length buffer_data].
    set (grown :=
           if (cap <=? len + 1)%nat
           then mkStringBuffer
                  (realloc fresh data
                     (if (cap * 2 =? 0)%nat then 16%nat else (cap * 2)%nat))
                  len (if (cap * 2 =? 0)%nat then 16%nat else (cap * 2)%nat)
           else mkStringBuffer data len cap).
    assert (length (buffer_data grown) = buffer_capacity grown
            ∧ buffer_length grown = len
            ∧ (len + 1 < buffer_capacity grown)%nat
            ∧ (cap ≤ buffer_capacity grown)%nat
            ∧ take len (buffer_data grown) = take len data) as (Hb & Hl & Hc & Hcap & Ht).
    { unfold grown. destruct (Nat.leb_spec cap (len + 1)); simpl.
      - destruct (Nat.eqb_spec (cap * 2) 0); [lia|].
        rewrite realloc_length. split_and!; try done; try lia.
        apply realloc_take; lia.
      - split_and!; try done; lia. }
    rewrite Hl. rewrite store_Some by lia. cbn [mbind option_bind].
    rewrite store_Some by (rewrite length_insert; lia).
    cbn [mbind option_bind]. eexists. split; [done|]. split_and!.
    + split; simpl; [by rewrite !length_insert|lia|].
      by rewrite list_lookup_insert_eq by (rewrite length_insert; lia).
    + done.
    + unfold buffer_contents, lexer_append_char. simpl.
      rewrite take_insert_ge by lia.
      replace (len + 1)%nat with (S len) by lia.
      rewrite take_S_insert by lia. rewrite Ht.
      by rewrite string_of_list_ascii_app.
  - unfold string_buffer_append. cbn [buffer_capacity buffer_length buffer_data].
    set (n := (len + String.length str)%nat).
    set (grown :=
           if (cap <? n + 1)%nat
           then mkStringBuffer
                  (realloc fresh data
                     (if (cap * 2 <? n + 1)%nat then (n + 1)%nat else (cap * 2)%nat))
                  len (if (cap * 2 <? n + 1)%nat then (n + 1)%nat else (cap * 2)%nat)
           else mkStringBuffer data len cap).
    assert (length (buffer_data grown) = buffer_capacity grown
            ∧ buffer_length grown = len
            ∧ (n < buffer_capacity grown)%nat
            ∧ (cap ≤ buffer_capacity grown)%nat
            ∧ take len (buffer_data grown) = take len data) as (Hb & Hl & Hc & Hcap & Ht).
    { unfold grown. destruct (Nat.ltb_spec cap (n + 1)); simpl.
      - rewrite realloc_length.
        destruct (Nat.ltb_spec (cap * 2) (n + 1)); split_and!; try done; try lia;
          apply realloc_take; lia.
      - split_and!; try done; lia. }
    rewrite Hl.
    destruct (strcpy_spec str (buffer_data grown) len) as (block' & -> & Hl' & Ht' & Hn');
      [fold n; lia|].
    cbn [mbind option_bind]. eexists. split; [done|]. split_and!.
    + split; simpl; [congruence|lia|done].
    + done.
    + unfold buffer_contents. simpl. fold n in Ht'. rewrite Ht', Ht.
      by rewrite string_of_list_ascii_app, string_of_list_ascii_of_string.
  - intros Hnul. by apply (buffer_c_string (mkStringBuffer data len cap)).
  - intros initial_capacity Hcapacity. unfold string_buffer_create.
    rewrite store_Some by (unfold malloc; rewrite length_fmap, length_seq; lia).
    cbn [mbind option_bind]. eexists. split; [done|]. split_and!; try done.
    split; simpl.
    + unfold malloc. by rewrite length_insert, length_fmap, length_seq.
    + lia.
    + apply list_lookup_insert_eq. unfold malloc.
      rewrite length_fmap, length_seq. lia.
Qed.

Lemma X30_string_buffer_stays_in_bounds_witness :
  let fresh := λ _ : nat, "?"%char in
  let buffer := mkStringBuffer ["a"%char; NUL] 1 2 in
  string_buffer_append_char fresh buffer "b"
  = Some (mkStringBuffer ["a"%char; "b"%char; NUL; "?"%char] 2 4)
  ∧ ∃ buffer',
      string_buffer_append fresh buffer (Some "cd") = Some buffer'
      ∧ buffer_ok buffer'
      ∧ (buffer_capacity buffer ≤ buffer_capacity buffer')%nat
      ∧ buffer_contents buffer' = buffer_contents buffer +:+ "cd".
Proof.
  split; [vm_compute; reflexivity|].
  apply (X30_string_buffer_stays_in_bounds (λ _ : nat, "?"%char)
           (mkStringBuffer ["a"%char; NUL] 1 2) "b" "cd").
  split; [reflexivity|simpl; lia|reflexivity].
Defined.

End BufferCoverage.
